(** * Compress / decompress JSON: the classification and transform pipeline

    A shallow embedding of the Angular application's core:
    - [CompressionService] (compressJsonSync, decompressJsonSync,
      processDataAsync, analyzeData, calculateByteSize),
    - the worker endpoint of [compression.worker.ts],
    - [AppComponent.handleAction], [AppComponent.analyzeInput],
      [AppComponent.compressionRatio] and [AppComponent.downloadFile],
    together with the two libraries they call: [LZString] and the
    ECMAScript [JSON] object. *)

From Stdlib Require Import NArith ZArith Bool Ascii String List Lia.
From Stdlib Require DecimalFacts DecimalPos DecimalN.
Import ListNotations.

Local Open Scope N_scope.

(** ** ECMAScript strings

    A string is a sequence of UTF-16 code units. *)
Module JS.

Abbreviation jsstring := (list N) (only parsing).

(** A string literal of the source, read as code units. *)
Definition lit (s : string) : jsstring :=
  map N_of_ascii (list_ascii_of_string s).

(** A literal written with an apostrophe for each double quote. *)
Definition qlit (s : string) : jsstring :=
  map (fun c => if c =? 39 then 34 else c) (lit s).

(** [s.charAt(i)]: the one-unit string at index [i], or the empty string. *)
Definition charAt (s : jsstring) (i : N) : jsstring :=
  match nth_error s (N.to_nat i) with
  | Some c => [c]
  | None => []
  end.

Definition jsstring_eqb (a b : jsstring) : bool :=
  if list_eq_dec N.eq_dec a b then true else false.

(** [Array.prototype.join('')] over elements that may be [undefined]. *)
Definition join (parts : list (option jsstring)) : jsstring :=
  concat (map (fun p => match p with Some s => s | None => [] end) parts).

(** What a call evaluates to: a value, or a thrown [Error] with its
    message. *)
Inductive completion (A : Type) : Type :=
| Normal (a : A)
| Throw (message : jsstring).
Arguments Normal {A} a.
Arguments Throw {A} message.

End JS.
Import JS.

(** ** The lz-string library (version 1.4), base64 entry points *)
Module LZString.

Definition keyStrBase64 : jsstring :=
  lit "ABCDEFGHIJKLMNOPQRSTUVWXYZabcdefghijklmnopqrstuvwxyz0123456789+/=".

(** *** Compression *)

Record context := mkContext {
  context_dictionary : list (jsstring * N);
  context_dictionaryToCreate : list jsstring;
  context_w : jsstring;
  context_enlargeIn : N;
  context_dictSize : N;
  context_numBits : N;
  context_data : list jsstring;
  context_data_val : N;
  context_data_position : N
}.

Definition hasOwn (d : list (jsstring * N)) (k : jsstring) : bool :=
  existsb (fun kv => jsstring_eqb (fst kv) k) d.

Fixpoint dict_get (d : list (jsstring * N)) (k : jsstring) : N :=
  match d with
  | [] => 0
  | (k', v) :: d' => if jsstring_eqb k' k then v else dict_get d' k
  end.

Definition toCreate_has (d : list jsstring) (k : jsstring) : bool :=
  existsb (fun k' => jsstring_eqb k' k) d.

Definition toCreate_delete (d : list jsstring) (k : jsstring) : list jsstring :=
  filter (fun k' => negb (jsstring_eqb k' k)) d.

Section Compress.

Variable bitsPerChar : N.
Variable getCharFromInt : N -> jsstring.

(** One pass of the bit-emitting loop body:
    [val = (val << 1) | bit], then push a character every [bitsPerChar]
    bits. *)
Definition writeBit (bit : N) (c : context) : context :=
  let v := N.lor (N.shiftl (context_data_val c) 1) bit in
  if context_data_position c =? bitsPerChar - 1 then
    mkContext (context_dictionary c) (context_dictionaryToCreate c)
      (context_w c) (context_enlargeIn c) (context_dictSize c)
      (context_numBits c)
      (context_data c ++ [getCharFromInt v]) 0 0
  else
    mkContext (context_dictionary c) (context_dictionaryToCreate c)
      (context_w c) (context_enlargeIn c) (context_dictSize c)
      (context_numBits c)
      (context_data c) v (context_data_position c + 1).

(** [for (i = 0; i < n; i++) { emit (value & 1); value = value >> 1; }] *)
Fixpoint writeBits (n : nat) (value : N) (c : context) : context :=
  match n with
  | O => c
  | S n' => writeBits n' (N.shiftr value 1) (writeBit (N.land value 1) c)
  end.

(** [enlargeIn--; if (enlargeIn == 0) { enlargeIn = 2^numBits; numBits++ }] *)
Definition decEnlargeIn (c : context) : context :=
  let e := N.pred (context_enlargeIn c) in
  if e =? 0 then
    mkContext (context_dictionary c) (context_dictionaryToCreate c)
      (context_w c) (2 ^ context_numBits c) (context_dictSize c)
      (context_numBits c + 1)
      (context_data c) (context_data_val c) (context_data_position c)
  else
    mkContext (context_dictionary c) (context_dictionaryToCreate c)
      (context_w c) e (context_dictSize c) (context_numBits c)
      (context_data c) (context_data_val c) (context_data_position c).

Definition charCodeAt0 (s : jsstring) : N := hd 0 s.

(** Output the code for [w]: a fresh character is written as a literal
    (marker 0 and 8 bits, or marker 1 and 16 bits), a known phrase as its
    dictionary index. *)
Definition produceW (c : context) : context :=
  let w := context_w c in
  let nb := N.to_nat (context_numBits c) in
  let c1 :=
    if toCreate_has (context_dictionaryToCreate c) w then
      let c2 :=
        if charCodeAt0 w <? 256 then
          writeBits 8 (charCodeAt0 w) (writeBits nb 0 c)
        else
          writeBits 16 (charCodeAt0 w) (writeBits nb 1 c) in
      let c3 := decEnlargeIn c2 in
      mkContext (context_dictionary c3)
        (toCreate_delete (context_dictionaryToCreate c3) w)
        (context_w c3) (context_enlargeIn c3) (context_dictSize c3)
        (context_numBits c3)
        (context_data c3) (context_data_val c3) (context_data_position c3)
    else
      writeBits nb (dict_get (context_dictionary c) w) c in
  decEnlargeIn c1.

(** The body of the loop over the characters of the input. *)
Definition compressStep (c : context) (ch : N) : context :=
  let context_c := [ch] in
  let c1 :=
    if hasOwn (context_dictionary c) context_c then c
    else
      mkContext (context_dictionary c ++ [(context_c, context_dictSize c)])
        (context_dictionaryToCreate c ++ [context_c])
        (context_w c) (context_enlargeIn c) (context_dictSize c + 1)
        (context_numBits c)
        (context_data c) (context_data_val c) (context_data_position c) in
  let context_wc := context_w c1 ++ context_c in
  if hasOwn (context_dictionary c1) context_wc then
    mkContext (context_dictionary c1) (context_dictionaryToCreate c1)
      context_wc (context_enlargeIn c1) (context_dictSize c1)
      (context_numBits c1)
      (context_data c1) (context_data_val c1) (context_data_position c1)
  else
    let c2 := produceW c1 in
    mkContext (context_dictionary c2 ++ [(context_wc, context_dictSize c2)])
      (context_dictionaryToCreate c2)
      context_c (context_enlargeIn c2) (context_dictSize c2 + 1)
      (context_numBits c2)
      (context_data c2) (context_data_val c2) (context_data_position c2).

(** Flush the last character: shift in zeros up to the character boundary. *)
Fixpoint flush (fuel : nat) (c : context) : list jsstring :=
  let v := N.shiftl (context_data_val c) 1 in
  if context_data_position c =? bitsPerChar - 1 then
    context_data c ++ [getCharFromInt v]
  else
    match fuel with
    | O => context_data c ++ [getCharFromInt v]
    | S fuel' =>
        flush fuel'
          (mkContext (context_dictionary c) (context_dictionaryToCreate c)
             (context_w c) (context_enlargeIn c) (context_dictSize c)
             (context_numBits c)
             (context_data c) v (context_data_position c + 1))
    end.

Definition initialContext : context :=
  mkContext [] [] [] 2 3 2 [] 0 0.

Definition _compress (uncompressed : jsstring) : jsstring :=
  let c := fold_left compressStep uncompressed initialContext in
  let c1 :=
    match context_w c with
    | [] => c
    | _ :: _ => produceW c
    end in
  (* mark the end of the stream *)
  let c2 := writeBits (N.to_nat (context_numBits c1)) 2 c1 in
  concat (flush (N.to_nat bitsPerChar) c2).

End Compress.

Definition compressToBase64 (input : jsstring) : jsstring :=
  let res := _compress 6 (fun a => charAt keyStrBase64 a) input in
  match N.of_nat (length res) mod 4 with
  | 1 => res ++ lit "==="
  | 2 => res ++ lit "=="
  | 3 => res ++ lit "="
  | _ => res
  end.

(** *** Decompression *)

(** The module-level cache [baseReverseDic]: alphabet -> (character -> index).
    It is filled on the first call of [getBaseValue] for an alphabet. *)
Definition reverseDic := list (jsstring * N).
Definition baseReverseDic := list (jsstring * reverseDic).

Fixpoint cache_get (cache : baseReverseDic) (alphabet : jsstring)
  : option reverseDic :=
  match cache with
  | [] => None
  | (a, d) :: cache' =>
      if jsstring_eqb a alphabet then Some d else cache_get cache' alphabet
  end.

(** [obj[key] = v] on a plain object: overwrite in place or add last. *)
Fixpoint reverseDic_set (d : reverseDic) (key : jsstring) (v : N)
  : reverseDic :=
  match d with
  | [] => [(key, v)]
  | (k, v') :: d' =>
      if jsstring_eqb k key then (k, v) :: d'
      else (k, v') :: reverseDic_set d' key v
  end.

Fixpoint reverseDic_get (d : reverseDic) (key : jsstring) : option N :=
  match d with
  | [] => None
  | (k, v) :: d' =>
      if jsstring_eqb k key then Some v else reverseDic_get d' key
  end.

(** [for (i = 0; i < alphabet.length; i++) dic[alphabet.charAt(i)] = i] *)
Fixpoint buildReverseDic (chars : jsstring) (i : N) (d : reverseDic)
  : reverseDic :=
  match chars with
  | [] => d
  | c :: chars' => buildReverseDic chars' (i + 1) (reverseDic_set d [c] i)
  end.

(** [getBaseValue(alphabet, character)], with the cache passed explicitly:
    the value found (or [undefined]) and the cache afterwards. *)
Definition getBaseValue (cache : baseReverseDic) (alphabet character : jsstring)
  : option N * baseReverseDic :=
  match cache_get cache alphabet with
  | Some d => (reverseDic_get d character, cache)
  | None =>
      let d := buildReverseDic alphabet 0 [] in
      (reverseDic_get d character, cache ++ [(alphabet, d)])
  end.

(** An element of the decoder's [dictionary] array: the numbers stored at
    indices 0..2, a phrase, or a hole. *)
Inductive dictEntry :=
| DNum (n : N)
| DStr (s : jsstring)
| DUndefined.

Definition dictionary_get (d : list dictEntry) (i : N) : dictEntry :=
  nth (N.to_nat i) d DUndefined.

(** [dictionary[i] = e] on an array: overwrite, or extend (with holes). *)
Fixpoint dictionary_set (d : list dictEntry) (i : nat) (e : dictEntry)
  : list dictEntry :=
  match i, d with
  | O, [] => [e]
  | O, _ :: d' => e :: d'
  | S i', [] => DUndefined :: dictionary_set [] i' e
  | S i', x :: d' => x :: dictionary_set d' i' e
  end.

Record dataState := mkData {
  data_val : option N;
  data_position : N;
  data_index : N
}.

Record decoder := mkDecoder {
  dictionary : list dictEntry;
  enlargeIn : N;
  dictSize : N;
  numBits : N;
  w : option jsstring;
  result : list (option jsstring);
  data : dataState
}.

(** [w + s] where [w] may be [undefined]. *)
Definition concat_undefined (w : option jsstring) (s : jsstring) : jsstring :=
  match w with
  | Some x => x ++ s
  | None => lit "undefined" ++ s
  end.

Definition typeError_charAt : jsstring :=
  lit "Cannot read properties of undefined (reading 'charAt')".

Definition typeError_notFunction : jsstring :=
  lit "entry.charAt is not a function".

Section Decompress.

Variable length : N.
Variable resetValue : N.
Variable getNextValue : N -> option N.

(** One pass of the bit-reading loop body: the bit read and the reader
    afterwards. [undefined & position] is 0. *)
Definition readBit (d : dataState) : N * dataState :=
  let resb :=
    N.land (match data_val d with Some v => v | None => 0 end)
           (data_position d) in
  let position := N.shiftr (data_position d) 1 in
  let d' :=
    if position =? 0 then
      mkData (getNextValue (data_index d)) resetValue (data_index d + 1)
    else mkData (data_val d) position (data_index d) in
  ((if 0 <? resb then 1 else 0), d').

(** [bits = 0; power = 1; while (power != 2^n) { ...; power <<= 1 }] *)
Fixpoint readBitsFrom (n : nat) (power bits : N) (d : dataState)
  : N * dataState :=
  match n with
  | O => (bits, d)
  | S n' =>
      let (b, d') := readBit d in
      readBitsFrom n' (N.shiftl power 1) (N.lor bits (b * power)) d'
  end.

Definition readBits (n : nat) (d : dataState) : N * dataState :=
  readBitsFrom n 1 0 d.

(** [if (enlargeIn == 0) { enlargeIn = 2^numBits; numBits++ }] *)
Definition enlarge (enlargeIn numBits : N) : N * N :=
  if enlargeIn =? 0 then (2 ^ numBits, numBits + 1) else (enlargeIn, numBits).

(** The second half of the loop body, once the code [c] of this round is
    known: look the entry up, emit it and add [w + entry.charAt(0)] to the
    dictionary. [inl st] to go round again, [inr r] when the function
    returns or throws. *)
Definition decompressEntry (st : decoder) (dict1 : list dictEntry)
  (dictSize1 c enlargeIn1 : N) (d : dataState)
  : decoder + completion (option jsstring) :=
  let (enlargeIn2, numBits2) := enlarge enlargeIn1 (numBits st) in
  let found :=
    match dictionary_get dict1 c with
    | DStr ((_ :: _) as s) => Normal (Some s)
    | DNum (Npos _) => Throw typeError_notFunction
    | _ =>
        if c =? dictSize1 then
          match w st with
          | Some x => Normal (Some (x ++ charAt x 0))
          | None => Throw typeError_charAt
          end
        else Normal None
    end in
  match found with
  | Throw m => inr (Throw m)
  | Normal None => inr (Normal None)
  | Normal (Some entry) =>
      let dict2 :=
        dictionary_set dict1 (N.to_nat dictSize1)
          (DStr (concat_undefined (w st) (charAt entry 0))) in
      let (enlargeIn3, numBits3) := enlarge (N.pred enlargeIn2) numBits2 in
      inl (mkDecoder dict2 enlargeIn3 (dictSize1 + 1) numBits3
             (Some entry) (result st ++ [Some entry]) d)
  end.

(** A literal of [width] bits: a new one-character entry, which is the code
    of this round. *)
Definition decompressLiteral (st : decoder) (width : nat) (d : dataState)
  : decoder + completion (option jsstring) :=
  let (bits, d') := readBits width d in
  decompressEntry st
    (dictionary_set (dictionary st) (N.to_nat (dictSize st)) (DStr [bits]))
    (dictSize st + 1) (dictSize st) (N.pred (enlargeIn st)) d'.

(** The body of [while (true)]. *)
Definition decompressStep (st : decoder)
  : decoder + completion (option jsstring) :=
  if length <? data_index (data st) then inr (Normal (Some []))
  else
    let (c, d) := readBits (N.to_nat (numBits st)) (data st) in
    match c with
    | 0 => decompressLiteral st 8 d
    | 1 => decompressLiteral st 16 d
    | 2 => inr (Normal (Some (join (result st))))
    | _ => decompressEntry st (dictionary st) (dictSize st) c (enlargeIn st) d
    end.

Fixpoint decompressLoop (fuel : nat) (st : decoder)
  : option (completion (option jsstring)) :=
  match fuel with
  | O => None
  | S fuel' =>
      match decompressStep st with
      | inr r => Some r
      | inl st' => decompressLoop fuel' st'
      end
  end.

(** The prologue of [_decompress]: the first two bits select how the first
    character is read. *)
Definition decompressStart : decoder + completion (option jsstring) :=
  let d0 := mkData (getNextValue 0) resetValue 1 in
  let (next, d1) := readBits 2 d0 in
  let first : (option jsstring * dataState) + completion (option jsstring) :=
    match next with
    | 0 => let (bits, d2) := readBits 8 d1 in inl (Some [bits], d2)
    | 1 => let (bits, d2) := readBits 16 d1 in inl (Some [bits], d2)
    | 2 => inr (Normal (Some []))
    | _ => inl (None, d1)
    end in
  match first with
  | inr r => inr r
  | inl (c, d) =>
      inl (mkDecoder
             [DNum 0; DNum 1; DNum 2;
              match c with Some s => DStr s | None => DUndefined end]
             4 4 3 c [c] d)
  end.

(** Every round of the loop reads at least three bits, so the reader passes
    the end of the input within [2 * length + 4] rounds. *)
Definition decompressFuel : nat := (2 * N.to_nat length + 4)%nat.

Definition _decompress : option (completion (option jsstring)) :=
  match decompressStart with
  | inr r => Some r
  | inl st => decompressLoop decompressFuel st
  end.

End Decompress.

(** [decompressFromBase64(input)] for a string [input]: the result
    ([None] is [null]) and the cache afterwards. *)
Definition decompressFromBase64 (cache : baseReverseDic) (input : jsstring)
  : completion (option jsstring) * baseReverseDic :=
  match input with
  | [] => (Normal None, cache)
  | _ :: _ =>
      let cache' := snd (getBaseValue cache keyStrBase64 (charAt input 0)) in
      let getNextValue index :=
        fst (getBaseValue cache' keyStrBase64 (charAt input index)) in
      match _decompress (N.of_nat (List.length input)) 32 getNextValue with
      | Some r => (r, cache')
      | None => (Normal None, cache')
      end
  end.

(** The reverse dictionary of the base64 alphabet, and the caches a run can
    reach: no entry yet for the alphabet, or that dictionary. *)
Definition base64ReverseDic : reverseDic := buildReverseDic keyStrBase64 0 [].

Definition cache_ok (cache : baseReverseDic) : Prop :=
  cache_get cache keyStrBase64 = None
  \/ cache_get cache keyStrBase64 = Some base64ReverseDic.

Definition is_base64_char (c : N) : bool :=
  existsb (N.eqb c) keyStrBase64.

End LZString.

(** ** The ECMAScript [JSON] object *)
Module JSON.

(** *** Numbers

    An ECMAScript Number is an IEEE 754 binary64 value. The development does
    not compute with them: it is parametric in the type of numbers and the
    two conversions [JSON.parse] and [JSON.stringify] use, and relies on two
    facts ECMAScript guarantees for every finite number (with [-0] and [+0]
    identified, as [===] and [JSON.stringify] do): [Number::toString] prints
    a JSON number literal, and reading that literal gives the number back. *)

Definition is_digit (c : N) : bool := (48 <=? c) && (c <=? 57).

Fixpoint scan_digits (s : jsstring) : jsstring * jsstring :=
  match s with
  | c :: r =>
      if is_digit c then let (ds, r') := scan_digits r in (c :: ds, r')
      else ([], s)
  | [] => ([], [])
  end.

(** The JSON grammar of numbers: an optional minus sign; then 0, or a
    digit 1-9 and any digits; then optionally a point and one digit or more;
    then optionally e or E, an optional sign and one digit or more.
    [scan_number s] is the longest literal at the head of [s] and the text
    after it. *)
Definition scan_int (s : jsstring) : option (jsstring * jsstring) :=
  match s with
  | c :: r =>
      if c =? 48 then Some ([c], r)
      else if is_digit c then
        let (ds, r') := scan_digits r in Some (c :: ds, r')
      else None
  | [] => None
  end.

Definition scan_frac (s : jsstring) : option (jsstring * jsstring) :=
  match s with
  | c :: r =>
      if c =? 46 then
        match scan_digits r with
        | ([], _) => None
        | (ds, r') => Some (c :: ds, r')
        end
      else Some ([], s)
  | [] => Some ([], s)
  end.

Definition scan_exp_digits (e : jsstring) (s : jsstring)
  : option (jsstring * jsstring) :=
  match scan_digits s with
  | ([], _) => None
  | (ds, r') => Some (e ++ ds, r')
  end.

Definition scan_exp (s : jsstring) : option (jsstring * jsstring) :=
  match s with
  | c :: r =>
      if (c =? 101) || (c =? 69) then
        match r with
        | sg :: r1 =>
            if (sg =? 43) || (sg =? 45) then scan_exp_digits [c; sg] r1
            else scan_exp_digits [c] r
        | [] => None
        end
      else Some ([], s)
  | [] => Some ([], s)
  end.

Definition scan_sign (s : jsstring) : jsstring * jsstring :=
  match s with
  | c :: r => if c =? 45 then ([c], r) else ([], s)
  | [] => ([], s)
  end.

Definition scan_number (s : jsstring) : option (jsstring * jsstring) :=
  let (sign, s1) := scan_sign s in
  match scan_int s1 with
  | None => None
  | Some (i, s2) =>
      match scan_frac s2 with
      | None => None
      | Some (f, s3) =>
          match scan_exp s3 with
          | None => None
          | Some (e, s4) => Some (sign ++ i ++ f ++ e, s4)
          end
      end
  end.

Definition is_number_literal (l : jsstring) : bool :=
  match scan_number l with
  | Some (l', []) => jsstring_eqb l' l
  | _ => false
  end.

Class ECMANumber := {
  number : Type;
  (** the value of a JSON number literal *)
  StringToNumber : jsstring -> number;
  (** [Number::toString], radix 10 *)
  NumberToString : number -> jsstring;
  isFinite : number -> bool;
  NumberToString_literal :
    forall n, isFinite n = true -> is_number_literal (NumberToString n) = true;
  StringToNumber_NumberToString :
    forall n, isFinite n = true -> StringToNumber (NumberToString n) = n
}.

Section WithNumber.

Context {EN : ECMANumber}.

(** *** Values

    What [JSON.parse] returns. The members of an object are kept in the order
    its own property keys are enumerated. *)
#[local] Unset Elimination Schemes.
Inductive value : Type :=
| JNull
| JBool (b : bool)
| JNumber (n : number)
| JString (s : jsstring)
| JArray (elements : list value)
| JObject (members : list (jsstring * value)).
#[local] Set Elimination Schemes.

(** The [typeof] operator on these values. *)
Definition typeof (v : value) : jsstring :=
  match v with
  | JNull => lit "object"
  | JBool _ => lit "boolean"
  | JNumber _ => lit "number"
  | JString _ => lit "string"
  | JArray _ => lit "object"
  | JObject _ => lit "object"
  end.

Definition is_null (v : value) : bool :=
  match v with
  | JNull => true
  | _ => false
  end.

(** *** Property order

    An array index is the canonical decimal text of an integer below
    [2^32 - 1]; array indices are enumerated first, in ascending order, then
    the other keys in order of creation. *)
Fixpoint digits_value (ds : jsstring) (acc : N) : N :=
  match ds with
  | [] => acc
  | c :: r => digits_value r (10 * acc + (c - 48))
  end.

Definition array_index (k : jsstring) : option N :=
  match k with
  | [] => None
  | c :: r =>
      if forallb is_digit k
         && ((c =? 48) && (match r with [] => true | _ => false end)
             || negb (c =? 48))
         && (List.length k <=? 10)%nat
         && (digits_value k 0 <? 4294967295)
      then Some (digits_value k 0)
      else None
  end.

Definition has_key (o : list (jsstring * value)) (k : jsstring) : bool :=
  existsb (fun kv => jsstring_eqb (fst kv) k) o.

Fixpoint replace_key (o : list (jsstring * value)) (k : jsstring) (v : value)
  : list (jsstring * value) :=
  match o with
  | [] => []
  | (k', v') :: o' =>
      if jsstring_eqb k' k then (k', v) :: o'
      else (k', v') :: replace_key o' k v
  end.

(** Insert a new array-index key before the first key that is enumerated
    after it. *)
Fixpoint insert_index (o : list (jsstring * value)) (i : N) (k : jsstring)
  (v : value) : list (jsstring * value) :=
  match o with
  | [] => [(k, v)]
  | (k', v') :: o' =>
      match array_index k' with
      | Some j =>
          if j <? i then (k', v') :: insert_index o' i k v
          else (k, v) :: o
      | None => (k, v) :: o
      end
  end.

(** [CreateDataProperty(obj, k, v)] *)
Definition obj_set (o : list (jsstring * value)) (k : jsstring) (v : value)
  : list (jsstring * value) :=
  if has_key o k then replace_key o k v
  else
    match array_index k with
    | Some i => insert_index o i k v
    | None => o ++ [(k, v)]
    end.

(** The object built by creating the members one after the other. *)
Definition build_object (members : list (jsstring * value))
  : list (jsstring * value) :=
  fold_left (fun o kv => obj_set o (fst kv) (snd kv)) members [].

(** The values the code handles: every number is finite, and the members of
    every object are listed as its keys are enumerated (so no key occurs
    twice). *)
Fixpoint well_formed (v : value) : Prop :=
  match v with
  | JNumber n => isFinite n = true
  | JArray l =>
      (fix all (l : list value) : Prop :=
         match l with
         | [] => True
         | x :: l' => well_formed x /\ all l'
         end) l
  | JObject o =>
      build_object o = o
      /\ (fix all (o : list (jsstring * value)) : Prop :=
            match o with
            | [] => True
            | (_, x) :: o' => well_formed x /\ all o'
            end) o
  | _ => True
  end.

(** [typeof v === 'object' && v !== null]: an object or an array. *)
Definition is_composite (v : value) : bool :=
  jsstring_eqb (typeof v) (lit "object") && negb (is_null v).

(** *** [JSON.parse] *)

Fixpoint skip_ws (s : jsstring) : jsstring :=
  match s with
  | c :: r =>
      if (c =? 32) || (c =? 9) || (c =? 10) || (c =? 13) then skip_ws r
      else s
  | [] => []
  end.

Definition hex_value (c : N) : option N :=
  if is_digit c then Some (c - 48)
  else if (97 <=? c) && (c <=? 102) then Some (c - 87)
  else if (65 <=? c) && (c <=? 70) then Some (c - 55)
  else None.

Definition hex4 (a b c d : N) : option N :=
  match hex_value a, hex_value b, hex_value c, hex_value d with
  | Some x, Some y, Some z, Some t => Some (((x * 16 + y) * 16 + z) * 16 + t)
  | _, _, _, _ => None
  end.

(** The characters of a string literal after its opening quote: the string
    denoted and the text after the closing quote. *)
Fixpoint parse_chars (s : jsstring) : option (jsstring * jsstring) :=
  let cons (c : N) (r : option (jsstring * jsstring)) :=
    match r with
    | Some (str, rest) => Some (c :: str, rest)
    | None => None
    end in
  match s with
  | [] => None
  | c :: r =>
      if c =? 34 then Some ([], r)
      else if c =? 92 then
        match r with
        | e :: r' =>
            if e =? 34 then cons 34 (parse_chars r')
            else if e =? 92 then cons 92 (parse_chars r')
            else if e =? 47 then cons 47 (parse_chars r')
            else if e =? 98 then cons 8 (parse_chars r')
            else if e =? 102 then cons 12 (parse_chars r')
            else if e =? 110 then cons 10 (parse_chars r')
            else if e =? 114 then cons 13 (parse_chars r')
            else if e =? 116 then cons 9 (parse_chars r')
            else if e =? 117 then
              match r' with
              | h1 :: h2 :: h3 :: h4 :: r'' =>
                  match hex4 h1 h2 h3 h4 with
                  | Some u => cons u (parse_chars r'')
                  | None => None
                  end
              | _ => None
              end
            else None
        | [] => None
        end
      else if c <? 32 then None
      else cons c (parse_chars r)
  end.

Fixpoint parse_value (fuel : nat) (s : jsstring) : option (value * jsstring) :=
  match fuel with
  | O => None
  | S fuel' =>
      match skip_ws s with
      | [] => None
      | c :: r =>
          if c =? 110 then
            match r with
            | 117 :: 108 :: 108 :: r' => Some (JNull, r')
            | _ => None
            end
          else if c =? 116 then
            match r with
            | 114 :: 117 :: 101 :: r' => Some (JBool true, r')
            | _ => None
            end
          else if c =? 102 then
            match r with
            | 97 :: 108 :: 115 :: 101 :: r' => Some (JBool false, r')
            | _ => None
            end
          else if c =? 34 then
            match parse_chars r with
            | Some (str, r') => Some (JString str, r')
            | None => None
            end
          else if c =? 91 then
            let elements :=
              match parse_elements fuel' r with
              | Some (l, r') => Some (JArray l, r')
              | None => None
              end in
            match skip_ws r with
            | c' :: r' => if c' =? 93 then Some (JArray [], r') else elements
            | [] => elements
            end
          else if c =? 123 then
            let members :=
              match parse_members fuel' r [] with
              | Some (o, r') => Some (JObject o, r')
              | None => None
              end in
            match skip_ws r with
            | c' :: r' => if c' =? 125 then Some (JObject [], r') else members
            | [] => members
            end
          else
            match scan_number (c :: r) with
            | Some (l, r') => Some (JNumber (StringToNumber l), r')
            | None => None
            end
      end
  end
with parse_elements (fuel : nat) (s : jsstring)
  : option (list value * jsstring) :=
  match fuel with
  | O => None
  | S fuel' =>
      match parse_value fuel' s with
      | None => None
      | Some (v, r) =>
          match skip_ws r with
          | 44 :: r' =>
              match parse_elements fuel' r' with
              | Some (l, r'') => Some (v :: l, r'')
              | None => None
              end
          | 93 :: r' => Some ([v], r')
          | _ => None
          end
      end
  end
with parse_members (fuel : nat) (s : jsstring) (o : list (jsstring * value))
  : option (list (jsstring * value) * jsstring) :=
  match fuel with
  | O => None
  | S fuel' =>
      match skip_ws s with
      | 34 :: r =>
          match parse_chars r with
          | None => None
          | Some (k, r1) =>
              match skip_ws r1 with
              | 58 :: r2 =>
                  match parse_value fuel' r2 with
                  | None => None
                  | Some (v, r3) =>
                      match skip_ws r3 with
                      | 44 :: r4 => parse_members fuel' r4 (obj_set o k v)
                      | 125 :: r4 => Some (obj_set o k v, r4)
                      | _ => None
                      end
                  end
              | _ => None
              end
          end
      | _ => None
      end
  end.

Definition syntaxError_end : jsstring := lit "Unexpected end of JSON input".
Definition syntaxError_token : jsstring := lit "Unexpected token in JSON".

(** [JSON.parse(text)]: the value, or the [SyntaxError] thrown. Every call
    of the parser consumes a character, so [S (length text)] rounds are
    always enough. *)
Definition parse (text : jsstring) : completion value :=
  match parse_value (S (List.length text)) text with
  | Some (v, r) =>
      match skip_ws r with
      | [] => Normal v
      | _ :: _ => Throw syntaxError_token
      end
  | None =>
      match skip_ws text with
      | [] => Throw syntaxError_end
      | _ :: _ => Throw syntaxError_token
      end
  end.

(** *** [JSON.stringify] *)

Definition is_high_surrogate (c : N) : bool := (55296 <=? c) && (c <=? 56319).
Definition is_low_surrogate (c : N) : bool := (56320 <=? c) && (c <=? 57343).

Definition hex_digit (d : N) : N := if d <? 10 then 48 + d else 87 + d.

(** [\uXXXX] with lowercase hexadecimal digits *)
Definition unicode_escape (c : N) : jsstring :=
  [92; 117; hex_digit (c / 4096 mod 16); hex_digit (c / 256 mod 16);
   hex_digit (c / 16 mod 16); hex_digit (c mod 16)].

Definition escape_char (c : N) : jsstring :=
  if c =? 8 then [92; 98]
  else if c =? 9 then [92; 116]
  else if c =? 10 then [92; 110]
  else if c =? 12 then [92; 102]
  else if c =? 13 then [92; 114]
  else if c =? 34 then [92; 34]
  else if c =? 92 then [92; 92]
  else if c <? 32 then unicode_escape c
  else [c].

(** The body of [QuoteJSONString]: control characters, the quote, the
    backslash and lone surrogates are escaped; a surrogate pair is kept. *)
Fixpoint quote_chars (s : jsstring) : jsstring :=
  match s with
  | [] => []
  | c :: r =>
      if is_high_surrogate c then
        match r with
        | c2 :: r' =>
            if is_low_surrogate c2 then c :: c2 :: quote_chars r'
            else unicode_escape c ++ quote_chars r
        | [] => unicode_escape c
        end
      else if is_low_surrogate c then unicode_escape c ++ quote_chars r
      else escape_char c ++ quote_chars r
  end.

Definition QuoteJSONString (s : jsstring) : jsstring :=
  [34] ++ quote_chars s ++ [34].

Fixpoint join_with (sep : jsstring) (parts : list jsstring) : jsstring :=
  match parts with
  | [] => []
  | [p] => p
  | p :: ps => p ++ sep ++ join_with sep ps
  end.

(** Brackets around the serialized parts of an array or object, compact
    when the gap is empty and one part per line otherwise. *)
Definition wrap (open close : N) (gap indent : jsstring)
  (partial : list jsstring) : jsstring :=
  match partial with
  | [] => [open; close]
  | _ :: _ =>
      match gap with
      | [] => [open] ++ join_with [44] partial ++ [close]
      | _ :: _ =>
          let stepback := indent in
          let indent' := indent ++ gap in
          [open; 10] ++ indent' ++ join_with ([44; 10] ++ indent') partial
          ++ [10] ++ stepback ++ [close]
      end
  end.

(** [SerializeJSONProperty] on a parsed value, at indentation [indent]. *)
Fixpoint serialize (gap indent : jsstring) (v : value) : jsstring :=
  match v with
  | JNull => lit "null"
  | JBool true => lit "true"
  | JBool false => lit "false"
  | JNumber n => if isFinite n then NumberToString n else lit "null"
  | JString s => QuoteJSONString s
  | JArray l =>
      wrap 91 93 gap indent (map (serialize gap (indent ++ gap)) l)
  | JObject o =>
      wrap 123 125 gap indent
        (map (fun kv : jsstring * value =>
                let (k, x) := kv in
                QuoteJSONString k ++ [58]
                ++ match gap with [] => [] | _ :: _ => [32] end
                ++ serialize gap (indent ++ gap) x) o)
  end.

(** [JSON.stringify(v)] *)
Definition stringify (v : value) : jsstring := serialize [] [] v.

(** [JSON.stringify(v, null, space)] for a number of spaces [space]: the gap
    is that many spaces, ten at most. *)
Definition stringify_indent (v : value) (space : N) : jsstring :=
  serialize (repeat 32 (N.to_nat (N.min 10 space))) [] v.

End WithNumber.
End JSON.

(** ** Integer documents

    An instance of the numbers on [Z], to run the model: a literal written
    as an integer is that integer, printed in decimal. A literal with a
    fraction or an exponent is read as its exact value rounded toward
    zero. *)
Module IntegerNumber.

Fixpoint uint_chars (u : Decimal.uint) : jsstring :=
  match u with
  | Decimal.Nil => []
  | Decimal.D0 u' => 48 :: uint_chars u'
  | Decimal.D1 u' => 49 :: uint_chars u'
  | Decimal.D2 u' => 50 :: uint_chars u'
  | Decimal.D3 u' => 51 :: uint_chars u'
  | Decimal.D4 u' => 52 :: uint_chars u'
  | Decimal.D5 u' => 53 :: uint_chars u'
  | Decimal.D6 u' => 54 :: uint_chars u'
  | Decimal.D7 u' => 55 :: uint_chars u'
  | Decimal.D8 u' => 56 :: uint_chars u'
  | Decimal.D9 u' => 57 :: uint_chars u'
  end.

Fixpoint chars_uint (s : jsstring) : Decimal.uint :=
  match s with
  | [] => Decimal.Nil
  | c :: r =>
      let u := chars_uint r in
      match c with
      | 48 => Decimal.D0 u
      | 49 => Decimal.D1 u
      | 50 => Decimal.D2 u
      | 51 => Decimal.D3 u
      | 52 => Decimal.D4 u
      | 53 => Decimal.D5 u
      | 54 => Decimal.D6 u
      | 55 => Decimal.D7 u
      | 56 => Decimal.D8 u
      | 57 => Decimal.D9 u
      | _ => u
      end
  end.

Definition digits_N (s : jsstring) : N := N.of_uint (chars_uint s).

Definition NumberToString (z : Z) : jsstring :=
  match z with
  | Z0 => [48]
  | Zpos p => uint_chars (N.to_uint (Npos p))
  | Zneg p => 45 :: uint_chars (N.to_uint (Npos p))
  end.

Definition StringToNumber (l : jsstring) : Z :=
  let (sign, s1) := JSON.scan_sign l in
  let neg := match sign with [] => false | _ :: _ => true end in
  match JSON.scan_int s1 with
  | None => 0%Z
  | Some (i, s2) =>
      match JSON.scan_frac s2 with
      | None => 0%Z
      | Some (f, s3) =>
          match JSON.scan_exp s3 with
          | None => 0%Z
          | Some (e, _) =>
              let mantissa := Z.of_N (digits_N (i ++ f)) in
              let e10 :=
                match e with
                | _ :: 45 :: ds => (- Z.of_N (digits_N ds))%Z
                | _ :: ds => Z.of_N (digits_N ds)
                | [] => 0%Z
                end in
              let scale := (e10 - Z.of_nat (List.length (tl f)))%Z in
              let magnitude :=
                if (0 <=? scale)%Z then (mantissa * 10 ^ scale)%Z
                else (mantissa / 10 ^ (- scale))%Z in
              if neg then (- magnitude)%Z else magnitude
          end
      end
  end.

End IntegerNumber.

(** ** The run-time: threads, module state and observable effects *)
Module Runtime.

Inductive thread := MainThread | WorkerThread.

(** A call into one of the two libraries: the transform engine at work. *)
Inductive libcall :=
| JSON_parse (text : jsstring)
| JSON_stringify
| LZ_compressToBase64 (text : jsstring)
| LZ_decompressFromBase64 (text : jsstring).

(** The message a worker posts back. *)
Inductive workerResult :=
| Success (result : jsstring)
| Failure (error : jsstring).

Inductive event :=
| Engine (th : thread) (c : libcall)
| Dispatched (action data : jsstring) (useWorker : bool)
| SetTimeout0
| WorkerCreated
| WorkerPosted (action data : jsstring)
| WorkerReplied (r : workerResult)
| WorkerErrored
| WorkerTerminated.

(** What one JavaScript realm holds while the code runs: which thread it
    is, the lz-string module's cache, and the effects so far. *)
Record world := mkWorld {
  w_thread : thread;
  w_cache : LZString.baseReverseDic;
  w_log : list event
}.

(** The main thread when the page has loaded. *)
Definition initial_world : world := mkWorld MainThread [] [].

(** Code that may throw, reads and writes the realm. *)
Definition M (A : Type) : Type := world -> completion A * world.

Definition ret {A} (a : A) : M A := fun w => (Normal a, w).

Definition throw {A} (message : jsstring) : M A := fun w => (Throw message, w).

Definition bind {A B} (m : M A) (k : A -> M B) : M B :=
  fun w =>
    match m w with
    | (Normal a, w') => k a w'
    | (Throw e, w') => (Throw e, w')
    end.

(** [try { m } catch (e) { handler e.message }] *)
Definition try_catch {A} (m : M A) (handler : jsstring -> M A) : M A :=
  fun w =>
    match m w with
    | (Normal a, w') => (Normal a, w')
    | (Throw e, w') => handler e w'
    end.

Definition emit (e : event) : M unit :=
  fun w => (Normal tt, mkWorld (w_thread w) (w_cache w) (w_log w ++ [e])).

Definition engine (c : libcall) : M unit :=
  fun w =>
    (Normal tt,
     mkWorld (w_thread w) (w_cache w) (w_log w ++ [Engine (w_thread w) c])).

Notation "x <- m ;; k" := (bind m (fun x => k))
  (at level 61, m at next level, right associativity).
Notation "m ;;; k" := (bind m (fun _ => k))
  (at level 61, right associativity).

(** [a || b] on strings: the empty string is falsy. *)
Definition or_else (a b : jsstring) : jsstring :=
  match a with
  | [] => b
  | _ :: _ => a
  end.

(** [String.prototype.trim]: white space and line terminators. *)
Definition is_white_space (c : N) : bool :=
  (c =? 9) || (c =? 10) || (c =? 11) || (c =? 12) || (c =? 13) || (c =? 32)
  || (c =? 160) || (c =? 5760) || ((8192 <=? c) && (c <=? 8202))
  || (c =? 8232) || (c =? 8233) || (c =? 8239) || (c =? 8287)
  || (c =? 12288) || (c =? 65279).

Fixpoint trimStart (s : jsstring) : jsstring :=
  match s with
  | c :: r => if is_white_space c then trimStart r else s
  | [] => []
  end.

Definition trim (s : jsstring) : jsstring :=
  rev (trimStart (rev (trimStart s))).

Section WithNumber.

Context {EN : JSON.ECMANumber}.

(** The library calls, as the code sees them. *)
Definition JSON_parse_call (text : jsstring) : M JSON.value :=
  engine (JSON_parse text) ;;;
  fun w => (JSON.parse text, w).

Definition JSON_stringify_call (v : JSON.value) : M jsstring :=
  engine JSON_stringify ;;;
  ret (JSON.stringify v).

Definition JSON_stringify_indent_call (v : JSON.value) (space : N)
  : M jsstring :=
  engine JSON_stringify ;;;
  ret (JSON.stringify_indent v space).

Definition compressToBase64_call (input : jsstring) : M jsstring :=
  engine (LZ_compressToBase64 input) ;;;
  ret (LZString.compressToBase64 input).

Definition decompressFromBase64_call (input : jsstring)
  : M (option jsstring) :=
  engine (LZ_decompressFromBase64 input) ;;;
  fun w =>
    let (r, cache) := LZString.decompressFromBase64 (w_cache w) input in
    (r, mkWorld (w_thread w) cache (w_log w)).

End WithNumber.
End Runtime.
Import Runtime.

(** ** compression.service.ts *)
Module CompressionService.

Inductive action := compress | decompress.

Definition action_name (a : action) : jsstring :=
  match a with
  | compress => lit "compress"
  | decompress => lit "decompress"
  end.

(** How a promise settles. *)
Inductive settled :=
| Resolved (value : jsstring)
| Rejected (reason : jsstring).

(** [typeof Worker], and whether a created worker loads and runs. *)
Inductive workerFacility :=
| WorkerUndefined
| WorkerRuns
| WorkerFails.

Inductive classification := compressed | json | unknown.

Section WithNumber.

Context {EN : JSON.ECMANumber}.

Definition compressJsonSync (jsonObject : JSON.value) : M jsstring :=
  jsonString <- JSON_stringify_call jsonObject ;;
  compressToBase64_call jsonString.

Definition decompressJsonSync (compressedString : jsstring) : M jsstring :=
  jsonString <- decompressFromBase64_call compressedString ;;
  match jsonString with
  | None => throw (lit "Decompression returned no data or failed.")
  | Some jsonString =>
      parsed <- JSON_parse_call jsonString ;;
      JSON_stringify_indent_call parsed 2
  end.

(** [calculateByteSize]: the length of the UTF-8 encoding. *)
Fixpoint utf8_length (s : jsstring) : N :=
  match s with
  | [] => 0
  | c :: r =>
      if c <? 128 then 1 + utf8_length r
      else if c <? 2048 then 2 + utf8_length r
      else if JSON.is_high_surrogate c then
        match r with
        | c2 :: r' =>
            if JSON.is_low_surrogate c2 then 4 + utf8_length r'
            else 3 + utf8_length r
        | [] => 3
        end
      else 3 + utf8_length r
  end.

Definition calculateByteSize (str : jsstring) : N :=
  match str with
  | [] => 0
  | _ :: _ => utf8_length str
  end.

(** The worker endpoint (compression.worker.ts): the message listener, run
    in the worker's own realm; the message it posts back. *)
Definition workerListener (action_ data_ : jsstring) : M workerResult :=
  try_catch
    (let originalData := data_ in
     result <-
       (if jsstring_eqb action_ (lit "compress") then
          jsonObject <- JSON_parse_call originalData ;;
          jsonString <- JSON_stringify_call jsonObject ;;
          compressToBase64_call jsonString
        else if jsstring_eqb action_ (lit "decompress") then
          decompressedString <- decompressFromBase64_call originalData ;;
          match decompressedString with
          | None =>
              throw (lit "Decompression failed: Returned null/undefined.")
          | Some decompressedString =>
              jsonObject <- JSON_parse_call decompressedString ;;
              JSON_stringify_indent_call jsonObject 2
          end
        else throw (lit "Invalid action provided.")) ;;
     ret (Success result))
    (fun message =>
       ret (Failure (or_else message (lit "Worker processing failed.")))).

(** [processDataAsync]: how the returned promise settles, and the realm of
    the main thread afterwards. A worker is a fresh realm: its lz-string
    module starts with an empty cache, and its effects are appended to the
    log when its answer arrives. *)
Definition processDataAsync (facility : workerFacility) (act : action)
  (data_ : jsstring) (useWorker : bool) (w : world) : settled * world :=
  let w0 :=
    snd (emit (Dispatched (action_name act) data_ useWorker) w) in
  if negb useWorker then
    let w1 := snd (emit SetTimeout0 w0) in
    let body :=
      match act with
      | compress =>
          jsonObject <- JSON_parse_call data_ ;;
          compressJsonSync jsonObject
      | decompress => decompressJsonSync data_
      end in
    match body w1 with
    | (Normal r, w2) => (Resolved r, w2)
    | (Throw message, w2) =>
        (Rejected (or_else message (lit "Synchronous processing failed.")),
         w2)
    end
  else
    match facility with
    | WorkerUndefined =>
        (Rejected (lit "Web Workers are not supported in this environment."),
         w0)
    | WorkerRuns =>
        let w1 := snd (emit WorkerCreated w0) in
        let w2 := snd (emit (WorkerPosted (action_name act) data_) w1) in
        let (reply, ww) :=
          workerListener (action_name act) data_
            (mkWorld WorkerThread [] []) in
        let settle (e : event) :=
          mkWorld (w_thread w2) (w_cache w2)
            (w_log w2 ++ w_log ww ++ [e; WorkerTerminated]) in
        match reply with
        | Normal (Success r) =>
            (Resolved r, settle (WorkerReplied (Success r)))
        | Normal (Failure error) =>
            (Rejected (or_else error (lit "Worker execution failed.")),
             settle (WorkerReplied (Failure error)))
        | Throw _ =>
            (Rejected (lit "Worker error: Could not process data."),
             settle WorkerErrored)
        end
    | WorkerFails =>
        let w1 := snd (emit WorkerCreated w0) in
        let w2 := snd (emit (WorkerPosted (action_name act) data_) w1) in
        let w3 := snd (emit WorkerErrored w2) in
        let w4 := snd (emit WorkerTerminated w3) in
        (Rejected (lit "Worker error: Could not process data."), w4)
    end.

(** [analyzeData]: the two probes, each in its own [try]; a probe yields
    [Some tag] when it returns from the function and [None] when control
    falls through to the next statement. *)
Definition analyzeData (input : jsstring) : M classification :=
  let trimmedInput := trim input in
  match trimmedInput with
  | [] => ret unknown
  | _ :: _ =>
      probe1 <-
        try_catch
          (parsed <- JSON_parse_call trimmedInput ;;
           if JSON.is_composite parsed
           then ret (Some json)
           else ret None)
          (fun _ => ret None) ;;
      match probe1 with
      | Some tag => ret tag
      | None =>
          probe2 <-
            try_catch
              (decompressed <- decompressFromBase64_call trimmedInput ;;
               match decompressed with
               | Some ((_ :: _) as text) =>
                   JSON_parse_call text ;;;
                   ret (Some compressed)
               | _ => ret None
               end)
              (fun _ => ret None) ;;
          match probe2 with
          | Some tag => ret tag
          | None => ret unknown
          end
      end
  end.

End WithNumber.
End CompressionService.

(** ** app.component.ts *)
Module AppComponent.
Import CompressionService.

Record component := mkComponent {
  dataInput : jsstring;
  dataType : classification;
  isLoading : bool;
  useWebWorker : bool;
  resultData : jsstring;
  resultTitle : jsstring;
  statusMessage : jsstring;
  errorMessage : option jsstring;
  originalSize : N;
  resultSize : N;
  isDragging : bool
}.

Definition initial : component :=
  mkComponent [] unknown false true [] [] (lit "Paste or drop data to begin.")
    None 0 0 false.

Definition resetError (c : component) : component :=
  mkComponent (dataInput c) (dataType c) (isLoading c) (useWebWorker c)
    (resultData c) (resultTitle c) (statusMessage c) None
    (originalSize c) (resultSize c) (isDragging c).

Definition resetOutput (c : component) : component :=
  resetError
    (mkComponent (dataInput c) (dataType c) (isLoading c) (useWebWorker c)
       [] [] (statusMessage c) (errorMessage c)
       (originalSize c) 0 (isDragging c)).

Definition set_errorMessage (m : jsstring) (c : component) : component :=
  mkComponent (dataInput c) (dataType c) (isLoading c) (useWebWorker c)
    (resultData c) (resultTitle c) (statusMessage c) (Some m)
    (originalSize c) (resultSize c) (isDragging c).

Definition set_isLoading (b : bool) (c : component) : component :=
  mkComponent (dataInput c) (dataType c) b (useWebWorker c)
    (resultData c) (resultTitle c) (statusMessage c) (errorMessage c)
    (originalSize c) (resultSize c) (isDragging c).

Definition set_dataInput (s : jsstring) (c : component) : component :=
  mkComponent s (dataType c) (isLoading c) (useWebWorker c)
    (resultData c) (resultTitle c) (statusMessage c) (errorMessage c)
    (originalSize c) (resultSize c) (isDragging c).

(** A rejection reason here is a string primitive: it has no [message]
    property, so [e.message] is [undefined]. *)
Definition message_of_reason (e : jsstring) : option jsstring := None.

(** [compressionRatio]: 'N/A', or the reduction in percent. The arithmetic
    is on doubles: [percent r o] stands for
    [((1 - r / o) * 100).toFixed(2)]. *)
Definition compressionRatio (percent : N -> N -> jsstring) (c : component)
  : jsstring :=
  if (originalSize c =? 0) || (resultSize c =? 0)
     || negb (match dataType c with json => true | _ => false end)
  then lit "N/A"
  else percent (resultSize c) (originalSize c) ++ lit "% reduction".

(** [downloadFile]: the component afterwards, and what is handed to the
    browser: the name of the file and the text of the blob. *)
Definition downloadFile (c : component)
  : component * (jsstring * jsstring) :=
  let c1 := resetError c in
  let filename :=
    match dataType c1 with
    | json => lit "compressed-data.txt"
    | _ => lit "decompressed-data.json"
    end in
  (mkComponent (dataInput c1) (dataType c1) (isLoading c1) (useWebWorker c1)
     (resultData c1) (resultTitle c1)
     (lit "File '" ++ filename ++ lit "' downloaded successfully! ")
     (errorMessage c1) (originalSize c1) (resultSize c1) (isDragging c1),
   (filename, resultData c1)).

Section WithNumber.

Context {EN : JSON.ECMANumber}.

Definition analyzeInput (c : component) : M component :=
  let input := trim (dataInput c) in
  tag <- analyzeData input ;;
  let status :=
    match tag with
    | compressed =>
        lit "Data recognized as **LZ-Compressed String**. Ready to Decompress."
    | json =>
        lit "Data recognized as **Raw JSON Object**. Ready to Compress."
    | unknown =>
        match input with
        | _ :: _ =>
            lit "Pasted data is not recognized as valid JSON or compressed format."
        | [] => lit "Paste or drop data to begin."
        end
    end in
  ret (mkComponent (dataInput c) tag (isLoading c) (useWebWorker c)
         (resultData c) (resultTitle c) status (errorMessage c)
         (calculateByteSize input) (resultSize c) (isDragging c)).

Definition onDataChange (c : component) : M component :=
  analyzeInput (resetOutput c).

(** [handleAction]: the component once the awaited promise has settled.
    [duration] is the elapsed time as [toFixed(2)] prints it. *)
Definition handleAction (facility : workerFacility) (duration : jsstring)
  (c : component) (w : world) : component * world :=
  if (List.length (trim (dataInput c)) =? 0)%nat then
    (set_errorMessage (lit "Input cannot be empty.") c, w)
  else
    let c1 := resetError c in
    let c2 :=
      mkComponent (dataInput c1) (dataType c1) true (useWebWorker c1)
        [] (resultTitle c1) (statusMessage c1) (errorMessage c1)
        (originalSize c1) (resultSize c1) (isDragging c1) in
    let act :=
      match dataType c2 with
      | json => compress
      | _ => decompress
      end in
    let originalInput := dataInput c2 in
    match processDataAsync facility act originalInput (useWebWorker c2) w with
    | (Resolved result, w') =>
        let title :=
          match act with
          | compress => lit "Compressed String (Base64)"
          | decompress => lit "Decompressed JSON Object"
          end in
        let status :=
          match act with
          | compress => lit "Compression"
          | decompress => lit "Decompression"
          end
          ++ lit " successful! Time taken: **" ++ duration
          ++ lit " ms** (Mode: "
          ++ (if useWebWorker c2 then lit "Worker" else lit "Sync")
          ++ lit ")." in
        (set_isLoading false
           (mkComponent (dataInput c2) (dataType c2) (isLoading c2)
              (useWebWorker c2) result title status (errorMessage c2)
              (originalSize c2) (calculateByteSize result) (isDragging c2)),
         w')
    | (Rejected e, w') =>
        let message :=
          match message_of_reason e with
          | Some ((_ :: _) as m) => m
          | _ => lit "An unexpected error occurred during processing."
          end in
        (set_isLoading false (resetOutput (set_errorMessage message c2)), w')
    end.

End WithNumber.
End AppComponent.

(** * Properties *)

Module JSFacts.

Lemma jsstring_eqb_eq (a b : jsstring) : jsstring_eqb a b = true <-> a = b.
Proof.
  unfold jsstring_eqb. destruct (list_eq_dec N.eq_dec a b); split; congruence.
Qed.

Lemma jsstring_eqb_refl (a : jsstring) : jsstring_eqb a a = true.
Proof. apply jsstring_eqb_eq. reflexivity. Qed.

End JSFacts.
Import JSFacts.

(** ** The integer instance satisfies what is asked of numbers *)
Module IntegerNumberFacts.
Import IntegerNumber.

Lemma chars_uint_uint_chars (u : Decimal.uint) : chars_uint (uint_chars u) = u.
Proof. induction u; simpl; congruence. Qed.

Lemma scan_digits_uint_chars (u : Decimal.uint) :
  JSON.scan_digits (uint_chars u) = (uint_chars u, []).
Proof. induction u; simpl; try rewrite IHu; reflexivity. Qed.

Lemma to_uint_normal (p : positive) :
  Pos.to_uint p = Decimal.unorm (Pos.to_uint p).
Proof.
  rewrite <- (DecimalPos.Unsigned.to_of (Pos.to_uint p)).
  rewrite DecimalPos.Unsigned.of_to. reflexivity.
Qed.

Lemma to_uint_head (p : positive) :
  Decimal.nzhead (Pos.to_uint p) = Pos.to_uint p.
Proof.
  pose proof (to_uint_normal p) as H. unfold Decimal.unorm in H.
  destruct (Decimal.nzhead (Pos.to_uint p)) eqn:E; try congruence.
  exfalso. apply (DecimalPos.Unsigned.to_uint_nonzero p). exact H.
Qed.

Lemma uint_chars_head (u : Decimal.uint) (c : N) (r : jsstring) :
  uint_chars u = c :: r -> JSON.is_digit c = true.
Proof. destruct u; simpl; intro H; inversion H; reflexivity. Qed.

Lemma scan_sign_digit (c : N) (r : jsstring) :
  JSON.is_digit c = true -> JSON.scan_sign (c :: r) = ([], c :: r).
Proof.
  intro H. unfold JSON.scan_sign.
  destruct (c =? 45) eqn:E; [|reflexivity].
  apply N.eqb_eq in E. subst c. discriminate H.
Qed.

Lemma scan_number_positive (p : positive) :
  JSON.scan_number (uint_chars (Pos.to_uint p))
  = Some (uint_chars (Pos.to_uint p), []).
Proof.
  pose proof (to_uint_head p) as H.
  pose proof (DecimalPos.Unsigned.to_uint_nonnil p) as Hn.
  destruct (Pos.to_uint p) as [|u|u|u|u|u|u|u|u|u|u] eqn:E;
    try congruence;
    try (unfold JSON.scan_number, JSON.scan_int; cbn [uint_chars];
         rewrite scan_sign_digit by reflexivity;
         cbn -[JSON.scan_digits]; rewrite scan_digits_uint_chars;
         cbn; rewrite app_nil_r; reflexivity).
  exfalso. apply (DecimalFacts.nzhead_nonzero (Decimal.D0 u) u). exact H.
Qed.

Lemma NumberToString_literal (z : Z) :
  JSON.is_number_literal (NumberToString z) = true.
Proof.
  unfold JSON.is_number_literal. destruct z as [|p|p]; [reflexivity| |].
  - unfold NumberToString, N.to_uint. rewrite scan_number_positive.
    apply jsstring_eqb_refl.
  - unfold NumberToString, N.to_uint.
    pose proof (scan_number_positive p) as H.
    unfold JSON.scan_number in *.
    destruct (uint_chars (Pos.to_uint p)) as [|c r] eqn:E.
    + discriminate H.
    + apply uint_chars_head in E.
      rewrite (scan_sign_digit c r E) in H.
      cbn [JSON.scan_sign]. rewrite N.eqb_refl.
      destruct (JSON.scan_int (c :: r)) as [[i s2]|]; [|discriminate H].
      destruct (JSON.scan_frac s2) as [[f s3]|]; [|discriminate H].
      destruct (JSON.scan_exp s3) as [[e s4]|]; [|discriminate H].
      injection H as H1 H2. subst s4. cbn [app] in *. rewrite H1.
      apply jsstring_eqb_refl.
Qed.

Lemma StringToNumber_positive (p : positive) :
  StringToNumber (uint_chars (Pos.to_uint p)) = Zpos p.
Proof.
  pose proof (to_uint_head p) as H.
  pose proof (DecimalPos.Unsigned.to_uint_nonnil p) as Hn.
  pose proof (DecimalPos.Unsigned.of_to p) as Hof.
  assert (Hd : digits_N (uint_chars (Pos.to_uint p)) = Npos p).
  { unfold digits_N. rewrite chars_uint_uint_chars. exact Hof. }
  destruct (Pos.to_uint p) as [|u|u|u|u|u|u|u|u|u|u] eqn:E;
    try congruence;
    try (unfold StringToNumber, JSON.scan_int; cbn [uint_chars] in *;
         rewrite scan_sign_digit by reflexivity;
         cbn -[JSON.scan_digits digits_N Z.mul Z.pow Z.of_N];
         rewrite scan_digits_uint_chars;
         cbn -[digits_N Z.mul Z.pow Z.of_N];
         rewrite app_nil_r, Hd; cbn; rewrite Pos.mul_1_r; reflexivity).
  exfalso. apply (DecimalFacts.nzhead_nonzero (Decimal.D0 u) u). exact H.
Qed.

Lemma StringToNumber_NumberToString (z : Z) :
  StringToNumber (NumberToString z) = z.
Proof.
  destruct z as [|p|p]; [reflexivity| |].
  - apply StringToNumber_positive.
  - pose proof (StringToNumber_positive p) as H.
    unfold NumberToString, N.to_uint.
    unfold StringToNumber in *.
    destruct (uint_chars (Pos.to_uint p)) as [|c r] eqn:E.
    + discriminate H.
    + apply uint_chars_head in E.
      rewrite (scan_sign_digit c r E) in H.
      cbn [JSON.scan_sign]. rewrite N.eqb_refl.
      destruct (JSON.scan_int (c :: r)) as [[i s2]|]; [|discriminate H].
      destruct (JSON.scan_frac s2) as [[f s3]|]; [|discriminate H].
      destruct (JSON.scan_exp s3) as [[e s4]|]; [|discriminate H].
      rewrite H. reflexivity.
Qed.

#[export] Instance integerNumber : JSON.ECMANumber := {|
  JSON.number := Z;
  JSON.StringToNumber := StringToNumber;
  JSON.NumberToString := NumberToString;
  JSON.isFinite := fun _ => true;
  JSON.NumberToString_literal := fun z _ => NumberToString_literal z;
  JSON.StringToNumber_NumberToString :=
    fun z _ => StringToNumber_NumberToString z
|}.

End IntegerNumberFacts.

(** ** Strings of [JSON]: quoting and reading back *)
Module JSONStrings.
Import JSON.

Lemma hex_value_hex_digit (d : N) : d < 16 -> hex_value (hex_digit d) = Some d.
Proof.
  intro H. unfold hex_digit, hex_value, is_digit.
  destruct (d <? 10) eqn:E.
  - apply N.ltb_lt in E.
    replace (48 <=? 48 + d) with true by (symmetry; apply N.leb_le; lia).
    replace (48 + d <=? 57) with true by (symmetry; apply N.leb_le; lia).
    cbn [andb]. f_equal. lia.
  - apply N.ltb_ge in E.
    replace (48 <=? 87 + d) with true by (symmetry; apply N.leb_le; lia).
    replace (87 + d <=? 57) with false by (symmetry; apply N.leb_gt; lia).
    replace (97 <=? 87 + d) with true by (symmetry; apply N.leb_le; lia).
    replace (87 + d <=? 102) with true by (symmetry; apply N.leb_le; lia).
    cbn [andb]. f_equal. lia.
Qed.

Lemma hex4_digits (c : N) :
  c < 65536 ->
  hex4 (hex_digit (c / 4096 mod 16)) (hex_digit (c / 256 mod 16))
       (hex_digit (c / 16 mod 16)) (hex_digit (c mod 16)) = Some c.
Proof.
  intro H. unfold hex4.
  rewrite !hex_value_hex_digit by (apply N.mod_lt; lia).
  f_equal.
  assert (H1 : c / 4096 < 16) by (apply N.Div0.div_lt_upper_bound; lia).
  rewrite (N.mod_small (c / 4096) 16) by exact H1.
  pose proof (N.Div0.div_mod c 16) as D0.
  pose proof (N.Div0.div_mod (c / 16) 16) as D1.
  pose proof (N.Div0.div_mod (c / 256) 16) as D2.
  replace (c / 256) with (c / 16 / 16) in * by (rewrite N.Div0.div_div; reflexivity).
  replace (c / 4096) with (c / 16 / 16 / 16) in *
    by (rewrite !N.Div0.div_div; reflexivity).
  lia.
Qed.

Lemma parse_chars_unicode_escape (c : N) (rest : jsstring) :
  c < 65536 ->
  parse_chars (unicode_escape c ++ rest)
  = match parse_chars rest with
    | Some (str, r) => Some (c :: str, r)
    | None => None
    end.
Proof.
  intro H. unfold unicode_escape. cbn [app].
  cbn -[hex4 hex_digit N.div N.modulo].
  rewrite (hex4_digits c H). reflexivity.
Qed.

(** A character the parser takes as it stands. *)
Lemma parse_chars_plain (c : N) (rest : jsstring) :
  32 <= c -> c <> 34 -> c <> 92 ->
  parse_chars (c :: rest)
  = match parse_chars rest with
    | Some (str, r) => Some (c :: str, r)
    | None => None
    end.
Proof.
  intros H1 H2 H3. cbn -[N.eqb N.ltb].
  replace (c =? 34) with false by (symmetry; apply N.eqb_neq; exact H2).
  replace (c =? 92) with false by (symmetry; apply N.eqb_neq; exact H3).
  replace (c <? 32) with false by (symmetry; apply N.ltb_ge; exact H1).
  reflexivity.
Qed.

Lemma parse_chars_escape_char (c : N) (rest : jsstring) :
  is_high_surrogate c = false -> is_low_surrogate c = false ->
  parse_chars (escape_char c ++ rest)
  = match parse_chars rest with
    | Some (str, r) => Some (c :: str, r)
    | None => None
    end.
Proof.
  intros Hh Hl. unfold escape_char.
  destruct (c =? 8) eqn:E8; [apply N.eqb_eq in E8; subst; reflexivity|].
  destruct (c =? 9) eqn:E9; [apply N.eqb_eq in E9; subst; reflexivity|].
  destruct (c =? 10) eqn:E10; [apply N.eqb_eq in E10; subst; reflexivity|].
  destruct (c =? 12) eqn:E12; [apply N.eqb_eq in E12; subst; reflexivity|].
  destruct (c =? 13) eqn:E13; [apply N.eqb_eq in E13; subst; reflexivity|].
  destruct (c =? 34) eqn:E34; [apply N.eqb_eq in E34; subst; reflexivity|].
  destruct (c =? 92) eqn:E92; [apply N.eqb_eq in E92; subst; reflexivity|].
  destruct (c <? 32) eqn:E32.
  - apply N.ltb_lt in E32. apply parse_chars_unicode_escape. lia.
  - apply N.ltb_ge in E32. apply N.eqb_neq in E34, E92.
    apply parse_chars_plain; assumption.
Qed.

Lemma surrogate_plain (c : N) :
  is_high_surrogate c = true \/ is_low_surrogate c = true ->
  32 <= c /\ c <> 34 /\ c <> 92 /\ c < 65536.
Proof.
  unfold is_high_surrogate, is_low_surrogate.
  intros [H|H]; apply andb_prop in H; destruct H as [H1 H2];
    apply N.leb_le in H1, H2; lia.
Qed.

(** Reading a quoted string gives the string back. *)
Lemma parse_chars_quote_chars (s rest : jsstring) :
  parse_chars (quote_chars s ++ 34 :: rest) = Some (s, rest).
Proof.
  remember (List.length s) as n eqn:Hn.
  revert s Hn. induction n as [n IH] using lt_wf_ind. intros s Hn.
  destruct s as [|c r]; [reflexivity|].
  cbn [quote_chars].
  destruct (is_high_surrogate c) eqn:Hh.
  - destruct (surrogate_plain c (or_introl Hh)) as (P1 & P2 & P3 & P4).
    destruct r as [|c2 r'].
    + rewrite parse_chars_unicode_escape by exact P4. reflexivity.
    + destruct (is_low_surrogate c2) eqn:Hl2.
      * destruct (surrogate_plain c2 (or_intror Hl2)) as (Q1 & Q2 & Q3 & Q4).
        cbn [app].
        rewrite parse_chars_plain by assumption.
        rewrite parse_chars_plain by assumption.
        rewrite (IH (List.length r')) by (subst n; simpl; lia || reflexivity).
        reflexivity.
      * rewrite <- app_assoc.
        rewrite parse_chars_unicode_escape by exact P4.
        rewrite (IH (List.length (c2 :: r')))
          by (subst n; simpl; lia || reflexivity).
        reflexivity.
  - destruct (is_low_surrogate c) eqn:Hl.
    + destruct (surrogate_plain c (or_intror Hl)) as (P1 & P2 & P3 & P4).
      rewrite <- app_assoc.
      rewrite parse_chars_unicode_escape by exact P4.
      rewrite (IH (List.length r)) by (subst n; simpl; lia || reflexivity).
      reflexivity.
    + rewrite <- app_assoc.
      rewrite parse_chars_escape_char by assumption.
      rewrite (IH (List.length r)) by (subst n; simpl; lia || reflexivity).
      reflexivity.
Qed.

End JSONStrings.

(** ** Number literals followed by more text *)
Module JSONNumbers.
Import JSON.

(** What may follow a value in a serialization: nothing, or a comma, a
    closing bracket, a closing brace or a line feed. *)
Definition delimited (rest : jsstring) : Prop :=
  match rest with
  | [] => True
  | c :: _ => c = 44 \/ c = 93 \/ c = 125 \/ c = 10
  end.

Lemma scan_digits_app (s rest : jsstring) (ds r : jsstring) :
  scan_digits s = (ds, r) ->
  (r = [] -> delimited rest) ->
  scan_digits (s ++ rest) = (ds, r ++ rest).
Proof.
  revert ds r. induction s as [|c s IH]; intros ds r H Hr.
  - cbn in H. injection H as <- <-. cbn [app].
    destruct rest as [|x rest']; [reflexivity|].
    specialize (Hr eq_refl). cbn in Hr. cbn [scan_digits].
    replace (is_digit x) with false; [reflexivity|].
    destruct Hr as [->|[->|[->| ->]]]; reflexivity.
  - cbn [scan_digits app] in *.
    destruct (is_digit c).
    + destruct (scan_digits s) as [ds' r'] eqn:E.
      injection H as <- <-.
      rewrite (IH ds' r' eq_refl Hr). reflexivity.
    + injection H as <- <-. reflexivity.
Qed.

Lemma scan_int_app (s rest i r : jsstring) :
  scan_int s = Some (i, r) ->
  (r = [] -> delimited rest) ->
  scan_int (s ++ rest) = Some (i, r ++ rest).
Proof.
  intros H Hr. destruct s as [|c s]; [discriminate H|].
  cbn [scan_int app] in *.
  destruct (c =? 48).
  - injection H as <- <-. reflexivity.
  - destruct (is_digit c); [|discriminate H].
    destruct (scan_digits s) as [ds r'] eqn:E.
    injection H as <- <-.
    rewrite (scan_digits_app s rest ds r' E Hr). reflexivity.
Qed.

Lemma delimited_head (rest : jsstring) (c : N) (r : jsstring) :
  delimited rest -> rest = c :: r ->
  c <> 46 /\ c <> 101 /\ c <> 69 /\ is_digit c = false.
Proof.
  intros H ->. cbn in H.
  destruct H as [->|[->|[->| ->]]]; repeat split; (discriminate || reflexivity).
Qed.

Lemma scan_frac_app (s rest f r : jsstring) :
  scan_frac s = Some (f, r) ->
  (r = [] -> delimited rest) ->
  scan_frac (s ++ rest) = Some (f, r ++ rest).
Proof.
  intros H Hr. unfold scan_frac in *.
  destruct s as [|c s].
  - injection H as <- <-. cbn [app].
    destruct rest as [|x rest']; [reflexivity|].
    destruct (delimited_head _ x rest' (Hr eq_refl) eq_refl) as (P & _).
    replace (x =? 46) with false by (symmetry; apply N.eqb_neq; exact P).
    reflexivity.
  - cbn [app]. destruct (c =? 46).
    + destruct (scan_digits s) as [ds r'] eqn:E.
      destruct ds as [|d ds]; [discriminate H|].
      injection H as <- <-.
      rewrite (scan_digits_app s rest (d :: ds) r' E Hr). reflexivity.
    + injection H as <- <-. reflexivity.
Qed.

Lemma scan_exp_digits_app (e s rest x r : jsstring) :
  scan_exp_digits e s = Some (x, r) ->
  (r = [] -> delimited rest) ->
  scan_exp_digits e (s ++ rest) = Some (x, r ++ rest).
Proof.
  unfold scan_exp_digits. intros H Hr.
  destruct (scan_digits s) as [ds r'] eqn:E.
  destruct ds as [|d ds]; [discriminate H|].
  injection H as <- <-.
  rewrite (scan_digits_app s rest (d :: ds) r' E Hr). reflexivity.
Qed.

Lemma scan_exp_app (s rest e r : jsstring) :
  scan_exp s = Some (e, r) ->
  (r = [] -> delimited rest) ->
  scan_exp (s ++ rest) = Some (e, r ++ rest).
Proof.
  intros H Hr. unfold scan_exp in *.
  destruct s as [|c s].
  - injection H as <- <-. cbn [app].
    destruct rest as [|x rest']; [reflexivity|].
    destruct (delimited_head _ x rest' (Hr eq_refl) eq_refl) as (_ & P & Q & _).
    replace (x =? 101) with false by (symmetry; apply N.eqb_neq; exact P).
    replace (x =? 69) with false by (symmetry; apply N.eqb_neq; exact Q).
    reflexivity.
  - cbn [app].
    destruct ((c =? 101) || (c =? 69)).
    + destruct s as [|sg s1]; [discriminate H|].
      cbn [app].
      destruct ((sg =? 43) || (sg =? 45)).
      * apply scan_exp_digits_app; assumption.
      * apply (scan_exp_digits_app [c] (sg :: s1)); assumption.
    + injection H as <- <-. reflexivity.
Qed.

Lemma scan_sign_app (s rest sign s1 : jsstring) :
  scan_sign s = (sign, s1) -> s <> [] ->
  scan_sign (s ++ rest) = (sign, s1 ++ rest).
Proof.
  intros H Hs. destruct s as [|c s]; [congruence|].
  cbn [scan_sign app] in *.
  destruct (c =? 45); injection H as <- <-; reflexivity.
Qed.

(** A complete number literal is read back whole when a delimiter follows. *)
Lemma scan_number_app (l rest : jsstring) :
  is_number_literal l = true -> delimited rest ->
  scan_number (l ++ rest) = Some (l, rest).
Proof.
  unfold is_number_literal. intros H Hd.
  destruct (scan_number l) as [[l' r]|] eqn:E; [|discriminate H].
  destruct r; [|discriminate H].
  apply jsstring_eqb_eq in H. subst l'.
  unfold scan_number in *.
  destruct (scan_sign l) as [sign s1] eqn:Es.
  assert (Hl : l <> []).
  { intro; subst l. cbn in Es. injection Es as <- <-. discriminate E. }
  rewrite (scan_sign_app l rest sign s1 Es Hl).
  destruct (scan_int s1) as [[i s2]|] eqn:Ei; [|discriminate E].
  destruct (scan_frac s2) as [[f s3]|] eqn:Ef; [|discriminate E].
  destruct (scan_exp s3) as [[e s4]|] eqn:Ee; [|discriminate E].
  injection E as E1 E2. subst s4.
  assert (H3 : scan_exp (s3 ++ rest) = Some (e, rest))
    by (apply (scan_exp_app s3 rest e [] Ee); intros _; exact Hd).
  assert (H2 : scan_frac (s2 ++ rest) = Some (f, s3 ++ rest)).
  { apply (scan_frac_app s2 rest f s3 Ef). intros _. exact Hd. }
  assert (H1 : scan_int (s1 ++ rest) = Some (i, s2 ++ rest)).
  { apply (scan_int_app s1 rest i s2 Ei). intros _. exact Hd. }
  rewrite H1, H2, H3, E1. reflexivity.
Qed.

(** A number literal starts with a minus sign or a digit. *)
Lemma number_literal_head (l : jsstring) :
  is_number_literal l = true ->
  exists c r, l = c :: r /\ (c = 45 \/ is_digit c = true).
Proof.
  unfold is_number_literal. intro H.
  destruct (scan_number l) as [[l' r]|] eqn:E; [|discriminate H].
  destruct l as [|c l0]; [cbn in E; discriminate E|].
  exists c, l0. split; [reflexivity|].
  unfold scan_number in E. cbn [scan_sign] in E.
  destruct (c =? 45) eqn:E45.
  - left. apply N.eqb_eq. exact E45.
  - right. cbn [scan_int] in E.
    destruct (c =? 48) eqn:E48.
    + apply N.eqb_eq in E48. subst c. reflexivity.
    + destruct (is_digit c); [reflexivity|discriminate E].
Qed.

End JSONNumbers.

(** ** [JSON.parse] reads back what [JSON.stringify] writes *)
Module JSONRoundTrip.
Import JSON JSONStrings JSONNumbers.

Section WithNumber.

Context {EN : ECMANumber}.

(** Induction on values, through the lists of elements and members. *)
Section value_induction.

Variable P : value -> Prop.
Hypothesis Hnull : P JNull.
Hypothesis Hbool : forall b, P (JBool b).
Hypothesis Hnumber : forall n, P (JNumber n).
Hypothesis Hstring : forall s, P (JString s).
Hypothesis Harray : forall l, Forall P l -> P (JArray l).
Hypothesis Hobject :
  forall o, Forall (fun kv => P (snd kv)) o -> P (JObject o).

Fixpoint value_ind (v : value) : P v :=
  match v with
  | JNull => Hnull
  | JBool b => Hbool b
  | JNumber n => Hnumber n
  | JString s => Hstring s
  | JArray l =>
      Harray l
        ((fix go (l : list value) : Forall P l :=
            match l with
            | [] => Forall_nil P
            | x :: l' => Forall_cons x (value_ind x) (go l')
            end) l)
  | JObject o =>
      Hobject o
        ((fix go (o : list (jsstring * value))
            : Forall (fun kv => P (snd kv)) o :=
            match o with
            | [] => Forall_nil _
            | kv :: o' =>
                Forall_cons kv (value_ind (snd kv)) (go o')
            end) o)
  end.

End value_induction.

(** The number of parser calls a value needs. *)
Fixpoint size (v : value) : nat :=
  match v with
  | JArray l =>
      S ((fix sizes (l : list value) : nat :=
            match l with
            | [] => O
            | x :: l' => S (size x + sizes l')
            end) l)
  | JObject o =>
      S ((fix sizes (o : list (jsstring * value)) : nat :=
            match o with
            | [] => O
            | (_, x) :: o' => S (size x + sizes o')
            end) o)
  | _ => 1%nat
  end.

Definition sizes (l : list value) : nat :=
  fold_right (fun x n => S (size x + n)) O l.

Definition member_sizes (o : list (jsstring * value)) : nat :=
  fold_right (fun kv n => S (size (snd kv) + n)) O o.

Lemma size_array (l : list value) : size (JArray l) = S (sizes l).
Proof. reflexivity. Qed.

Lemma size_object (o : list (jsstring * value)) :
  size (JObject o) = S (member_sizes o).
Proof.
  cbn [size]. f_equal. induction o as [|[k x] o IH]; [reflexivity|].
  cbn [member_sizes fold_right snd]. rewrite IH. reflexivity.
Qed.

Definition all_well_formed (l : list value) : Prop := Forall well_formed l.

Lemma well_formed_array (l : list value) :
  well_formed (JArray l) <-> Forall well_formed l.
Proof.
  cbn [well_formed]. induction l as [|x l IH].
  - split; intros; constructor.
  - split.
    + intros [H1 H2]. constructor; [exact H1|apply IH; exact H2].
    + intro H. inversion H; subst. split; [assumption|apply IH; assumption].
Qed.

Lemma well_formed_object (o : list (jsstring * value)) :
  well_formed (JObject o)
  <-> build_object o = o /\ Forall (fun kv => well_formed (snd kv)) o.
Proof.
  cbn [well_formed].
  assert (A : (fix all (o0 : list (jsstring * value)) : Prop :=
                 match o0 with
                 | [] => True
                 | (_, x) :: o' => well_formed x /\ all o'
                 end) o <-> Forall (fun kv => well_formed (snd kv)) o).
  { induction o as [|[k x] o IH].
    - split; intros; constructor.
    - split.
      + intros [H1 H2]. constructor; [exact H1|apply IH; exact H2].
      + intro H. inversion H; subst. split; [assumption|apply IH; assumption]. }
  tauto.
Qed.

(** Text the parser skips. *)
Definition blank (s : jsstring) : Prop :=
  forall t, skip_ws (s ++ t) = skip_ws t.

Definition spaces (s : jsstring) : Prop := Forall (fun c => c = 32) s.

Lemma blank_nil : blank [].
Proof. intro t. reflexivity. Qed.

Lemma blank_spaces (s : jsstring) : spaces s -> blank s.
Proof.
  intros H t. induction H as [|c s Hc Hs IH]; [reflexivity|].
  subst c. cbn [app skip_ws]. exact IH.
Qed.

Lemma blank_newline (s : jsstring) : blank s -> blank (10 :: s).
Proof. intros H t. cbn [app skip_ws]. apply H. Qed.

Lemma spaces_app (a b : jsstring) : spaces a -> spaces b -> spaces (a ++ b).
Proof. intros. apply Forall_app. split; assumption. Qed.

Lemma parse_value_blank (fuel : nat) (pre s : jsstring) :
  blank pre -> parse_value fuel (pre ++ s) = parse_value fuel s.
Proof.
  intro H. destruct fuel as [|f]; [reflexivity|].
  cbn [parse_value]. rewrite (H s). reflexivity.
Qed.

(** The first character of a serialized value: it is not white space and
    closes nothing. *)
Definition value_start (c : N) : Prop :=
  c = 110 \/ c = 116 \/ c = 102 \/ c = 34 \/ c = 91 \/ c = 123 \/ c = 45
  \/ is_digit c = true.

Lemma value_start_skip (c : N) (t : jsstring) :
  value_start c ->
  skip_ws (c :: t) = c :: t /\ (c =? 93) = false /\ (c =? 125) = false.
Proof.
  unfold value_start.
  intros [->|[->|[->|[->|[->|[->|[->|H]]]]]]];
    try (repeat split; reflexivity).
  unfold is_digit in H. apply andb_prop in H. destruct H as [H1 H2].
  apply N.leb_le in H1, H2. cbn [skip_ws].
  replace (c =? 32) with false by (symmetry; apply N.eqb_neq; lia).
  replace (c =? 9) with false by (symmetry; apply N.eqb_neq; lia).
  replace (c =? 10) with false by (symmetry; apply N.eqb_neq; lia).
  replace (c =? 13) with false by (symmetry; apply N.eqb_neq; lia).
  repeat split; apply N.eqb_neq; lia.
Qed.

Lemma wrap_head (open close : N) (gap indent : jsstring)
  (partial : list jsstring) :
  exists t, wrap open close gap indent partial = open :: t.
Proof.
  unfold wrap. destruct partial; [eexists; reflexivity|].
  destruct gap; eexists; reflexivity.
Qed.

Lemma serialize_head (gap indent : jsstring) (v : value) :
  well_formed v ->
  exists c t, serialize gap indent v = c :: t /\ value_start c.
Proof.
  unfold value_start. intro W.
  destruct v as [|[|]|n|s|l|o]; cbn [serialize].
  - do 2 eexists. split; [reflexivity|]. tauto.
  - do 2 eexists. split; [reflexivity|]. tauto.
  - do 2 eexists. split; [reflexivity|]. tauto.
  - cbn in W. rewrite W.
    destruct (number_literal_head _ (NumberToString_literal n W))
      as (c & r & E & H).
    exists c, r. split; [exact E|]. tauto.
  - do 2 eexists. split; [reflexivity|]. tauto.
  - destruct (wrap_head 91 93 gap indent
                (map (serialize gap (indent ++ gap)) l)) as [t E].
    rewrite E. do 2 eexists. split; [reflexivity|]. tauto.
  - match goal with
    | |- exists c t, wrap 123 125 gap indent ?p = _ /\ _ =>
        destruct (wrap_head 123 125 gap indent p) as [t E]
    end.
    rewrite E. do 2 eexists. split; [reflexivity|]. tauto.
Qed.

(** The line break and indentation written before each part and before the
    closing bracket. *)
Definition layout (gap indent : jsstring) : jsstring * jsstring :=
  match gap with
  | [] => ([], [])
  | _ :: _ => (10 :: indent ++ gap, 10 :: indent)
  end.

Lemma wrap_nonempty (open close : N) (gap indent : jsstring)
  (p : jsstring) (ps : list jsstring) :
  wrap open close gap indent (p :: ps)
  = open :: fst (layout gap indent)
      ++ join_with (44 :: fst (layout gap indent)) (p :: ps)
      ++ snd (layout gap indent) ++ [close].
Proof.
  unfold wrap, layout. destruct gap as [|g gap]; [reflexivity|].
  cbn [fst snd app]. rewrite <- !app_assoc. reflexivity.
Qed.

Lemma layout_blank (gap indent : jsstring) :
  spaces gap -> spaces indent ->
  blank (fst (layout gap indent)) /\ blank (snd (layout gap indent)).
Proof.
  intros Hg Hi. unfold layout. destruct gap as [|g gap].
  - split; apply blank_nil.
  - split; apply blank_newline, blank_spaces;
      [apply spaces_app; assumption|assumption].
Qed.

Lemma layout_delimited (gap indent : jsstring) (close : N) (rest : jsstring) :
  close = 93 \/ close = 125 ->
  delimited (snd (layout gap indent) ++ close :: rest).
Proof.
  intro H. unfold layout. destruct gap; cbn; tauto.
Qed.

Lemma dispatch_number (fuel : nat) (c : N) (t : jsstring) :
  c = 45 \/ is_digit c = true ->
  parse_value (S fuel) (c :: t)
  = match scan_number (c :: t) with
    | Some (l, r') => Some (JNumber (StringToNumber l), r')
    | None => None
    end.
Proof.
  intro H.
  assert (V : value_start c) by (unfold value_start; tauto).
  destruct (value_start_skip c t V) as (S1 & _ & _).
  cbn [parse_value]. rewrite S1.
  assert (E : (c =? 110) = false /\ (c =? 116) = false /\ (c =? 102) = false
              /\ (c =? 34) = false /\ (c =? 91) = false
              /\ (c =? 123) = false).
  { destruct H as [->|H]; [repeat split; reflexivity|].
    unfold is_digit in H. apply andb_prop in H. destruct H as [H1 H2].
    apply N.leb_le in H1, H2. repeat split; apply N.eqb_neq; lia. }
  destruct E as (E1 & E2 & E3 & E4 & E5 & E6).
  rewrite E1, E2, E3, E4, E5, E6. reflexivity.
Qed.

Lemma join_with_cons (sep a b : jsstring) (l : list jsstring) :
  join_with sep (a :: b :: l) = a ++ sep ++ join_with sep (b :: l).
Proof. reflexivity. Qed.

(** The statement proved by induction on the value. *)
Definition reads_back (v : value) : Prop :=
  well_formed v ->
  forall (gap indent rest : jsstring) (fuel : nat),
    spaces gap -> spaces indent -> delimited rest ->
    (size v <= fuel)%nat ->
    parse_value fuel (serialize gap indent v ++ rest) = Some (v, rest).

Lemma elements_read_back (l : list value) :
  Forall reads_back l -> Forall well_formed l -> l <> [] ->
  forall (gap indent pre post rest : jsstring) (fuel : nat),
    spaces gap -> spaces indent -> blank pre -> blank post ->
    delimited (post ++ 93 :: rest) ->
    (sizes l <= fuel)%nat ->
    parse_elements fuel
      (pre ++ join_with (44 :: pre) (map (serialize gap indent) l)
           ++ post ++ 93 :: rest)
    = Some (l, rest).
Proof.
  induction l as [|x l IH]; intros HP HW Hne; [congruence|].
  intros gap indent pre post rest fuel Hg Hi Hpre Hpost Hd Hf.
  inversion HP as [|? ? Px Pl]; subst.
  inversion HW as [|? ? Wx Wl]; subst.
  cbn [sizes fold_right] in Hf.
  destruct fuel as [|f]; [lia|].
  cbn [parse_elements].
  destruct l as [|x2 l'].
  - cbn [map join_with].
    rewrite parse_value_blank by exact Hpre.
    rewrite (Px Wx gap indent (post ++ 93 :: rest) f Hg Hi Hd)
      by (cbn [sizes fold_right] in Hf; lia).
    rewrite (Hpost (93 :: rest)). reflexivity.
  - cbn [map]. rewrite join_with_cons. cbn [map] in IH.
    rewrite parse_value_blank by exact Hpre.
    rewrite <- !app_assoc.
    rewrite (Px Wx gap indent _ f Hg Hi)
      by (cbn; tauto || (cbn [sizes fold_right] in Hf; lia)).
    cbn [app]. cbn [skip_ws]. cbn -[join_with parse_elements].
    rewrite (IH Pl Wl ltac:(discriminate) gap indent pre post rest f
               Hg Hi Hpre Hpost Hd)
      by (fold (sizes (x2 :: l')) in Hf; lia).
    reflexivity.
Qed.

(** The text of one member of an object. *)
Definition member_text (gap indent : jsstring) (kv : jsstring * value)
  : jsstring :=
  let (k, x) := kv in
  QuoteJSONString k ++ [58]
  ++ match gap with [] => [] | _ :: _ => [32] end
  ++ serialize gap indent x.

Lemma serialize_object (gap indent : jsstring) (o : list (jsstring * value)) :
  serialize gap indent (JObject o)
  = wrap 123 125 gap indent (map (member_text gap (indent ++ gap)) o).
Proof. reflexivity. Qed.

Lemma parse_members_step (f : nat) (t : jsstring)
  (o : list (jsstring * value)) :
  parse_members (S f) (34 :: t) o
  = match parse_chars t with
    | None => None
    | Some (k, r1) =>
        match skip_ws r1 with
        | 58 :: r2 =>
            match parse_value f r2 with
            | None => None
            | Some (v, r3) =>
                match skip_ws r3 with
                | 44 :: r4 => parse_members f r4 (obj_set o k v)
                | 125 :: r4 => Some (obj_set o k v, r4)
                | _ => None
                end
            end
        | _ => None
        end
    end.
Proof. reflexivity. Qed.

Lemma parse_members_blank (fuel : nat) (pre s : jsstring)
  (o : list (jsstring * value)) :
  blank pre -> parse_members fuel (pre ++ s) o = parse_members fuel s o.
Proof.
  intro H. destruct fuel as [|f]; [reflexivity|].
  cbn [parse_members]. rewrite (H s). reflexivity.
Qed.

Lemma blank_gap_space (gap : jsstring) :
  blank match gap with [] => [] | _ :: _ => [32] end.
Proof. destruct gap; intro t; reflexivity. Qed.

Lemma members_read_back (o : list (jsstring * value)) :
  Forall (fun kv => reads_back (snd kv)) o ->
  Forall (fun kv => well_formed (snd kv)) o -> o <> [] ->
  forall (gap indent pre post rest : jsstring) (fuel : nat)
         (acc : list (jsstring * value)),
    spaces gap -> spaces indent -> blank pre -> blank post ->
    delimited (post ++ 125 :: rest) ->
    (member_sizes o <= fuel)%nat ->
    parse_members fuel
      (pre ++ join_with (44 :: pre) (map (member_text gap indent) o)
           ++ post ++ 125 :: rest) acc
    = Some (fold_left (fun a kv => obj_set a (fst kv) (snd kv)) o acc, rest).
Proof.
  induction o as [|[k x] o IH]; intros HP HW Hne; [congruence|].
  intros gap indent pre post rest fuel acc Hg Hi Hpre Hpost Hd Hf.
  inversion HP as [|? ? Px Pl]; subst.
  inversion HW as [|? ? Wx Wl]; subst.
  cbn [snd] in Px, Wx.
  cbn [member_sizes fold_right snd] in Hf.
  destruct fuel as [|f]; [lia|].
  rewrite parse_members_blank by exact Hpre.
  destruct o as [|kv2 o'].
  - cbn [map join_with member_text]. unfold QuoteJSONString.
    rewrite <- !app_assoc. cbn [app].
    rewrite parse_members_step, parse_chars_quote_chars.
    cbn [skip_ws]. cbn -[parse_value parse_members serialize obj_set].
    rewrite parse_value_blank by apply blank_gap_space.
    rewrite (Px Wx gap indent (post ++ 125 :: rest) f Hg Hi Hd) by lia.
    rewrite (Hpost (125 :: rest)). reflexivity.
  - cbn [map]. rewrite join_with_cons. cbn [map] in IH.
    cbn [member_text]. unfold QuoteJSONString.
    rewrite <- !app_assoc. cbn [app].
    rewrite parse_members_step, parse_chars_quote_chars.
    cbn [skip_ws]. cbn -[parse_value parse_members serialize obj_set join_with].
    rewrite parse_value_blank by apply blank_gap_space.
    rewrite (Px Wx gap indent _ f Hg Hi) by (cbn; tauto || lia).
    cbn [skip_ws]. cbn -[parse_value parse_members serialize obj_set join_with].
    rewrite (IH Pl Wl ltac:(discriminate) gap indent pre post rest f
               (obj_set acc k x) Hg Hi Hpre Hpost Hd)
      by (fold (member_sizes (kv2 :: o')) in Hf; lia).
    reflexivity.
Qed.

Lemma join_with_head (sep : jsstring) (c : N) (p : jsstring)
  (ps : list jsstring) :
  exists t, join_with sep ((c :: p) :: ps) = c :: t.
Proof. destruct ps; eexists; reflexivity. Qed.

Lemma parse_value_array (f : nat) (t : jsstring) :
  parse_value (S f) (91 :: t)
  = let elements :=
      match parse_elements f t with
      | Some (l, r') => Some (JArray l, r')
      | None => None
      end in
    match skip_ws t with
    | c' :: r' => if c' =? 93 then Some (JArray [], r') else elements
    | [] => elements
    end.
Proof. reflexivity. Qed.

Lemma parse_value_object (f : nat) (t : jsstring) :
  parse_value (S f) (123 :: t)
  = let members :=
      match parse_members f t [] with
      | Some (o, r') => Some (JObject o, r')
      | None => None
      end in
    match skip_ws t with
    | c' :: r' => if c' =? 125 then Some (JObject [], r') else members
    | [] => members
    end.
Proof. reflexivity. Qed.

Lemma parse_value_string (f : nat) (t : jsstring) :
  parse_value (S f) (34 :: t)
  = match parse_chars t with
    | Some (str, r') => Some (JString str, r')
    | None => None
    end.
Proof. reflexivity. Qed.

Lemma serialize_array (gap indent : jsstring) (l : list value) :
  serialize gap indent (JArray l)
  = wrap 91 93 gap indent (map (serialize gap (indent ++ gap)) l).
Proof. reflexivity. Qed.

Lemma skip_ws_join (sep p tail : jsstring) (ps : list jsstring) :
  (exists c t, p = c :: t /\ value_start c) ->
  exists c t,
    skip_ws (join_with sep (p :: ps) ++ tail) = c :: t
    /\ (c =? 93) = false /\ (c =? 125) = false.
Proof.
  intros (c & t & -> & V).
  destruct (join_with_head sep c t ps) as [t' E]. rewrite E. cbn [app].
  destruct (value_start_skip c (t' ++ tail) V) as (S1 & S2 & S3).
  exists c, (t' ++ tail). repeat split; assumption.
Qed.

Lemma size_positive (v : value) : (1 <= size v)%nat.
Proof. destruct v; cbn [size]; lia. Qed.

Theorem serialize_reads_back (v : value) : reads_back v.
Proof.
  induction v using value_ind; unfold reads_back;
    intros W gap indent rest fuel Hg Hi Hd Hf.
  - destruct fuel as [|f]; [cbn in Hf; lia|]. reflexivity.
  - destruct fuel as [|f]; [cbn in Hf; lia|]. destruct b; reflexivity.
  - destruct fuel as [|f]; [cbn in Hf; lia|].
    cbn [well_formed] in W. cbn [serialize]. rewrite W.
    destruct (number_literal_head _ (NumberToString_literal n W))
      as (c & r & E & H).
    pose proof (scan_number_app _ rest (NumberToString_literal n W) Hd) as Sc.
    rewrite E in *. cbn [app] in *.
    rewrite dispatch_number by exact H.
    rewrite Sc. rewrite <- E.
    rewrite StringToNumber_NumberToString by exact W. reflexivity.
  - destruct fuel as [|f]; [cbn in Hf; lia|].
    cbn [serialize]. unfold QuoteJSONString.
    rewrite <- !app_assoc. cbn [app].
    rewrite parse_value_string, parse_chars_quote_chars. reflexivity.
  - rewrite size_array in Hf.
    destruct fuel as [|f]; [lia|].
    apply well_formed_array in W.
    destruct l as [|x l]; [reflexivity|].
    rewrite serialize_array. cbn [map]. rewrite wrap_nonempty.
    destruct (layout_blank gap indent Hg Hi) as [Bpre Bpost].
    cbn [app]. rewrite parse_value_array.
    assert (Wx : well_formed x) by (inversion W; assumption).
    rewrite <- !app_assoc.
    rewrite (Bpre _).
    destruct (skip_ws_join (44 :: fst (layout gap indent))
                (serialize gap (indent ++ gap) x)
                (snd (layout gap indent) ++ [93] ++ rest)
                (map (serialize gap (indent ++ gap)) l)
                (serialize_head gap (indent ++ gap) x Wx))
      as (c & t & S1 & S2 & _).
    rewrite S1, S2. cbv zeta.
    change (serialize gap (indent ++ gap) x
              :: map (serialize gap (indent ++ gap)) l)
      with (map (serialize gap (indent ++ gap)) (x :: l)).
    cbn [app].
    rewrite (elements_read_back (x :: l) H W ltac:(discriminate)
               gap (indent ++ gap) _ _ rest f Hg
               (spaces_app _ _ Hi Hg) Bpre Bpost
               (layout_delimited gap indent 93 rest (or_introl eq_refl)))
      by lia.
    reflexivity.
  - rewrite size_object in Hf.
    destruct fuel as [|f]; [lia|].
    apply well_formed_object in W. destruct W as [Wb W].
    destruct o as [|[k x] o]; [reflexivity|].
    rewrite serialize_object. cbn [map]. rewrite wrap_nonempty.
    destruct (layout_blank gap indent Hg Hi) as [Bpre Bpost].
    cbn [app]. rewrite parse_value_object.
    rewrite <- !app_assoc.
    rewrite (Bpre _).
    destruct (skip_ws_join (44 :: fst (layout gap indent))
                (member_text gap (indent ++ gap) (k, x))
                (snd (layout gap indent) ++ [125] ++ rest)
                (map (member_text gap (indent ++ gap)) o))
      as (c & t & S1 & _ & S2).
    { cbn [member_text]. unfold QuoteJSONString. cbn [app].
      do 2 eexists. split; [reflexivity|]. unfold value_start. tauto. }
    rewrite S1, S2. cbv zeta.
    change (member_text gap (indent ++ gap) (k, x)
              :: map (member_text gap (indent ++ gap)) o)
      with (map (member_text gap (indent ++ gap)) ((k, x) :: o)).
    cbn [app].
    rewrite (members_read_back ((k, x) :: o) H W ltac:(discriminate)
               gap (indent ++ gap) _ _ rest f [] Hg
               (spaces_app _ _ Hi Hg) Bpre Bpost
               (layout_delimited gap indent 125 rest
                  (or_intror eq_refl)))
      by lia.
    unfold build_object in Wb. rewrite Wb. reflexivity.
Qed.

(** Every parser call reads a character: a serialization is at least as
    long as the number of calls its value needs. *)
Lemma join_length (A : Type) (sz : A -> nat) (txt : A -> jsstring)
  (c : N) (sep : jsstring) (l : list A) :
  Forall (fun a => (sz a <= List.length (txt a))%nat) l ->
  (fold_right (fun a n => S (sz a + n)) O l
   <= List.length (join_with (c :: sep) (map txt l)) + 1)%nat.
Proof.
  induction l as [|a l IH]; intro H; [cbn; lia|].
  inversion H as [|? ? Ha Hl]; subst. specialize (IH Hl).
  destruct l as [|b l'].
  - cbn [map join_with fold_right]. lia.
  - cbn [map]. rewrite join_with_cons. cbn [map] in IH.
    rewrite !length_app. cbn [List.length].
    change (fold_right (fun a n => S (sz a + n)) O (a :: b :: l'))
      with (S (sz a + fold_right (fun a n => S (sz a + n)) O (b :: l'))).
    lia.
Qed.

Lemma size_le_length (v : value) :
  well_formed v ->
  forall gap indent, (size v <= List.length (serialize gap indent v))%nat.
Proof.
  induction v using value_ind; intros W gap indent.
  - cbn. lia.
  - destruct b; cbn; lia.
  - cbn [well_formed] in W. cbn [serialize size]. rewrite W.
    destruct (number_literal_head _ (NumberToString_literal n W))
      as (c & r & E & _).
    rewrite E. cbn [List.length]. lia.
  - cbn [serialize size]. unfold QuoteJSONString.
    rewrite !length_app. cbn [List.length]. lia.
  - rewrite size_array, serialize_array.
    apply well_formed_array in W.
    destruct l as [|x l]; [cbn; lia|].
    cbn [map]. rewrite wrap_nonempty.
    cbn [List.length]. rewrite !length_app.
    assert (J : Forall (fun a => (size a
                 <= List.length (serialize gap (indent ++ gap) a))%nat)
                 (x :: l)).
    { clear - H W. induction H as [|a l' Ha Hl IH]; [constructor|].
      inversion W; subst. constructor; [apply Ha; assumption|].
      apply IH; assumption. }
    pose proof (join_length value size (serialize gap (indent ++ gap)) 44
                  (fst (layout gap indent)) (x :: l) J) as L.
    cbn [map] in L. unfold sizes. cbn [List.length]. lia.
  - rewrite size_object, serialize_object.
    apply well_formed_object in W. destruct W as [_ W].
    destruct o as [|kv o]; [cbn; lia|].
    cbn [map]. rewrite wrap_nonempty.
    cbn [List.length]. rewrite !length_app.
    assert (J : Forall (fun a => (size (snd a)
                 <= List.length (member_text gap (indent ++ gap) a))%nat)
                 (kv :: o)).
    { clear - H W. induction H as [|a l' Ha Hl IH]; [constructor|].
      inversion W; subst. constructor; [|apply IH; assumption].
      destruct a as [k x]. cbn [snd member_text] in *.
      rewrite !length_app.
      specialize (Ha ltac:(assumption) gap (indent ++ gap)). lia. }
    pose proof (join_length _ (fun a => size (snd a))
                  (member_text gap (indent ++ gap)) 44
                  (fst (layout gap indent)) (kv :: o) J) as L.
    cbn [map] in L. unfold member_sizes. cbn [List.length]. lia.
Qed.

(** [JSON.parse] gives back every well-formed value that [JSON.stringify]
    has written, whatever the indentation. *)
Theorem parse_serialize (v : value) (gap : jsstring) :
  well_formed v -> spaces gap ->
  parse (serialize gap [] v) = Normal v.
Proof.
  intros W Hg. unfold parse.
  pose proof (serialize_reads_back v W gap [] []
                (S (List.length (serialize gap [] v))) Hg
                (Forall_nil _) I) as R.
  rewrite app_nil_r in R. rewrite R; [reflexivity|].
  pose proof (size_le_length v W gap []). lia.
Qed.

Corollary parse_stringify (v : value) :
  well_formed v -> parse (stringify v) = Normal v.
Proof. intro W. apply parse_serialize; [exact W|constructor]. Qed.

Corollary parse_stringify_indent (v : value) (space : N) :
  well_formed v -> parse (stringify_indent v space) = Normal v.
Proof.
  intro W. apply parse_serialize; [exact W|].
  unfold spaces. apply Forall_forall. intros c Hc.
  apply repeat_spec in Hc. exact Hc.
Qed.

End WithNumber.
End JSONRoundTrip.

(** ** The two layouts: the compact form and the pretty form *)
Module JSONLayout.
Import JSON JSONRoundTrip.

Definition is_json_ws (c : N) : bool :=
  (c =? 32) || (c =? 9) || (c =? 10) || (c =? 13).

(** The white space characters of a text. *)
Definition layout_count (s : jsstring) : nat :=
  List.length (filter is_json_ws s).

Definition count_spaces (s : jsstring) : nat :=
  List.length (filter (N.eqb 32) s).

Lemma layout_count_app (a b : jsstring) :
  layout_count (a ++ b) = (layout_count a + layout_count b)%nat.
Proof. unfold layout_count. rewrite filter_app, length_app. reflexivity. Qed.

Lemma layout_count_above (c : N) : 32 < c -> is_json_ws c = false.
Proof.
  intro H. unfold is_json_ws.
  replace (c =? 32) with false by (symmetry; apply N.eqb_neq; lia).
  replace (c =? 9) with false by (symmetry; apply N.eqb_neq; lia).
  replace (c =? 10) with false by (symmetry; apply N.eqb_neq; lia).
  replace (c =? 13) with false by (symmetry; apply N.eqb_neq; lia).
  reflexivity.
Qed.

Lemma layout_count_cons_above (c : N) (s : jsstring) :
  32 < c -> layout_count (c :: s) = layout_count s.
Proof.
  intro H. unfold layout_count. cbn [filter].
  rewrite (layout_count_above c H). reflexivity.
Qed.

Lemma count_spaces_cons_other (c : N) (s : jsstring) :
  c <> 32 -> count_spaces (c :: s) = count_spaces s.
Proof.
  intro H. unfold count_spaces. cbn [filter].
  replace (32 =? c) with false by (symmetry; apply N.eqb_neq; lia).
  reflexivity.
Qed.

Lemma hex_digit_above (d : N) : 32 < hex_digit d.
Proof. unfold hex_digit. destruct (d <? 10); lia. Qed.

Lemma layout_count_unicode_escape (c : N) (s : jsstring) :
  layout_count (unicode_escape c ++ s) = layout_count s.
Proof.
  unfold unicode_escape. cbn [app].
  rewrite !layout_count_cons_above; (reflexivity || apply hex_digit_above || lia).
Qed.

Lemma layout_count_escape_char (c : N) (s : jsstring) :
  layout_count (escape_char c ++ s)
  = (count_spaces [c] + layout_count s)%nat.
Proof.
  unfold escape_char.
  destruct (c =? 8) eqn:E8; [apply N.eqb_eq in E8; subst; reflexivity|].
  destruct (c =? 9) eqn:E9; [apply N.eqb_eq in E9; subst; reflexivity|].
  destruct (c =? 10) eqn:E10; [apply N.eqb_eq in E10; subst; reflexivity|].
  destruct (c =? 12) eqn:E12; [apply N.eqb_eq in E12; subst; reflexivity|].
  destruct (c =? 13) eqn:E13; [apply N.eqb_eq in E13; subst; reflexivity|].
  destruct (c =? 34) eqn:E34; [apply N.eqb_eq in E34; subst; reflexivity|].
  destruct (c =? 92) eqn:E92; [apply N.eqb_eq in E92; subst; reflexivity|].
  destruct (c <? 32) eqn:E32.
  - apply N.ltb_lt in E32. rewrite layout_count_unicode_escape.
    rewrite count_spaces_cons_other by lia. reflexivity.
  - apply N.ltb_ge in E32. cbn [app].
    unfold layout_count, count_spaces. cbn [filter]. unfold is_json_ws.
    apply N.eqb_neq in E9, E10, E13.
    replace (c =? 9) with false by (symmetry; apply N.eqb_neq; lia).
    replace (c =? 10) with false by (symmetry; apply N.eqb_neq; lia).
    replace (c =? 13) with false by (symmetry; apply N.eqb_neq; lia).
    rewrite !orb_false_r. rewrite (N.eqb_sym 32 c).
    destruct (c =? 32); reflexivity.
Qed.

Lemma layout_count_quote_chars (s : jsstring) :
  layout_count (quote_chars s) = count_spaces s.
Proof.
  remember (List.length s) as n eqn:Hn.
  revert s Hn. induction n as [n IH] using lt_wf_ind. intros s Hn.
  destruct s as [|c r]; [reflexivity|].
  cbn [quote_chars].
  destruct (is_high_surrogate c) eqn:Hh.
  - destruct (JSONStrings.surrogate_plain c (or_introl Hh)) as (P1 & P2 & P3 & P4).
    unfold is_high_surrogate in Hh. apply andb_prop in Hh.
    destruct Hh as [Hh1 Hh2]. apply N.leb_le in Hh1.
    rewrite (count_spaces_cons_other c r) by lia.
    destruct r as [|c2 r'].
    + rewrite <- (app_nil_r (unicode_escape c)).
      rewrite layout_count_unicode_escape. reflexivity.
    + destruct (is_low_surrogate c2) eqn:Hl2.
      * unfold is_low_surrogate in Hl2. apply andb_prop in Hl2.
        destruct Hl2 as [Hl1 _]. apply N.leb_le in Hl1.
        rewrite !layout_count_cons_above by lia.
        rewrite (count_spaces_cons_other c2 r') by lia.
        apply (IH (List.length r')); [subst n; cbn; lia|reflexivity].
      * rewrite layout_count_unicode_escape.
        apply (IH (List.length (c2 :: r'))); [subst n; cbn; lia|reflexivity].
  - destruct (is_low_surrogate c) eqn:Hl.
    + unfold is_low_surrogate in Hl. apply andb_prop in Hl.
      destruct Hl as [Hl1 _]. apply N.leb_le in Hl1.
      rewrite layout_count_unicode_escape.
      rewrite (count_spaces_cons_other c r) by lia.
      apply (IH (List.length r)); [subst n; cbn; lia|reflexivity].
    + rewrite layout_count_escape_char.
      rewrite (IH (List.length r) ltac:(subst n; cbn; lia) r eq_refl).
      unfold count_spaces. cbn [filter].
      destruct (32 =? c); reflexivity.
Qed.

Lemma layout_count_QuoteJSONString (s : jsstring) :
  layout_count (QuoteJSONString s) = count_spaces s.
Proof.
  unfold QuoteJSONString. rewrite !layout_count_app.
  rewrite layout_count_quote_chars. cbn. lia.
Qed.

(** Number literals hold no white space. *)
Definition number_char (c : N) : Prop := 32 < c.

Lemma scan_digits_chars (s ds r : jsstring) :
  scan_digits s = (ds, r) -> Forall number_char ds.
Proof.
  revert ds r. induction s as [|c s IH]; intros ds r H; cbn in H.
  - injection H as <- <-. constructor.
  - destruct (is_digit c) eqn:D.
    + destruct (scan_digits s) as [ds' r'] eqn:E. injection H as <- <-.
      constructor; [|apply (IH ds' r' eq_refl)].
      unfold is_digit in D. apply andb_prop in D. destruct D as [D _].
      apply N.leb_le in D. unfold number_char. lia.
    + injection H as <- <-. constructor.
Qed.

Lemma number_literal_chars (l : jsstring) :
  is_number_literal l = true -> Forall number_char l.
Proof.
  unfold is_number_literal. intro H.
  destruct (scan_number l) as [[l' r]|] eqn:E; [|discriminate H].
  destruct r; [|discriminate H].
  apply jsstring_eqb_eq in H. subst l'.
  unfold scan_number in E.
  destruct (scan_sign l) as [sign s1] eqn:Es.
  destruct (scan_int s1) as [[i s2]|] eqn:Ei; [|discriminate E].
  destruct (scan_frac s2) as [[f s3]|] eqn:Ef; [|discriminate E].
  destruct (scan_exp s3) as [[e s4]|] eqn:Ee; [|discriminate E].
  injection E as E1 E2. rewrite <- E1.
  apply Forall_app; split;
    [|apply Forall_app; split; [|apply Forall_app; split]].
  - unfold scan_sign in Es. destruct l as [|c l0].
    + injection Es as <- <-. constructor.
    + destruct (c =? 45) eqn:C; injection Es as <- <-; [|constructor].
      apply N.eqb_eq in C. subst c. constructor; [|constructor].
      unfold number_char. lia.
  - unfold scan_int in Ei. destruct s1 as [|c s1']; [discriminate Ei|].
    destruct (c =? 48) eqn:C.
    + injection Ei as <- <-. apply N.eqb_eq in C. subst c.
      constructor; [unfold number_char; lia|constructor].
    + destruct (is_digit c) eqn:D; [|discriminate Ei].
      destruct (scan_digits s1') as [ds r'] eqn:Ed. injection Ei as <- <-.
      constructor; [|apply (scan_digits_chars _ _ _ Ed)].
      unfold is_digit in D. apply andb_prop in D. destruct D as [D _].
      apply N.leb_le in D. unfold number_char. lia.
  - unfold scan_frac in Ef. destruct s2 as [|c s2'].
    + injection Ef as <- <-. constructor.
    + destruct (c =? 46) eqn:C.
      * destruct (scan_digits s2') as [ds r'] eqn:Ed.
        destruct ds as [|d ds]; [discriminate Ef|].
        injection Ef as <- <-. apply N.eqb_eq in C. subst c.
        constructor; [unfold number_char; lia|].
        apply (scan_digits_chars _ _ _ Ed).
      * injection Ef as <- <-. constructor.
  - unfold scan_exp, scan_exp_digits in Ee. destruct s3 as [|c s3'].
    + injection Ee as <- <-. constructor.
    + destruct ((c =? 101) || (c =? 69)) eqn:C.
      * assert (Hc : number_char c).
        { apply orb_prop in C. unfold number_char.
          destruct C as [C|C]; apply N.eqb_eq in C; lia. }
        destruct s3' as [|sg r1]; [discriminate Ee|].
        destruct ((sg =? 43) || (sg =? 45)) eqn:S.
        -- destruct (scan_digits r1) as [ds r'] eqn:Ed.
           destruct ds as [|d ds]; [discriminate Ee|].
           injection Ee as <- <-. cbn [app].
           constructor; [exact Hc|]. constructor.
           { apply orb_prop in S. unfold number_char.
             destruct S as [S|S]; apply N.eqb_eq in S; lia. }
           apply (scan_digits_chars _ _ _ Ed).
        -- destruct (scan_digits (sg :: r1)) as [ds r'] eqn:Ed.
           destruct ds as [|d ds]; [discriminate Ee|].
           injection Ee as <- <-. cbn [app].
           constructor; [exact Hc|]. apply (scan_digits_chars _ _ _ Ed).
      * injection Ee as <- <-. constructor.
Qed.

Lemma layout_count_number_chars (l : jsstring) :
  Forall number_char l -> layout_count l = O.
Proof.
  induction 1 as [|c l Hc Hl IH]; [reflexivity|].
  rewrite layout_count_cons_above by exact Hc. exact IH.
Qed.

Section WithNumber.

Context {EN : ECMANumber}.

(** The spaces of a document: those of its strings and keys. *)
Fixpoint string_spaces (v : value) : nat :=
  match v with
  | JString s => count_spaces s
  | JArray l =>
      (fix sum (l : list value) : nat :=
         match l with
         | [] => O
         | x :: l' => (string_spaces x + sum l')%nat
         end) l
  | JObject o =>
      (fix sum (o : list (jsstring * value)) : nat :=
         match o with
         | [] => O
         | (k, x) :: o' => (count_spaces k + string_spaces x + sum o')%nat
         end) o
  | _ => O
  end.

Lemma layout_count_join (A : Type) (txt : A -> jsstring) (cnt : A -> nat)
  (l : list A) :
  Forall (fun a => layout_count (txt a) = cnt a) l ->
  layout_count (join_with [44] (map txt l))
  = fold_right (fun a n => (cnt a + n)%nat) O l.
Proof.
  induction l as [|a l IH]; intro H; [reflexivity|].
  inversion H as [|? ? Ha Hl]; subst. specialize (IH Hl).
  destruct l as [|b l'].
  - cbn [map join_with fold_right]. rewrite Ha. lia.
  - cbn [map]. rewrite join_with_cons. cbn [map] in IH.
    rewrite !layout_count_app, IH, Ha.
    cbn [fold_right]. cbn. lia.
Qed.

Lemma layout_count_wrap_compact (open close : N) (indent : jsstring)
  (parts : list jsstring) :
  32 < open -> 32 < close ->
  layout_count (wrap open close [] indent parts)
  = layout_count (join_with [44] parts).
Proof.
  intros Ho Hc. unfold wrap. destruct parts as [|p ps].
  - rewrite !layout_count_cons_above by assumption. reflexivity.
  - cbn [app]. rewrite layout_count_cons_above by assumption.
    rewrite layout_count_app.
    rewrite (layout_count_cons_above close []) by assumption.
    cbn. lia.
Qed.

(** The white space of the compact form is the spaces of the document's own
    strings and keys: [JSON.stringify(v)] inserts none. *)
Theorem compact_inserts_no_white_space (v : value) (indent : jsstring) :
  layout_count (serialize [] indent v) = string_spaces v.
Proof.
  revert indent. induction v using value_ind; intro indent.
  - reflexivity.
  - destruct b; reflexivity.
  - cbn [serialize string_spaces]. destruct (isFinite n) eqn:F; [|reflexivity].
    apply layout_count_number_chars, number_literal_chars.
    apply NumberToString_literal. exact F.
  - cbn [serialize string_spaces]. apply layout_count_QuoteJSONString.
  - rewrite serialize_array.
    rewrite layout_count_wrap_compact by lia.
    rewrite (layout_count_join value (serialize [] (indent ++ []))
               string_spaces l).
    + cbn [string_spaces]. induction l as [|x l IHl]; [reflexivity|].
      cbn [fold_right]. inversion H; subst. rewrite IHl by assumption.
      reflexivity.
    + apply Forall_forall. intros x Hx.
      rewrite Forall_forall in H. apply (H x Hx).
  - rewrite serialize_object.
    rewrite layout_count_wrap_compact by lia.
    rewrite (layout_count_join _ (member_text [] (indent ++ []))
               (fun kv => (count_spaces (fst kv) + string_spaces (snd kv))%nat)
               o).
    + cbn [string_spaces]. induction o as [|[k x] o IHo]; [reflexivity|].
      cbn [fold_right fst snd]. inversion H; subst.
      rewrite IHo by assumption. lia.
    + apply Forall_forall. intros [k x] Hx.
      rewrite Forall_forall in H. specialize (H (k, x) Hx).
      cbn [member_text fst snd] in *.
      rewrite !layout_count_app, layout_count_QuoteJSONString, H.
      cbn. lia.
Qed.

(** *** The pretty form

    One item per line. An array or object that is not empty opens on the
    line where it starts, has each element or member on lines of its own,
    one level deeper, each but the last followed by a comma, and closes on
    a line of its own at the level where it opened. A line starts with two
    spaces for every level of nesting, and a member is written as its key,
    a colon, one space and its value. *)

(** The indentation at a level of nesting. *)
Definition indentation (depth : nat) : jsstring := repeat 32 (2 * depth).

(** A line: its level of nesting and its text after the indentation. *)
Definition line_text (l : nat * jsstring) : jsstring :=
  indentation (fst l) ++ snd l.

(** The lines of a text, separated by line feeds. *)
Definition lines_text (ls : list (nat * jsstring)) : jsstring :=
  join_with [10] (map line_text ls).

(** The lines of [v] at level [depth]; [head] is what the first line holds
    before the value (a key and its colon) and [tail] what the last line
    holds after it (a comma). *)
Fixpoint pretty_lines (depth : nat) (head : jsstring) (v : value)
  (tail : jsstring) : list (nat * jsstring) :=
  match v with
  | JArray ((_ :: _) as l) =>
      (depth, head ++ [91])
      :: (fix elements (l : list value) : list (nat * jsstring) :=
            match l with
            | [] => []
            | [x] => pretty_lines (S depth) [] x []
            | x :: l' => pretty_lines (S depth) [] x [44] ++ elements l'
            end) l
      ++ [(depth, [93] ++ tail)]
  | JObject ((_ :: _) as o) =>
      (depth, head ++ [123])
      :: (fix members (o : list (jsstring * value))
            : list (nat * jsstring) :=
            match o with
            | [] => []
            | [(k, x)] =>
                pretty_lines (S depth) (QuoteJSONString k ++ [58; 32]) x []
            | (k, x) :: o' =>
                pretty_lines (S depth) (QuoteJSONString k ++ [58; 32]) x [44]
                ++ members o'
            end) o
      ++ [(depth, [125] ++ tail)]
  | _ => [(depth, head ++ stringify v ++ tail)]
  end.

(** The pretty form of a document. *)
Definition pretty (v : value) : jsstring :=
  lines_text (pretty_lines 0 [] v []).

(** The lines of the elements of an array and of the members of an object
    opened at level [depth], as [pretty_lines] lists them. *)
Definition element_lines (depth : nat) : list value -> list (nat * jsstring) :=
  fix elements (l : list value) : list (nat * jsstring) :=
    match l with
    | [] => []
    | [x] => pretty_lines (S depth) [] x []
    | x :: l' => pretty_lines (S depth) [] x [44] ++ elements l'
    end.

Definition member_lines (depth : nat)
  : list (jsstring * value) -> list (nat * jsstring) :=
  fix members (o : list (jsstring * value)) : list (nat * jsstring) :=
    match o with
    | [] => []
    | [(k, x)] =>
        pretty_lines (S depth) (QuoteJSONString k ++ [58; 32]) x []
    | (k, x) :: o' =>
        pretty_lines (S depth) (QuoteJSONString k ++ [58; 32]) x [44]
        ++ members o'
    end.

Lemma pretty_lines_array (depth : nat) (head tail : jsstring) (x : value)
  (l : list value) :
  pretty_lines depth head (JArray (x :: l)) tail
  = (depth, head ++ [91]) :: element_lines depth (x :: l)
    ++ [(depth, [93] ++ tail)].
Proof. reflexivity. Qed.

Lemma pretty_lines_object (depth : nat) (head tail : jsstring)
  (kv : jsstring * value) (o : list (jsstring * value)) :
  pretty_lines depth head (JObject (kv :: o)) tail
  = (depth, head ++ [123]) :: member_lines depth (kv :: o)
    ++ [(depth, [125] ++ tail)].
Proof. reflexivity. Qed.

Lemma pretty_lines_nonempty (depth : nat) (head tail : jsstring) (v : value) :
  pretty_lines depth head v tail <> [].
Proof. destruct v as [| | | |[|x l]|[|kv o]]; discriminate. Qed.

Lemma indentation_step (depth : nat) :
  indentation depth ++ [32; 32] = indentation (S depth).
Proof.
  unfold indentation.
  replace (2 * S depth)%nat with (2 * depth + 2)%nat by lia.
  rewrite repeat_app. reflexivity.
Qed.

Lemma join_with_app (sep : jsstring) (a b : list jsstring) :
  a <> [] -> b <> [] ->
  join_with sep (a ++ b) = join_with sep a ++ sep ++ join_with sep b.
Proof.
  intros Ha Hb. induction a as [|p a IH]; [congruence|].
  destruct a as [|q a].
  - destruct b as [|r b]; [congruence|]. reflexivity.
  - cbn [app]. rewrite !join_with_cons. cbn [app] in IH.
    rewrite IH by discriminate. rewrite <- !app_assoc. reflexivity.
Qed.

Lemma lines_text_app (a b : list (nat * jsstring)) :
  a <> [] -> b <> [] ->
  lines_text (a ++ b) = lines_text a ++ [10] ++ lines_text b.
Proof.
  intros Ha Hb. unfold lines_text. rewrite map_app.
  apply join_with_app.
  - destruct a; [congruence|discriminate].
  - destruct b; [congruence|discriminate].
Qed.

Lemma lines_text_one (l : nat * jsstring) : lines_text [l] = line_text l.
Proof. reflexivity. Qed.

(** The text of the lines of a value is what the serializer writes with a
    gap of two spaces at that level. *)
Definition written_as_lines (v : value) : Prop :=
  forall (depth : nat) (head tail : jsstring),
    lines_text (pretty_lines depth head v tail)
    = indentation depth ++ head
      ++ serialize [32; 32] (indentation depth) v ++ tail.

Lemma element_lines_text (depth : nat) (x : value) (l : list value) :
  Forall written_as_lines (x :: l) ->
  element_lines depth (x :: l) <> []
  /\ lines_text (element_lines depth (x :: l))
     = indentation (S depth)
       ++ join_with ([44; 10] ++ indentation (S depth))
            (map (serialize [32; 32] (indentation (S depth))) (x :: l)).
Proof.
  revert x. induction l as [|y l IH]; intros x H.
  - inversion H as [|? ? Hx _]; subst. split.
    + apply pretty_lines_nonempty.
    + cbn [element_lines map join_with]. rewrite Hx.
      rewrite app_nil_r. reflexivity.
  - inversion H as [|? ? Hx Hl]; subst.
    destruct (IH y Hl) as [N E]. split.
    + change (element_lines depth (x :: y :: l))
        with (pretty_lines (S depth) [] x [44]
              ++ element_lines depth (y :: l)).
      intro A. apply app_eq_nil in A. destruct A as [A _].
      exact (pretty_lines_nonempty _ _ _ _ A).
    + change (element_lines depth (x :: y :: l))
        with (pretty_lines (S depth) [] x [44]
              ++ element_lines depth (y :: l)).
      rewrite lines_text_app by (apply pretty_lines_nonempty || exact N).
      rewrite E, Hx. cbn [map]. rewrite join_with_cons.
      cbn [map] in *. cbn [app]. rewrite <- !app_assoc. reflexivity.
Qed.

Lemma member_lines_text (depth : nat) (kv : jsstring * value)
  (o : list (jsstring * value)) :
  Forall (fun kv => written_as_lines (snd kv)) (kv :: o) ->
  member_lines depth (kv :: o) <> []
  /\ lines_text (member_lines depth (kv :: o))
     = indentation (S depth)
       ++ join_with ([44; 10] ++ indentation (S depth))
            (map (member_text [32; 32] (indentation (S depth))) (kv :: o)).
Proof.
  revert kv. induction o as [|kv' o IH]; intros [k x] H.
  - inversion H as [|? ? Hx _]; subst. cbn [snd] in Hx. split.
    + apply pretty_lines_nonempty.
    + cbn [member_lines map join_with member_text]. rewrite Hx.
      rewrite app_nil_r. rewrite <- !app_assoc. reflexivity.
  - inversion H as [|? ? Hx Hl]; subst. cbn [snd] in Hx.
    destruct (IH kv' Hl) as [N E]. split.
    + change (member_lines depth ((k, x) :: kv' :: o))
        with (pretty_lines (S depth) (QuoteJSONString k ++ [58; 32]) x [44]
              ++ member_lines depth (kv' :: o)).
      intro A. apply app_eq_nil in A. destruct A as [A _].
      exact (pretty_lines_nonempty _ _ _ _ A).
    + change (member_lines depth ((k, x) :: kv' :: o))
        with (pretty_lines (S depth) (QuoteJSONString k ++ [58; 32]) x [44]
              ++ member_lines depth (kv' :: o)).
      rewrite lines_text_app by (apply pretty_lines_nonempty || exact N).
      rewrite E, Hx. cbn [map]. rewrite join_with_cons.
      cbn [map member_text] in *. cbn [app]. rewrite <- !app_assoc.
      reflexivity.
Qed.

Lemma written_as_lines_all (v : value) : written_as_lines v.
Proof.
  induction v using value_ind; intros depth head tail.
  - reflexivity.
  - destruct b; reflexivity.
  - reflexivity.
  - reflexivity.
  - destruct l as [|x l].
    + unfold lines_text. cbn. reflexivity.
    + rewrite pretty_lines_array, serialize_array.
      destruct (element_lines_text depth x l H) as [N E].
      change ((depth, head ++ [91])
              :: element_lines depth (x :: l) ++ [(depth, [93] ++ tail)])
        with ([(depth, head ++ [91])]
              ++ element_lines depth (x :: l) ++ [(depth, [93] ++ tail)]).
      rewrite lines_text_app;
        [|discriminate
         |intro A; apply app_eq_nil in A; destruct A as [A _]; exact (N A)].
      rewrite lines_text_app by (exact N || discriminate).
      rewrite E, !lines_text_one. unfold wrap, line_text.
      cbn [map fst snd]. rewrite !indentation_step.
      rewrite <- !app_assoc. reflexivity.
  - destruct o as [|kv o].
    + unfold lines_text. cbn. reflexivity.
    + rewrite pretty_lines_object, serialize_object.
      destruct (member_lines_text depth kv o H) as [N E].
      change ((depth, head ++ [123])
              :: member_lines depth (kv :: o) ++ [(depth, [125] ++ tail)])
        with ([(depth, head ++ [123])]
              ++ member_lines depth (kv :: o) ++ [(depth, [125] ++ tail)]).
      rewrite lines_text_app;
        [|discriminate
         |intro A; apply app_eq_nil in A; destruct A as [A _]; exact (N A)].
      rewrite lines_text_app by (exact N || discriminate).
      rewrite E, !lines_text_one. unfold wrap, line_text.
      cbn [map fst snd]. rewrite !indentation_step.
      rewrite <- !app_assoc. reflexivity.
Qed.

(** [JSON.stringify(v, null, 2)] writes the pretty form. *)
Lemma stringify_indent_pretty (v : value) : stringify_indent v 2 = pretty v.
Proof.
  unfold pretty. rewrite (written_as_lines_all v 0%nat [] []).
  rewrite app_nil_r. reflexivity.
Qed.

End WithNumber.
End JSONLayout.

(** ** lz-string: the cache, termination of the decoder, the alphabet *)
Module LZStringFacts.
Import LZString.

Lemma cache_get_app_none (cache : baseReverseDic) (a : jsstring)
  (d : reverseDic) :
  cache_get cache a = None -> cache_get (cache ++ [(a, d)]) a = Some d.
Proof.
  induction cache as [|[a' d'] cache IH]; cbn [cache_get app]; intro H.
  - rewrite jsstring_eqb_refl. reflexivity.
  - destruct (jsstring_eqb a' a); [discriminate H|]. apply IH. exact H.
Qed.

Lemma getBaseValue_ok (cache : baseReverseDic) (ch : jsstring) :
  cache_ok cache ->
  fst (getBaseValue cache keyStrBase64 ch) = reverseDic_get base64ReverseDic ch
  /\ cache_get (snd (getBaseValue cache keyStrBase64 ch)) keyStrBase64
     = Some base64ReverseDic.
Proof.
  intros [H|H]; unfold getBaseValue; rewrite H; cbn [fst snd].
  - split; [reflexivity|]. apply cache_get_app_none. exact H.
  - split; [reflexivity|exact H].
Qed.

Lemma cache_ok_nil : cache_ok [].
Proof. left. reflexivity. Qed.

(** The decoder reads the alphabet's reverse dictionary whatever the cache
    held, and leaves a cache a later call can use. *)
Lemma decompressFromBase64_cache (cache : baseReverseDic) (input : jsstring) :
  cache_ok cache ->
  fst (decompressFromBase64 cache input) = fst (decompressFromBase64 [] input)
  /\ cache_ok (snd (decompressFromBase64 cache input)).
Proof.
  intro H. destruct input as [|c input]; [split; [reflexivity|exact H]|].
  unfold decompressFromBase64.
  destruct (getBaseValue_ok cache (charAt (c :: input) 0) H) as [_ H1].
  destruct (getBaseValue_ok [] (charAt (c :: input) 0) cache_ok_nil)
    as [_ H2].
  set (c1 := snd (getBaseValue cache keyStrBase64 (charAt (c :: input) 0))) in *.
  set (c2 := snd (getBaseValue [] keyStrBase64 (charAt (c :: input) 0))) in *.
  unfold getBaseValue. rewrite H1, H2. cbn [fst].
  split.
  - destruct (_decompress _ _ _); reflexivity.
  - destruct (_decompress _ _ _); right; exact H1.
Qed.

(** *** The decoder always returns

    The reader's position is one of the six bits of a character; counting
    the bits read so far shows that the loop leaves within its fuel. *)
Section Termination.

Variable length : N.
Variable getNextValue : N -> option N.

Definition reader_ok (d : dataState) : Prop :=
  let p := data_position d in
  p = 1 \/ p = 2 \/ p = 4 \/ p = 8 \/ p = 16 \/ p = 32.

(** Six bits for each character taken, less the bits of the current
    character still to read. *)
Definition bits_read (d : dataState) : N :=
  6 * data_index d + 5 - N.log2 (data_position d).

Lemma readBit_bits (d : dataState) :
  reader_ok d ->
  reader_ok (snd (readBit 32 getNextValue d))
  /\ bits_read (snd (readBit 32 getNextValue d)) = bits_read d + 1.
Proof.
  unfold reader_ok, bits_read, readBit. destruct d as [v p i].
  cbn [data_position data_index data_val snd].
  intros [->|[->|[->|[->|[->| ->]]]]]; cbn -[N.mul N.add N.sub];
    split; try tauto; lia.
Qed.

Lemma readBitsFrom_bits (n : nat) (power bits : N) (d : dataState) :
  reader_ok d ->
  reader_ok (snd (readBitsFrom 32 getNextValue n power bits d))
  /\ bits_read (snd (readBitsFrom 32 getNextValue n power bits d))
     = bits_read d + N.of_nat n.
Proof.
  revert power bits d. induction n as [|n IH]; intros power bits d H.
  - cbn. split; [exact H|lia].
  - cbn [readBitsFrom].
    destruct (readBit_bits d H) as [H1 H2].
    destruct (readBit 32 getNextValue d) as [b d'] eqn:E.
    cbn [snd] in H1, H2.
    destruct (IH (N.shiftl power 1) (N.lor bits (b * power)) d' H1)
      as [H3 H4].
    split; [exact H3|]. rewrite H4, H2. lia.
Qed.

Lemma readBits_bits (n : nat) (d : dataState) :
  reader_ok d ->
  reader_ok (snd (readBits 32 getNextValue n d))
  /\ bits_read (snd (readBits 32 getNextValue n d))
     = bits_read d + N.of_nat n.
Proof. apply readBitsFrom_bits. Qed.

Lemma enlarge_numBits (e n : N) : n <= snd (enlarge e n).
Proof. unfold enlarge. destruct (e =? 0); cbn [snd]; lia. Qed.

Lemma decompressEntry_data (st st' : decoder) (dict1 : list dictEntry)
  (dictSize1 c enlargeIn1 : N) (d : dataState) :
  decompressEntry st dict1 dictSize1 c enlargeIn1 d = inl st' ->
  data st' = d /\ numBits st <= numBits st'.
Proof.
  unfold decompressEntry.
  pose proof (enlarge_numBits enlargeIn1 (numBits st)) as N2.
  destruct (enlarge enlargeIn1 (numBits st)) as [enlargeIn2 numBits2].
  cbn [snd] in N2. cbv zeta.
  pose proof (enlarge_numBits (N.pred enlargeIn2) numBits2) as N3.
  destruct (enlarge (N.pred enlargeIn2) numBits2) as [enlargeIn3 numBits3].
  cbn [snd] in N3.
  match goal with
  | |- match ?f with _ => _ end = _ -> _ => destruct f as [[entry|]|m]
  end; try discriminate.
  intro H. injection H as <-. cbn [data numBits]. split; [reflexivity|lia].
Qed.

Lemma decompressLiteral_data (st st' : decoder) (width : nat)
  (d : dataState) :
  reader_ok d ->
  decompressLiteral 32 getNextValue st width d = inl st' ->
  reader_ok (data st') /\ numBits st <= numBits st'
  /\ bits_read d <= bits_read (data st').
Proof.
  intros R. unfold decompressLiteral.
  destruct (readBits_bits width d R) as [R1 B1].
  destruct (readBits 32 getNextValue width d) as [bits d'].
  cbn [snd] in R1, B1. intro H.
  apply decompressEntry_data in H. destruct H as [-> H].
  repeat split; [exact R1|exact H|lia].
Qed.

(** A round that goes on has read three bits or more. *)
Lemma decompressStep_bits (st st' : decoder) :
  reader_ok (data st) -> 3 <= numBits st ->
  decompressStep length 32 getNextValue st = inl st' ->
  reader_ok (data st') /\ 3 <= numBits st'
  /\ bits_read (data st) + 3 <= bits_read (data st')
  /\ data_index (data st) <= length.
Proof.
  intros R NB. unfold decompressStep.
  destruct (length <? data_index (data st)) eqn:EL; [discriminate|].
  apply N.ltb_ge in EL.
  destruct (readBits_bits (N.to_nat (numBits st)) (data st) R) as [R1 B1].
  destruct (readBits 32 getNextValue (N.to_nat (numBits st)) (data st))
    as [c d1].
  cbn [snd] in R1, B1.
  assert (L : forall width,
             decompressLiteral 32 getNextValue st width d1 = inl st' ->
             reader_ok (data st') /\ 3 <= numBits st'
             /\ bits_read (data st) + 3 <= bits_read (data st')
             /\ data_index (data st) <= length).
  { intros width H. apply decompressLiteral_data in H; [|exact R1].
    destruct H as (H1 & H2 & H3). repeat split; try assumption; lia. }
  assert (E : forall c',
             decompressEntry st (dictionary st) (dictSize st) c'
               (enlargeIn st) d1 = inl st' ->
             reader_ok (data st') /\ 3 <= numBits st'
             /\ bits_read (data st) + 3 <= bits_read (data st')
             /\ data_index (data st) <= length).
  { intros c' H. apply decompressEntry_data in H. destruct H as [-> H].
    repeat split; try assumption; lia. }
  destruct c as [|[[p|p|]|[p|p|]|]];
    try apply (L 8%nat); try apply (L 16%nat); try apply E.
  discriminate.
Qed.

(** With three rounds of fuel for every six bits of input still unread,
    the loop returns. *)
Lemma decompressLoop_returns (fuel : nat) (st : decoder) :
  reader_ok (data st) -> 3 <= numBits st ->
  6 * length + 11 <= 3 * N.of_nat fuel + bits_read (data st) ->
  (1 <= fuel)%nat ->
  decompressLoop length 32 getNextValue fuel st <> None.
Proof.
  revert st. induction fuel as [|f IH]; intros st R NB HF H1; [lia|].
  cbn [decompressLoop].
  destruct (decompressStep length 32 getNextValue st) as [st'|r] eqn:E;
    [|discriminate].
  destruct (decompressStep_bits st st' R NB E) as (R' & NB' & B' & I').
  assert (U : bits_read (data st) <= 6 * length + 5).
  { unfold bits_read. lia. }
  apply IH; try assumption; lia.
Qed.

Lemma decompressStart_ok (st : decoder) :
  decompressStart 32 getNextValue = inl st ->
  reader_ok (data st) /\ numBits st = 3 /\ 8 <= bits_read (data st).
Proof.
  unfold decompressStart.
  assert (R0 : reader_ok (mkData (getNextValue 0) 32 1))
    by (unfold reader_ok; cbn; tauto).
  destruct (readBits_bits 2 _ R0) as [R1 B1].
  destruct (readBits 32 getNextValue 2 (mkData (getNextValue 0) 32 1))
    as [next d1].
  cbn [snd] in R1, B1.
  assert (B0 : bits_read (mkData (getNextValue 0) 32 1) = 6) by reflexivity.
  destruct (readBits_bits 8 d1 R1) as [R8 B8].
  destruct (readBits 32 getNextValue 8 d1) as [b8 d8].
  destruct (readBits_bits 16 d1 R1) as [R16 B16].
  destruct (readBits 32 getNextValue 16 d1) as [b16 d16].
  cbn [snd] in R8, B8, R16, B16.
  destruct next as [|[[p|p|]|[p|p|]|]]; intro H; try discriminate;
    injection H as <-; cbn [data numBits];
    repeat split; try assumption; lia.
Qed.

Theorem _decompress_returns :
  _decompress length 32 getNextValue <> None.
Proof.
  unfold _decompress.
  destruct (decompressStart 32 getNextValue) as [st|r] eqn:E; [|discriminate].
  destruct (decompressStart_ok st E) as (R & NB & B).
  apply decompressLoop_returns; try assumption; unfold decompressFuel; lia.
Qed.

End Termination.

(** *** The encoder writes base64 characters only *)

Definition in_alphabet (p : jsstring) : Prop :=
  Forall (fun c => is_base64_char c = true) p.

Lemma is_base64_char_In (c : N) :
  In c keyStrBase64 -> is_base64_char c = true.
Proof.
  intro H. unfold is_base64_char. apply existsb_exists.
  exists c. split; [exact H|apply N.eqb_refl].
Qed.

Lemma charAt_in_alphabet (i : N) : in_alphabet (charAt keyStrBase64 i).
Proof.
  unfold charAt, in_alphabet.
  destruct (nth_error keyStrBase64 (N.to_nat i)) as [c|] eqn:E;
    [|constructor].
  constructor; [|constructor].
  apply is_base64_char_In. apply (nth_error_In _ _ E).
Qed.

Section Alphabet.

Let getCharFromInt := fun a : N => charAt keyStrBase64 a.

Definition data_ok (c : context) : Prop :=
  Forall in_alphabet (context_data c).

Lemma writeBit_ok (bit : N) (c : context) :
  data_ok c -> data_ok (writeBit 6 getCharFromInt bit c).
Proof.
  unfold data_ok, writeBit. intro H.
  destruct (context_data_position c =? 6 - 1); cbn [context_data];
    [|exact H].
  apply Forall_app. split; [exact H|].
  constructor; [apply charAt_in_alphabet|constructor].
Qed.

Lemma writeBits_ok (n : nat) (value : N) (c : context) :
  data_ok c -> data_ok (writeBits 6 getCharFromInt n value c).
Proof.
  revert value c. induction n as [|n IH]; intros value c H; [exact H|].
  cbn [writeBits]. apply IH. apply writeBit_ok. exact H.
Qed.

Lemma decEnlargeIn_ok (c : context) : data_ok c -> data_ok (decEnlargeIn c).
Proof.
  unfold data_ok, decEnlargeIn. intro H.
  destruct (N.pred (context_enlargeIn c) =? 0); exact H.
Qed.

Lemma produceW_ok (c : context) :
  data_ok c -> data_ok (produceW 6 getCharFromInt c).
Proof.
  intro H. unfold produceW. apply decEnlargeIn_ok.
  destruct (toCreate_has (context_dictionaryToCreate c) (context_w c)).
  - assert (H2 : data_ok
                   (if charCodeAt0 (context_w c) <? 256
                    then writeBits 6 getCharFromInt 8
                           (charCodeAt0 (context_w c))
                           (writeBits 6 getCharFromInt
                              (N.to_nat (context_numBits c)) 0 c)
                    else writeBits 6 getCharFromInt 16
                           (charCodeAt0 (context_w c))
                           (writeBits 6 getCharFromInt
                              (N.to_nat (context_numBits c)) 1 c))).
    { destruct (charCodeAt0 (context_w c) <? 256);
        repeat apply writeBits_ok; exact H. }
    apply decEnlargeIn_ok in H2. exact H2.
  - apply writeBits_ok. exact H.
Qed.

Lemma compressStep_ok (c : context) (ch : N) :
  data_ok c -> data_ok (compressStep 6 getCharFromInt c ch).
Proof.
  intro H. unfold compressStep.
  set (c1 := if hasOwn (context_dictionary c) [ch] then c else _).
  assert (H1 : data_ok c1).
  { subst c1. destruct (hasOwn (context_dictionary c) [ch]); exact H. }
  clearbody c1.
  destruct (hasOwn (context_dictionary c1) (context_w c1 ++ [ch]));
    [exact H1|].
  apply produceW_ok in H1. exact H1.
Qed.

Lemma fold_compressStep_ok (s : jsstring) (c : context) :
  data_ok c -> data_ok (fold_left (compressStep 6 getCharFromInt) s c).
Proof.
  revert c. induction s as [|ch s IH]; intros c H; [exact H|].
  cbn [fold_left]. apply IH. apply compressStep_ok. exact H.
Qed.

Lemma flush_ok (fuel : nat) (c : context) :
  data_ok c -> Forall in_alphabet (flush 6 getCharFromInt fuel c).
Proof.
  revert c. induction fuel as [|f IH]; intros c H; cbn [flush];
    destruct (context_data_position c =? 6 - 1);
    try (apply Forall_app; split; [exact H|];
         constructor; [apply charAt_in_alphabet|constructor]).
  apply IH. exact H.
Qed.

Lemma _compress_alphabet (s : jsstring) :
  in_alphabet (_compress 6 getCharFromInt s).
Proof.
  unfold _compress.
  assert (H : data_ok
                (fold_left (compressStep 6 getCharFromInt) s initialContext))
    by (apply fold_compressStep_ok; constructor).
  set (c := fold_left (compressStep 6 getCharFromInt) s initialContext) in *.
  clearbody c.
  assert (H1 : data_ok match context_w c with
                       | [] => c
                       | _ :: _ => produceW 6 getCharFromInt c
                       end).
  { destruct (context_w c); [exact H|apply produceW_ok; exact H]. }
  apply (writeBits_ok (N.to_nat (context_numBits
           match context_w c with
           | [] => c
           | _ :: _ => produceW 6 getCharFromInt c
           end)) 2) in H1.
  apply (flush_ok (N.to_nat 6)) in H1.
  unfold in_alphabet. apply Forall_concat. exact H1.
Qed.

End Alphabet.

(** Every character [compressToBase64] returns is one of
    [A-Z a-z 0-9 + / =]. *)
Theorem compressToBase64_alphabet (s : jsstring) :
  in_alphabet (compressToBase64 s).
Proof.
  unfold compressToBase64.
  pose proof (_compress_alphabet s) as H.
  set (res := _compress 6 (fun a => charAt keyStrBase64 a) s) in *.
  destruct (N.of_nat (List.length res) mod 4) as [|[[p|p|]|[p|p|]|]];
    try exact H;
    apply Forall_app; (split; [exact H|]);
    repeat constructor.
Qed.

End LZStringFacts.

(** ** The dispatcher, step by step *)
Module ServiceFacts.
Import LZString LZStringFacts CompressionService.

Section WithNumber.

Context {EN : JSON.ECMANumber}.

(** The decoder's answer on a fresh cache: what every call returns. *)
Definition decode (text : jsstring) : completion (option jsstring) :=
  fst (decompressFromBase64 [] text).

Definition world_ok (w : world) : Prop := cache_ok (w_cache w).

(** How an inline compress settles. *)
Definition inline_compress (data_ : jsstring) : settled :=
  match JSON.parse data_ with
  | Normal v => Resolved (compressToBase64 (JSON.stringify v))
  | Throw m => Rejected (or_else m (lit "Synchronous processing failed."))
  end.

(** How an inline decompress settles. *)
Definition inline_decompress (data_ : jsstring) : settled :=
  match decode data_ with
  | Throw m => Rejected (or_else m (lit "Synchronous processing failed."))
  | Normal None =>
      Rejected (lit "Decompression returned no data or failed.")
  | Normal (Some text) =>
      match JSON.parse text with
      | Normal v => Resolved (JSON.stringify_indent v 2)
      | Throw m =>
          Rejected (or_else m (lit "Synchronous processing failed."))
      end
  end.

(** How a delegated compress settles when the worker runs. *)
Definition delegated_compress (data_ : jsstring) : settled :=
  match JSON.parse data_ with
  | Normal v => Resolved (compressToBase64 (JSON.stringify v))
  | Throw m =>
      Rejected (or_else (or_else m (lit "Worker processing failed."))
                        (lit "Worker execution failed."))
  end.

Definition delegated_decompress (data_ : jsstring) : settled :=
  let failed m :=
    Rejected (or_else (or_else m (lit "Worker processing failed."))
                      (lit "Worker execution failed.")) in
  match decode data_ with
  | Throw m => failed m
  | Normal None =>
      Rejected (lit "Decompression failed: Returned null/undefined.")
  | Normal (Some text) =>
      match JSON.parse text with
      | Normal v => Resolved (JSON.stringify_indent v 2)
      | Throw m => failed m
      end
  end.

Lemma decompress_call (text : jsstring) (w : world) :
  world_ok w ->
  fst (decompressFromBase64 (w_cache w) text) = decode text
  /\ cache_ok (snd (decompressFromBase64 (w_cache w) text)).
Proof. intro H. apply decompressFromBase64_cache. exact H. Qed.

Lemma process_inline_compress (facility : workerFacility)
  (data_ : jsstring) (w : world) :
  fst (processDataAsync facility compress data_ false w)
  = inline_compress data_
  /\ w_cache (snd (processDataAsync facility compress data_ false w))
     = w_cache w.
Proof.
  unfold processDataAsync, inline_compress, compressJsonSync,
    JSON_parse_call, JSON_stringify_call, compressToBase64_call,
    bind, ret, engine, emit.
  cbn [negb snd fst w_cache w_thread w_log].
  destruct (JSON.parse data_); split; reflexivity.
Qed.

Lemma process_inline_decompress (facility : workerFacility)
  (data_ : jsstring) (w : world) :
  world_ok w ->
  fst (processDataAsync facility decompress data_ false w)
  = inline_decompress data_
  /\ world_ok (snd (processDataAsync facility decompress data_ false w)).
Proof.
  intro H.
  destruct (decompress_call data_ w H) as [H1 H2].
  unfold processDataAsync, inline_decompress, decompressJsonSync,
    JSON_parse_call, JSON_stringify_indent_call, decompressFromBase64_call,
    bind, ret, throw, engine, emit, world_ok.
  cbn [negb snd fst w_cache w_thread w_log].
  rewrite <- H1.
  destruct (decompressFromBase64 (w_cache w) data_) as [r cache'].
  cbn [fst snd] in *.
  destruct r as [[text|]|m]; cbn [fst snd w_cache];
    try (split; [reflexivity|exact H2]).
  destruct (JSON.parse text); split; (reflexivity || exact H2).
Qed.

Lemma process_delegated_compress (data_ : jsstring) (w : world) :
  fst (processDataAsync WorkerRuns compress data_ true w)
  = delegated_compress data_
  /\ w_cache (snd (processDataAsync WorkerRuns compress data_ true w))
     = w_cache w.
Proof.
  unfold processDataAsync, delegated_compress, workerListener,
    JSON_parse_call, JSON_stringify_call, compressToBase64_call,
    try_catch, bind, ret, engine, emit.
  cbn [negb snd fst w_cache w_thread w_log action_name].
  replace (jsstring_eqb (lit "compress") (lit "compress")) with true
    by reflexivity.
  cbn [fst snd w_cache w_thread w_log].
  destruct (JSON.parse data_); split; reflexivity.
Qed.

Lemma process_delegated_decompress (data_ : jsstring) (w : world) :
  fst (processDataAsync WorkerRuns decompress data_ true w)
  = delegated_decompress data_
  /\ w_cache (snd (processDataAsync WorkerRuns decompress data_ true w))
     = w_cache w.
Proof.
  unfold processDataAsync, delegated_decompress, workerListener,
    JSON_parse_call, JSON_stringify_indent_call, decompressFromBase64_call,
    try_catch, bind, ret, throw, engine, emit, decode.
  cbn [negb snd fst w_cache w_thread w_log action_name].
  replace (jsstring_eqb (lit "decompress") (lit "compress")) with false
    by reflexivity.
  replace (jsstring_eqb (lit "decompress") (lit "decompress")) with true
    by reflexivity.
  cbn [fst snd w_cache w_thread w_log].
  destruct (decompressFromBase64 [] data_) as [r cache'].
  cbn [fst snd].
  destruct r as [[text|]|m]; cbn [fst snd w_cache];
    try (split; reflexivity).
  destruct (JSON.parse text); split; reflexivity.
Qed.

(** *** The classifier, as the specification words it

    Trim; empty is unrecognized; a text that parses as an object or an array
    is structured; otherwise a text whose decode is non-empty and parses is
    a compressed encoding; otherwise unrecognized. *)
Definition decodes_to_json (trimmed : jsstring) : bool :=
  match decode trimmed with
  | Normal (Some ((_ :: _) as text)) =>
      match JSON.parse text with
      | Normal _ => true
      | Throw _ => false
      end
  | _ => false
  end.

(** An object or an array; a bare scalar ([null], a boolean, a number or a
    string) is neither. *)
Definition object_or_array (v : JSON.value) : bool :=
  match v with
  | JSON.JObject _ => true
  | JSON.JArray _ => true
  | JSON.JNull => false
  | JSON.JBool _ => false
  | JSON.JNumber _ => false
  | JSON.JString _ => false
  end.

Definition parses_as_composite (trimmed : jsstring) : bool :=
  match JSON.parse trimmed with
  | Normal v => object_or_array v
  | Throw _ => false
  end.

Definition classify (input : jsstring) : classification :=
  let trimmed := trim input in
  match trimmed with
  | [] => unknown
  | _ :: _ =>
      if parses_as_composite trimmed then json
      else if decodes_to_json trimmed then compressed
      else unknown
  end.

(** The test of the program, [typeof parsed === 'object' && parsed !== null],
    holds of the objects and arrays and of nothing else. *)
Lemma is_composite_object_or_array (v : JSON.value) :
  JSON.is_composite v = object_or_array v.
Proof. destruct v; reflexivity. Qed.

Lemma parses_as_composite_test (trimmed : jsstring) :
  parses_as_composite trimmed
  = match JSON.parse trimmed with
    | Normal v => JSON.is_composite v
    | Throw _ => false
    end.
Proof.
  unfold parses_as_composite. destruct (JSON.parse trimmed) as [v|m].
  - symmetry. apply is_composite_object_or_array.
  - reflexivity.
Qed.

Lemma analyzeData_classify (input : jsstring) (w : world) :
  world_ok w ->
  fst (analyzeData input w) = Normal (classify input)
  /\ world_ok (snd (analyzeData input w)).
Proof.
  intro H. unfold analyzeData, classify.
  destruct (trim input) as [|c t] eqn:T; [split; [reflexivity|exact H]|].
  rewrite parses_as_composite_test. unfold decodes_to_json.
  unfold JSON_parse_call, decompressFromBase64_call, try_catch, bind, ret,
    engine, world_ok.
  cbn [fst snd w_cache w_thread w_log].
  destruct (JSON.parse (c :: t)) as [v|m].
  - destruct (JSON.is_composite v); [split; [reflexivity|exact H]|].
    cbn [fst snd w_cache w_thread w_log].
    match goal with
    | |- context [decompressFromBase64 ?cache (c :: t)] =>
        destruct (decompressFromBase64_cache cache (c :: t) H) as [E1 E2];
        unfold decode; rewrite <- E1;
        destruct (decompressFromBase64 cache (c :: t)) as [r cache']
    end.
    cbn [fst snd] in *.
    destruct r as [[[|x text]|]|m]; cbn [fst snd w_cache];
      try (split; [reflexivity|exact E2]).
    destruct (JSON.parse (x :: text)); split; (reflexivity || exact E2).
  - cbn [fst snd w_cache w_thread w_log].
    match goal with
    | |- context [decompressFromBase64 ?cache (c :: t)] =>
        destruct (decompressFromBase64_cache cache (c :: t) H) as [E1 E2];
        unfold decode; rewrite <- E1;
        destruct (decompressFromBase64 cache (c :: t)) as [r cache']
    end.
    cbn [fst snd] in *.
    destruct r as [[[|x text]|]|m']; cbn [fst snd w_cache];
      try (split; [reflexivity|exact E2]).
    destruct (JSON.parse (x :: text)); split; (reflexivity || exact E2).
Qed.

End WithNumber.
End ServiceFacts.

(** ** What the libraries throw *)
Module Thrown.
Import LZString LZStringFacts.

Definition thrown_nonempty {A} (r : completion A) : Prop :=
  match r with
  | Throw m => m <> []
  | Normal _ => True
  end.

Lemma parse_thrown {EN : JSON.ECMANumber} (text : jsstring) :
  thrown_nonempty (JSON.parse text).
Proof.
  unfold JSON.parse.
  destruct (JSON.parse_value _ text) as [[v r]|].
  - destruct (JSON.skip_ws r); cbn; [exact I|discriminate].
  - destruct (JSON.skip_ws text); cbn; discriminate.
Qed.

Section Decoder.

Variable length : N.
Variable getNextValue : N -> option N.

Lemma decompressEntry_thrown (st : decoder) (dict1 : list dictEntry)
  (dictSize1 c enlargeIn1 : N) (d : dataState) (r : completion (option jsstring)) :
  decompressEntry st dict1 dictSize1 c enlargeIn1 d = inr r ->
  thrown_nonempty r.
Proof.
  unfold decompressEntry.
  destruct (enlarge enlargeIn1 (numBits st)) as [enlargeIn2 numBits2].
  cbv zeta.
  destruct (enlarge (N.pred enlargeIn2) numBits2) as [enlargeIn3 numBits3].
  destruct (dictionary_get dict1 c) as [[|p]|[|x s]|];
    try (destruct (c =? dictSize1); [destruct (w st)|]);
    intro H; inversion H; cbn; try exact I; discriminate.
Qed.

Lemma decompressStep_thrown (st : decoder) (r : completion (option jsstring)) :
  decompressStep length 32 getNextValue st = inr r -> thrown_nonempty r.
Proof.
  unfold decompressStep, decompressLiteral.
  destruct (length <? data_index (data st)).
  { intro H. inversion H. exact I. }
  destruct (readBits 32 getNextValue (N.to_nat (numBits st)) (data st))
    as [c d].
  destruct (readBits 32 getNextValue 8 d) as [b8 d8].
  destruct (readBits 32 getNextValue 16 d) as [b16 d16].
  destruct c as [|[[p|p|]|[p|p|]|]];
    try apply decompressEntry_thrown.
  intro H. inversion H. exact I.
Qed.

Lemma decompressLoop_thrown (fuel : nat) (st : decoder)
  (r : completion (option jsstring)) :
  decompressLoop length 32 getNextValue fuel st = Some r ->
  thrown_nonempty r.
Proof.
  revert st. induction fuel as [|f IH]; intros st; [discriminate|].
  cbn [decompressLoop].
  destruct (decompressStep length 32 getNextValue st) as [st'|r'] eqn:E.
  - apply IH.
  - intro H. injection H as <-. apply (decompressStep_thrown st r' E).
Qed.

Lemma _decompress_thrown (r : completion (option jsstring)) :
  _decompress length 32 getNextValue = Some r -> thrown_nonempty r.
Proof.
  unfold _decompress, decompressStart.
  destruct (readBits 32 getNextValue 2 _) as [next d1].
  destruct (readBits 32 getNextValue 8 d1) as [b8 d8].
  destruct (readBits 32 getNextValue 16 d1) as [b16 d16].
  destruct next as [|[[p|p|]|[p|p|]|]];
    try apply decompressLoop_thrown.
  intro H. injection H as <-. exact I.
Qed.

End Decoder.

Lemma decode_thrown (cache : baseReverseDic) (text : jsstring) :
  thrown_nonempty (fst (decompressFromBase64 cache text)).
Proof.
  unfold decompressFromBase64. destruct text as [|c t]; [exact I|].
  match goal with
  | |- context [_decompress ?l 32 ?g] =>
      pose proof (_decompress_thrown l g) as H;
      destruct (_decompress l 32 g) as [r|]
  end; cbn [fst]; [apply H; reflexivity|exact I].
Qed.

Lemma or_else_nonempty (m fallback : jsstring) :
  m <> [] -> or_else m fallback = m.
Proof. destruct m; [congruence|reflexivity]. Qed.

End Thrown.

(** ** The log only grows *)
Module Logs.
Import LZString CompressionService.

Definition extends (w w' : world) : Prop :=
  exists l, w_log w' = w_log w ++ l.

Lemma extends_refl (w : world) : extends w w.
Proof. exists []. symmetry. apply app_nil_r. Qed.

Lemma extends_trans (w1 w2 w3 : world) :
  extends w1 w2 -> extends w2 w3 -> extends w1 w3.
Proof.
  intros [l1 H1] [l2 H2]. exists (l1 ++ l2).
  rewrite H2, H1. symmetry. apply app_assoc.
Qed.

Definition grows {A} (m : M A) : Prop := forall w, extends w (snd (m w)).

Lemma grows_ret {A} (a : A) : grows (ret a).
Proof. intro w. apply extends_refl. Qed.

Lemma grows_throw {A} (m : jsstring) : grows (@throw A m).
Proof. intro w. apply extends_refl. Qed.

Lemma grows_engine (c : libcall) : grows (engine c).
Proof. intro w. eexists. reflexivity. Qed.

Lemma grows_emit (e : event) : grows (emit e).
Proof. intro w. eexists. reflexivity. Qed.

Lemma grows_bind {A B} (m : M A) (k : A -> M B) :
  grows m -> (forall a, grows (k a)) -> grows (bind m k).
Proof.
  intros Hm Hk w. unfold bind. specialize (Hm w).
  destruct (m w) as [[a|e] w']; cbn [snd] in *; [|exact Hm].
  eapply extends_trans; [exact Hm|apply Hk].
Qed.

Section WithNumber.

Context {EN : JSON.ECMANumber}.

Lemma grows_JSON_parse_call (text : jsstring) : grows (JSON_parse_call text).
Proof.
  apply grows_bind; [apply grows_engine|].
  intros _ w. apply extends_refl.
Qed.

Lemma grows_JSON_stringify_call (v : JSON.value) :
  grows (JSON_stringify_call v).
Proof. apply grows_bind; [apply grows_engine|intro; apply grows_ret]. Qed.

Lemma grows_JSON_stringify_indent_call (v : JSON.value) (space : N) :
  grows (JSON_stringify_indent_call v space).
Proof. apply grows_bind; [apply grows_engine|intro; apply grows_ret]. Qed.

Lemma grows_compressToBase64_call (text : jsstring) :
  grows (compressToBase64_call text).
Proof. apply grows_bind; [apply grows_engine|intro; apply grows_ret]. Qed.

Lemma grows_decompressFromBase64_call (text : jsstring) :
  grows (decompressFromBase64_call text).
Proof.
  apply grows_bind; [apply grows_engine|].
  intros _ w. destruct (decompressFromBase64 (w_cache w) text).
  exists []. cbn [snd w_log]. symmetry. apply app_nil_r.
Qed.

Lemma grows_compressJsonSync (v : JSON.value) : grows (compressJsonSync v).
Proof.
  apply grows_bind; [apply grows_JSON_stringify_call|].
  intro. apply grows_compressToBase64_call.
Qed.

Lemma grows_decompressJsonSync (text : jsstring) :
  grows (decompressJsonSync text).
Proof.
  apply grows_bind; [apply grows_decompressFromBase64_call|].
  intros [t|]; [|apply grows_throw].
  apply grows_bind; [apply grows_JSON_parse_call|].
  intro. apply grows_JSON_stringify_indent_call.
Qed.

(** Every call of the dispatcher is recorded first. *)
Lemma processDataAsync_dispatched (facility : workerFacility) (act : action)
  (data_ : jsstring) (useWorker : bool) (w : world) :
  exists rest,
    w_log (snd (processDataAsync facility act data_ useWorker w))
    = w_log w ++ Dispatched (action_name act) data_ useWorker :: rest.
Proof.
  assert (G : forall w', extends
                (snd (emit (Dispatched (action_name act) data_ useWorker) w)) w' ->
              exists rest, w_log w'
                = w_log w ++ Dispatched (action_name act) data_ useWorker
                    :: rest).
  { intros w' [l H]. exists l. rewrite H. cbn [emit snd w_log].
    rewrite <- app_assoc. reflexivity. }
  apply G. unfold processDataAsync.
  destruct useWorker; cbn [negb].
  - destruct facility.
    + apply extends_refl.
    + destruct (workerListener (action_name act) data_
                  (mkWorld WorkerThread [] [])) as [[[r|e]|m] ww];
        cbn [snd]; eexists; cbn [emit snd w_log];
        rewrite <- !app_assoc; reflexivity.
    + eexists. cbn [emit snd w_log]. rewrite <- !app_assoc. reflexivity.
  - set (w1 := snd (emit SetTimeout0
                 (snd (emit (Dispatched (action_name act) data_ false) w)))).
    assert (E1 : extends
                   (snd (emit (Dispatched (action_name act) data_ false) w))
                   w1) by (eexists; reflexivity).
    assert (B : grows match act with
                      | compress =>
                          bind (JSON_parse_call data_)
                            (fun jsonObject => compressJsonSync jsonObject)
                      | decompress => decompressJsonSync data_
                      end).
    { destruct act; [|apply grows_decompressJsonSync].
      apply grows_bind; [apply grows_JSON_parse_call|].
      intro. apply grows_compressJsonSync. }
    specialize (B w1).
    match type of B with
    | extends w1 (snd ?run) =>
        change (extends
                  (snd (emit (Dispatched (action_name act) data_ false) w))
                  (snd match run with
                       | (Normal r, w2) => (Resolved r, w2)
                       | (Throw message, w2) =>
                           (Rejected
                              (or_else message
                                 (lit "Synchronous processing failed.")), w2)
                       end));
        destruct run as [[r|m] w2]
    end; cbn [snd] in *; eapply extends_trans; eassumption.
Qed.

End WithNumber.
End Logs.

(** * The claims *)
Module Claims.
Import LZString LZStringFacts CompressionService AppComponent ServiceFacts.
Import Thrown Logs JSONRoundTrip JSONLayout.
Import IntegerNumber IntegerNumberFacts.

(** The transform runs: inline, or delegated to a worker that runs. *)
Definition mode_runs (facility : workerFacility) (useWorker : bool) : Prop :=
  useWorker = false \/ facility = WorkerRuns.

Section WithNumber.

Context {EN : JSON.ECMANumber}.

(** C5. Delegated mode without a worker facility: the promise is rejected
    with the environment failure, and nothing else happens: no timer, no
    worker, no call into [JSON] or lz-string; the dispatcher does not fall
    back to the inline transform. *)
Theorem no_worker_no_fallback (act : action) (data_ : jsstring) (w : world) :
  processDataAsync WorkerUndefined act data_ true w
  = (Rejected (lit "Web Workers are not supported in this environment."),
     mkWorld (w_thread w) (w_cache w)
       (w_log w ++ [Dispatched (action_name act) data_ true])).
Proof. reflexivity. Qed.

(** C7. A blank input (empty, or white space only): [handleAction] sets the
    empty-input message and returns; the realm is untouched, so the
    dispatcher was not called, no worker was created and neither library was
    called. *)
Theorem handleAction_blank_input (facility : workerFacility)
  (duration : jsstring) (c : component) (w : world) :
  trim (dataInput c) = [] ->
  errorMessage (fst (handleAction facility duration c w))
  = Some (lit "Input cannot be empty.")
  /\ handleAction facility duration c w
     = (set_errorMessage (lit "Input cannot be empty.") c, w)
  /\ w_log (snd (handleAction facility duration c w)) = w_log w.
Proof.
  intro H. unfold handleAction. rewrite H. cbn [List.length Nat.eqb].
  repeat split.
Qed.

Lemma compress_accepts_any_json_aux (facility : workerFacility)
  (data_ : jsstring) (v : JSON.value) (useWorker : bool) (w : world) :
  JSON.parse data_ = Normal v ->
  mode_runs facility useWorker ->
  fst (processDataAsync facility compress data_ useWorker w)
  = Resolved (compressToBase64 (JSON.stringify v)).
Proof.
  intros P [->| ->].
  - destruct (process_inline_compress facility data_ w) as [E _].
    rewrite E. unfold inline_compress. rewrite P. reflexivity.
  - destruct useWorker.
    + destruct (process_delegated_compress data_ w) as [E _].
      rewrite E. unfold delegated_compress. rewrite P. reflexivity.
    + destruct (process_inline_compress WorkerRuns data_ w) as [E _].
      rewrite E. unfold inline_compress. rewrite P. reflexivity.
Qed.

(** C9. Compress takes every text [JSON.parse] accepts, composite or not:
    the promise resolves with the encoding of the value's compact
    serialization, in both modes. *)
Theorem compress_accepts_any_json (facility : workerFacility)
  (data_ : jsstring) (v : JSON.value) (useWorker : bool) (w : world) :
  JSON.parse data_ = Normal v ->
  mode_runs facility useWorker ->
  fst (processDataAsync facility compress data_ useWorker w)
  = Resolved (compressToBase64 (JSON.stringify v)).
Proof. apply compress_accepts_any_json_aux. Qed.

(** C3. [analyzeData] is the classifier of the specification: it returns
    (never throws) the tag [classify] gives, whatever the lz-string cache
    holds. [classify] is written from the specification: trim; empty is
    unrecognized; a text that parses as an object or an array
    ([object_or_array], which no scalar is) is structured; otherwise a text
    whose decode is not empty and parses is a compressed encoding;
    otherwise unrecognized. *)
Theorem analyzeData_is_classify (input : jsstring) (w : world) :
  world_ok w ->
  fst (analyzeData input w) = Normal (classify input).
Proof. intro H. apply (analyzeData_classify input w H). Qed.


(** The outcome of a call depends on nothing but its arguments, and the
    realm it leaves is one a later call can start from. *)
Lemma process_outcome (facility : workerFacility) (act : action)
  (data_ : jsstring) (useWorker : bool) (w w' : world) :
  world_ok w -> world_ok w' ->
  fst (processDataAsync facility act data_ useWorker w)
  = fst (processDataAsync facility act data_ useWorker w')
  /\ world_ok (snd (processDataAsync facility act data_ useWorker w)).
Proof.
  intros H H'. destruct useWorker.
  - destruct facility.
    + split; [reflexivity|exact H].
    + destruct act.
      * destruct (process_delegated_compress data_ w) as [E1 E2].
        destruct (process_delegated_compress data_ w') as [E1' _].
        unfold world_ok. rewrite E1, E1', E2. split; [reflexivity|exact H].
      * destruct (process_delegated_decompress data_ w) as [E1 E2].
        destruct (process_delegated_decompress data_ w') as [E1' _].
        unfold world_ok. rewrite E1, E1', E2. split; [reflexivity|exact H].
    + split; [reflexivity|exact H].
  - destruct act.
    + destruct (process_inline_compress facility data_ w) as [E1 E2].
      destruct (process_inline_compress facility data_ w') as [E1' _].
      unfold world_ok. rewrite E1, E1', E2. split; [reflexivity|exact H].
    + destruct (process_inline_decompress facility data_ w H) as [E1 E2].
      destruct (process_inline_decompress facility data_ w' H') as [E1' _].
      rewrite E1, E1'. split; [reflexivity|exact E2].
Qed.

(** C6. Determinism: classifying a text again, or running the same
    transform again, in the realm the first call has left, gives the same
    tag and the same settlement (the same encoded string, the same
    pretty-printed text or the same failure), in either mode. *)
Theorem determinism (facility : workerFacility) (act : action)
  (text : jsstring) (useWorker : bool) (w : world) :
  world_ok w ->
  fst (analyzeData text (snd (analyzeData text w)))
  = fst (analyzeData text w)
  /\ fst (processDataAsync facility act text useWorker
            (snd (processDataAsync facility act text useWorker w)))
     = fst (processDataAsync facility act text useWorker w).
Proof.
  intro H. split.
  - destruct (analyzeData_classify text w H) as [E1 E2].
    destruct (analyzeData_classify text _ E2) as [E3 _].
    rewrite E3, E1. reflexivity.
  - destruct (process_outcome facility act text useWorker w w H H)
      as [_ E2].
    destruct (process_outcome facility act text useWorker _ w E2 H)
      as [E3 _].
    exact E3.
Qed.

(** C2, as amended. With a worker that runs, the two modes settle the same
    way: both resolve with the same text, or both reject; the reasons are
    the same text too, except when the decoder returns [null], where each
    site has its own wording. *)
Theorem mode_equivalence (act : action) (data_ : jsstring) (w : world) :
  world_ok w ->
  match fst (processDataAsync WorkerRuns act data_ false w),
        fst (processDataAsync WorkerRuns act data_ true w) with
  | Resolved a, Resolved b => a = b
  | Rejected a, Rejected b =>
      a = b
      \/ (act = decompress /\ decode data_ = Normal None
          /\ a = lit "Decompression returned no data or failed."
          /\ b = lit "Decompression failed: Returned null/undefined.")
  | _, _ => False
  end.
Proof.
  intro H. destruct act.
  - destruct (process_inline_compress WorkerRuns data_ w) as [E1 _].
    destruct (process_delegated_compress data_ w) as [E2 _].
    rewrite E1, E2. unfold inline_compress, delegated_compress.
    pose proof (parse_thrown data_) as T.
    destruct (JSON.parse data_) as [v|m]; [reflexivity|].
    cbn in T. rewrite (or_else_nonempty m) by assumption.
    rewrite (or_else_nonempty m) by assumption.
    rewrite (or_else_nonempty m) by assumption. left. reflexivity.
  - destruct (process_inline_decompress WorkerRuns data_ w H) as [E1 _].
    destruct (process_delegated_decompress data_ w) as [E2 _].
    rewrite E1, E2. unfold inline_decompress, delegated_decompress.
    pose proof (decode_thrown [] data_) as T. fold (decode data_) in T.
    destruct (decode data_) as [[text|]|m].
    + pose proof (parse_thrown text) as T'.
      destruct (JSON.parse text) as [v|m]; [reflexivity|].
      cbn in T'. cbv zeta. rewrite (or_else_nonempty m) by assumption.
      rewrite (or_else_nonempty m) by assumption.
      rewrite (or_else_nonempty m) by assumption. left. reflexivity.
    + right. repeat split.
    + cbn in T. cbv zeta. rewrite (or_else_nonempty m) by assumption.
      rewrite (or_else_nonempty m) by assumption.
      rewrite (or_else_nonempty m) by assumption. left. reflexivity.
Qed.

(** C4, as amended. When the decoder returns [null], decompress fails with
    the decode failure of its site and [JSON.parse] is not called: the call
    of the decoder is the only call into a library. When the decoder
    returns the empty string, the empty text goes to [JSON.parse] and
    decompress fails with the parser's error instead. *)
Theorem decode_failure (facility : workerFacility) (data_ : jsstring)
  (w : world) :
  world_ok w ->
  (decode data_ = Normal None ->
   fst (processDataAsync facility decompress data_ false w)
   = Rejected (lit "Decompression returned no data or failed.")
   /\ w_log (snd (processDataAsync facility decompress data_ false w))
      = w_log w
        ++ [Dispatched (lit "decompress") data_ false; SetTimeout0;
            Engine (w_thread w) (LZ_decompressFromBase64 data_)]
   /\ processDataAsync WorkerRuns decompress data_ true w
      = (Rejected (lit "Decompression failed: Returned null/undefined."),
         mkWorld (w_thread w) (w_cache w)
           (w_log w
            ++ [Dispatched (lit "decompress") data_ true; WorkerCreated;
                WorkerPosted (lit "decompress") data_;
                Engine WorkerThread (LZ_decompressFromBase64 data_);
                WorkerReplied
                  (Failure
                     (lit "Decompression failed: Returned null/undefined."));
                WorkerTerminated])))
  /\ (decode data_ = Normal (Some []) ->
      fst (processDataAsync facility decompress data_ false w)
      = Rejected JSON.syntaxError_end
      /\ fst (processDataAsync WorkerRuns decompress data_ true w)
         = Rejected JSON.syntaxError_end
      /\ In (Engine (w_thread w) (JSON_parse []))
            (w_log (snd (processDataAsync facility decompress data_ false w)))).
Proof.
  intro H. destruct (decompress_call data_ w H) as [D _]. split; intro E.
  - split; [|split].
    + destruct (process_inline_decompress facility data_ w H) as [E1 _].
      rewrite E1. unfold inline_decompress. rewrite E. reflexivity.
    + unfold processDataAsync, decompressJsonSync,
        decompressFromBase64_call, bind, throw, engine, emit.
      cbn [negb snd fst w_cache w_thread w_log action_name].
      rewrite E in D.
      destruct (decompressFromBase64 (w_cache w) data_) as [r cache'].
      cbn [fst] in D. subst r. cbn [snd w_log].
      rewrite <- !app_assoc. reflexivity.
    + unfold processDataAsync, workerListener,
        decompressFromBase64_call, try_catch, bind, throw, ret, engine, emit.
      cbn [negb snd fst w_cache w_thread w_log action_name].
      replace (jsstring_eqb (lit "decompress") (lit "compress")) with false
        by reflexivity.
      replace (jsstring_eqb (lit "decompress") (lit "decompress")) with true
        by reflexivity.
      cbn [fst snd w_cache w_thread w_log].
      unfold decode in E.
      destruct (decompressFromBase64 [] data_) as [r cache'].
      cbn [fst] in E. subst r. cbn [fst snd w_log w_thread w_cache].
      rewrite <- !app_assoc. reflexivity.
  - split; [|split].
    + destruct (process_inline_decompress facility data_ w H) as [E1 _].
      rewrite E1. unfold inline_decompress. rewrite E. reflexivity.
    + destruct (process_delegated_decompress data_ w) as [E1 _].
      rewrite E1. unfold delegated_decompress. rewrite E. reflexivity.
    + unfold processDataAsync, decompressJsonSync, JSON_parse_call,
        JSON_stringify_indent_call,
        decompressFromBase64_call, bind, throw, engine, emit.
      cbn [negb snd fst w_cache w_thread w_log action_name].
      rewrite E in D.
      destruct (decompressFromBase64 (w_cache w) data_) as [r cache'].
      cbn [fst] in D. subst r. cbn [snd w_log w_thread].
      apply in_or_app. right. left. reflexivity.
Qed.

(** C8. A compress that succeeds returns the base64 encoding of the
    compact serialization of the parsed value: every character is one of
    the alphabet, and the serialization holds no white space but the spaces
    of the document's own strings and keys. A decompress that succeeds
    returns the decoded value serialized again with a gap of two spaces,
    and that text is the pretty form of the value: one element or member on
    each line, every line indented by two spaces for each level of
    nesting. *)
Theorem serialization_forms (facility : workerFacility) (data_ : jsstring)
  (useWorker : bool) (w : world) (result : jsstring) :
  world_ok w -> mode_runs facility useWorker ->
  (fst (processDataAsync facility compress data_ useWorker w)
   = Resolved result ->
   exists v,
     JSON.parse data_ = Normal v
     /\ result = compressToBase64 (JSON.stringify v)
     /\ in_alphabet result
     /\ layout_count (JSON.stringify v) = string_spaces v)
  /\ (fst (processDataAsync facility decompress data_ useWorker w)
      = Resolved result ->
      exists text v,
        decode data_ = Normal (Some text)
        /\ JSON.parse text = Normal v
        /\ result = JSON.serialize [32; 32] [] v
        /\ result = pretty v).
Proof.
  intros H R. split; intro E.
  - assert (E' : inline_compress data_ = Resolved result
                 \/ delegated_compress data_ = Resolved result).
    { destruct R as [->| ->].
      - left.
        destruct (process_inline_compress facility data_ w) as [E1 _].
        rewrite <- E1. exact E.
      - destruct useWorker.
        + right. destruct (process_delegated_compress data_ w) as [E1 _].
          rewrite <- E1. exact E.
        + left.
          destruct (process_inline_compress WorkerRuns data_ w) as [E1 _].
          rewrite <- E1. exact E. }
    unfold inline_compress, delegated_compress in E'.
    destruct (JSON.parse data_) as [v|m];
      [|destruct E' as [E'|E']; discriminate E'].
    exists v.
    assert (E2 : result = compressToBase64 (JSON.stringify v))
      by (destruct E' as [E'|E']; injection E' as <-; reflexivity).
    repeat split; try assumption.
    + rewrite E2. apply compressToBase64_alphabet.
    + apply compact_inserts_no_white_space.
  - assert (E' : inline_decompress data_ = Resolved result
                 \/ delegated_decompress data_ = Resolved result).
    { destruct R as [->| ->].
      - left.
        destruct (process_inline_decompress facility data_ w H) as [E1 _].
        rewrite <- E1. exact E.
      - destruct useWorker.
        + right. destruct (process_delegated_decompress data_ w) as [E1 _].
          rewrite <- E1. exact E.
        + left.
          destruct (process_inline_decompress WorkerRuns data_ w H)
            as [E1 _].
          rewrite <- E1. exact E. }
    unfold inline_decompress, delegated_decompress in E'.
    destruct (decode data_) as [[text|]|m];
      try (destruct E' as [E'|E']; discriminate E').
    exists text.
    destruct (JSON.parse text) as [v|m];
      [|destruct E' as [E'|E']; discriminate E'].
    exists v.
    assert (E2 : result = JSON.stringify_indent v 2)
      by (destruct E' as [E'|E']; injection E' as <-; reflexivity).
    split; [reflexivity|]. split; [reflexivity|].
    split; [exact E2|].
    rewrite E2. apply stringify_indent_pretty.
Qed.

(** C10. With an input that is not blank, [handleAction] dispatches at
    once, and what it dispatches depends on the stored classification
    alone: compress when it is [json], decompress otherwise, so an
    unrecognized input is sent to decompress. The component then shows the
    result when that promise resolves and clears the output when it
    rejects. *)
Theorem handleAction_dispatch (facility : workerFacility)
  (duration : jsstring) (c : component) (w : world) :
  trim (dataInput c) <> [] ->
  let act :=
    match dataType c with
    | json => compress
    | compressed => decompress
    | unknown => decompress
    end in
  let run := processDataAsync facility act (dataInput c) (useWebWorker c) w in
  let c' := fst (handleAction facility duration c w) in
  snd (handleAction facility duration c w) = snd run
  /\ (exists rest,
        w_log (snd run)
        = w_log w
          ++ Dispatched (action_name act) (dataInput c) (useWebWorker c)
             :: rest)
  /\ isLoading c' = false
  /\ match fst run with
     | Resolved result =>
         resultData c' = result /\ errorMessage c' = None
     | Rejected _ =>
         resultData c' = [] /\ resultTitle c' = [] /\ resultSize c' = 0
     end.
Proof.
  intros Hb act run c'.
  assert (L : (List.length (trim (dataInput c)) =? 0)%nat = false).
  { destruct (trim (dataInput c)); [congruence|reflexivity]. }
  assert (A : act = match dataType c with
                    | json => compress
                    | _ => decompress
                    end) by (subst act; destruct (dataType c); reflexivity).
  split; [|split; [|split]].
  - subst c' run. unfold handleAction. rewrite L.
    cbn [resetError dataInput dataType useWebWorker].
    rewrite <- A.
    destruct (processDataAsync facility act (dataInput c) (useWebWorker c) w)
      as [[r|e] w']; reflexivity.
  - apply processDataAsync_dispatched.
  - subst c' run. unfold handleAction. rewrite L.
    cbn [resetError dataInput dataType useWebWorker].
    rewrite <- A.
    destruct (processDataAsync facility act (dataInput c) (useWebWorker c) w)
      as [[r|e] w']; reflexivity.
  - subst c' run. unfold handleAction. rewrite L.
    cbn [resetError dataInput dataType useWebWorker].
    rewrite <- A.
    destruct (processDataAsync facility act (dataInput c) (useWebWorker c) w)
      as [[r|e] w']; cbn [fst]; repeat split.
Qed.

End WithNumber.


Lemma no_worker_no_fallback_example :
  fst (processDataAsync WorkerUndefined compress (lit "[1]") true
         initial_world)
  = Rejected (lit "Web Workers are not supported in this environment.").
Proof. reflexivity. Qed.

Lemma handleAction_blank_input_witness :
  trim (dataInput (set_dataInput (lit "   ") initial)) = []
  /\ errorMessage
       (fst (handleAction WorkerRuns (lit "0.10")
               (set_dataInput (lit "   ") initial) initial_world))
     = Some (lit "Input cannot be empty.").
Proof.
  split; [reflexivity|].
  apply (handleAction_blank_input WorkerRuns (lit "0.10")
           (set_dataInput (lit "   ") initial) initial_world).
  reflexivity.
Defined.

Lemma compress_accepts_any_json_witness :
  JSON.parse (lit "42") = Normal (JSON.JNumber (EN:=integerNumber) 42%Z)
  /\ fst (analyzeData (lit "42") initial_world) = Normal unknown
  /\ fst (processDataAsync WorkerRuns compress (lit "42") false initial_world)
     = Resolved (compressToBase64 (lit "42")).
Proof.
  split; [reflexivity|]. split; [vm_compute; reflexivity|].
  apply (compress_accepts_any_json WorkerRuns (lit "42")
           (JSON.JNumber (EN:=integerNumber) 42%Z) false initial_world).
  - reflexivity.
  - left. reflexivity.
Defined.

Lemma analyzeData_is_classify_witness :
  world_ok initial_world
  /\ (fst (analyzeData (qlit "{'a':1,'b':[2,3]}") initial_world)
      = Normal (classify (qlit "{'a':1,'b':[2,3]}"))
      /\ classify (qlit "{'a':1,'b':[2,3]}") = json)
  /\ (fst (analyzeData (lit "42") initial_world)
      = Normal (classify (lit "42"))
      /\ classify (lit "42") = unknown)
  /\ (fst (analyzeData (qlit " 'hello' ") initial_world)
      = Normal (classify (qlit " 'hello' "))
      /\ classify (qlit " 'hello' ") = unknown)
  /\ (fst (analyzeData (lit "N4IghiBcCMA0ICMoG0BMsDMBdAvkA===") initial_world)
      = Normal (classify (lit "N4IghiBcCMA0ICMoG0BMsDMBdAvkA==="))
      /\ classify (lit "N4IghiBcCMA0ICMoG0BMsDMBdAvkA===") = compressed).
Proof.
  assert (W : world_ok initial_world) by (left; reflexivity).
  split; [exact W|].
  split; [split; [apply (analyzeData_is_classify _ _ W)
                 |vm_compute; reflexivity]|].
  split; [split; [apply (analyzeData_is_classify _ _ W)
                 |vm_compute; reflexivity]|].
  split; split; (apply (analyzeData_is_classify _ _ W)
                 || (vm_compute; reflexivity)).
Defined.

(** The document of the specification's scenario A. *)
Definition scenarioA_text : jsstring := qlit "{'a':1,'b':[2,3]}".

Definition scenarioA_value : JSON.value :=
  JSON.JObject
    [(lit "a", JSON.JNumber (EN:=integerNumber) 1%Z);
     (lit "b", JSON.JArray [JSON.JNumber (EN:=integerNumber) 2%Z;
                            JSON.JNumber (EN:=integerNumber) 3%Z])].

Definition scenarioA_encoded : jsstring := lit "N4IghiBcCMA0ICMoG0BMsDMBdAvkA===".

Lemma determinism_witness :
  world_ok initial_world
  /\ fst (processDataAsync WorkerRuns decompress scenarioA_encoded false
            (snd (processDataAsync WorkerRuns decompress scenarioA_encoded
                    false initial_world)))
     = fst (processDataAsync WorkerRuns decompress scenarioA_encoded false
              initial_world).
Proof.
  assert (W : world_ok initial_world) by (left; reflexivity).
  split; [exact W|].
  destruct (determinism WorkerRuns decompress scenarioA_encoded false
              initial_world W) as [_ H].
  exact H.
Defined.

(** C2 as stated fails: on the empty payload the two modes reject with
    different reasons. *)
Lemma mode_equivalence_counterexample :
  fst (processDataAsync WorkerRuns decompress [] false initial_world)
  = Rejected (lit "Decompression returned no data or failed.")
  /\ fst (processDataAsync WorkerRuns decompress [] true initial_world)
     = Rejected (lit "Decompression failed: Returned null/undefined.")
  /\ fst (processDataAsync WorkerRuns decompress [] false initial_world)
     <> fst (processDataAsync WorkerRuns decompress [] true initial_world).
Proof.
  split; [vm_compute; reflexivity|]. split; [vm_compute; reflexivity|].
  vm_compute. discriminate.
Qed.

Lemma mode_equivalence_witness :
  world_ok initial_world
  /\ match fst (processDataAsync WorkerRuns compress scenarioA_text false
                  initial_world),
           fst (processDataAsync WorkerRuns compress scenarioA_text true
                  initial_world) with
     | Resolved a, Resolved b => a = b
     | Rejected a, Rejected b =>
         a = b
         \/ (compress = decompress /\ decode scenarioA_text = Normal None
             /\ a = lit "Decompression returned no data or failed."
             /\ b = lit "Decompression failed: Returned null/undefined.")
     | _, _ => False
     end.
Proof.
  assert (W : world_ok initial_world) by (left; reflexivity).
  split; [exact W|].
  exact (mode_equivalence compress scenarioA_text initial_world W).
Defined.

(** C4 as stated fails: the text [Q===] decodes to the empty string, and
    decompress hands it to [JSON.parse] and fails with the parser's error,
    not with the decode failure. *)
Lemma decode_failure_counterexample :
  decode (lit "Q===") = Normal (Some [])
  /\ fst (processDataAsync WorkerRuns decompress (lit "Q===") false
            initial_world)
     = Rejected JSON.syntaxError_end
  /\ fst (processDataAsync WorkerRuns decompress (lit "Q===") false
            initial_world)
     <> Rejected (lit "Decompression returned no data or failed.")
  /\ In (Engine MainThread (JSON_parse []))
        (w_log (snd (processDataAsync WorkerRuns decompress (lit "Q===")
                       false initial_world))).
Proof.
  split; [vm_compute; reflexivity|]. split; [vm_compute; reflexivity|].
  split; [vm_compute; discriminate|].
  vm_compute. right. right. right. left. reflexivity.
Qed.

Lemma decode_failure_witness :
  world_ok initial_world
  /\ decode (lit "not-a-valid-encoding!!") = Normal None
  /\ fst (processDataAsync WorkerRuns decompress
            (lit "not-a-valid-encoding!!") false initial_world)
     = Rejected (lit "Decompression returned no data or failed.").
Proof.
  assert (W : world_ok initial_world) by (left; reflexivity).
  assert (D : decode (lit "not-a-valid-encoding!!") = Normal None)
    by (vm_compute; reflexivity).
  split; [exact W|]. split; [exact D|].
  destruct (decode_failure WorkerRuns (lit "not-a-valid-encoding!!")
              initial_world W) as [H _].
  destruct (H D) as [H1 _]. exact H1.
Defined.

(** The pretty form of the document of scenario A, line by line. *)
Definition scenarioA_pretty : jsstring :=
  lines_text
    [(0%nat, lit "{");
     (1%nat, qlit "'a': 1,");
     (1%nat, qlit "'b': [");
     (2%nat, lit "2,");
     (2%nat, lit "3");
     (1%nat, lit "]");
     (0%nat, lit "}")].

Lemma serialization_forms_witness :
  world_ok initial_world /\ mode_runs WorkerRuns false
  /\ fst (processDataAsync WorkerRuns compress scenarioA_text false
            initial_world) = Resolved scenarioA_encoded
  /\ (exists v,
        JSON.parse scenarioA_text = Normal v
        /\ scenarioA_encoded = compressToBase64 (JSON.stringify v)
        /\ in_alphabet scenarioA_encoded
        /\ layout_count (JSON.stringify v) = string_spaces v)
  /\ fst (processDataAsync WorkerRuns decompress scenarioA_encoded false
            initial_world) = Resolved scenarioA_pretty
  /\ exists text v,
       decode scenarioA_encoded = Normal (Some text)
       /\ JSON.parse text = Normal v
       /\ scenarioA_pretty = JSON.serialize [32; 32] [] v
       /\ scenarioA_pretty = pretty v.
Proof.
  assert (W : world_ok initial_world) by (left; reflexivity).
  assert (R : mode_runs WorkerRuns false) by (left; reflexivity).
  assert (E : fst (processDataAsync WorkerRuns compress scenarioA_text false
                     initial_world) = Resolved scenarioA_encoded)
    by (vm_compute; reflexivity).
  assert (D : fst (processDataAsync WorkerRuns decompress scenarioA_encoded
                     false initial_world) = Resolved scenarioA_pretty)
    by (vm_compute; reflexivity).
  split; [exact W|]. split; [exact R|]. split; [exact E|].
  split.
  - destruct (serialization_forms WorkerRuns scenarioA_text false
                initial_world scenarioA_encoded W R) as [H _].
    exact (H E).
  - split; [exact D|].
    destruct (serialization_forms WorkerRuns scenarioA_encoded false
                initial_world scenarioA_pretty W R) as [_ H].
    exact (H D).
Defined.

Lemma handleAction_dispatch_witness :
  trim (dataInput (set_dataInput (lit "not-a-valid-encoding!!") initial))
  <> []
  /\ fst (analyzeData (lit "not-a-valid-encoding!!") initial_world)
     = Normal unknown
  /\ exists rest,
       w_log (snd (processDataAsync WorkerRuns decompress
                     (lit "not-a-valid-encoding!!") true initial_world))
       = Dispatched (lit "decompress") (lit "not-a-valid-encoding!!") true
         :: rest.
Proof.
  assert (B : trim (dataInput
                      (set_dataInput (lit "not-a-valid-encoding!!") initial))
              <> []) by (vm_compute; discriminate).
  split; [exact B|]. split; [vm_compute; reflexivity|].
  destruct (handleAction_dispatch WorkerRuns (lit "0.10")
              (set_dataInput (lit "not-a-valid-encoding!!") initial)
              initial_world B) as (_ & H & _).
  exact H.
Defined.

End Claims.

(** ** lz-string decodes what it has encoded *)
Module LZRoundTrip.
Import LZString LZStringFacts.

(** *** The encoder as a phrase logic and a bit buffer *)

Abbreviation getCharFromInt := (fun a : N => charAt keyStrBase64 a).

(** The fields the phrase logic reads and writes. *)
Record logic := mkLogic {
  l_dictionary : list (jsstring * N);
  l_toCreate : list jsstring;
  l_w : jsstring;
  l_enlargeIn : N;
  l_dictSize : N;
  l_numBits : N
}.

(** The fields of the bit buffer: characters pushed, bits pending, their
    number. *)
Definition buffer : Type := list jsstring * N * N.

Definition logic_of (c : context) : logic :=
  mkLogic (context_dictionary c) (context_dictionaryToCreate c) (context_w c)
    (context_enlargeIn c) (context_dictSize c) (context_numBits c).

Definition buffer_of (c : context) : buffer :=
  (context_data c, context_data_val c, context_data_position c).

Definition build (L : logic) (b : buffer) : context :=
  let '(d, v, p) := b in
  mkContext (l_dictionary L) (l_toCreate L) (l_w L) (l_enlargeIn L)
    (l_dictSize L) (l_numBits L) d v p.

Lemma build_eta (c : context) : c = build (logic_of c) (buffer_of c).
Proof. destruct c. reflexivity. Qed.

Definition push (b : buffer) (bit : N) : buffer :=
  let '(d, v, p) := b in
  let v' := N.lor (N.shiftl v 1) bit in
  if p =? 6 - 1 then (d ++ [getCharFromInt v'], 0, 0) else (d, v', p + 1).

(** The bits of [value], lowest first: what [writeBits] writes. *)
Fixpoint lsb_bits (n : nat) (value : N) : list N :=
  match n with
  | O => []
  | S n' => N.land value 1 :: lsb_bits n' (N.shiftr value 1)
  end.

Lemma writeBit_build (bit : N) (L : logic) (b : buffer) :
  writeBit 6 getCharFromInt bit (build L b) = build L (push b bit).
Proof.
  destruct b as [[d v] p]. unfold writeBit, build, push.
  cbn [context_data_position context_data_val context_data
       context_dictionary context_dictionaryToCreate context_w
       context_enlargeIn context_dictSize context_numBits].
  destruct (p =? 6 - 1); reflexivity.
Qed.

Lemma writeBits_build (n : nat) (value : N) (L : logic) (b : buffer) :
  writeBits 6 getCharFromInt n value (build L b)
  = build L (fold_left push (lsb_bits n value) b).
Proof.
  revert value b. induction n as [|n IH]; intros value b; [reflexivity|].
  cbn [writeBits lsb_bits fold_left].
  rewrite writeBit_build. apply IH.
Qed.

Definition decEnlarge (L : logic) : logic :=
  let e := N.pred (l_enlargeIn L) in
  if e =? 0 then
    mkLogic (l_dictionary L) (l_toCreate L) (l_w L) (2 ^ l_numBits L)
      (l_dictSize L) (l_numBits L + 1)
  else
    mkLogic (l_dictionary L) (l_toCreate L) (l_w L) e (l_dictSize L)
      (l_numBits L).

Lemma decEnlargeIn_build (L : logic) (b : buffer) :
  decEnlargeIn (build L b) = build (decEnlarge L) b.
Proof.
  destruct b as [[d v] p]. unfold decEnlargeIn, decEnlarge, build.
  cbn [context_data_position context_data_val context_data
       context_dictionary context_dictionaryToCreate context_w
       context_enlargeIn context_dictSize context_numBits].
  destruct (N.pred (l_enlargeIn L) =? 0); reflexivity.
Qed.

(** The bits of one token: a literal character behind its marker, or the
    index of a phrase. *)
Definition token_bits (L : logic) : list N :=
  let nb := N.to_nat (l_numBits L) in
  if toCreate_has (l_toCreate L) (l_w L) then
    if charCodeAt0 (l_w L) <? 256 then
      lsb_bits nb 0 ++ lsb_bits 8 (charCodeAt0 (l_w L))
    else lsb_bits nb 1 ++ lsb_bits 16 (charCodeAt0 (l_w L))
  else lsb_bits nb (dict_get (l_dictionary L) (l_w L)).

Definition produced (L : logic) : logic :=
  if toCreate_has (l_toCreate L) (l_w L) then
    let L1 := decEnlarge L in
    decEnlarge
      (mkLogic (l_dictionary L1) (toCreate_delete (l_toCreate L1) (l_w L))
         (l_w L1) (l_enlargeIn L1) (l_dictSize L1) (l_numBits L1))
  else decEnlarge L.

Lemma produceW_build (L : logic) (b : buffer) :
  produceW 6 getCharFromInt (build L b)
  = build (produced L) (fold_left push (token_bits L) b).
Proof.
  unfold produceW, produced, token_bits.
  assert (F : forall L' b', context_w (build L' b') = l_w L'
              /\ context_dictionaryToCreate (build L' b') = l_toCreate L'
              /\ context_numBits (build L' b') = l_numBits L'
              /\ context_dictionary (build L' b') = l_dictionary L').
  { intros L' [[d v] p]. repeat split. }
  destruct (F L b) as (F1 & F2 & F3 & F4). rewrite F1, F2, F3, F4.
  destruct (toCreate_has (l_toCreate L) (l_w L)).
  - assert (G : forall b',
               decEnlargeIn
                 (mkContext
                    (context_dictionary (decEnlargeIn (build L b')))
                    (toCreate_delete
                       (context_dictionaryToCreate (decEnlargeIn (build L b')))
                       (l_w L))
                    (context_w (decEnlargeIn (build L b')))
                    (context_enlargeIn (decEnlargeIn (build L b')))
                    (context_dictSize (decEnlargeIn (build L b')))
                    (context_numBits (decEnlargeIn (build L b')))
                    (context_data (decEnlargeIn (build L b')))
                    (context_data_val (decEnlargeIn (build L b')))
                    (context_data_position (decEnlargeIn (build L b'))))
               = build
                   (decEnlarge
                      (mkLogic (l_dictionary (decEnlarge L))
                         (toCreate_delete (l_toCreate (decEnlarge L)) (l_w L))
                         (l_w (decEnlarge L)) (l_enlargeIn (decEnlarge L))
                         (l_dictSize (decEnlarge L))
                         (l_numBits (decEnlarge L)))) b').
    { intro b'. rewrite decEnlargeIn_build. destruct b' as [[d v] p].
      exact (decEnlargeIn_build
               (mkLogic (l_dictionary (decEnlarge L))
                  (toCreate_delete (l_toCreate (decEnlarge L)) (l_w L))
                  (l_w (decEnlarge L)) (l_enlargeIn (decEnlarge L))
                  (l_dictSize (decEnlarge L)) (l_numBits (decEnlarge L)))
               (d, v, p)). }
    destruct (charCodeAt0 (l_w L) <? 256);
      rewrite !writeBits_build, fold_left_app; cbv zeta; apply G.
  - rewrite writeBits_build, decEnlargeIn_build. reflexivity.
Qed.

(** One character of the input: the logic afterwards and the bits
    written. *)
Definition step (L : logic) (ch : N) : logic * list N :=
  let L1 :=
    if hasOwn (l_dictionary L) [ch] then L
    else
      mkLogic (l_dictionary L ++ [([ch], l_dictSize L)])
        (l_toCreate L ++ [[ch]]) (l_w L) (l_enlargeIn L) (l_dictSize L + 1)
        (l_numBits L) in
  let wc := l_w L1 ++ [ch] in
  if hasOwn (l_dictionary L1) wc then
    (mkLogic (l_dictionary L1) (l_toCreate L1) wc (l_enlargeIn L1)
       (l_dictSize L1) (l_numBits L1), [])
  else
    let L2 := produced L1 in
    (mkLogic (l_dictionary L2 ++ [(wc, l_dictSize L2)]) (l_toCreate L2)
       [ch] (l_enlargeIn L2) (l_dictSize L2 + 1) (l_numBits L2),
     token_bits L1).

Lemma compressStep_build (L : logic) (b : buffer) (ch : N) :
  compressStep 6 getCharFromInt (build L b) ch
  = build (fst (step L ch)) (fold_left push (snd (step L ch)) b).
Proof.
  unfold compressStep, step.
  assert (F : forall L' b', context_w (build L' b') = l_w L'
              /\ context_dictionaryToCreate (build L' b') = l_toCreate L'
              /\ context_numBits (build L' b') = l_numBits L'
              /\ context_dictionary (build L' b') = l_dictionary L'
              /\ context_enlargeIn (build L' b') = l_enlargeIn L'
              /\ context_dictSize (build L' b') = l_dictSize L'
              /\ buffer_of (build L' b') = b').
  { intros L' [[d v] p]. repeat split. }
  set (L1 := if hasOwn (l_dictionary L) [ch] then L else _).
  assert (E1 : (if hasOwn (context_dictionary (build L b)) [ch]
                then build L b
                else
                  mkContext
                    (context_dictionary (build L b)
                       ++ [([ch], context_dictSize (build L b))])
                    (context_dictionaryToCreate (build L b) ++ [[ch]])
                    (context_w (build L b)) (context_enlargeIn (build L b))
                    (context_dictSize (build L b) + 1)
                    (context_numBits (build L b))
                    (context_data (build L b))
                    (context_data_val (build L b))
                    (context_data_position (build L b)))
               = build L1 b).
  { subst L1. destruct (F L b) as (F1 & F2 & F3 & F4 & F5 & F6 & F7).
    rewrite F1, F2, F3, F4, F5, F6.
    destruct (hasOwn (l_dictionary L) [ch]); [reflexivity|].
    destruct b as [[d v] p]. reflexivity. }
  rewrite E1. clearbody L1.
  destruct (F L1 b) as (F1 & F2 & F3 & F4 & F5 & F6 & F7).
  rewrite F1, F4.
  destruct (hasOwn (l_dictionary L1) (l_w L1 ++ [ch])).
  - cbn [fst snd fold_left]. rewrite F2, F3, F5, F6.
    destruct b as [[d v] p]. reflexivity.
  - rewrite produceW_build. cbn [fst snd].
    set (b2 := fold_left push (token_bits L1) b).
    destruct (F (produced L1) b2) as (G1 & G2 & G3 & G4 & G5 & G6 & G7).
    rewrite G2, G3, G4, G5, G6.
    destruct b2 as [[d v] p]. reflexivity.
Qed.

(** The whole input. *)
Fixpoint run (s : jsstring) (L : logic) : logic * list N :=
  match s with
  | [] => (L, [])
  | ch :: s' =>
      let (L1, bits1) := step L ch in
      let (L2, bits2) := run s' L1 in
      (L2, bits1 ++ bits2)
  end.

Lemma fold_compressStep_build (s : jsstring) (L : logic) (b : buffer) :
  fold_left (compressStep 6 getCharFromInt) s (build L b)
  = build (fst (run s L)) (fold_left push (snd (run s L)) b).
Proof.
  revert L b. induction s as [|ch s IH]; intros L b; [reflexivity|].
  cbn [fold_left run]. rewrite compressStep_build.
  destruct (step L ch) as [L1 bits1]. cbn [fst snd].
  rewrite IH. destruct (run s L1) as [L2 bits2]. cbn [fst snd].
  rewrite fold_left_app. reflexivity.
Qed.

Definition initialLogic : logic := mkLogic [] [] [] 2 3 2.

(** All the bits [_compress] writes before it flushes: the tokens of the
    input, the token of the last phrase, and the end marker. *)
Definition encode_bits (s : jsstring) : list N :=
  let (L, bits) := run s initialLogic in
  let (L1, last) :=
    match l_w L with
    | [] => (L, [])
    | _ :: _ => (produced L, token_bits L)
    end in
  bits ++ last ++ lsb_bits (N.to_nat (l_numBits L1)) 2.

Lemma _compress_bits (s : jsstring) :
  _compress 6 getCharFromInt s
  = concat (flush 6 getCharFromInt (N.to_nat 6)
              (build initialLogic
                 (fold_left push (encode_bits s) ([], 0, 0)))).
Proof.
  unfold _compress, encode_bits.
  change initialContext with (build initialLogic ([], 0, 0)).
  rewrite fold_compressStep_build.
  destruct (run s initialLogic) as [L bits]. cbn [fst snd].
  set (b := fold_left push bits ([], 0, 0)).
  assert (W : context_w (build L b) = l_w L) by (destruct b as [[d v] p]; reflexivity).
  rewrite W.
  assert (Fl : forall L1 L2 b', flush 6 getCharFromInt (N.to_nat 6) (build L1 b')
                = flush 6 getCharFromInt (N.to_nat 6) (build L2 b')).
  { intros L1 L2 b'. generalize (N.to_nat 6). intro n. revert b'.
    induction n as [|n IH]; intros [[d v] p]; cbn [flush build
      context_data_position context_data_val context_data];
      destruct (p =? 6 - 1); try reflexivity.
    apply (IH (d, N.shiftl v 1, p + 1)). }
  destruct (l_w L) as [|x w'].
  - assert (N1 : context_numBits (build L b) = l_numBits L)
      by (destruct b as [[d v] p]; reflexivity).
    rewrite N1, writeBits_build. cbn [app].
    rewrite fold_left_app. fold b. apply f_equal, Fl.
  - rewrite produceW_build.
    set (b2 := fold_left push (token_bits L) b).
    assert (N1 : context_numBits (build (produced L) b2)
                 = l_numBits (produced L))
      by (destruct b2 as [[d v] p]; reflexivity).
    rewrite N1, writeBits_build.
    rewrite !fold_left_app. fold b. fold b2. apply f_equal, Fl.
Qed.


(** *** Bits into characters *)

#[local] Ltac Zify.zify_post_hook ::= Z.to_euclidean_division_equations.

Definition is_bit (b : N) : Prop := b = 0 \/ b = 1.

Lemma lsb_bits_is_bit (n : nat) (v : N) : Forall is_bit (lsb_bits n v).
Proof.
  revert v. induction n as [|n IH]; intro v; [constructor|].
  cbn [lsb_bits]. constructor; [|apply IH].
  unfold is_bit. pose proof (N.land_ones v 1) as E.
  change (N.ones 1) with 1 in E. change (2 ^ 1) with 2 in E.
  rewrite E. lia.
Qed.

Lemma lsb_bits_length (n : nat) (v : N) : List.length (lsb_bits n v) = n.
Proof.
  revert v. induction n as [|n IH]; intro v; [reflexivity|].
  cbn [lsb_bits List.length]. rewrite IH. reflexivity.
Qed.

(** The number a group of bits spells, highest first. *)
Definition from_bits (l : list N) : N :=
  fold_left (fun acc b => N.lor (N.shiftl acc 1) b) l 0.

(** The groups of six bits pushed so far and the bits pending. *)
Definition packed (groups : list (list N)) (partial : list N) (b : buffer)
  : Prop :=
  let '(d, v, p) := b in
  d = map (fun grp => getCharFromInt (from_bits grp)) groups
  /\ v = from_bits partial
  /\ p = N.of_nat (List.length partial)
  /\ (List.length partial < 6)%nat
  /\ Forall (fun grp => List.length grp = 6%nat) groups.

Lemma from_bits_snoc (l : list N) (b : N) :
  from_bits (l ++ [b]) = N.lor (N.shiftl (from_bits l) 1) b.
Proof. unfold from_bits. rewrite fold_left_app. reflexivity. Qed.

Lemma push_packed (groups : list (list N)) (partial : list N) (b : buffer)
  (bit : N) :
  packed groups partial b ->
  exists groups' partial',
    packed groups' partial' (push b bit)
    /\ concat groups' ++ partial' = (concat groups ++ partial) ++ [bit].
Proof.
  destruct b as [[d v] p]. intros (Hd & Hv & Hp & Hl & Hg).
  unfold push. destruct (p =? 6 - 1) eqn:E.
  - apply N.eqb_eq in E.
    exists (groups ++ [partial ++ [bit]]), [].
    split.
    + unfold packed. repeat split.
      * rewrite map_app, Hd. cbn [map]. rewrite from_bits_snoc, Hv.
        reflexivity.
      * cbn. lia.
      * apply Forall_app. split; [exact Hg|].
        constructor; [|constructor]. rewrite length_app. cbn. lia.
    + rewrite concat_app. cbn [concat]. rewrite !app_nil_r.
      rewrite app_assoc. reflexivity.
  - apply N.eqb_neq in E.
    exists groups, (partial ++ [bit]).
    split.
    + unfold packed. repeat split; try assumption.
      * rewrite from_bits_snoc, Hv. reflexivity.
      * rewrite length_app. cbn. lia.
      * rewrite length_app. cbn. lia.
    + rewrite app_assoc. reflexivity.
Qed.

Lemma pushes_packed (bits : list N) (groups : list (list N))
  (partial : list N) (b : buffer) :
  packed groups partial b ->
  exists groups' partial',
    packed groups' partial' (fold_left push bits b)
    /\ concat groups' ++ partial' = (concat groups ++ partial) ++ bits.
Proof.
  revert groups partial b. induction bits as [|bit bits IH];
    intros groups partial b H.
  - exists groups, partial. split; [exact H|]. rewrite app_nil_r. reflexivity.
  - cbn [fold_left].
    destruct (push_packed groups partial b bit H) as (g1 & p1 & H1 & E1).
    destruct (IH g1 p1 (push b bit) H1) as (g2 & p2 & H2 & E2).
    exists g2, p2. split; [exact H2|].
    rewrite E2, E1, <- app_assoc. reflexivity.
Qed.

Lemma from_bits_zeros (l : list N) (k : nat) :
  from_bits (l ++ repeat 0 k) = N.shiftl (from_bits l) (N.of_nat k).
Proof.
  induction k as [|k IH].
  - cbn. rewrite app_nil_r, N.shiftl_0_r. reflexivity.
  - replace (repeat 0 (S k)) with (repeat 0 k ++ [0])
      by (rewrite <- repeat_cons; reflexivity).
    rewrite app_assoc, from_bits_snoc, IH, N.lor_0_r.
    rewrite N.shiftl_shiftl. f_equal. lia.
Qed.

(** Flushing: the pending bits, filled up with zeros, make the last
    character. *)
Lemma flush_packed (fuel : nat) (L : logic) (groups : list (list N))
  (partial : list N) (b : buffer) :
  packed groups partial b ->
  (6 <= fuel + List.length partial + 1)%nat ->
  flush 6 getCharFromInt fuel (build L b)
  = map (fun grp => getCharFromInt (from_bits grp))
      (groups ++ [partial ++ repeat 0 (6 - List.length partial)]).
Proof.
  revert partial b. induction fuel as [|fuel IH]; intros partial b H Hf;
    destruct b as [[d v] p]; destruct H as (Hd & Hv & Hp & Hl & Hg);
    cbn [flush build context_data_position context_data_val context_data
         context_dictionary context_dictionaryToCreate context_w
         context_enlargeIn context_dictSize context_numBits];
    (destruct (p =? 6 - 1) eqn:E;
     [apply N.eqb_eq in E|apply N.eqb_neq in E]);
    try lia.
  - rewrite map_app, Hd. cbn [map]. do 2 f_equal.
    replace (6 - List.length partial)%nat with 1%nat by lia.
    change (repeat 0 1) with [0]. rewrite from_bits_snoc, Hv, N.lor_0_r.
    reflexivity.
  - rewrite map_app, Hd. cbn [map]. do 2 f_equal.
    replace (6 - List.length partial)%nat with 1%nat by lia.
    change (repeat 0 1) with [0]. rewrite from_bits_snoc, Hv, N.lor_0_r.
    reflexivity.
  - change (mkContext (l_dictionary L) (l_toCreate L) (l_w L)
              (l_enlargeIn L) (l_dictSize L) (l_numBits L)
              d (N.shiftl v 1) (p + 1))
      with (build L (d, N.shiftl v 1, p + 1)).
    rewrite (IH (partial ++ [0]) (d, N.shiftl v 1, p + 1)).
    + rewrite length_app. cbn [List.length].
      replace (6 - List.length partial)%nat
        with (S (6 - (List.length partial + 1)))%nat by lia.
      cbn [repeat]. rewrite <- app_assoc. reflexivity.
    + unfold packed. repeat split; try assumption.
      * rewrite from_bits_snoc, Hv, N.lor_0_r. reflexivity.
      * rewrite length_app. cbn. lia.
      * rewrite length_app. cbn. lia.
    + rewrite length_app. cbn. lia.
Qed.


(** *** Characters back into bits *)

Definition val_of (p : jsstring) : N :=
  match reverseDic_get base64ReverseDic p with
  | Some v => v
  | None => 0
  end.

(** The six bits of a character's value, highest first. *)
Definition to_bits6 (v : N) : list N := rev (lsb_bits 6 v).

(** The bits the decoder reads from a text, character by character. *)
Definition stream_bits (out : jsstring) : list N :=
  concat (map (fun c => to_bits6 (val_of [c])) out).

Definition six_bits (grp : list N) : Prop :=
  List.length grp = 6%nat /\ Forall is_bit grp.

Lemma six_bits_cases (grp : list N) :
  six_bits grp ->
  exists b5 b4 b3 b2 b1 b0,
    grp = [b5; b4; b3; b2; b1; b0]
    /\ is_bit b5 /\ is_bit b4 /\ is_bit b3 /\ is_bit b2 /\ is_bit b1
    /\ is_bit b0.
Proof.
  intros [Hl Hb].
  destruct grp as [|b5 [|b4 [|b3 [|b2 [|b1 [|b0 [|x t]]]]]]];
    try discriminate Hl.
  exists b5, b4, b3, b2, b1, b0.
  repeat match goal with
         | H : Forall _ (_ :: _) |- _ => inversion H; clear H; subst
         end.
  repeat split; assumption.
Qed.

(** Every value below 64 has its character, and the character has that
    value. *)
Definition char_value_ok (v : N) : bool :=
  match getCharFromInt v with
  | [c] => val_of [c] =? v
  | _ => false
  end.

Lemma char_value_all :
  forallb char_value_ok (map N.of_nat (seq 0 64)) = true.
Proof. vm_compute. reflexivity. Qed.

Lemma char_of_value (v : N) :
  v < 64 -> exists c, getCharFromInt v = [c] /\ val_of [c] = v.
Proof.
  intro H.
  assert (I : In v (map N.of_nat (seq 0 64))).
  { apply in_map_iff. exists (N.to_nat v). split; [lia|].
    apply in_seq. lia. }
  pose proof (proj1 (forallb_forall _ _) char_value_all v I) as C.
  unfold char_value_ok in C.
  destruct (getCharFromInt v) as [|c [|x t]]; try discriminate C.
  exists c. split; [reflexivity|]. apply N.eqb_eq. exact C.
Qed.

Lemma bits_of_value (grp : list N) :
  six_bits grp -> from_bits grp < 64 /\ to_bits6 (from_bits grp) = grp.
Proof.
  intro H.
  destruct (six_bits_cases grp H)
    as (b5 & b4 & b3 & b2 & b1 & b0 & -> & H5 & H4 & H3 & H2 & H1 & H0).
  destruct H5 as [->| ->]; destruct H4 as [->| ->]; destruct H3 as [->| ->];
    destruct H2 as [->| ->]; destruct H1 as [->| ->]; destruct H0 as [->| ->];
    split; reflexivity.
Qed.

(** A group of six bits is the value of one character of the alphabet, and
    the character gives the group back. *)
Lemma group_char (grp : list N) :
  six_bits grp ->
  exists c,
    getCharFromInt (from_bits grp) = [c] /\ to_bits6 (val_of [c]) = grp.
Proof.
  intro H. destruct (bits_of_value grp H) as [B T].
  destruct (char_of_value _ B) as (c & C1 & C2).
  exists c. split; [exact C1|]. rewrite C2. exact T.
Qed.

Lemma stream_bits_app (a b : jsstring) :
  stream_bits (a ++ b) = stream_bits a ++ stream_bits b.
Proof. unfold stream_bits. rewrite map_app, concat_app. reflexivity. Qed.

Lemma stream_bits_groups (groups : list (list N)) :
  Forall six_bits groups ->
  stream_bits
    (concat (map (fun grp => getCharFromInt (from_bits grp)) groups))
  = concat groups
  /\ List.length
       (concat (map (fun grp => getCharFromInt (from_bits grp)) groups))
     = List.length groups.
Proof.
  induction 1 as [|grp groups Hg Hgs [IH1 IH2]]; [split; reflexivity|].
  destruct (group_char grp Hg) as (c & E1 & E2).
  cbn [map concat]. rewrite E1. cbn [app]. split.
  - change (c :: ?l) with ([c] ++ l). rewrite stream_bits_app, IH1.
    unfold stream_bits at 1. cbn [map concat]. rewrite E2, app_nil_r.
    reflexivity.
  - cbn [List.length]. rewrite IH2. reflexivity.
Qed.

Lemma concat_length_six (groups : list (list N)) :
  Forall (fun grp => List.length grp = 6%nat) groups ->
  List.length (concat groups) = (6 * List.length groups)%nat.
Proof.
  induction 1 as [|grp groups Hg Hgs IH]; [reflexivity|].
  cbn [concat List.length]. rewrite length_app, IH, Hg. lia.
Qed.

(** Cutting a list of bits into groups of six keeps the bits. *)
Lemma groups_six_bits (groups : list (list N)) :
  Forall (fun grp => List.length grp = 6%nat) groups ->
  Forall is_bit (concat groups) ->
  Forall six_bits groups.
Proof.
  induction 1 as [|grp groups Hg Hgs IH]; intro Hb; [constructor|].
  cbn [concat] in Hb. apply Forall_app in Hb. destruct Hb as [Hb1 Hb2].
  constructor; [split; assumption|apply IH; exact Hb2].
Qed.

Definition padding (n : N) : jsstring :=
  match n mod 4 with
  | 1 => lit "==="
  | 2 => lit "=="
  | 3 => lit "="
  | _ => []
  end.

Lemma padding_zeros (n : N) :
  stream_bits (padding n)
  = repeat 0 (6 * List.length (padding n)).
Proof.
  unfold padding.
  destruct (n mod 4) as [|[[p|p|]|[p|p|]|]]; vm_compute; reflexivity.
Qed.

Lemma encode_bits_is_bit (s : jsstring) : Forall is_bit (encode_bits s).
Proof.
  assert (T : forall L, Forall is_bit (token_bits L)).
  { intro L. unfold token_bits.
    destruct (toCreate_has (l_toCreate L) (l_w L));
      [destruct (charCodeAt0 (l_w L) <? 256)|];
      repeat (apply Forall_app; split); apply lsb_bits_is_bit. }
  assert (R : forall s L, Forall is_bit (snd (run s L))).
  { induction s0 as [|ch s0 IH]; intro L; [constructor|].
    cbn [run]. destruct (step L ch) as [L1 bits1] eqn:E1.
    specialize (IH L1). destruct (run s0 L1) as [L2 bits2].
    cbn [snd] in *. apply Forall_app. split; [|exact IH].
    unfold step in E1.
    match type of E1 with
    | (if ?c then _ else _) = _ => destruct c
    end; injection E1 as <- <-; [constructor|apply T]. }
  unfold encode_bits. specialize (R s initialLogic).
  destruct (run s initialLogic) as [L bits]. cbn [snd] in R.
  destruct (l_w L);
    repeat (apply Forall_app; split);
    try assumption; try apply T; try apply lsb_bits_is_bit; constructor.
Qed.

(** The text [compressToBase64] returns, read back as bits, is the bits the
    encoder wrote, followed by zeros; and there is a zero at least. *)
Theorem compressToBase64_stream (s : jsstring) :
  exists m : nat,
    stream_bits (compressToBase64 s) = encode_bits s ++ repeat 0 m
    /\ (1 <= m)%nat
    /\ (6 * List.length (compressToBase64 s)
        = List.length (encode_bits s) + m)%nat.
Proof.
  unfold compressToBase64. rewrite _compress_bits.
  destruct (pushes_packed (encode_bits s) [] [] ([], 0, 0))
    as (groups & partial & P & E).
  { unfold packed. repeat split; try constructor. cbn. lia. }
  cbn [concat app] in E.
  rewrite (flush_packed (N.to_nat 6) initialLogic groups partial _ P)
    by (destruct (fold_left push (encode_bits s) ([], 0, 0)) as [[d v] p];
        cbn; lia).
  assert (Hp : (List.length partial < 6)%nat
               /\ Forall (fun grp => List.length grp = 6%nat) groups).
  { destruct (fold_left push (encode_bits s) ([], 0, 0)) as [[d v] p].
    destruct P as (_ & _ & _ & Hl & Hg). split; assumption. }
  destruct Hp as [Hl Hg].
  set (final := groups ++ [partial ++ repeat 0 (6 - List.length partial)]).
  assert (F6 : Forall (fun grp => List.length grp = 6%nat) final).
  { subst final. apply Forall_app. split; [exact Hg|].
    constructor; [|constructor].
    rewrite length_app, repeat_length. lia. }
  assert (Ec : concat final
               = encode_bits s ++ repeat 0 (6 - List.length partial)).
  { subst final. rewrite concat_app. cbn [concat].
    rewrite app_nil_r, app_assoc, E. reflexivity. }
  assert (Fb : Forall six_bits final).
  { apply groups_six_bits; [exact F6|]. rewrite Ec.
    apply Forall_app. split; [apply encode_bits_is_bit|].
    apply Forall_forall. intros x Hx. apply repeat_spec in Hx.
    left. exact Hx. }
  destruct (stream_bits_groups final Fb) as [S1 S2].
  set (res := concat (map (fun grp => getCharFromInt (from_bits grp)) final))
    in *.
  assert (Ep : match N.of_nat (List.length res) mod 4 with
               | 1 => res ++ lit "==="
               | 2 => res ++ lit "=="
               | 3 => res ++ lit "="
               | _ => res
               end = res ++ padding (N.of_nat (List.length res))).
  { unfold padding.
    destruct (N.of_nat (List.length res) mod 4) as [|[[p|p|]|[p|p|]|]];
      rewrite ?app_nil_r; reflexivity. }
  rewrite Ep.
  exists ((6 - List.length partial)
          + 6 * List.length (padding (N.of_nat (List.length res))))%nat.
  rewrite stream_bits_app, S1, Ec, padding_zeros, <- app_assoc, <- repeat_app.
  split; [reflexivity|]. split; [lia|].
  rewrite length_app, S2.
  pose proof (concat_length_six final F6) as C6.
  rewrite Ec, length_app, repeat_length in C6. lia.
Qed.


(** *** The reader of the decoder *)

Lemma reverseDic_get_In (d : reverseDic) (p : jsstring) (v : N) :
  reverseDic_get d p = Some v -> In v (map snd d).
Proof.
  induction d as [|[k x] d IH]; cbn [reverseDic_get map snd];
    [discriminate|].
  destruct (jsstring_eqb k p).
  - intro H. injection H as ->. left. reflexivity.
  - intro H. right. apply IH. exact H.
Qed.

Lemma val_of_bound (p : jsstring) : val_of p <= 64.
Proof.
  unfold val_of.
  destruct (reverseDic_get base64ReverseDic p) as [v|] eqn:E; [|lia].
  apply reverseDic_get_In in E.
  assert (A : forallb (fun x => x <=? 64) (map snd base64ReverseDic) = true)
    by (vm_compute; reflexivity).
  rewrite forallb_forall in A. apply N.leb_le. apply A. exact E.
Qed.

(** The mask [32 >> j] picks bit [j] of the six, counted from the top. *)
Lemma mask_bit (v j : N) :
  v <= 64 -> j < 6 ->
  (if 0 <? N.land v (N.shiftr 32 j) then 1 else 0)
  = nth (N.to_nat j) (to_bits6 v) 0.
Proof.
  intros Hv Hj.
  assert (A : forallb
                (fun v =>
                   forallb
                     (fun j =>
                        (if 0 <? N.land v (N.shiftr 32 j) then 1 else 0)
                        =? nth (N.to_nat j) (to_bits6 v) 0)
                     (map N.of_nat (seq 0 6)))
                (map N.of_nat (seq 0 65)) = true)
    by (vm_compute; reflexivity).
  rewrite forallb_forall in A.
  assert (Iv : In v (map N.of_nat (seq 0 65))).
  { apply in_map_iff. exists (N.to_nat v). split; [lia|].
    apply in_seq. lia. }
  specialize (A v Iv). rewrite forallb_forall in A.
  assert (Ij : In j (map N.of_nat (seq 0 6))).
  { apply in_map_iff. exists (N.to_nat j). split; [lia|].
    apply in_seq. lia. }
  apply N.eqb_eq. apply A. exact Ij.
Qed.

Lemma to_bits6_length (v : N) : List.length (to_bits6 v) = 6%nat.
Proof. unfold to_bits6. rewrite length_rev. apply lsb_bits_length. Qed.

Lemma nth_stream_bits (out : jsstring) (k : nat) :
  nth k (stream_bits out) 0
  = nth (k mod 6) (to_bits6 (val_of (charAt out (N.of_nat (k / 6))))) 0.
Proof.
  revert k. induction out as [|c out IH]; intro k.
  - unfold charAt. replace (nth_error [] _) with (@None N)
      by (destruct (N.to_nat (N.of_nat (k / 6))); reflexivity).
    cbn [stream_bits map concat].
    assert (Z6 : to_bits6 (val_of []) = [0; 0; 0; 0; 0; 0])
      by (vm_compute; reflexivity).
    rewrite Z6.
    replace (nth k [] 0) with 0 by (destruct k; reflexivity).
    destruct (k mod 6)%nat as [|[|[|[|[|[|[|x]]]]]]]; reflexivity.
  - change (c :: out) with ([c] ++ out) at 1.
    rewrite stream_bits_app. unfold stream_bits at 1. cbn [map concat].
    rewrite app_nil_r.
    pose proof (to_bits6_length (val_of [c])) as L6.
    destruct (Nat.lt_ge_cases k 6) as [Hk|Hk].
    + rewrite app_nth1 by lia.
      rewrite Nat.mod_small by exact Hk.
      rewrite Nat.div_small by exact Hk. reflexivity.
    + rewrite app_nth2 by lia. rewrite L6, IH.
      replace (k mod 6)%nat with ((k - 6) mod 6)%nat.
      2:{ replace k with ((k - 6) + 1 * 6)%nat at 2 by lia.
          rewrite Nat.Div0.mod_add. reflexivity. }
      replace (k / 6)%nat with (S ((k - 6) / 6))%nat.
      2:{ replace k with ((k - 6) + 1 * 6)%nat at 2 by lia.
          rewrite Nat.div_add by lia. lia. }
      unfold charAt. rewrite !Nnat.Nat2N.id. reflexivity.
Qed.

Section Reader.

Variable out : jsstring.

Definition getNextValue (index : N) : option N :=
  reverseDic_get base64ReverseDic (charAt out index).

(** The reader when [k] bits have been read. *)
Definition reader (k : N) : dataState :=
  mkData (getNextValue (k / 6)) (N.shiftr 32 (k mod 6)) (k / 6 + 1).

Definition stream (k : N) : N := nth (N.to_nat k) (stream_bits out) 0.

Lemma readBit_reader (k : N) :
  readBit 32 getNextValue (reader k) = (stream k, reader (k + 1)).
Proof.
  unfold readBit, reader, stream.
  cbn [data_val data_position data_index].
  assert (Hj : k mod 6 < 6) by lia.
  rewrite nth_stream_bits.
  change 6%nat with (N.to_nat 6).
  rewrite <- Nnat.N2Nat.inj_div, <- Nnat.N2Nat.inj_mod, Nnat.N2Nat.id.
  change (match getNextValue (k / 6) with
          | Some v => v
          | None => 0
          end) with (val_of (charAt out (k / 6))).
  rewrite (mask_bit _ _ (val_of_bound _) Hj). f_equal.
  rewrite N.shiftr_shiftr.
  assert (C : k mod 6 = 5 \/ k mod 6 < 5) by lia.
  destruct C as [C|C].
  - rewrite C. change (N.shiftr 32 (5 + 1) =? 0) with true. cbv iota.
    replace ((k + 1) / 6) with (k / 6 + 1) by lia.
    replace ((k + 1) mod 6) with 0 by lia. reflexivity.
  - replace ((k + 1) / 6) with (k / 6) by lia.
    replace ((k + 1) mod 6) with (k mod 6 + 1) by lia.
    replace (N.shiftr 32 (k mod 6 + 1) =? 0) with false; [reflexivity|].
    symmetry. apply N.eqb_neq.
    assert (D : k mod 6 = 0 \/ k mod 6 = 1 \/ k mod 6 = 2 \/ k mod 6 = 3
                \/ k mod 6 = 4) by lia.
    destruct D as [D|[D|[D|[D|D]]]]; rewrite D; discriminate.
Qed.

(** A number is its lowest bit and the rest. *)
Lemma low_bit_split (v : N) :
  N.lor (N.land v 1) (N.shiftl (N.shiftr v 1) 1) = v.
Proof.
  apply N.bits_inj. intro i.
  rewrite N.lor_spec, N.land_spec.
  destruct (N.eq_dec i 0) as [->|Hi].
  - rewrite N.shiftl_spec_low by lia.
    change (N.testbit 1 0) with true. rewrite andb_true_r, orb_false_r.
    reflexivity.
  - rewrite N.shiftl_spec_high' by lia.
    rewrite N.shiftr_spec' .
    replace (i - 1 + 1) with i by lia.
    replace (N.testbit 1 i) with false.
    + rewrite andb_false_r. reflexivity.
    + symmetry. apply (N.bits_above_log2 1 i). cbn. lia.
Qed.

Lemma readBitsFrom_written (n : nat) (v i acc k : N) :
  v < 2 ^ N.of_nat n ->
  (forall j : nat, (j < n)%nat ->
     stream (k + N.of_nat j) = nth j (lsb_bits n v) 0) ->
  readBitsFrom 32 getNextValue n (2 ^ i) acc (reader k)
  = (N.lor acc (N.shiftl v i), reader (k + N.of_nat n)).
Proof.
  revert v i acc k. induction n as [|n IH]; intros v i acc k Hv Hs.
  - cbn [readBitsFrom]. change (2 ^ N.of_nat 0) with 1 in Hv.
    replace v with 0 by lia.
    rewrite N.shiftl_0_l, N.lor_0_r. f_equal. f_equal. lia.
  - cbn [readBitsFrom]. rewrite readBit_reader.
    pose proof (Hs O ltac:(lia)) as H0. cbn [lsb_bits nth] in H0.
    replace (k + N.of_nat 0) with k in H0 by lia. rewrite H0.
    replace (N.shiftl (2 ^ i) 1) with (2 ^ (i + 1)).
    2:{ rewrite N.shiftl_mul_pow2, N.pow_add_r. reflexivity. }
    rewrite (IH (N.shiftr v 1) (i + 1)).
    + f_equal.
      * rewrite <- N.lor_assoc. f_equal.
        rewrite <- N.shiftl_mul_pow2.
        replace (i + 1) with (1 + i) by lia.
        rewrite <- N.shiftl_shiftl, <- N.shiftl_lor, low_bit_split.
        reflexivity.
      * f_equal. lia.
    + rewrite N.shiftr_div_pow2. change (2 ^ 1) with 2.
      replace (N.of_nat (S n)) with (N.of_nat n + 1) in Hv by lia.
      rewrite N.pow_add_r in Hv. change (2 ^ 1) with 2 in Hv.
      apply N.Div0.div_lt_upper_bound. lia.
    + intros j Hj. specialize (Hs (S j) ltac:(lia)).
      cbn [lsb_bits nth] in Hs. rewrite <- Hs. f_equal. lia.
Qed.

(** Reading [n] bits where [writeBits n v] wrote gives [v] back. *)
Lemma readBits_written (n : nat) (v k : N) :
  v < 2 ^ N.of_nat n ->
  (forall j : nat, (j < n)%nat ->
     stream (k + N.of_nat j) = nth j (lsb_bits n v) 0) ->
  readBits 32 getNextValue n (reader k) = (v, reader (k + N.of_nat n)).
Proof.
  intros Hv Hs. unfold readBits.
  change 1 with (2 ^ 0) at 1.
  rewrite (readBitsFrom_written n v 0 0 k Hv Hs).
  rewrite N.shiftl_0_r, N.lor_0_l. reflexivity.
Qed.

End Reader.


(** *** The phrase dictionary of the encoder *)

Definition keys (d : list (jsstring * N)) : list jsstring := map fst d.

(** Entry [i] has code [3 + i]. *)
Definition coded (d : list (jsstring * N)) : Prop :=
  forall i k c, nth_error d i = Some (k, c) -> c = 3 + N.of_nat i.

Lemma hasOwn_In (d : list (jsstring * N)) (k : jsstring) :
  hasOwn d k = true <-> In k (keys d).
Proof.
  unfold hasOwn, keys. rewrite existsb_exists. split.
  - intros ([k' c] & Hin & E). apply jsstring_eqb_eq in E. cbn in E. subst.
    apply in_map_iff. exists (k, c). split; [reflexivity|exact Hin].
  - intro H. apply in_map_iff in H. destruct H as ([k' c] & E & Hin).
    cbn in E. subst. exists (k, c). split; [exact Hin|].
    apply jsstring_eqb_refl.
Qed.

Lemma hasOwn_not_In (d : list (jsstring * N)) (k : jsstring) :
  hasOwn d k = false <-> ~ In k (keys d).
Proof.
  rewrite <- hasOwn_In. destruct (hasOwn d k); split; congruence.
Qed.

Lemma jsstring_eqb_neq (a b : jsstring) : jsstring_eqb a b = false <-> a <> b.
Proof.
  rewrite <- jsstring_eqb_eq. destruct (jsstring_eqb a b); split; congruence.
Qed.

Lemma dict_get_nth (d : list (jsstring * N)) (i : nat) (k : jsstring)
  (c : N) :
  NoDup (keys d) -> nth_error d i = Some (k, c) -> dict_get d k = c.
Proof.
  revert i. induction d as [|[k' c'] d IH]; intros i Hn Hi.
  - destruct i; discriminate Hi.
  - cbn [keys map fst] in Hn. inversion Hn as [|? ? Hk Hn']; subst.
    cbn [dict_get]. destruct i as [|i].
    + cbn in Hi. injection Hi as -> ->. rewrite jsstring_eqb_refl.
      reflexivity.
    + cbn in Hi.
      replace (jsstring_eqb k' k) with false.
      * apply (IH i Hn' Hi).
      * symmetry. apply jsstring_eqb_neq. intro; subst k'.
        apply Hk. apply nth_error_In in Hi.
        apply in_map_iff. exists (k, c). split; [reflexivity|exact Hi].
Qed.

Lemma NoDup_snoc {A} (l : list A) (x : A) :
  NoDup l -> ~ In x l -> NoDup (l ++ [x]).
Proof.
  induction 1 as [|y l Hy Hl IH]; intro Hx.
  - constructor; [intros []|constructor].
  - cbn [app]. constructor.
    + intro H. apply in_app_or in H. destruct H as [H|[H|[]]].
      * exact (Hy H).
      * apply Hx. left. symmetry. exact H.
    + apply IH. intro H. apply Hx. right. exact H.
Qed.

Lemma coded_app (d : list (jsstring * N)) (k : jsstring) :
  coded d -> coded (d ++ [(k, 3 + N.of_nat (List.length d))]).
Proof.
  intros H i k' c Hi.
  destruct (Nat.lt_ge_cases i (List.length d)) as [Hl|Hl].
  - rewrite nth_error_app1 in Hi by exact Hl. apply (H i k' c Hi).
  - rewrite nth_error_app2 in Hi by exact Hl.
    destruct (i - List.length d)%nat as [|x] eqn:E.
    + cbn in Hi. injection Hi as <- <-.
      assert (Ei : i = List.length d) by lia. rewrite Ei. reflexivity.
    + cbn in Hi. destruct x; discriminate Hi.
Qed.

(** What holds of the encoder's logic between two characters, once it has
    read one. *)
Record enc_ok (L : logic) : Prop := {
  ok_nodup : NoDup (keys (l_dictionary L));
  ok_nonempty : Forall (fun k => k <> []) (keys (l_dictionary L));
  ok_coded : coded (l_dictionary L);
  ok_size : l_dictSize L = 3 + N.of_nat (List.length (l_dictionary L));
  ok_chars :
    forall k c, In k (keys (l_dictionary L)) -> In c k ->
                In [c] (keys (l_dictionary L));
  ok_w : l_w L <> [];
  ok_w_in : In (l_w L) (keys (l_dictionary L));
  ok_toCreate : l_toCreate L = [] \/ l_toCreate L = [l_w L]
}.

(** The logic after a step that emits: the token is that of [L]. *)
Definition emitted (L : logic) (ch : N) (fresh : bool) : logic :=
  let d1 :=
    if fresh then l_dictionary L ++ [([ch], l_dictSize L)]
    else l_dictionary L in
  let size1 := if fresh then l_dictSize L + 1 else l_dictSize L in
  mkLogic (d1 ++ [(l_w L ++ [ch], size1)])
    (if fresh then [[ch]] else [])
    [ch] (l_enlargeIn (produced L)) (size1 + 1) (l_numBits (produced L)).

Lemma toCreate_has_single (w k : jsstring) :
  toCreate_has [k] w = jsstring_eqb k w.
Proof. cbn. apply orb_false_r. Qed.

Lemma produced_fields (L : logic) :
  l_dictionary (produced L) = l_dictionary L
  /\ l_w (produced L) = l_w L
  /\ l_dictSize (produced L) = l_dictSize L.
Proof.
  unfold produced, decEnlarge.
  destruct (toCreate_has (l_toCreate L) (l_w L));
    repeat match goal with
           | |- context [if ?c then _ else _] => destruct c
           end; cbn; repeat split.
Qed.

Lemma produced_toCreate (L : logic) :
  l_toCreate (produced L)
  = if toCreate_has (l_toCreate L) (l_w L)
    then toCreate_delete (l_toCreate L) (l_w L)
    else l_toCreate L.
Proof.
  unfold produced, decEnlarge.
  destruct (toCreate_has (l_toCreate L) (l_w L));
    repeat match goal with
           | |- context [if ?c then _ else _] => destruct c
           end; reflexivity.
Qed.

Lemma toCreate_after (L : logic) (extra : list jsstring) :
  l_toCreate L = [] \/ l_toCreate L = [l_w L] ->
  ~ In (l_w L) extra ->
  (if toCreate_has (l_toCreate L ++ extra) (l_w L)
   then toCreate_delete (l_toCreate L ++ extra) (l_w L)
   else l_toCreate L ++ extra) = extra.
Proof.
  intros Htc Hn.
  assert (D : toCreate_delete extra (l_w L) = extra).
  { unfold toCreate_delete. clear Htc.
    induction extra as [|k e IH]; [reflexivity|].
    cbn [filter].
    replace (jsstring_eqb k (l_w L)) with false.
    - cbn [negb]. f_equal. apply IH. intro H. apply Hn. right. exact H.
    - symmetry. apply jsstring_eqb_neq. intro E. apply Hn. left. exact E. }
  assert (H : toCreate_has extra (l_w L) = false).
  { unfold toCreate_has. destruct (existsb _ extra) eqn:E; [|reflexivity].
    apply existsb_exists in E. destruct E as (k & Hk & E).
    apply jsstring_eqb_eq in E. subst k. contradiction. }
  destruct Htc as [Htc|Htc]; rewrite Htc.
  - cbn [app]. rewrite H. reflexivity.
  - cbn [app toCreate_has existsb toCreate_delete filter].
    rewrite jsstring_eqb_refl. cbn [orb negb]. exact D.
Qed.

Lemma produced_numbers (L L' : logic) :
  l_enlargeIn L = l_enlargeIn L' -> l_numBits L = l_numBits L' ->
  toCreate_has (l_toCreate L) (l_w L)
  = toCreate_has (l_toCreate L') (l_w L') ->
  l_enlargeIn (produced L) = l_enlargeIn (produced L')
  /\ l_numBits (produced L) = l_numBits (produced L').
Proof.
  intros E1 E2 E3. unfold produced, decEnlarge. rewrite E3, E1, E2.
  destruct (toCreate_has (l_toCreate L') (l_w L'));
    repeat match goal with
           | |- context [if ?c then _ else _] => destruct c eqn:?
           end; cbn in *; repeat split; congruence.
Qed.

(** One character, as the encoder's invariant lets it go. *)
Lemma step_cases (L : logic) (ch : N) :
  enc_ok L ->
  (hasOwn (l_dictionary L) (l_w L ++ [ch]) = true
   /\ step L ch
      = (mkLogic (l_dictionary L) (l_toCreate L) (l_w L ++ [ch])
           (l_enlargeIn L) (l_dictSize L) (l_numBits L), []))
  \/ (hasOwn (l_dictionary L) (l_w L ++ [ch]) = false
      /\ step L ch
         = (emitted L ch (negb (hasOwn (l_dictionary L) [ch])),
            token_bits L)).
Proof.
  intro OK. destruct OK as [Hnd Hne Hcd Hsz Hch Hw Hwin Htc].
  unfold step.
  destruct (hasOwn (l_dictionary L) [ch]) eqn:Fr.
  - (* a character seen before *)
    destruct (hasOwn (l_dictionary L) (l_w L ++ [ch])) eqn:Ext.
    + left. split; reflexivity.
    + right. split; [reflexivity|].
      destruct (produced_fields L) as (P1 & P2 & P3).
      unfold emitted. cbn [negb]. rewrite P1, P3, produced_toCreate.
      pose proof (toCreate_after L [] Htc (fun H => H)) as T.
      rewrite app_nil_r in T. rewrite T. reflexivity.
  - (* a new character: the phrase cannot go on *)
    right.
    assert (Fr' : ~ In [ch] (keys (l_dictionary L)))
      by (apply hasOwn_not_In; exact Fr).
    assert (Ext : hasOwn (l_dictionary L) (l_w L ++ [ch]) = false).
    { apply hasOwn_not_In. intro H. apply Fr'.
      apply (Hch _ ch H). apply in_or_app. right. left. reflexivity. }
    split; [exact Ext|].
    cbn [l_dictionary l_w l_toCreate l_enlargeIn l_dictSize l_numBits].
    assert (Ext1 : hasOwn (l_dictionary L ++ [([ch], l_dictSize L)])
                     (l_w L ++ [ch]) = false).
    { apply hasOwn_not_In. unfold keys. rewrite map_app. cbn [map fst].
      intro H. apply in_app_or in H. destruct H as [H|[H|[]]].
      - apply hasOwn_not_In in Ext. apply Ext. exact H.
      - destruct (l_w L) as [|x w']; [congruence|].
        destruct w'; discriminate H. }
    rewrite Ext1.
    set (L1 := mkLogic (l_dictionary L ++ [([ch], l_dictSize L)])
                 (l_toCreate L ++ [[ch]]) (l_w L) (l_enlargeIn L)
                 (l_dictSize L + 1) (l_numBits L)).
    assert (Wn : l_w L <> [ch]).
    { intro E. apply Fr'. rewrite <- E. exact Hwin. }
    assert (Has : toCreate_has (l_toCreate L1) (l_w L1)
                  = toCreate_has (l_toCreate L) (l_w L)).
    { subst L1. cbn [l_toCreate l_w]. unfold toCreate_has.
      rewrite existsb_app. cbn [existsb].
      replace (jsstring_eqb [ch] (l_w L)) with false
        by (symmetry; apply jsstring_eqb_neq; congruence).
      rewrite !orb_false_r. reflexivity. }
    assert (Tk : token_bits L1 = token_bits L).
    { unfold token_bits. rewrite Has. subst L1.
      cbn [l_numBits l_w l_dictionary].
      destruct (toCreate_has (l_toCreate L) (l_w L)); [reflexivity|].
      f_equal.
      destruct (In_nth_error _ _ Hwin) as [i Hi].
      unfold keys in Hi. rewrite nth_error_map in Hi.
      destruct (nth_error (l_dictionary L) i) as [[k c]|] eqn:Ei;
        [|discriminate Hi].
      cbn in Hi. injection Hi as ->.
      rewrite (dict_get_nth _ i (l_w L) c Hnd Ei).
      apply (dict_get_nth _ i (l_w L) c).
      - unfold keys. rewrite map_app. cbn [map fst].
        apply NoDup_snoc; assumption.
      - rewrite nth_error_app1; [exact Ei|].
        apply nth_error_Some. congruence. }
    rewrite Tk. f_equal.
    destruct (produced_fields L1) as (P1 & P2 & P3).
    destruct (produced_numbers L1 L eq_refl eq_refl Has) as (N1 & N2).
    unfold emitted. cbn [negb].
    rewrite P1, P3, N1, N2, produced_toCreate. subst L1.
    cbn [l_dictionary l_dictSize l_toCreate l_w].
    rewrite (toCreate_after L [[ch]] Htc); [reflexivity|].
    intros [E|[]]. apply Wn. symmetry. exact E.
Qed.


(** *** The encoder's invariant *)

Lemma keys_snoc (d : list (jsstring * N)) (k : jsstring) (c : N) :
  keys (d ++ [(k, c)]) = keys d ++ [k].
Proof. unfold keys. rewrite map_app. reflexivity. Qed.

(** Besides [enc_ok]: a phrase that is a character not written yet is that
    character alone, and no phrase of the dictionary goes on from it. *)
Record enc_inv (L : logic) : Prop := {
  inv_ok : enc_ok L;
  inv_single : l_toCreate L = [l_w L] -> exists c, l_w L = [c];
  inv_fresh :
    l_toCreate L = [l_w L] ->
    forall ch, ~ In (l_w L ++ [ch]) (keys (l_dictionary L))
}.

Lemma enc_ok_snoc (d : list (jsstring * N)) (k : jsstring) :
  NoDup (keys d) -> Forall (fun k => k <> []) (keys d) -> coded d ->
  (forall k' c, In k' (keys d) -> In c k' -> In [c] (keys d)) ->
  ~ In k (keys d) -> k <> [] ->
  (forall c, In c k -> In [c] (keys d) \/ [c] = k) ->
  let d' := d ++ [(k, 3 + N.of_nat (List.length d))] in
  NoDup (keys d') /\ Forall (fun k => k <> []) (keys d') /\ coded d'
  /\ (forall k' c, In k' (keys d') -> In c k' -> In [c] (keys d'))
  /\ 3 + N.of_nat (List.length d) + 1 = 3 + N.of_nat (List.length d').
Proof.
  intros Hnd Hne Hcd Hch Hk Hk0 Hkc d'. subst d'.
  rewrite keys_snoc. repeat split.
  - apply NoDup_snoc; assumption.
  - apply Forall_app. split; [exact Hne|]. constructor; [exact Hk0|constructor].
  - apply coded_app. exact Hcd.
  - intros k' c Hin Hc. apply in_or_app.
    apply in_app_or in Hin. destruct Hin as [Hin|[<-|[]]].
    + left. apply (Hch k' c Hin Hc).
    + destruct (Hkc c Hc) as [H|H]; [left; exact H|].
      right. left. symmetry. exact H.
  - rewrite length_app. cbn [List.length]. lia.
Qed.

Lemma enc_inv_step (L : logic) (ch : N) :
  enc_inv L -> enc_inv (fst (step L ch)).
Proof.
  intros [OK Hsingle Hfresh].
  pose proof OK as OK0.
  destruct OK as [Hnd Hne Hcd Hsz Hch Hw Hwin Htc].
  destruct (step_cases L ch OK0) as [[Ext E]|[Ext E]]; rewrite E; cbn [fst].
  - (* the phrase goes on *)
    assert (T : l_toCreate L = []).
    { destruct Htc as [Htc|Htc]; [exact Htc|].
      exfalso. apply (Hfresh Htc ch). apply hasOwn_In. exact Ext. }
    split.
    + split; cbn [l_dictionary l_dictSize l_w l_toCreate]; try assumption.
      * intro H. apply app_eq_nil in H. destruct H as [_ H]. discriminate H.
      * apply hasOwn_In. exact Ext.
      * left. exact T.
    + cbn [l_toCreate l_w]. rewrite T. discriminate.
    + cbn [l_toCreate l_w]. rewrite T. discriminate.
  - (* a token is written *)
    apply hasOwn_not_In in Ext.
    assert (Wc : l_w L ++ [ch] <> []).
    { intro H. apply app_eq_nil in H. destruct H as [_ H]. discriminate H. }
    destruct (hasOwn (l_dictionary L) [ch]) eqn:Fr; cbn [negb].
    + apply hasOwn_In in Fr.
      destruct (enc_ok_snoc (l_dictionary L) (l_w L ++ [ch])
                  Hnd Hne Hcd Hch Ext Wc) as (A1 & A2 & A3 & A4 & A5).
      { intros c Hc. left. apply in_app_or in Hc.
        destruct Hc as [Hc|[<-|[]]]; [apply (Hch _ c Hwin Hc)|exact Fr]. }
      unfold emitted. rewrite Hsz. split.
      * split; cbn [l_dictionary l_dictSize l_w l_toCreate];
          try assumption.
        -- discriminate.
        -- rewrite keys_snoc. apply in_or_app. left. exact Fr.
        -- left. reflexivity.
      * cbn [l_toCreate l_w]. discriminate.
      * cbn [l_toCreate l_w]. discriminate.
    + apply hasOwn_not_In in Fr.
      assert (Old : forall k, In k (keys (l_dictionary L)) -> ~ In ch k).
      { intros k Hk Hc. apply Fr. apply (Hch k ch Hk Hc). }
      destruct (enc_ok_snoc (l_dictionary L) [ch]
                  Hnd Hne Hcd Hch Fr) as (A1 & A2 & A3 & A4 & A5).
      { discriminate. }
      { intros c [<-|[]]. right. reflexivity. }
      set (d1 := l_dictionary L ++ [([ch], 3 + N.of_nat
                                      (List.length (l_dictionary L)))]) in *.
      assert (Ext1 : ~ In (l_w L ++ [ch]) (keys d1)).
      { subst d1. rewrite keys_snoc. intro H. apply in_app_or in H.
        destruct H as [H|[H|[]]]; [exact (Ext H)|].
        destruct (l_w L) as [|x [|y t]]; [congruence| |];
          cbn [app] in H; discriminate H. }
      destruct (enc_ok_snoc d1 (l_w L ++ [ch])
                  A1 A2 A3 A4 Ext1 Wc) as (B1 & B2 & B3 & B4 & B5).
      { intros c Hc. left. subst d1. rewrite keys_snoc.
        apply in_or_app. apply in_app_or in Hc.
        destruct Hc as [Hc|[<-|[]]].
        - left. apply (Hch _ c Hwin Hc).
        - right. left. reflexivity. }
      unfold emitted. rewrite Hsz. rewrite A5. fold d1. split.
      * split; cbn [l_dictionary l_dictSize l_w l_toCreate];
          try assumption.
        -- discriminate.
        -- rewrite keys_snoc. apply in_or_app. left.
           subst d1. rewrite keys_snoc. apply in_or_app. right. left.
           reflexivity.
        -- right. reflexivity.
      * cbn [l_toCreate l_w]. intros _. exists ch. reflexivity.
      * cbn [l_toCreate l_w l_dictionary]. intros _ x H.
        rewrite keys_snoc in H. apply in_app_or in H.
        destruct H as [H|[H|[]]].
        -- subst d1. rewrite keys_snoc in H. apply in_app_or in H.
           destruct H as [H|[H|[]]]; [|discriminate H].
           apply (Old _ H). left. reflexivity.
        -- cbn [app] in H.
           destruct (l_w L) as [|y [|z t]];
             [congruence| |destruct t; discriminate H].
           cbn [app] in H. injection H as -> _.
           apply Fr. exact Hwin.
Qed.

Definition firstLogic (c : N) : logic :=
  mkLogic [([c], 3)] [[c]] [c] 2 4 2.

Lemma step_first (c : N) : step initialLogic c = (firstLogic c, []).
Proof.
  unfold step, initialLogic, firstLogic.
  cbn [l_dictionary l_toCreate l_w l_enlargeIn l_dictSize l_numBits
       hasOwn existsb app fst].
  rewrite jsstring_eqb_refl. reflexivity.
Qed.

Lemma enc_inv_first (c : N) : enc_inv (firstLogic c).
Proof.
  split; [split|..]; cbn [firstLogic l_dictionary l_toCreate l_w l_dictSize
                          keys map fst List.length].
  - constructor; [intros []|constructor].
  - constructor; [discriminate|constructor].
  - intros i k x H. destruct i as [|i]; cbn in H.
    + injection H as <- <-. reflexivity.
    + destruct i; discriminate H.
  - reflexivity.
  - intros k x [<-|[]] [<-|[]]. left. reflexivity.
  - discriminate.
  - left. reflexivity.
  - right. reflexivity.
  - intros _. exists c. reflexivity.
  - intros _ ch [H|[]]. discriminate H.
Qed.

(** *** The decoder follows the encoder, one token behind *)

Lemma dictionary_set_snoc (d : list dictEntry) (e : dictEntry) :
  dictionary_set d (List.length d) e = d ++ [e].
Proof.
  induction d as [|x d IH]; [reflexivity|].
  cbn [List.length dictionary_set app]. rewrite IH. reflexivity.
Qed.

(** The decoder's array when the phrases [ks] have been added. *)
Definition dec_dict (ks : list jsstring) : list dictEntry :=
  [DNum 0; DNum 1; DNum 2] ++ map DStr ks.

Lemma dec_dict_get (ks : list jsstring) (c : N) (i : nat) :
  c = 3 + N.of_nat i ->
  dictionary_get (dec_dict ks) c = nth i (map DStr ks) DUndefined.
Proof.
  intros ->. unfold dictionary_get.
  replace (N.to_nat (3 + N.of_nat i)) with (S (S (S i))) by lia.
  reflexivity.
Qed.

Lemma dec_dict_set (ks : list jsstring) (c : N) (k : jsstring) :
  c = 3 + N.of_nat (List.length ks) ->
  dictionary_set (dec_dict ks) (N.to_nat c) (DStr k) = dec_dict (ks ++ [k]).
Proof.
  intros ->.
  replace (N.to_nat (3 + N.of_nat (List.length ks)))
    with (List.length (dec_dict ks)).
  - rewrite dictionary_set_snoc. unfold dec_dict.
    rewrite map_app, <- app_assoc. reflexivity.
  - unfold dec_dict. rewrite length_app, length_map. cbn [List.length]. lia.
Qed.

Lemma match_code {A} (c : N) (a b d e : A) :
  3 <= c ->
  match c with 0 => a | 1 => b | 2 => d | _ => e end = e.
Proof. destruct c as [|[[p|p|]|[p|p|]|]]; intro H; try reflexivity; lia. Qed.

(** The decoder's counters: [enlargeIn] entries are left before the codes
    get one bit wider. *)
Definition sized (ds e nb : N) : Prop :=
  ds + e = 2 ^ nb /\ 1 <= e /\ 3 <= ds.

Lemma sized_enlarge (ds e nb : N) :
  sized ds e nb ->
  sized (ds + 1) (fst (enlarge (N.pred e) nb)) (snd (enlarge (N.pred e) nb)).
Proof.
  intros (H1 & H2 & H3). unfold enlarge, sized.
  destruct (N.pred e =? 0) eqn:E; cbn [fst snd].
  - apply N.eqb_eq in E.
    replace (nb + 1) with (N.succ nb) by lia. rewrite N.pow_succ_r'.
    assert (0 < 2 ^ nb) by (apply N.neq_0_lt_0, N.pow_nonzero; discriminate).
    lia.
  - apply N.eqb_neq in E. lia.
Qed.

Lemma enlarge_same (e nb : N) : 1 <= e -> enlarge e nb = (e, nb).
Proof.
  intro H. unfold enlarge. destruct (e =? 0) eqn:E; [|reflexivity].
  apply N.eqb_eq in E. lia.
Qed.

Lemma decEnlarge_enlarge (L : logic) :
  l_enlargeIn (decEnlarge L)
  = fst (enlarge (N.pred (l_enlargeIn L)) (l_numBits L))
  /\ l_numBits (decEnlarge L)
     = snd (enlarge (N.pred (l_enlargeIn L)) (l_numBits L)).
Proof.
  unfold decEnlarge, enlarge.
  destruct (N.pred (l_enlargeIn L) =? 0); split; reflexivity.
Qed.

Lemma produced_code (L : logic) :
  toCreate_has (l_toCreate L) (l_w L) = false ->
  l_enlargeIn (produced L)
  = fst (enlarge (N.pred (l_enlargeIn L)) (l_numBits L))
  /\ l_numBits (produced L)
     = snd (enlarge (N.pred (l_enlargeIn L)) (l_numBits L)).
Proof. intro H. unfold produced. rewrite H. apply decEnlarge_enlarge. Qed.

Lemma produced_literal (L : logic) :
  toCreate_has (l_toCreate L) (l_w L) = true ->
  let e1 := fst (enlarge (N.pred (l_enlargeIn L)) (l_numBits L)) in
  let n1 := snd (enlarge (N.pred (l_enlargeIn L)) (l_numBits L)) in
  l_enlargeIn (produced L) = fst (enlarge (N.pred e1) n1)
  /\ l_numBits (produced L) = snd (enlarge (N.pred e1) n1).
Proof.
  intro H. unfold produced. rewrite H. cbv zeta.
  destruct (decEnlarge_enlarge L) as [E1 E2].
  match goal with
  | |- l_enlargeIn (decEnlarge ?L') = _ /\ _ =>
      destruct (decEnlarge_enlarge L') as [F1 F2]
  end.
  cbn [l_enlargeIn l_numBits] in F1, F2.
  rewrite F1, F2, E1, E2. split; reflexivity.
Qed.

Section Decode.

Variable out : jsstring.

Local Abbreviation len := (N.of_nat (List.length out)).
Local Abbreviation gnv := (getNextValue out).

(** The bits [bits] stand in the output from position [k] on. *)
Definition at_stream (k : N) (bits : list N) : Prop :=
  forall j : nat, (j < List.length bits)%nat ->
    stream out (k + N.of_nat j) = nth j bits 0.

Lemma at_stream_app (k : N) (a b : list N) :
  at_stream k (a ++ b) ->
  at_stream k a /\ at_stream (k + N.of_nat (List.length a)) b.
Proof.
  intro H. split; intros j Hj.
  - rewrite (H j); [apply app_nth1; exact Hj|].
    rewrite length_app. lia.
  - replace (k + N.of_nat (List.length a) + N.of_nat j)
      with (k + N.of_nat (List.length a + j)) by lia.
    rewrite (H (List.length a + j)%nat); [|rewrite length_app; lia].
    rewrite app_nth2 by lia. f_equal. lia.
Qed.

Lemma read_written (n : nat) (v k : N) :
  v < 2 ^ N.of_nat n -> at_stream k (lsb_bits n v) ->
  readBits 32 gnv n (reader out k) = (v, reader out (k + N.of_nat n)).
Proof.
  intros Hv Hs. apply readBits_written; [exact Hv|].
  intros j Hj. apply Hs. rewrite lsb_bits_length. exact Hj.
Qed.

(** The decoder has read every token written so far, [k] bits in all; the
    encoder holds the phrase [l_w L], and has entered one phrase (and
    perhaps one character) that the decoder has not seen yet. *)
Record lag (L : logic) (st : decoder) (k : N) (phrases : list jsstring)
  : Prop := {
  lag_data : data st = reader out k;
  lag_numBits : numBits st = l_numBits L;
  lag_enlargeIn : enlargeIn st = l_enlargeIn L;
  lag_result : result st = map Some phrases;
  lag_sized : sized (dictSize st) (enlargeIn st) (numBits st);
  lag_dict :
    exists pw dkeys,
      w st = Some pw /\ pw <> []
      /\ dictionary st = dec_dict dkeys
      /\ dictSize st = 3 + N.of_nat (List.length dkeys)
      /\ keys (l_dictionary L)
         = dkeys ++ l_toCreate L ++ [pw ++ [hd 0 (l_w L)]]
}.

(** The decoder has just read the token of the phrase [l_w L]. *)
Record after (L : logic) (st : decoder) (k : N) (phrases : list jsstring)
  : Prop := {
  aft_data : data st = reader out k;
  aft_numBits : numBits st = l_numBits (produced L);
  aft_enlargeIn : enlargeIn st = l_enlargeIn (produced L);
  aft_result : result st = map Some phrases;
  aft_sized : sized (dictSize st) (enlargeIn st) (numBits st);
  aft_w : w st = Some (l_w L);
  aft_dict : dictionary st = dec_dict (keys (l_dictionary L));
  aft_dictSize : dictSize st = l_dictSize L
}.

Lemma index_ok (k : N) :
  k < 6 * len -> (len <? data_index (reader out k)) = false.
Proof.
  intro H. apply N.ltb_ge. unfold reader. cbn [data_index].
  assert (k / 6 < len) by (apply N.Div0.div_lt_upper_bound; exact H).
  lia.
Qed.

(** What the decoder finds for the code [c]: the entry, or the phrase it is
    about to add. *)
Definition lookup (st : decoder) (dict1 : list dictEntry) (dictSize1 c : N)
  : completion (option jsstring) :=
  match dictionary_get dict1 c with
  | DStr ((_ :: _) as s) => Normal (Some s)
  | DNum (Npos _) => Throw typeError_notFunction
  | _ =>
      if c =? dictSize1 then
        match w st with
        | Some x => Normal (Some (x ++ charAt x 0))
        | None => Throw typeError_charAt
        end
      else Normal None
  end.

Lemma decompressEntry_lookup (st : decoder) (dict1 : list dictEntry)
  (dictSize1 c enlargeIn1 : N) (d : dataState) (entry : jsstring) :
  lookup st dict1 dictSize1 c = Normal (Some entry) ->
  decompressEntry st dict1 dictSize1 c enlargeIn1 d
  = inl (mkDecoder
           (dictionary_set dict1 (N.to_nat dictSize1)
              (DStr (concat_undefined (w st) (charAt entry 0))))
           (fst (enlarge (N.pred (fst (enlarge enlargeIn1 (numBits st))))
                   (snd (enlarge enlargeIn1 (numBits st)))))
           (dictSize1 + 1)
           (snd (enlarge (N.pred (fst (enlarge enlargeIn1 (numBits st))))
                   (snd (enlarge enlargeIn1 (numBits st)))))
           (Some entry) (result st ++ [Some entry]) d).
Proof.
  intro H. unfold decompressEntry. fold (lookup st dict1 dictSize1 c).
  rewrite H.
  destruct (enlarge enlargeIn1 (numBits st)) as [e2 n2]. cbn [fst snd].
  destruct (enlarge (N.pred e2) n2) as [e3 n3]. reflexivity.
Qed.

Lemma nth_map_DStr (ks : list jsstring) (i : nat) (k : jsstring) :
  nth_error ks i = Some k -> nth i (map DStr ks) DUndefined = DStr k.
Proof.
  intro H. apply nth_error_nth. apply map_nth_error. exact H.
Qed.

Lemma keys_length (d : list (jsstring * N)) :
  List.length (keys d) = List.length d.
Proof. apply length_map. Qed.

(** One round of the decoder reads the token of the phrase the encoder
    holds. *)
Lemma token_step (L : logic) (st : decoder) (k : N)
  (phrases : list jsstring) :
  enc_inv L -> lag L st k phrases -> at_stream k (token_bits L) ->
  k < 6 * len -> hd 0 (l_w L) < 65536 ->
  exists st',
    decompressStep len 32 gnv st = inl st'
    /\ after L st' (k + N.of_nat (List.length (token_bits L)))
         (phrases ++ [l_w L]).
Proof.
  intros [OK Hsingle Hfresh]
    [Hd Hnb He Hr Hs (pw & dkeys & Hw & Hpw & Hdict & Hds & Hkeys)]
    Hat Hk Hc.
  destruct OK as [Hnd Hne Hcd Hsz Hch Hw0 Hwin Htc].
  unfold decompressStep. rewrite Hd, (index_ok k Hk).
  assert (NB : N.of_nat (N.to_nat (numBits st)) = numBits st) by lia.
  assert (P4 : 4 <= 2 ^ numBits st) by (destruct Hs as (? & ? & ?); lia).
  assert (KL : List.length (l_dictionary L)
               = List.length (keys (l_dictionary L)))
    by (symmetry; apply keys_length).
  destruct Htc as [Htc|Htc].
  - (* the index of a phrase *)
    assert (Has : toCreate_has (l_toCreate L) (l_w L) = false)
      by (rewrite Htc; reflexivity).
    unfold token_bits in *. rewrite Has in *.
    rewrite Htc in Hkeys. cbn [app] in Hkeys.
    destruct (In_nth_error _ _ Hwin) as [i Hi].
    assert (Hcode : dict_get (l_dictionary L) (l_w L) = 3 + N.of_nat i).
    { unfold keys in Hi. rewrite nth_error_map in Hi.
      destruct (nth_error (l_dictionary L) i) as [[k0 c0]|] eqn:Ei;
        [|discriminate Hi].
      cbn in Hi. injection Hi as ->.
      rewrite (dict_get_nth _ i _ c0 Hnd Ei). apply (Hcd i _ _ Ei). }
    assert (Hil : (i < List.length (keys (l_dictionary L)))%nat)
      by (apply nth_error_Some; congruence).
    rewrite Hkeys in Hi, Hil. rewrite length_app in Hil.
    cbn [List.length] in Hil.
    rewrite Hcode, <- Hnb in *.
    rewrite (read_written _ (3 + N.of_nat i) k);
      [|rewrite NB; destruct Hs as (? & ? & ?); lia|exact Hat].
    cbv beta iota. rewrite match_code by lia.
    assert (Look : lookup st (dictionary st) (dictSize st) (3 + N.of_nat i)
                   = Normal (Some (l_w L))).
    { unfold lookup. rewrite Hdict, (dec_dict_get dkeys _ i eq_refl).
      destruct (Nat.eq_dec i (List.length dkeys)) as [->|Ne].
      - rewrite nth_error_app2 in Hi by lia.
        rewrite Nat.sub_diag in Hi. cbn in Hi. injection Hi as Hi.
        rewrite nth_overflow by (rewrite length_map; lia).
        rewrite <- Hds, N.eqb_refl, Hw.
        destruct pw as [|p t]; [congruence|].
        assert (Hh : hd 0 (l_w L) = p) by (rewrite <- Hi; reflexivity).
        rewrite Hh in Hi. rewrite <- Hi. reflexivity.
      - rewrite nth_error_app1 in Hi by lia.
        rewrite (nth_map_DStr _ _ _ Hi).
        destruct (l_w L) as [|x t]; [congruence|]. reflexivity. }
    rewrite (decompressEntry_lookup _ _ _ _ _ _ _ Look).
    eexists. split; [reflexivity|].
    destruct (produced_code L Has) as [E1 E2].
    rewrite (enlarge_same _ _ (proj1 (proj2 Hs))). cbn [fst snd].
    split; cbn [data numBits enlargeIn result dictSize w dictionary].
    + rewrite lsb_bits_length, NB. reflexivity.
    + rewrite E2, He, Hnb. reflexivity.
    + rewrite E1, He, Hnb. reflexivity.
    + rewrite Hr, map_app. reflexivity.
    + apply sized_enlarge. exact Hs.
    + reflexivity.
    + rewrite Hdict, Hw, Hkeys. cbn [concat_undefined].
      rewrite (dec_dict_set dkeys _ _ Hds). f_equal. f_equal. f_equal.
      destruct (l_w L) as [|x t]; [congruence|]. reflexivity.
    + rewrite Hsz, Hds, KL, Hkeys, length_app. cbn [List.length]. lia.
  - (* a character written out *)
    assert (Has : toCreate_has (l_toCreate L) (l_w L) = true).
    { rewrite Htc. cbn. rewrite jsstring_eqb_refl. reflexivity. }
    destruct (Hsingle Htc) as [c Ec].
    unfold token_bits in *. rewrite Has in *.
    rewrite Htc, Ec in Hkeys. rewrite Ec in Hc, Hat |- *.
    cbn [charCodeAt0 hd app] in *.
    destruct (produced_literal L Has) as [E1 E2]. cbv zeta in E1, E2.
    assert (D1 : dictionary_set (dictionary st) (N.to_nat (dictSize st))
                   (DStr [c]) = dec_dict (dkeys ++ [[c]]))
      by (rewrite Hdict; apply dec_dict_set; exact Hds).
    assert (Look : lookup st (dec_dict (dkeys ++ [[c]])) (dictSize st + 1)
                     (dictSize st) = Normal (Some [c])).
    { unfold lookup.
      rewrite (dec_dict_get _ _ (List.length dkeys) Hds).
      rewrite (nth_map_DStr _ _ [c]); [reflexivity|].
      rewrite nth_error_app2 by lia. rewrite Nat.sub_diag. reflexivity. }
    assert (Fin : forall width : nat,
               c < 2 ^ N.of_nat width ->
               at_stream (k + numBits st) (lsb_bits width c) ->
               exists st',
                 decompressLiteral 32 gnv st width
                   (reader out (k + numBits st)) = inl st'
                 /\ after L st'
                      (k + numBits st + N.of_nat width)
                      (phrases ++ [[c]])).
    { intros width Hcw Hatw. unfold decompressLiteral.
      rewrite (read_written _ c _ Hcw Hatw). rewrite D1.
      rewrite (decompressEntry_lookup _ _ _ _ _ _ _ Look).
      eexists. split; [reflexivity|].
      pose proof (sized_enlarge _ _ _ Hs) as Hs1.
      split; cbn [data numBits enlargeIn result dictSize w dictionary].
      - reflexivity.
      - rewrite E2, He, Hnb. reflexivity.
      - rewrite E1, He, Hnb. reflexivity.
      - rewrite Hr, map_app. reflexivity.
      - apply sized_enlarge. exact Hs1.
      - rewrite ?Ec. reflexivity.
      - rewrite Hw, Hkeys. cbn [concat_undefined].
        rewrite dec_dict_set.
        + rewrite <- app_assoc. reflexivity.
        + rewrite Hds, length_app. cbn [List.length]. lia.
      - rewrite Hsz, Hds, KL, Hkeys, !length_app. cbn [List.length]. lia. }
    destruct (c <? 256) eqn:C8.
    + apply N.ltb_lt in C8.
      apply at_stream_app in Hat. destruct Hat as [Hat1 Hat2].
      rewrite lsb_bits_length, <- Hnb, NB in Hat2. rewrite <- Hnb in Hat1.
      rewrite (read_written _ 0 k); [|rewrite NB; lia|exact Hat1].
      cbv beta iota. rewrite NB.
      destruct (Fin 8%nat) as (st' & S1 & S2); [exact C8|exact Hat2|].
      exists st'. split; [exact S1|].
      rewrite length_app, !lsb_bits_length, <- Hnb.
      replace (k + N.of_nat (N.to_nat (numBits st) + 8))
        with (k + numBits st + N.of_nat 8) by lia.
      exact S2.
    + apply at_stream_app in Hat. destruct Hat as [Hat1 Hat2].
      rewrite lsb_bits_length, <- Hnb, NB in Hat2. rewrite <- Hnb in Hat1.
      rewrite (read_written _ 1 k); [|rewrite NB; lia|exact Hat1].
      cbv beta iota. rewrite NB.
      destruct (Fin 16%nat) as (st' & S1 & S2); [exact Hc|exact Hat2|].
      exists st'. split; [exact S1|].
      rewrite length_app, !lsb_bits_length, <- Hnb.
      replace (k + N.of_nat (N.to_nat (numBits st) + 16))
        with (k + numBits st + N.of_nat 16) by lia.
      exact S2.
Qed.

Lemma join_map_Some (phrases : list jsstring) :
  join (map Some phrases) = concat phrases.
Proof.
  unfold join. rewrite map_map. rewrite map_id. reflexivity.
Qed.

Lemma pow_ge_4 (n : N) : 4 <= 2 ^ n -> 2 <= n.
Proof.
  intro H. destruct (N.lt_ge_cases n 2) as [L|L]; [|exact L].
  assert (E : n = 0 \/ n = 1) by lia.
  destruct E as [->| ->]; cbn in H; lia.
Qed.

(** After the last token the decoder reads the end marker and returns
    what it has put together. *)
Lemma marker_step (L : logic) (st : decoder) (k : N)
  (phrases : list jsstring) :
  after L st k phrases ->
  at_stream k (lsb_bits (N.to_nat (l_numBits (produced L))) 2) ->
  k < 6 * len ->
  decompressStep len 32 gnv st = inr (Normal (Some (concat phrases))).
Proof.
  intros [Hd Hnb He Hr Hs Hw Hdict Hds] Hat Hk.
  unfold decompressStep. rewrite Hd, (index_ok k Hk).
  assert (NB : N.of_nat (N.to_nat (numBits st)) = numBits st) by lia.
  assert (P4 : 4 <= 2 ^ numBits st) by (destruct Hs as (? & ? & ?); lia).
  rewrite <- Hnb in Hat.
  rewrite (read_written _ 2 k); [|rewrite NB; lia|exact Hat].
  cbv beta iota. rewrite Hr, join_map_Some. reflexivity.
Qed.

(** When the encoder writes the token of [l_w L] and starts the phrase
    [[ch]], a decoder that has read that token lags again. *)
Lemma after_lag (L : logic) (st : decoder) (k : N)
  (phrases : list jsstring) (ch : N) (fresh : bool) :
  enc_inv L -> after L st k phrases ->
  lag (emitted L ch fresh) st k phrases.
Proof.
  intros [OK _ _] [Hd Hnb He Hr Hs Hw Hdict Hds].
  destruct OK as [Hnd Hne Hcd Hsz Hch Hw0 Hwin Htc].
  split; try assumption.
  exists (l_w L), (keys (l_dictionary L)).
  repeat split; try assumption.
  - rewrite Hds, Hsz, keys_length. reflexivity.
  - unfold emitted. cbn [l_dictionary l_toCreate l_w hd].
    destruct fresh; rewrite !keys_snoc, <- ?app_assoc; reflexivity.
Qed.

Lemma lag_extend (L : logic) (st : decoder) (k : N)
  (phrases : list jsstring) (ch : N) :
  lag L st k phrases -> l_w L <> [] ->
  lag (mkLogic (l_dictionary L) (l_toCreate L) (l_w L ++ [ch])
         (l_enlargeIn L) (l_dictSize L) (l_numBits L)) st k phrases.
Proof.
  intros [Hd Hnb He Hr Hs (pw & dkeys & Hw & Hpw & Hdict & Hds & Hkeys)] Hw0.
  split; try assumption.
  exists pw, dkeys. repeat split; try assumption.
  cbn [l_dictionary l_toCreate l_w]. rewrite Hkeys.
  destruct (l_w L) as [|x t]; [congruence|]. reflexivity.
Qed.

(** The bits still to come when the encoder holds [L] and [rest] is left
    of the input. *)
Definition pending (rest : jsstring) (L : logic) : list N :=
  snd (run rest L) ++ token_bits (fst (run rest L))
  ++ lsb_bits (N.to_nat (l_numBits (produced (fst (run rest L))))) 2.

Lemma pending_cons (ch : N) (rest : jsstring) (L : logic) :
  pending (ch :: rest) L
  = snd (step L ch) ++ pending rest (fst (step L ch)).
Proof.
  unfold pending. cbn [run].
  destruct (step L ch) as [L1 bits1]. cbn [fst snd].
  destruct (run rest L1) as [L2 bits2]. cbn [fst snd].
  symmetry. apply app_assoc.
Qed.

Lemma decompressLoop_more (fuel extra : nat) (st : decoder)
  (r : completion (option jsstring)) :
  decompressLoop len 32 gnv fuel st = Some r ->
  decompressLoop len 32 gnv (fuel + extra) st = Some r.
Proof.
  revert st. induction fuel as [|f IH]; intros st; [discriminate|].
  cbn [decompressLoop Nat.add].
  destruct (decompressStep len 32 gnv st) as [st'|r']; [apply IH|].
  intro H. exact H.
Qed.

Lemma token_bits_length (L : logic) (st : decoder) (k : N)
  (phrases : list jsstring) :
  lag L st k phrases -> (1 <= List.length (token_bits L))%nat.
Proof.
  intro G.
  pose proof (lag_sized _ _ _ _ G) as (S1 & S2 & S3).
  pose proof (lag_numBits _ _ _ _ G) as NB.
  assert (P : 2 <= l_numBits L).
  { apply pow_ge_4. rewrite <- NB, <- S1. lia. }
  unfold token_bits.
  destruct (toCreate_has _ _); [destruct (_ <? _)|];
    rewrite ?length_app, !lsb_bits_length; lia.
Qed.

(** From a lagging decoder on, the loop returns the phrases read so far,
    the phrase the encoder holds, and the rest of the input. *)
Lemma decode_run (rest : jsstring) :
  forall (L : logic) (st : decoder) (k : N) (phrases : list jsstring),
    enc_inv L -> lag L st k phrases ->
    at_stream k (pending rest L) ->
    k + N.of_nat (List.length (pending rest L)) <= 6 * len ->
    hd 0 (l_w L) < 65536 -> Forall (fun c => c < 65536) rest ->
    exists fuel,
      decompressLoop len 32 gnv fuel st
      = Some (Normal (Some (concat phrases ++ l_w L ++ rest))).
Proof.
  induction rest as [|ch rest IH]; intros L st k phrases I G Hat Hk Hc Hr.
  - unfold pending in Hat, Hk. cbn [run fst snd app] in Hat, Hk.
    apply at_stream_app in Hat. destruct Hat as [Hat1 Hat2].
    rewrite length_app, lsb_bits_length in Hk.
    assert (K : k < 6 * len)
      by (pose proof (token_bits_length _ _ _ _ G); lia).
    destruct (token_step L st k phrases I G Hat1 K Hc) as (st' & S1 & S2).
    assert (P : 2 <= l_numBits (produced L)).
    { apply pow_ge_4. rewrite <- (aft_numBits _ _ _ _ S2).
      destruct (aft_sized _ _ _ _ S2) as (T1 & T2 & T3). lia. }
    exists 2%nat. cbn [decompressLoop]. rewrite S1.
    rewrite (marker_step L st' _ _ S2 Hat2); [|lia].
    rewrite concat_app. cbn [concat]. rewrite !app_nil_r. reflexivity.
  - rewrite pending_cons in Hat, Hk.
    inversion Hr as [|? ? Hch Hr']; subst.
    pose proof (enc_inv_step L ch I) as I'.
    destruct (step_cases L ch (inv_ok _ I)) as [[Ext E]|[Ext E]];
      rewrite E in *; cbn [fst snd app] in *.
    + (* the phrase goes on *)
      destruct (IH _ st k phrases I') as [fuel F]; try assumption.
      * apply lag_extend; [exact G|apply (ok_w _ (inv_ok _ I))].
      * cbn [l_w]. pose proof (ok_w _ (inv_ok _ I)).
        destruct (l_w L); [congruence|exact Hc].
      * exists fuel. rewrite F. cbn [l_w]. rewrite <- !app_assoc.
        reflexivity.
    + (* a token is written *)
      apply at_stream_app in Hat. destruct Hat as [Hat1 Hat2].
      rewrite length_app in Hk.
      assert (K : k < 6 * len)
        by (pose proof (token_bits_length _ _ _ _ G); lia).
      destruct (token_step L st k phrases I G Hat1 K Hc) as (st' & S1 & S2).
      destruct (IH _ st' _ (phrases ++ [l_w L]) I'
                  (after_lag L st' _ _ ch _ I S2)) as [fuel F];
        try assumption.
      * lia.
      * exists (S fuel). cbn [decompressLoop]. rewrite S1, F.
        cbn [emitted l_w]. rewrite concat_app. cbn [concat].
        rewrite app_nil_r, <- !app_assoc. reflexivity.
Qed.

Lemma firstLogic_has (c : N) :
  toCreate_has (l_toCreate (firstLogic c)) (l_w (firstLogic c)) = true.
Proof.
  cbn [firstLogic l_toCreate l_w toCreate_has existsb].
  rewrite jsstring_eqb_refl. reflexivity.
Qed.

(** The prologue of the decoder reads the token of the first character. *)
Lemma start_step (c : N) :
  at_stream 0 (token_bits (firstLogic c)) -> c < 65536 ->
  exists st,
    decompressStart 32 gnv = inl st
    /\ after (firstLogic c) st
         (N.of_nat (List.length (token_bits (firstLogic c)))) [[c]].
Proof.
  intros Hat Hc.
  destruct (produced_literal _ (firstLogic_has c)) as [E1 E2].
  cbv zeta in E1, E2.
  unfold token_bits in *. rewrite firstLogic_has in *.
  cbn [firstLogic l_w l_numBits charCodeAt0 hd] in Hat |- *.
  change (N.to_nat 2) with 2%nat in *.
  unfold decompressStart.
  change (mkData (gnv 0) 32 1) with (reader out 0).
  assert (Fin : forall (width : nat) (marker : N),
             marker < 2 ->
             at_stream 0 (lsb_bits 2 marker ++ lsb_bits width c) ->
             c < 2 ^ N.of_nat width ->
             readBits 32 gnv 2 (reader out 0) = (marker, reader out 2)
             /\ readBits 32 gnv width (reader out 2)
                = (c, reader out (2 + N.of_nat width))).
  { intros width marker Hm Hat' Hw.
    apply at_stream_app in Hat'. destruct Hat' as [Hat1 Hat2].
    split.
    - apply (read_written 2 marker 0); [cbn; lia|exact Hat1].
    - apply (read_written width c 2); [exact Hw|exact Hat2]. }
  destruct (c <? 256) eqn:C8.
  - apply N.ltb_lt in C8.
    destruct (Fin 8%nat 0) as [R1 R2]; [lia|exact Hat|exact C8|].
    rewrite R1. cbv beta iota. rewrite R2. cbv beta iota.
    eexists. split; [reflexivity|].
    split; cbn [data numBits enlargeIn result dictSize w dictionary];
      rewrite ?E1, ?E2; try reflexivity.
    repeat split; cbn; lia.
  - destruct (Fin 16%nat 1) as [R1 R2]; [lia|exact Hat|exact Hc|].
    rewrite R1. cbv beta iota. rewrite R2. cbv beta iota.
    eexists. split; [reflexivity|].
    split; cbn [data numBits enlargeIn result dictSize w dictionary];
      rewrite ?E1, ?E2; try reflexivity.
    repeat split; cbn; lia.
Qed.

Lemma loop_fuel (st : decoder) (r : completion (option jsstring))
  (fuel : nat) :
  decompressStart 32 gnv = inl st ->
  decompressLoop len 32 gnv fuel st = Some r ->
  _decompress len 32 gnv = Some r.
Proof.
  intros S F. pose proof (_decompress_returns len gnv) as T.
  unfold _decompress in *. rewrite S in *.
  destruct (decompressLoop len 32 gnv (decompressFuel len) st) as [r'|] eqn:X;
    [|congruence].
  pose proof (decompressLoop_more _ (decompressFuel len) _ _ F) as F'.
  pose proof (decompressLoop_more _ fuel _ _ X) as X'.
  rewrite Nat.add_comm in X'. congruence.
Qed.

Lemma enc_inv_run (rest : jsstring) (L : logic) :
  enc_inv L -> enc_inv (fst (run rest L)).
Proof.
  revert L. induction rest as [|ch rest IH]; intros L I; [exact I|].
  cbn [run]. pose proof (enc_inv_step L ch I) as I1.
  destruct (step L ch) as [L1 bits1]. cbn [fst] in I1.
  specialize (IH L1 I1).
  destruct (run rest L1) as [L2 bits2]. exact IH.
Qed.

Lemma encode_bits_cons (c : N) (rest : jsstring) :
  encode_bits (c :: rest) = pending rest (firstLogic c).
Proof.
  unfold encode_bits, pending. cbn [run]. rewrite step_first.
  pose proof (enc_inv_run rest (firstLogic c) (enc_inv_first c)) as I.
  destruct (run rest (firstLogic c)) as [Lf bits]. cbn [fst snd app] in *.
  pose proof (ok_w _ (inv_ok _ I)) as W.
  destruct (l_w Lf) as [|x t]; [congruence|]. reflexivity.
Qed.

(** Read as a bit stream that holds what the encoder wrote for [s], the
    output decodes to [s]. *)
Lemma _decompress_encode_bits (s : jsstring) :
  at_stream 0 (encode_bits s) ->
  N.of_nat (List.length (encode_bits s)) <= 6 * len ->
  Forall (fun c => c < 65536) s ->
  _decompress len 32 gnv = Some (Normal (Some s)).
Proof.
  intros Hat Hk Hs.
  destruct s as [|c rest].
  - (* the empty string: the end marker alone *)
    unfold _decompress, decompressStart.
    change (mkData (gnv 0) 32 1) with (reader out 0).
    rewrite (read_written 2 2 0); [reflexivity|cbn; lia|exact Hat].
  - rewrite encode_bits_cons in Hat, Hk.
    inversion Hs as [|? ? Hc Hrest]; subst.
    pose proof (enc_inv_first c) as I.
    destruct rest as [|ch rest].
    + unfold pending in Hat, Hk. cbn [run fst snd app] in Hat, Hk.
      apply at_stream_app in Hat. destruct Hat as [Hat1 Hat2].
      rewrite length_app, lsb_bits_length in Hk.
      destruct (start_step c Hat1 Hc) as (st & S1 & S2).
      assert (P : 2 <= l_numBits (produced (firstLogic c))).
      { apply pow_ge_4. rewrite <- (aft_numBits _ _ _ _ S2).
        destruct (aft_sized _ _ _ _ S2) as (T1 & T2 & T3). lia. }
      apply (loop_fuel st _ 1 S1). cbn [decompressLoop].
      rewrite (marker_step _ st _ _ S2 Hat2); [|lia].
      reflexivity.
    + rewrite pending_cons in Hat, Hk.
      inversion Hrest as [|? ? Hch Hrest']; subst.
      pose proof (enc_inv_step (firstLogic c) ch I) as I'.
      destruct (step_cases (firstLogic c) ch (inv_ok _ I))
        as [[Ext E]|[Ext E]].
      { exfalso. apply (inv_fresh _ I eq_refl ch).
        apply hasOwn_In. exact Ext. }
      rewrite E in *. cbn [fst snd] in *.
      apply at_stream_app in Hat. destruct Hat as [Hat1 Hat2].
      rewrite length_app in Hk.
      destruct (start_step c Hat1 Hc) as (st & S1 & S2).
      destruct (decode_run rest _ st _ [[c]] I'
                  (after_lag _ st _ _ ch _ I S2)) as [fuel F];
        try assumption.
      * lia.
      * apply (loop_fuel st _ fuel S1). rewrite F.
        cbn [emitted l_w concat app]. reflexivity.
Qed.

End Decode.

Lemma stream_at (out : jsstring) (bits : list N) (m : nat) :
  stream_bits out = bits ++ repeat 0 m -> at_stream out 0 bits.
Proof.
  intros H j Hj. unfold stream. rewrite H.
  replace (N.to_nat (0 + N.of_nat j)) with j by lia.
  apply app_nth1. exact Hj.
Qed.

Lemma decode_encode (s : jsstring) :
  Forall (fun c => c < 65536) s ->
  fst (decompressFromBase64 [] (compressToBase64 s)) = Normal (Some s).
Proof.
  intro Hs.
  destruct (compressToBase64_stream s) as (m & E & Hm & Hl).
  pose proof (_decompress_encode_bits (compressToBase64 s) s
                (stream_at _ _ _ E)) as D.
  assert (B : N.of_nat (List.length (encode_bits s))
              <= 6 * N.of_nat (List.length (compressToBase64 s))) by lia.
  specialize (D B Hs).
  unfold decompressFromBase64.
  destruct (compressToBase64 s) as [|c t] eqn:Out.
  { cbn [List.length] in Hl. lia. }
  destruct (getBaseValue_ok [] (charAt (c :: t) 0) cache_ok_nil) as [_ H2].
  unfold getBaseValue at 1. rewrite H2. cbn [fst].
  change (fun index : N =>
            reverseDic_get base64ReverseDic (charAt (c :: t) index))
    with (getNextValue (c :: t)).
  rewrite D. reflexivity.
Qed.

(** lz-string decodes what it has encoded: every string of 16-bit code
    units comes back from its base64 encoding, whatever the cache holds. *)
Theorem decompressFromBase64_compressToBase64 (cache : baseReverseDic)
  (s : jsstring) :
  cache_ok cache -> Forall (fun c => c < 65536) s ->
  fst (decompressFromBase64 cache (compressToBase64 s)) = Normal (Some s).
Proof.
  intros H Hs.
  rewrite (proj1 (decompressFromBase64_cache cache _ H)).
  apply decode_encode. exact Hs.
Qed.

Lemma units_check (s : jsstring) :
  forallb (fun c => c <? 65536) s = true -> Forall (fun c => c < 65536) s.
Proof.
  intro H. apply Forall_forall. intros c Hc.
  apply N.ltb_lt. exact (proj1 (forallb_forall _ _) H c Hc).
Qed.

Lemma decompressFromBase64_compressToBase64_witness :
  cache_ok []
  /\ Forall (fun c => c < 65536) (lit "hello, hello")
  /\ fst (decompressFromBase64 [] (compressToBase64 (lit "hello, hello")))
     = Normal (Some (lit "hello, hello")).
Proof.
  assert (H : cache_ok []) by (left; reflexivity).
  assert (Hs : Forall (fun c => c < 65536) (lit "hello, hello"))
    by (apply units_check; reflexivity).
  split; [exact H|]. split; [exact Hs|].
  exact (decompressFromBase64_compressToBase64 [] (lit "hello, hello") H Hs).
Defined.

End LZRoundTrip.

(** * Strings of 16-bit code units

    The model takes a string as a list of numbers; a JavaScript string holds
    16-bit code units only. [JSON.parse] and [JSON.stringify] keep it so. *)
Module JSONCodeUnits.
Import JSON JSONRoundTrip.

Definition code_unit (c : N) : Prop := c < 65536.

Definition code_units (s : jsstring) : Prop := Forall code_unit s.

Lemma code_units_check (s : jsstring) :
  forallb (fun c => c <? 65536) s = true -> code_units s.
Proof.
  intro H. apply Forall_forall. intros c Hc.
  apply N.ltb_lt. exact (proj1 (forallb_forall _ _) H c Hc).
Qed.

Lemma code_units_app (a b : jsstring) :
  code_units a -> code_units b -> code_units (a ++ b).
Proof. intros Ha Hb. apply Forall_app. split; assumption. Qed.

Lemma code_units_lit (s : string) : code_units (lit s).
Proof.
  unfold lit. induction s as [|a s IH]; [constructor|].
  cbn [list_ascii_of_string map]. constructor; [|exact IH].
  unfold code_unit. pose proof (N_ascii_bounded a). lia.
Qed.

(** *** Number literals *)

Lemma scan_digits_split (s ds r : jsstring) :
  scan_digits s = (ds, r) -> s = ds ++ r /\ Forall (fun c => c < 128) ds.
Proof.
  revert ds r. induction s as [|c s IH]; intros ds r H; cbn in H.
  - injection H as <- <-. split; [reflexivity|constructor].
  - destruct (is_digit c) eqn:D.
    + destruct (scan_digits s) as [ds' r'] eqn:E. injection H as <- <-.
      destruct (IH ds' r' eq_refl) as [-> F].
      split; [reflexivity|]. constructor; [|exact F].
      unfold is_digit in D. apply andb_prop in D. destruct D as [_ D].
      apply N.leb_le in D. lia.
    + injection H as <- <-. split; [reflexivity|constructor].
Qed.

Lemma scan_number_split (s l r : jsstring) :
  scan_number s = Some (l, r) -> s = l ++ r /\ Forall (fun c => c < 128) l.
Proof.
  unfold scan_number. intro E.
  destruct (scan_sign s) as [sign s1] eqn:Es.
  destruct (scan_int s1) as [[i s2]|] eqn:Ei; [|discriminate E].
  destruct (scan_frac s2) as [[f s3]|] eqn:Ef; [|discriminate E].
  destruct (scan_exp s3) as [[e s4]|] eqn:Ee; [|discriminate E].
  injection E as <- <-.
  assert (S0 : s = sign ++ s1 /\ Forall (fun c => c < 128) sign).
  { unfold scan_sign in Es. destruct s as [|c s0].
    - injection Es as <- <-. split; [reflexivity|constructor].
    - destruct (c =? 45) eqn:C; injection Es as <- <-.
      + apply N.eqb_eq in C. subst c. split; [reflexivity|].
        constructor; [lia|constructor].
      + split; [reflexivity|constructor]. }
  assert (S1 : s1 = i ++ s2 /\ Forall (fun c => c < 128) i).
  { unfold scan_int in Ei. destruct s1 as [|c s1']; [discriminate Ei|].
    destruct (c =? 48) eqn:C.
    - injection Ei as <- <-. apply N.eqb_eq in C. subst c.
      split; [reflexivity|]. constructor; [lia|constructor].
    - destruct (is_digit c) eqn:D; [|discriminate Ei].
      destruct (scan_digits s1') as [ds r'] eqn:Ed. injection Ei as <- <-.
      destruct (scan_digits_split _ _ _ Ed) as [-> F].
      split; [reflexivity|]. constructor; [|exact F].
      unfold is_digit in D. apply andb_prop in D. destruct D as [_ D].
      apply N.leb_le in D. lia. }
  assert (S2 : s2 = f ++ s3 /\ Forall (fun c => c < 128) f).
  { unfold scan_frac in Ef. destruct s2 as [|c s2'].
    - injection Ef as <- <-. split; [reflexivity|constructor].
    - destruct (c =? 46) eqn:C.
      + destruct (scan_digits s2') as [ds r'] eqn:Ed.
        destruct (scan_digits_split _ _ _ Ed) as [-> F].
        destruct ds as [|d ds]; [discriminate Ef|].
        injection Ef as <- <-. apply N.eqb_eq in C. subst c.
        split; [reflexivity|]. constructor; [lia|exact F].
      + injection Ef as <- <-. split; [reflexivity|constructor]. }
  assert (S3 : s3 = e ++ s4 /\ Forall (fun c => c < 128) e).
  { unfold scan_exp, scan_exp_digits in Ee. destruct s3 as [|c s3'].
    - injection Ee as <- <-. split; [reflexivity|constructor].
    - destruct ((c =? 101) || (c =? 69)) eqn:C.
      + assert (Hc : c < 128).
        { apply orb_prop in C.
          destruct C as [C|C]; apply N.eqb_eq in C; lia. }
        destruct s3' as [|sg r1]; [discriminate Ee|].
        destruct ((sg =? 43) || (sg =? 45)) eqn:S.
        * destruct (scan_digits r1) as [ds r'] eqn:Ed.
          destruct (scan_digits_split _ _ _ Ed) as [-> F].
          destruct ds as [|d ds]; [discriminate Ee|].
          injection Ee as <- <-. split; [reflexivity|].
          cbn [app]. constructor; [exact Hc|]. constructor; [|exact F].
          apply orb_prop in S.
          destruct S as [S|S]; apply N.eqb_eq in S; lia.
        * destruct (scan_digits (sg :: r1)) as [ds r'] eqn:Ed.
          destruct (scan_digits_split _ _ _ Ed) as [E1 F].
          destruct ds as [|d ds]; [discriminate Ee|].
          injection Ee as <- <-. rewrite E1. split; [reflexivity|].
          cbn [app]. constructor; [exact Hc|exact F].
      + injection Ee as <- <-. split; [reflexivity|constructor]. }
  destruct S0 as [-> F0]. destruct S1 as [-> F1]. destruct S2 as [-> F2].
  destruct S3 as [-> F3].
  split; [rewrite <- !app_assoc; reflexivity|].
  apply Forall_app; split;
    [exact F0|apply Forall_app; split;
              [exact F1|apply Forall_app; split; assumption]].
Qed.

Lemma ascii_code_units (l : jsstring) :
  Forall (fun c => c < 128) l -> code_units l.
Proof.
  apply Forall_impl. intros c H. unfold code_unit. lia.
Qed.

Lemma code_units_number_literal (l : jsstring) :
  is_number_literal l = true -> code_units l.
Proof.
  unfold is_number_literal. intro H.
  destruct (scan_number l) as [[l' r]|] eqn:E; [|discriminate H].
  destruct r; [|discriminate H].
  apply jsstring_eqb_eq in H. subst l'.
  apply ascii_code_units. apply (scan_number_split _ _ _ E).
Qed.

(** *** String literals *)

Lemma hex_digit_unit (d : N) : d < 16 -> code_unit (hex_digit d).
Proof. intro H. unfold hex_digit, code_unit. destruct (d <? 10); lia. Qed.

Lemma code_units_unicode_escape (c : N) : code_units (unicode_escape c).
Proof.
  unfold unicode_escape.
  repeat (constructor;
          [first [apply hex_digit_unit; apply N.mod_lt; discriminate
                 |unfold code_unit; lia]|]).
  constructor.
Qed.

Lemma code_units_escape_char (c : N) :
  code_unit c -> code_units (escape_char c).
Proof.
  intro H. unfold escape_char.
  repeat match goal with
         | |- context [if ?b then _ else _] => destruct b
         end;
    try apply code_units_unicode_escape;
    repeat (constructor; [unfold code_unit in *; lia|]); constructor.
Qed.

Lemma code_units_quote_chars (s : jsstring) :
  code_units s -> code_units (quote_chars s).
Proof.
  remember (List.length s) as n eqn:Hn.
  revert s Hn. induction n as [n IH] using lt_wf_ind. intros s Hn H.
  destruct s as [|c r]; [constructor|].
  inversion H as [|? ? Hc Hr]; subst.
  cbn [quote_chars].
  destruct (is_high_surrogate c).
  - destruct r as [|c2 r']; [apply code_units_unicode_escape|].
    inversion Hr as [|? ? Hc2 Hr']; subst.
    destruct (is_low_surrogate c2).
    + constructor; [exact Hc|]. constructor; [exact Hc2|].
      apply (IH (List.length r')); [cbn; lia|reflexivity|exact Hr'].
    + apply code_units_app; [apply code_units_unicode_escape|].
      apply (IH (List.length (c2 :: r'))); [cbn; lia|reflexivity|exact Hr].
  - destruct (is_low_surrogate c).
    + apply code_units_app; [apply code_units_unicode_escape|].
      apply (IH (List.length r)); [cbn; lia|reflexivity|exact Hr].
    + apply code_units_app; [apply code_units_escape_char; exact Hc|].
      apply (IH (List.length r)); [cbn; lia|reflexivity|exact Hr].
Qed.

Lemma code_units_QuoteJSONString (s : jsstring) :
  code_units s -> code_units (QuoteJSONString s).
Proof.
  intro H. unfold QuoteJSONString.
  apply code_units_app; [repeat constructor|].
  apply code_units_app; [apply code_units_quote_chars; exact H|].
  repeat constructor.
Qed.

Lemma hex_value_bound (c v : N) : hex_value c = Some v -> v < 16.
Proof.
  unfold hex_value.
  destruct (is_digit c) eqn:D.
  - intro H. injection H as <-. unfold is_digit in D.
    apply andb_prop in D. destruct D as [D1 D2].
    apply N.leb_le in D1, D2. lia.
  - destruct ((97 <=? c) && (c <=? 102)) eqn:A.
    + intro H. injection H as <-. apply andb_prop in A.
      destruct A as [A1 A2]. apply N.leb_le in A1, A2. lia.
    + destruct ((65 <=? c) && (c <=? 70)) eqn:B; [|discriminate].
      intro H. injection H as <-. apply andb_prop in B.
      destruct B as [B1 B2]. apply N.leb_le in B1, B2. lia.
Qed.

Lemma hex4_unit (a b c d u : N) : hex4 a b c d = Some u -> code_unit u.
Proof.
  unfold hex4.
  destruct (hex_value a) as [x|] eqn:Ea; [|discriminate].
  destruct (hex_value b) as [y|] eqn:Eb; [|discriminate].
  destruct (hex_value c) as [z|] eqn:Ec; [|discriminate].
  destruct (hex_value d) as [t|] eqn:Ed; [|discriminate].
  intro H. injection H as <-.
  apply hex_value_bound in Ea, Eb, Ec, Ed. unfold code_unit. lia.
Qed.

(** The string a literal denotes and the text after it. *)
Lemma code_units_parse_chars (s : jsstring) :
  forall str rest,
    parse_chars s = Some (str, rest) -> code_units s ->
    code_units str /\ code_units rest.
Proof.
  remember (List.length s) as n eqn:Hn.
  revert s Hn. induction n as [n IH] using lt_wf_ind.
  intros s Hn str rest E H.
  assert (Cons : forall (c0 : N) (r : jsstring),
             (List.length r < n)%nat -> code_unit c0 -> code_units r ->
             match parse_chars r with
             | Some (str0, rest0) => Some (c0 :: str0, rest0)
             | None => None
             end = Some (str, rest) ->
             code_units str /\ code_units rest).
  { intros c0 r Hl Hc0 Hr E0.
    destruct (parse_chars r) as [[str0 rest0]|] eqn:E1; [|discriminate E0].
    injection E0 as <- <-.
    destruct (IH _ Hl r eq_refl str0 rest0 E1 Hr) as [A B].
    split; [constructor; assumption|exact B]. }
  destruct s as [|c r]; [discriminate E|].
  inversion H as [|? ? Hc Hr]; subst.
  cbn [parse_chars] in E. cbn [List.length] in Cons.
  destruct (c =? 34).
  { injection E as <- <-. split; [constructor|exact Hr]. }
  destruct (c =? 92).
  - destruct r as [|e r']; [discriminate E|].
    inversion Hr as [|? ? He Hr']; subst. cbn [List.length] in Cons.
    repeat match type of E with
           | (if ?b then _ else _) = _ =>
               destruct b;
               [refine (Cons _ r' _ _ Hr' E); [lia|unfold code_unit; lia]|]
           end.
    destruct (e =? 117); [|discriminate E].
    destruct r' as [|h1 [|h2 [|h3 [|h4 r'']]]]; try discriminate E.
    destruct (hex4 h1 h2 h3 h4) as [u|] eqn:Eh; [|discriminate E].
    refine (Cons u r'' _ (hex4_unit _ _ _ _ _ Eh) _ E);
      [cbn [List.length]; lia|].
    inversion Hr' as [|? ? ? X1]; inversion X1 as [|? ? ? X2];
      inversion X2 as [|? ? ? X3]; inversion X3; assumption.
  - destruct (c <? 32); [discriminate E|].
    refine (Cons c r _ Hc Hr E). lia.
Qed.


(** Destruct the text [E] matches against a literal. *)
Ltac literal_cases E :=
  repeat match type of E with
         | match ?x with _ => _ end = Some _ =>
             destruct x; try discriminate E
         end.

Ltac units_tail H :=
  repeat match type of H with
         | Forall _ (_ :: _) => apply Forall_inv_tail in H
         end.

Section WithNumber.

Context {EN : ECMANumber}.

(** The strings and keys of a value hold 16-bit code units. *)
Fixpoint units_ok (v : value) : Prop :=
  match v with
  | JString s => code_units s
  | JArray l =>
      (fix all (l : list value) : Prop :=
         match l with
         | [] => True
         | x :: l' => units_ok x /\ all l'
         end) l
  | JObject o =>
      (fix all (o : list (jsstring * value)) : Prop :=
         match o with
         | [] => True
         | (k, x) :: o' => (code_units k /\ units_ok x) /\ all o'
         end) o
  | _ => True
  end.

Definition members_ok (o : list (jsstring * value)) : Prop :=
  Forall (fun kv => code_units (fst kv) /\ units_ok (snd kv)) o.

Lemma units_ok_array (l : list value) :
  units_ok (JArray l) <-> Forall units_ok l.
Proof.
  cbn [units_ok]. induction l as [|x l IH].
  - split; [constructor|exact (fun _ => I)].
  - split.
    + intros [Hx Hl]. constructor; [exact Hx|apply IH; exact Hl].
    + intro H. inversion H; subst. split; [assumption|].
      apply IH. assumption.
Qed.

Lemma units_ok_object (o : list (jsstring * value)) :
  units_ok (JObject o) <-> members_ok o.
Proof.
  cbn [units_ok]. unfold members_ok. induction o as [|[k x] o IH].
  - split; [constructor|exact (fun _ => I)].
  - split.
    + intros [Hx Hl]. constructor; [exact Hx|apply IH; exact Hl].
    + intro H. inversion H; subst. split; [assumption|].
      apply IH. assumption.
Qed.

(** *** [JSON.stringify] writes code units *)

Lemma code_units_join (sep : jsstring) (parts : list jsstring) :
  code_units sep -> Forall code_units parts ->
  code_units (join_with sep parts).
Proof.
  intros Hs H. induction H as [|p ps Hp Hps IH]; [constructor|].
  destruct ps as [|q ps]; [exact Hp|].
  rewrite join_with_cons.
  apply code_units_app; [exact Hp|]. apply code_units_app; assumption.
Qed.

Lemma code_units_wrap (open close : N) (gap indent : jsstring)
  (parts : list jsstring) :
  code_unit open -> code_unit close -> code_units gap -> code_units indent ->
  Forall code_units parts -> code_units (wrap open close gap indent parts).
Proof.
  intros Ho Hc Hg Hi Hp. unfold wrap.
  assert (N10 : code_unit 10) by (unfold code_unit; lia).
  assert (N44 : code_unit 44) by (unfold code_unit; lia).
  destruct parts as [|p ps]; [repeat constructor; assumption|].
  destruct gap as [|g gap'].
  - apply code_units_app; [repeat constructor; exact Ho|].
    apply code_units_app; [|repeat constructor; exact Hc].
    apply code_units_join; [repeat constructor; exact N44|exact Hp].
  - cbv zeta.
    assert (Hig : code_units (indent ++ g :: gap'))
      by (apply code_units_app; assumption).
    repeat first [apply code_units_app
                 |apply code_units_join
                 |assumption
                 |constructor; [assumption|]
                 |constructor].
Qed.

Lemma code_units_serialize (v : value) :
  units_ok v ->
  forall gap indent,
    code_units gap -> code_units indent ->
    code_units (serialize gap indent v).
Proof.
  induction v using value_ind; intros U gap indent Hg Hi.
  - apply code_units_lit.
  - destruct b; apply code_units_lit.
  - cbn [serialize]. destruct (isFinite n) eqn:F; [|apply code_units_lit].
    apply code_units_number_literal, NumberToString_literal. exact F.
  - cbn [serialize]. apply code_units_QuoteJSONString. exact U.
  - rewrite serialize_array. apply units_ok_array in U.
    apply code_units_wrap; try assumption; try (unfold code_unit; lia).
    apply Forall_forall. intros t Ht. apply in_map_iff in Ht.
    destruct Ht as (x & <- & Hx).
    rewrite Forall_forall in H, U.
    apply (H x Hx (U x Hx)); [exact Hg|].
    apply code_units_app; assumption.
  - rewrite serialize_object. apply units_ok_object in U.
    apply code_units_wrap; try assumption; try (unfold code_unit; lia).
    apply Forall_forall. intros t Ht. apply in_map_iff in Ht.
    destruct Ht as ([k x] & <- & Hx).
    unfold members_ok in U. rewrite Forall_forall in H, U.
    destruct (U (k, x) Hx) as [Uk Ux]. cbn [fst snd] in Uk, Ux.
    specialize (H (k, x) Hx Ux gap (indent ++ gap) Hg
                  (code_units_app _ _ Hi Hg)).
    cbn [member_text snd] in *.
    apply code_units_app; [apply code_units_QuoteJSONString; exact Uk|].
    apply code_units_app; [repeat constructor|].
    apply code_units_app; [|exact H].
    destruct gap; repeat constructor.
Qed.

(** *** [JSON.parse] reads code units *)

Lemma code_units_skip_ws (s : jsstring) :
  code_units s -> code_units (skip_ws s).
Proof.
  induction 1 as [|c r Hc Hr IH]; [constructor|].
  cbn [skip_ws].
  destruct ((c =? 32) || (c =? 9) || (c =? 10) || (c =? 13));
    [exact IH|constructor; assumption].
Qed.

Lemma members_ok_replace_key (o : list (jsstring * value)) (k : jsstring)
  (v : value) :
  members_ok o -> units_ok v -> members_ok (replace_key o k v).
Proof.
  intros H Hv. induction H as [|[k' v'] o [Hk' Hv'] Ho IH]; [constructor|].
  cbn [replace_key]. destruct (jsstring_eqb k' k).
  - constructor; [split; assumption|exact Ho].
  - constructor; [split; assumption|exact IH].
Qed.

Lemma members_ok_insert_index (o : list (jsstring * value)) (i : N)
  (k : jsstring) (v : value) :
  members_ok o -> code_units k -> units_ok v ->
  members_ok (insert_index o i k v).
Proof.
  intros H Hk Hv.
  induction H as [|[k' v'] o Hkv Ho IH];
    [constructor; [split; assumption|constructor]|].
  cbn [insert_index].
  destruct (array_index k') as [j|].
  - destruct (j <? i).
    + constructor; [exact Hkv|exact IH].
    + constructor; [split; assumption|]. constructor; assumption.
  - constructor; [split; assumption|]. constructor; assumption.
Qed.

Lemma members_ok_obj_set (o : list (jsstring * value)) (k : jsstring)
  (v : value) :
  members_ok o -> code_units k -> units_ok v -> members_ok (obj_set o k v).
Proof.
  intros H Hk Hv. unfold obj_set. destruct (has_key o k).
  - apply members_ok_replace_key; assumption.
  - destruct (array_index k).
    + apply members_ok_insert_index; assumption.
    + apply Forall_app. split; [exact H|].
      constructor; [split; assumption|constructor].
Qed.

Lemma parse_units (fuel : nat) :
  (forall s v r,
      parse_value fuel s = Some (v, r) -> code_units s ->
      units_ok v /\ code_units r)
  /\ (forall s l r,
         parse_elements fuel s = Some (l, r) -> code_units s ->
         Forall units_ok l /\ code_units r)
  /\ (forall s o o' r,
         parse_members fuel s o = Some (o', r) -> code_units s ->
         members_ok o -> members_ok o' /\ code_units r).
Proof.
  induction fuel as [|f (IHv & IHe & IHm)];
    [repeat split; discriminate|].
  split; [|split].
  - (* a value *)
    intros s v r E H. cbn [parse_value] in E.
    apply code_units_skip_ws in H.
    destruct (skip_ws s) as [|c t]; [discriminate E|].
    pose proof (Forall_inv_tail H) as Ht.
    destruct (c =? 110).
    { literal_cases E. injection E as <- <-. units_tail Ht.
      split; [exact I|exact Ht]. }
    destruct (c =? 116).
    { literal_cases E. injection E as <- <-. units_tail Ht.
      split; [exact I|exact Ht]. }
    destruct (c =? 102).
    { literal_cases E. injection E as <- <-. units_tail Ht.
      split; [exact I|exact Ht]. }
    destruct (c =? 34).
    { destruct (parse_chars t) as [[str r']|] eqn:Ec; [|discriminate E].
      injection E as <- <-.
      apply (code_units_parse_chars t str r' Ec Ht). }
    destruct (c =? 91).
    { assert (El : forall x,
                 match parse_elements f t with
                 | Some (l, r') => Some (JArray l, r')
                 | None => None
                 end = Some x ->
                 units_ok (fst x) /\ code_units (snd x)).
      { intros [v0 r0] E0.
        destruct (parse_elements f t) as [[l r']|] eqn:Ee; [|discriminate E0].
        injection E0 as <- <-. destruct (IHe t l r' Ee Ht) as [A B].
        split; [apply units_ok_array; exact A|exact B]. }
      cbv zeta in E. pose proof (code_units_skip_ws t Ht) as Hs.
      destruct (skip_ws t) as [|c' r'] eqn:Es; [apply (El _ E)|].
      destruct (c' =? 93); [|apply (El _ E)].
      injection E as <- <-. split; [exact I|].
      apply (Forall_inv_tail Hs). }
    destruct (c =? 123).
    { assert (El : forall x,
                 match parse_members f t [] with
                 | Some (o, r') => Some (JObject o, r')
                 | None => None
                 end = Some x ->
                 units_ok (fst x) /\ code_units (snd x)).
      { intros [v0 r0] E0.
        destruct (parse_members f t []) as [[o r']|] eqn:Ee;
          [|discriminate E0].
        injection E0 as <- <-.
        destruct (IHm t [] o r' Ee Ht (Forall_nil _)) as [A B].
        split; [apply units_ok_object; exact A|exact B]. }
      cbv zeta in E. pose proof (code_units_skip_ws t Ht) as Hs.
      destruct (skip_ws t) as [|c' r'] eqn:Es; [apply (El _ E)|].
      destruct (c' =? 125); [|apply (El _ E)].
      injection E as <- <-. split; [exact I|].
      apply (Forall_inv_tail Hs). }
    destruct (scan_number (c :: t)) as [[l r']|] eqn:En; [|discriminate E].
    injection E as <- <-. split; [exact I|].
    destruct (scan_number_split _ _ _ En) as [Sp _].
    unfold code_units in H. rewrite Sp in H.
    apply Forall_app in H. apply H.
  - (* the elements of an array *)
    intros s l r E H. cbn [parse_elements] in E.
    destruct (parse_value f s) as [[v t]|] eqn:Ev; [|discriminate E].
    destruct (IHv s v t Ev H) as [Uv Ht].
    apply code_units_skip_ws in Ht.
    destruct (skip_ws t) as [|c t']; [discriminate E|].
    pose proof (Forall_inv_tail Ht) as Ht'.
    destruct (N.eq_dec c 44) as [->|N44].
    + destruct (parse_elements f t') as [[l' r']|] eqn:Ee;
        [|discriminate E].
      injection E as <- <-. destruct (IHe t' l' r' Ee Ht') as [A B].
      split; [constructor; assumption|exact B].
    + destruct (N.eq_dec c 93) as [->|N93].
      * injection E as <- <-.
        split; [constructor; [exact Uv|constructor]|exact Ht'].
      * exfalso. literal_cases E; congruence.
  - (* the members of an object *)
    intros s o o' r E H Ho. cbn [parse_members] in E.
    apply code_units_skip_ws in H.
    destruct (skip_ws s) as [|c t]; [discriminate E|].
    pose proof (Forall_inv_tail H) as Ht.
    destruct (N.eq_dec c 34) as [->|N34];
      [|exfalso; literal_cases E; congruence].
    destruct (parse_chars t) as [[k r1]|] eqn:Ec; [|discriminate E].
    destruct (code_units_parse_chars t k r1 Ec Ht) as [Hk H1].
    apply code_units_skip_ws in H1.
    destruct (skip_ws r1) as [|c1 r2]; [discriminate E|].
    pose proof (Forall_inv_tail H1) as H2.
    destruct (N.eq_dec c1 58) as [->|N58];
      [|exfalso; literal_cases E; congruence].
    destruct (parse_value f r2) as [[v r3]|] eqn:Ev; [|discriminate E].
    destruct (IHv r2 v r3 Ev H2) as [Uv H3].
    apply code_units_skip_ws in H3.
    destruct (skip_ws r3) as [|c3 r4]; [discriminate E|].
    pose proof (Forall_inv_tail H3) as H4.
    pose proof (members_ok_obj_set o k v Ho Hk Uv) as Ho'.
    destruct (N.eq_dec c3 44) as [->|N44].
    + apply (IHm r4 _ o' r E H4 Ho').
    + destruct (N.eq_dec c3 125) as [->|N125].
      * injection E as <- <-. split; assumption.
      * exfalso. literal_cases E; congruence.
Qed.

(** What [JSON.parse] returns from a string holds strings. *)
Theorem parse_units_ok (text : jsstring) (v : value) :
  parse text = Normal v -> code_units text -> units_ok v.
Proof.
  unfold parse. intros E H.
  destruct (parse_value (S (List.length text)) text) as [[v' r]|] eqn:P.
  - destruct (skip_ws r); [|discriminate E]. injection E as <-.
    apply (proj1 (parse_units _) text v' r P H).
  - destruct (skip_ws text); discriminate E.
Qed.

(** So what [JSON.stringify] writes for it is a string again. *)
Corollary code_units_stringify (text : jsstring) (v : value) :
  parse text = Normal v -> code_units text -> code_units (stringify v).
Proof.
  intros E H. apply code_units_serialize;
    [apply (parse_units_ok text v E H)|constructor|constructor].
Qed.

End WithNumber.
End JSONCodeUnits.

(** * The order of an object's members

    [JSON.parse] builds every object by [CreateDataProperty], so the
    members of what it returns are listed as the keys are enumerated: array
    indices in ascending order, then the other keys, and no key twice. *)
Module JSONObjects.
Import JSON JSONRoundTrip JSONCodeUnits.

(** *** Array indices are canonical numerals *)

Lemma digits_value_acc (k : jsstring) (acc : N) :
  digits_value k acc
  = acc * 10 ^ N.of_nat (List.length k) + digits_value k 0.
Proof.
  revert acc. induction k as [|c r IH]; intro acc.
  - cbn. lia.
  - cbn [digits_value List.length].
    rewrite (IH (10 * acc + (c - 48))), (IH (10 * 0 + (c - 48))).
    rewrite Nat2N.inj_succ, N.pow_succ_r'. lia.
Qed.

Definition digits (k : jsstring) : Prop := forallb is_digit k = true.

Lemma digit_value (c : N) : is_digit c = true -> 48 <= c /\ c - 48 < 10.
Proof.
  unfold is_digit. intro H. apply andb_prop in H. destruct H as [H1 H2].
  apply N.leb_le in H1, H2. lia.
Qed.

Lemma digits_value_bound (k : jsstring) :
  digits k -> digits_value k 0 < 10 ^ N.of_nat (List.length k).
Proof.
  unfold digits. induction k as [|c r IH]; intro H; [cbn; lia|].
  cbn [forallb] in H. apply andb_prop in H. destruct H as [Hc Hr].
  cbn [digits_value List.length]. rewrite digits_value_acc.
  specialize (IH Hr). destruct (digit_value c Hc) as [_ B].
  rewrite Nat2N.inj_succ, N.pow_succ_r'. nia.
Qed.

Lemma digits_value_lower (c : N) (r : jsstring) :
  is_digit c = true -> c <> 48 ->
  10 ^ N.of_nat (List.length r) <= digits_value (c :: r) 0.
Proof.
  intros Hc N0. cbn [digits_value]. rewrite digits_value_acc.
  destruct (digit_value c Hc) as [B _].
  assert (1 <= 10 * 0 + (c - 48)) by lia. nia.
Qed.

Lemma digits_same_length (k k' : jsstring) :
  digits k -> digits k' -> List.length k = List.length k' ->
  digits_value k 0 = digits_value k' 0 -> k = k'.
Proof.
  unfold digits. revert k'.
  induction k as [|c r IH]; intros [|c' r'] H H' L V;
    try discriminate L; [reflexivity|].
  cbn [forallb] in H, H'. apply andb_prop in H, H'.
  destruct H as [Hc Hr]. destruct H' as [Hc' Hr'].
  injection L as L.
  cbn [digits_value] in V.
  rewrite (digits_value_acc r), (digits_value_acc r'), <- L in V.
  pose proof (digits_value_bound r Hr) as B.
  pose proof (digits_value_bound r' Hr') as B'. rewrite <- L in B'.
  destruct (digit_value c Hc) as [D1 D2].
  destruct (digit_value c' Hc') as [D1' D2'].
  destruct (N.div_mod_unique (10 ^ N.of_nat (List.length r))
              (c - 48) (c' - 48) (digits_value r 0) (digits_value r' 0)
              B B') as [E1 E2]; [lia|].
  f_equal; [lia|]. apply IH; assumption.
Qed.

(** A numeral without a leading zero. *)
Definition canonical_numeral (k : jsstring) : Prop :=
  digits k
  /\ match k with
     | [] => False
     | c :: r => (c = 48 /\ r = []) \/ c <> 48
     end.

Lemma canonical_numeral_length (k k' : jsstring) :
  canonical_numeral k -> canonical_numeral k' ->
  digits_value k 0 = digits_value k' 0 ->
  (List.length k <= List.length k')%nat.
Proof.
  intros [D C] [D' C'] V.
  destruct (Nat.le_gt_cases (List.length k) (List.length k')) as [L|L];
    [exact L|exfalso].
  destruct k as [|c r]; [destruct C|].
  destruct k' as [|c' r']; [destruct C'|].
  cbn [List.length] in L.
  destruct C as [[-> ->]|C]; [cbn in L; lia|].
  pose proof D as Dc. unfold digits in Dc. cbn [forallb] in Dc.
  apply andb_prop in Dc. destruct Dc as [Dc _].
  pose proof (digits_value_lower c r Dc C) as Lo.
  pose proof (digits_value_bound (c' :: r') D') as Up.
  rewrite <- V in Up. cbn [List.length] in Up.
  assert (P : 10 ^ N.of_nat (S (List.length r'))
              <= 10 ^ N.of_nat (List.length r))
    by (apply N.pow_le_mono_r; lia).
  lia.
Qed.

Lemma canonical_numeral_inj (k k' : jsstring) :
  canonical_numeral k -> canonical_numeral k' ->
  digits_value k 0 = digits_value k' 0 -> k = k'.
Proof.
  intros C C' V.
  pose proof (canonical_numeral_length k k' C C' V).
  pose proof (canonical_numeral_length k' k C' C (eq_sym V)).
  apply digits_same_length; [apply C|apply C'|lia|exact V].
Qed.

Lemma array_index_numeral (k : jsstring) (i : N) :
  array_index k = Some i -> canonical_numeral k /\ i = digits_value k 0.
Proof.
  unfold array_index. destruct k as [|c r]; [discriminate|].
  destruct (forallb is_digit (c :: r)) eqn:D; [|discriminate].
  destruct ((c =? 48) && match r with [] => true | _ => false end
            || negb (c =? 48)) eqn:C; [|discriminate].
  cbn [andb].
  destruct ((List.length (c :: r) <=? 10)%nat); [|discriminate].
  destruct (digits_value (c :: r) 0 <? 4294967295); [|discriminate].
  cbn [andb]. intro H. injection H as <-.
  split; [|reflexivity]. split; [exact D|].
  apply orb_prop in C. destruct C as [C|C].
  - apply andb_prop in C. destruct C as [C1 C2]. apply N.eqb_eq in C1.
    left. split; [exact C1|]. destruct r; [reflexivity|discriminate C2].
  - right. apply negb_true_iff, N.eqb_neq in C. exact C.
Qed.

(** Two keys with the same array index are the same key. *)
Lemma array_index_inj (k k' : jsstring) (i : N) :
  array_index k = Some i -> array_index k' = Some i -> k = k'.
Proof.
  intros H H'.
  destruct (array_index_numeral k i H) as [C E].
  destruct (array_index_numeral k' i H') as [C' E'].
  apply canonical_numeral_inj; [exact C|exact C'|congruence].
Qed.

(** *** The enumeration order *)

(** [k] is enumerated before [k']: an array index before a larger one and
    before every other key. *)
Definition before (k k' : jsstring) : Prop :=
  match array_index k, array_index k' with
  | Some i, Some j => i < j
  | None, Some _ => False
  | _, None => True
  end.

(** Keys in enumeration order, none twice. *)
Fixpoint ordered (ks : list jsstring) : Prop :=
  match ks with
  | [] => True
  | k :: r => (forall x, In x r -> before k x /\ x <> k) /\ ordered r
  end.

Lemma ordered_snoc (ks : list jsstring) (k : jsstring) :
  ordered ks -> ~ In k ks -> array_index k = None -> ordered (ks ++ [k]).
Proof.
  intros H Hk Hn. induction ks as [|h r IH].
  - cbn. split; [intros x []|exact I].
  - destruct H as [H1 H2]. cbn [app ordered]. split.
    + intros x Hx. apply in_app_or in Hx. destruct Hx as [Hx|[<-|[]]].
      * apply (H1 x Hx).
      * split.
        -- unfold before. rewrite Hn. destruct (array_index h); exact I.
        -- intros ->. apply Hk. left. reflexivity.
    + apply IH; [exact H2|]. intro Hx. apply Hk. right. exact Hx.
Qed.

Lemma ordered_middle (a b : list jsstring) (k : jsstring) :
  ordered (a ++ k :: b) -> forall x, In x a -> before x k /\ k <> x.
Proof.
  induction a as [|h a IH]; intros H x Hx; [destruct Hx|].
  destruct H as [H1 H2]. destruct Hx as [<-|Hx].
  - apply H1. apply in_or_app. right. left. reflexivity.
  - apply (IH H2 x Hx).
Qed.

Section WithNumber.

Context {EN : ECMANumber}.

Definition keys (o : list (jsstring * value)) : list jsstring := map fst o.

Lemma has_key_In (o : list (jsstring * value)) (k : jsstring) :
  has_key o k = true <-> In k (keys o).
Proof.
  unfold has_key, keys. rewrite existsb_exists. split.
  - intros ([k' v] & Hin & E). apply jsstring_eqb_eq in E. cbn in E. subst.
    apply in_map_iff. exists (k, v). split; [reflexivity|exact Hin].
  - intro H. apply in_map_iff in H. destruct H as ([k' v] & E & Hin).
    cbn in E. subst. exists (k, v). split; [exact Hin|].
    apply jsstring_eqb_refl.
Qed.

Lemma keys_replace_key (o : list (jsstring * value)) (k : jsstring)
  (v : value) :
  keys (replace_key o k v) = keys o.
Proof.
  induction o as [|[k' v'] o IH]; [reflexivity|].
  cbn [replace_key]. destruct (jsstring_eqb k' k); [reflexivity|].
  cbn [keys map fst]. f_equal. exact IH.
Qed.

Lemma In_insert_index (o : list (jsstring * value)) (i : N) (k : jsstring)
  (v : value) (x : jsstring) :
  In x (keys (insert_index o i k v)) <-> x = k \/ In x (keys o).
Proof.
  induction o as [|[k' v'] o IH].
  - cbn. split; [intros [<-|[]]; left; reflexivity|].
    intros [->|[]]. left. reflexivity.
  - cbn [insert_index].
    destruct (array_index k') as [j|]; [destruct (j <? i)|];
      cbn [keys map fst In]; fold (keys o);
      try (split; [intros [<-|H]; [left; reflexivity|right; exact H]
                  |intros [->|H]; [left; reflexivity|right; exact H]]).
    fold (keys (insert_index o i k v)). rewrite IH. tauto.
Qed.

Lemma ordered_insert_index (o : list (jsstring * value)) (i : N)
  (k : jsstring) (v : value) :
  ordered (keys o) -> ~ In k (keys o) -> array_index k = Some i ->
  ordered (keys (insert_index o i k v)).
Proof.
  intros H Hk Hi. induction o as [|[k' v'] o IH].
  - cbn. split; [intros x []|exact I].
  - cbn [keys map fst ordered] in H. fold (keys o) in H.
    destruct H as [H1 H2].
    assert (Hk' : k <> k') by (intros ->; apply Hk; left; reflexivity).
    assert (Hko : ~ In k (keys o)) by (intro X; apply Hk; right; exact X).
    cbn [insert_index].
    assert (Front : (forall j, array_index k' = Some j -> i < j) ->
                    ordered (keys ((k, v) :: (k', v') :: o))).
    { intro Lt. cbn [keys map fst ordered]. fold (keys o).
      split; [|split; assumption].
      intros x [E|Hx].
      - subst x. split; [|congruence]. unfold before. rewrite Hi.
        destruct (array_index k') as [j|] eqn:Ex; [|exact I].
        apply (Lt j eq_refl).
      - split; [|intros ->; exact (Hko Hx)].
        destruct (H1 x Hx) as [B _]. unfold before in *. rewrite Hi.
        destruct (array_index x) as [jx|]; [|exact I].
        destruct (array_index k') as [j|]; [|destruct B].
        specialize (Lt j eq_refl). lia. }
    destruct (array_index k') as [j|] eqn:Ej.
    + destruct (j <? i) eqn:Lt.
      * apply N.ltb_lt in Lt.
        cbn [keys map fst ordered]. fold (keys (insert_index o i k v)).
        split; [|apply IH; assumption].
        intros x Hx. apply In_insert_index in Hx. destruct Hx as [->|Hx].
        -- split; [|exact Hk']. unfold before. rewrite Ej, Hi. exact Lt.
        -- apply (H1 x Hx).
      * apply N.ltb_ge in Lt. apply Front. intros j' E'.
        injection E' as <-.
        assert (i <> j); [|lia].
        intros ->. apply Hk'. apply (array_index_inj k k' j Hi Ej).
    + apply Front. discriminate.
Qed.

Lemma ordered_obj_set (o : list (jsstring * value)) (k : jsstring)
  (v : value) :
  ordered (keys o) -> ordered (keys (obj_set o k v)).
Proof.
  intro H. unfold obj_set. destruct (has_key o k) eqn:Hk.
  - rewrite keys_replace_key. exact H.
  - assert (Hn : ~ In k (keys o)).
    { intro X. apply has_key_In in X. congruence. }
    destruct (array_index k) as [i|] eqn:Hi.
    + apply ordered_insert_index; assumption.
    + unfold keys. rewrite map_app. apply ordered_snoc; assumption.
Qed.

Lemma insert_index_end (o : list (jsstring * value)) (i : N)
  (k : jsstring) (v : value) :
  array_index k = Some i -> (forall x, In x (keys o) -> before x k) ->
  insert_index o i k v = o ++ [(k, v)].
Proof.
  intros Hi H. induction o as [|[k' v'] o IH]; [reflexivity|].
  cbn [insert_index app].
  pose proof (H k' (or_introl eq_refl)) as B. unfold before in B.
  rewrite Hi in B.
  destruct (array_index k') as [j|]; [|destruct B].
  apply N.ltb_lt in B. rewrite B. f_equal.
  apply IH. intros x Hx. apply H. right. exact Hx.
Qed.

Lemma build_from (post pre : list (jsstring * value)) :
  ordered (keys (pre ++ post)) ->
  fold_left (fun o kv => obj_set o (fst kv) (snd kv)) post pre = pre ++ post.
Proof.
  revert pre. induction post as [|[k v] post IH]; intros pre H.
  - cbn. symmetry. apply app_nil_r.
  - cbn [fold_left fst snd].
    assert (M : forall x, In x (keys pre) -> before x k /\ k <> x).
    { apply (ordered_middle (keys pre) (keys post) k).
      unfold keys in *. rewrite map_app in H. exact H. }
    assert (S : obj_set pre k v = pre ++ [(k, v)]).
    { unfold obj_set.
      destruct (has_key pre k) eqn:Hk.
      - apply has_key_In in Hk. destruct (M k Hk) as [_ X]. congruence.
      - destruct (array_index k) as [i|] eqn:Hi; [|reflexivity].
        apply insert_index_end; [exact Hi|]. intros x Hx. apply (M x Hx). }
    rewrite S, IH; rewrite <- app_assoc; [reflexivity|exact H].
Qed.

(** Building an object again from its members in enumeration order gives
    the same object. *)
Lemma ordered_build_object (o : list (jsstring * value)) :
  ordered (keys o) -> build_object o = o.
Proof. intro H. apply (build_from o [] H). Qed.

(** *** What the parser returns *)

(** Every object of the value lists its members in enumeration order. *)
Fixpoint canonical (v : value) : Prop :=
  match v with
  | JArray l =>
      (fix all (l : list value) : Prop :=
         match l with
         | [] => True
         | x :: l' => canonical x /\ all l'
         end) l
  | JObject o =>
      ordered (map fst o)
      /\ (fix all (o : list (jsstring * value)) : Prop :=
            match o with
            | [] => True
            | (_, x) :: o' => canonical x /\ all o'
            end) o
  | _ => True
  end.

(** Every number of the value is finite. *)
Fixpoint finite (v : value) : Prop :=
  match v with
  | JNumber n => isFinite n = true
  | JArray l =>
      (fix all (l : list value) : Prop :=
         match l with
         | [] => True
         | x :: l' => finite x /\ all l'
         end) l
  | JObject o =>
      (fix all (o : list (jsstring * value)) : Prop :=
         match o with
         | [] => True
         | (_, x) :: o' => finite x /\ all o'
         end) o
  | _ => True
  end.

Definition members_canonical (o : list (jsstring * value)) : Prop :=
  Forall (fun kv => canonical (snd kv)) o.

Lemma canonical_array (l : list value) :
  canonical (JArray l) <-> Forall canonical l.
Proof.
  cbn [canonical]. induction l as [|x l IH].
  - split; [constructor|exact (fun _ => I)].
  - split.
    + intros [Hx Hl]. constructor; [exact Hx|apply IH; exact Hl].
    + intro H. inversion H; subst. split; [assumption|].
      apply IH. assumption.
Qed.

Lemma canonical_object (o : list (jsstring * value)) :
  canonical (JObject o) <-> ordered (keys o) /\ members_canonical o.
Proof.
  cbn [canonical]. unfold members_canonical, keys.
  assert (A : (fix all (o : list (jsstring * value)) : Prop :=
                 match o with
                 | [] => True
                 | (_, x) :: o' => canonical x /\ all o'
                 end) o <-> Forall (fun kv => canonical (snd kv)) o).
  { induction o as [|[k x] o IH].
    - split; [constructor|exact (fun _ => I)].
    - split.
      + intros [Hx Hl]. constructor; [exact Hx|apply IH; exact Hl].
      + intro H. inversion H; subst. split; [assumption|].
        apply IH. assumption. }
  rewrite A. reflexivity.
Qed.

Lemma finite_array (l : list value) :
  finite (JArray l) <-> Forall finite l.
Proof.
  cbn [finite]. induction l as [|x l IH].
  - split; [constructor|exact (fun _ => I)].
  - split.
    + intros [Hx Hl]. constructor; [exact Hx|apply IH; exact Hl].
    + intro H. inversion H; subst. split; [assumption|].
      apply IH. assumption.
Qed.

Lemma finite_object (o : list (jsstring * value)) :
  finite (JObject o) <-> Forall (fun kv => finite (snd kv)) o.
Proof.
  cbn [finite]. induction o as [|[k x] o IH].
  - split; [constructor|exact (fun _ => I)].
  - split.
    + intros [Hx Hl]. constructor; [exact Hx|apply IH; exact Hl].
    + intro H. inversion H; subst. split; [assumption|].
      apply IH. assumption.
Qed.

Lemma members_canonical_obj_set (o : list (jsstring * value))
  (k : jsstring) (v : value) :
  members_canonical o -> canonical v -> members_canonical (obj_set o k v).
Proof.
  intros H Hv. unfold obj_set. destruct (has_key o k).
  - induction H as [|[k' v'] o Hkv Ho IH]; [constructor|].
    cbn [replace_key]. destruct (jsstring_eqb k' k).
    + constructor; [exact Hv|exact Ho].
    + constructor; [exact Hkv|exact IH].
  - destruct (array_index k) as [i|].
    + induction H as [|[k' v'] o Hkv Ho IH];
        [constructor; [exact Hv|constructor]|].
      cbn [insert_index].
      destruct (array_index k') as [j|]; [destruct (j <? i)|];
        repeat (constructor; try assumption).
    + apply Forall_app. split; [exact H|].
      constructor; [exact Hv|constructor].
Qed.

Lemma parse_canonical (fuel : nat) :
  (forall s v r, parse_value fuel s = Some (v, r) -> canonical v)
  /\ (forall s l r,
         parse_elements fuel s = Some (l, r) -> Forall canonical l)
  /\ (forall s o o' r,
         parse_members fuel s o = Some (o', r) ->
         ordered (keys o) -> members_canonical o ->
         ordered (keys o') /\ members_canonical o').
Proof.
  induction fuel as [|f (IHv & IHe & IHm)];
    [repeat split; discriminate|].
  split; [|split].
  - (* a value *)
    intros s v r E. cbn [parse_value] in E.
    destruct (skip_ws s) as [|c t]; [discriminate E|].
    destruct (c =? 110).
    { literal_cases E. injection E as <- <-. exact I. }
    destruct (c =? 116).
    { literal_cases E. injection E as <- <-. exact I. }
    destruct (c =? 102).
    { literal_cases E. injection E as <- <-. exact I. }
    destruct (c =? 34).
    { destruct (parse_chars t) as [[str r']|]; [|discriminate E].
      injection E as <- <-. exact I. }
    destruct (c =? 91).
    { assert (El : forall x,
                 match parse_elements f t with
                 | Some (l, r') => Some (JArray l, r')
                 | None => None
                 end = Some x -> canonical (fst x)).
      { intros [v0 r0] E0.
        destruct (parse_elements f t) as [[l r']|] eqn:Ee; [|discriminate E0].
        injection E0 as <- <-. apply canonical_array. apply (IHe t l r' Ee). }
      cbv zeta in E.
      destruct (skip_ws t) as [|c' r']; [apply (El _ E)|].
      destruct (c' =? 93); [|apply (El _ E)].
      injection E as <- <-. exact I. }
    destruct (c =? 123).
    { assert (El : forall x,
                 match parse_members f t [] with
                 | Some (o, r') => Some (JObject o, r')
                 | None => None
                 end = Some x -> canonical (fst x)).
      { intros [v0 r0] E0.
        destruct (parse_members f t []) as [[o r']|] eqn:Ee;
          [|discriminate E0].
        injection E0 as <- <-. apply canonical_object.
        apply (IHm t [] o r' Ee I (Forall_nil _)). }
      cbv zeta in E.
      destruct (skip_ws t) as [|c' r']; [apply (El _ E)|].
      destruct (c' =? 125); [|apply (El _ E)].
      injection E as <- <-. split; exact I. }
    destruct (scan_number (c :: t)) as [[l r']|]; [|discriminate E].
    injection E as <- <-. exact I.
  - (* the elements of an array *)
    intros s l r E. cbn [parse_elements] in E.
    destruct (parse_value f s) as [[v t]|] eqn:Ev; [|discriminate E].
    pose proof (IHv s v t Ev) as Cv.
    destruct (skip_ws t) as [|c t']; [discriminate E|].
    destruct (N.eq_dec c 44) as [->|N44].
    + destruct (parse_elements f t') as [[l' r']|] eqn:Ee;
        [|discriminate E].
      injection E as <- <-. constructor; [exact Cv|apply (IHe t' l' r' Ee)].
    + destruct (N.eq_dec c 93) as [->|N93].
      * injection E as <- <-. constructor; [exact Cv|constructor].
      * exfalso. literal_cases E; congruence.
  - (* the members of an object *)
    intros s o o' r E Ho Hc. cbn [parse_members] in E.
    destruct (skip_ws s) as [|c t]; [discriminate E|].
    destruct (N.eq_dec c 34) as [->|N34];
      [|exfalso; literal_cases E; congruence].
    destruct (parse_chars t) as [[k r1]|]; [|discriminate E].
    destruct (skip_ws r1) as [|c1 r2]; [discriminate E|].
    destruct (N.eq_dec c1 58) as [->|N58];
      [|exfalso; literal_cases E; congruence].
    destruct (parse_value f r2) as [[v r3]|] eqn:Ev; [|discriminate E].
    pose proof (IHv r2 v r3 Ev) as Cv.
    destruct (skip_ws r3) as [|c3 r4]; [discriminate E|].
    pose proof (ordered_obj_set o k v Ho) as Ho'.
    pose proof (members_canonical_obj_set o k v Hc Cv) as Hc'.
    destruct (N.eq_dec c3 44) as [->|N44].
    + apply (IHm r4 _ o' r E Ho' Hc').
    + destruct (N.eq_dec c3 125) as [->|N125].
      * injection E as <- <-. split; assumption.
      * exfalso. literal_cases E; congruence.
Qed.

Lemma canonical_well_formed (v : value) :
  canonical v -> finite v -> well_formed v.
Proof.
  induction v using value_ind; intros C F; try exact I.
  - exact F.
  - apply well_formed_array. apply canonical_array in C.
    apply finite_array in F. rewrite Forall_forall in *.
    intros x Hx. apply (H x Hx (C x Hx) (F x Hx)).
  - apply well_formed_object. apply canonical_object in C.
    destruct C as [Co Cm]. apply finite_object in F.
    split; [apply ordered_build_object; exact Co|].
    unfold members_canonical in Cm. rewrite Forall_forall in *.
    intros kv Hx. apply (H kv Hx (Cm kv Hx) (F kv Hx)).
Qed.

(** What [JSON.parse] returns is well formed as soon as its numbers are
    finite. *)
Theorem parse_well_formed (text : jsstring) (v : value) :
  parse text = Normal v -> finite v -> well_formed v.
Proof.
  unfold parse. intros E F.
  destruct (parse_value (S (List.length text)) text) as [[v' r]|] eqn:P.
  - destruct (skip_ws r); [|discriminate E]. injection E as <-.
    apply canonical_well_formed; [|exact F].
    apply (proj1 (parse_canonical _) text v' r P).
  - destruct (skip_ws text); discriminate E.
Qed.

End WithNumber.
End JSONObjects.

(** ** Numbers with the range of binary64

    The integers once more, now with the bound of binary64: a literal whose
    value reaches [2^1024 - 2^970], half way between the largest finite
    number and [2^1024], is read as an infinity, and [JSON.stringify] writes
    an infinity as [null]. *)
Module RangeNumber.

Definition limit : Z := (2 ^ 1024 - 2 ^ 970)%Z.

Definition in_range (z : Z) : bool := (Z.abs z <? limit)%Z.

Inductive number : Type :=
| Finite (z : Z) (range : in_range z = true)
| Infinity (negative : bool).

(** The number an integer value is read as. *)
Definition round (z : Z) : number :=
  match Sumbool.sumbool_of_bool (in_range z) with
  | left range => Finite z range
  | right _ => Infinity (z <? 0)%Z
  end.

Definition StringToNumber (l : jsstring) : number :=
  round (IntegerNumber.StringToNumber l).

Definition NumberToString (n : number) : jsstring :=
  match n with
  | Finite z _ => IntegerNumber.NumberToString z
  | Infinity false => lit "Infinity"
  | Infinity true => lit "-Infinity"
  end.

Definition isFinite (n : number) : bool :=
  match n with
  | Finite _ _ => true
  | Infinity _ => false
  end.

Lemma round_in_range (z : Z) (range : in_range z = true) :
  round z = Finite z range.
Proof.
  unfold round. destruct (Sumbool.sumbool_of_bool (in_range z)) as [H|H].
  - f_equal. apply Eqdep_dec.UIP_dec. apply Bool.bool_dec.
  - congruence.
Qed.

Lemma finite_literal (n : number) :
  isFinite n = true -> JSON.is_number_literal (NumberToString n) = true.
Proof.
  destruct n as [z range|negative]; [|discriminate]. intros _.
  apply IntegerNumberFacts.NumberToString_literal.
Qed.

Lemma finite_read_back (n : number) :
  isFinite n = true -> StringToNumber (NumberToString n) = n.
Proof.
  destruct n as [z range|negative]; [|discriminate]. intros _.
  unfold StringToNumber. cbn [NumberToString].
  rewrite IntegerNumberFacts.StringToNumber_NumberToString.
  apply round_in_range.
Qed.

Definition rangeNumber : JSON.ECMANumber := {|
  JSON.number := number;
  JSON.StringToNumber := StringToNumber;
  JSON.NumberToString := NumberToString;
  JSON.isFinite := isFinite;
  JSON.NumberToString_literal := finite_literal;
  JSON.StringToNumber_NumberToString := finite_read_back
|}.

End RangeNumber.

(** * Further properties of the service *)
Module ServiceProperties.
Import LZString LZStringFacts CompressionService ServiceFacts Thrown Logs.
Import JSONRoundTrip JSONCodeUnits JSONObjects Claims.

Section WithNumber.

Context {EN : JSON.ECMANumber}.

(** How a call settles when the transform runs, by action and mode. *)
Definition outcome (act : action) (useWorker : bool) (data_ : jsstring)
  : settled :=
  match act, useWorker with
  | compress, false => inline_compress data_
  | compress, true => delegated_compress data_
  | decompress, false => inline_decompress data_
  | decompress, true => delegated_decompress data_
  end.

Lemma process_runs (facility : workerFacility) (act : action)
  (data_ : jsstring) (useWorker : bool) (w : world) :
  world_ok w -> mode_runs facility useWorker ->
  fst (processDataAsync facility act data_ useWorker w)
  = outcome act useWorker data_.
Proof.
  intros H [->| ->].
  - destruct act.
    + apply process_inline_compress.
    + apply process_inline_decompress. exact H.
  - destruct useWorker, act.
    + apply process_delegated_compress.
    + apply process_delegated_decompress.
    + apply process_inline_compress.
    + apply process_inline_decompress. exact H.
Qed.

Definition resolves (s : settled) : Prop := exists r, s = Resolved r.

Lemma resolves_Resolved (r : jsstring) : resolves (Resolved r).
Proof. exists r. reflexivity. Qed.

Lemma resolves_Rejected (e : jsstring) : ~ resolves (Rejected e).
Proof. intros [r H]. discriminate H. Qed.

Lemma parse_empty : exists m, JSON.parse [] = Throw m.
Proof. eexists. reflexivity. Qed.

Lemma decompress_resolves (useWorker : bool) (data_ : jsstring) :
  decodes_to_json data_ = true -> resolves (outcome decompress useWorker data_).
Proof.
  unfold decodes_to_json, outcome, inline_decompress, delegated_decompress.
  destruct (decode data_) as [[[|x text]|]|m]; try discriminate.
  destruct (JSON.parse (x :: text)); [|discriminate].
  intros _. destruct useWorker; apply resolves_Resolved.
Qed.

Lemma decompress_rejects (useWorker : bool) (data_ : jsstring) :
  decodes_to_json data_ = false ->
  ~ resolves (outcome decompress useWorker data_).
Proof.
  unfold decodes_to_json, outcome, inline_decompress, delegated_decompress.
  destruct parse_empty as [m0 Pm].
  destruct (decode data_) as [[[|x text]|]|m]; rewrite ?Pm;
    try (intros _; destruct useWorker; apply resolves_Rejected).
  destruct (JSON.parse (x :: text)); [discriminate|].
  intros _; destruct useWorker; apply resolves_Rejected.
Qed.

Lemma compress_resolves (useWorker : bool) (data_ : jsstring)
  (v : JSON.value) :
  JSON.parse data_ = Normal v -> resolves (outcome compress useWorker data_).
Proof.
  intro P. unfold outcome, inline_compress, delegated_compress. rewrite P.
  destruct useWorker; apply resolves_Resolved.
Qed.

(** The action [handleAction] picks for a classification (line 103). *)
Definition action_for (tag : classification) : action :=
  match tag with
  | json => compress
  | _ => decompress
  end.

(** For a text without surrounding white space, the classifier predicts the
    transform: the action chosen for the tag succeeds when the tag is
    [json] or [compressed], and fails when it is [unknown]. *)
Theorem classification_predicts_outcome (facility : workerFacility)
  (input : jsstring) (useWorker : bool) (tag : classification)
  (w w' : world) :
  world_ok w -> world_ok w' -> mode_runs facility useWorker ->
  trim input = input ->
  fst (analyzeData input w) = Normal tag ->
  (resolves (fst (processDataAsync facility (action_for tag) input
                    useWorker w'))
   <-> tag <> unknown).
Proof.
  intros H H' R T A.
  destruct (analyzeData_classify input w H) as [A' _].
  rewrite A' in A. injection A as <-.
  rewrite (process_runs facility _ input useWorker w' H' R).
  unfold classify. rewrite T.
  destruct (decodes_to_json input) eqn:D.
  - pose proof (decompress_resolves useWorker input D) as Y.
    destruct input as [|c t]; [discriminate D|].
    rewrite parses_as_composite_test.
    destruct (JSON.parse (c :: t)) as [v|m] eqn:P.
    + destruct (JSON.is_composite v); cbn [action_for].
      * split; [discriminate|]. intros _.
        apply (compress_resolves useWorker _ v P).
      * split; [discriminate|]. intros _. exact Y.
    + cbn [action_for]. split; [discriminate|]. intros _. exact Y.
  - pose proof (decompress_rejects useWorker input D) as Y.
    destruct input as [|c t].
    { cbn [action_for]. split; [intro X; destruct (Y X)|congruence]. }
    rewrite parses_as_composite_test.
    destruct (JSON.parse (c :: t)) as [v|m] eqn:P.
    + destruct (JSON.is_composite v); cbn [action_for].
      * split; [discriminate|]. intros _.
        apply (compress_resolves useWorker _ v P).
      * split; [intro X; destruct (Y X)|congruence].
    + cbn [action_for]. split; [intro X; destruct (Y X)|congruence].
Qed.

(** *** Failure reasons *)

Lemma jsstring_eqb_false (a b : jsstring) :
  a <> b -> jsstring_eqb a b = false.
Proof.
  intro H. destruct (jsstring_eqb a b) eqn:E; [|reflexivity].
  apply jsstring_eqb_eq in E. contradiction.
Qed.

Lemma or_else_fallback (m fallback : jsstring) :
  fallback <> [] -> or_else m fallback <> [].
Proof. destruct m; [intro H; exact H|discriminate]. Qed.

Lemma inline_compress_reason (data_ reason : jsstring) :
  inline_compress data_ = Rejected reason -> reason <> [].
Proof.
  unfold inline_compress. destruct (JSON.parse data_); [discriminate|].
  intro E. injection E as <-. apply or_else_fallback. discriminate.
Qed.

Lemma delegated_compress_reason (data_ reason : jsstring) :
  delegated_compress data_ = Rejected reason -> reason <> [].
Proof.
  unfold delegated_compress. destruct (JSON.parse data_); [discriminate|].
  intro E. injection E as <-. apply or_else_fallback. discriminate.
Qed.

Lemma delegated_decompress_reason (data_ reason : jsstring) :
  delegated_decompress data_ = Rejected reason -> reason <> [].
Proof.
  unfold delegated_decompress.
  destruct (decode data_) as [[text|]|m].
  - destruct (JSON.parse text); [discriminate|].
    intro E. injection E as <-. apply or_else_fallback. discriminate.
  - intro E. injection E as <-. discriminate.
  - intro E. injection E as <-. apply or_else_fallback. discriminate.
Qed.

Lemma inline_decompress_reason (facility : workerFacility)
  (data_ reason : jsstring) (w : world) :
  fst (processDataAsync facility decompress data_ false w) = Rejected reason ->
  reason <> [].
Proof.
  unfold processDataAsync, decompressJsonSync,
    JSON_parse_call, JSON_stringify_indent_call, decompressFromBase64_call,
    bind, ret, throw, engine, emit.
  cbn [negb snd fst w_cache w_thread w_log].
  destruct (decompressFromBase64 (w_cache w) data_) as [r cache'].
  destruct r as [[text|]|m]; cbn [fst snd w_cache].
  - destruct (JSON.parse text); cbn [fst]; [discriminate|].
    intro E. injection E as <-. apply or_else_fallback. discriminate.
  - intro E. injection E as <-. discriminate.
  - intro E. injection E as <-. apply or_else_fallback. discriminate.
Qed.

(** A rejected promise always carries a reason to show: no path of the
    dispatcher rejects with the empty string. *)
Theorem rejection_reason_nonempty (facility : workerFacility) (act : action)
  (data_ : jsstring) (useWorker : bool) (w : world) (reason : jsstring) :
  fst (processDataAsync facility act data_ useWorker w) = Rejected reason ->
  reason <> [].
Proof.
  destruct useWorker.
  - destruct facility.
    + intro E. injection E as <-. discriminate.
    + destruct act.
      * rewrite (proj1 (process_delegated_compress data_ w)).
        apply delegated_compress_reason.
      * rewrite (proj1 (process_delegated_decompress data_ w)).
        apply delegated_decompress_reason.
    + intro E. injection E as <-. discriminate.
  - destruct act.
    + rewrite (proj1 (process_inline_compress facility data_ w)).
      apply inline_compress_reason.
    + apply inline_decompress_reason.
Qed.

(** *** The worker endpoint *)

Lemma workerListener_replies (action_ data_ : jsstring) (w : world) :
  exists reply, fst (workerListener action_ data_ w) = Normal reply.
Proof.
  unfold workerListener, try_catch.
  match goal with
  | |- context [match ?m w with _ => _ end] => destruct (m w) as [[r|m'] w']
  end; eexists; reflexivity.
Qed.


Lemma workerListener_failure (action_ data_ error : jsstring) (w : world) :
  fst (workerListener action_ data_ w) = Normal (Failure error) ->
  error <> [].
Proof.
  unfold workerListener, try_catch. unfold bind at 1.
  match goal with
  | |- context [match ?m w with _ => _ end] => destruct (m w) as [[r|m'] w']
  end; cbn [fst ret]; intro E; [discriminate|].
  injection E as <-. apply or_else_fallback. discriminate.
Qed.

(** The listener always posts a reply: whatever the request, its [try]
    block turns every exception into a failure message, and that message
    is never empty. *)
Theorem workerListener_always_replies (action_ data_ : jsstring) (w : world) :
  exists reply,
    fst (workerListener action_ data_ w) = Normal reply
    /\ match reply with
       | Success _ => True
       | Failure error => error <> []
       end.
Proof.
  destruct (workerListener_replies action_ data_ w) as [reply E].
  exists reply. split; [exact E|].
  destruct reply as [r|error]; [exact I|].
  apply (workerListener_failure action_ data_ error w E).
Qed.

(** A request whose action is neither 'compress' nor 'decompress' is
    answered with a failure, and no library is called. *)
Theorem workerListener_invalid_action (action_ data_ : jsstring) (w : world) :
  action_ <> lit "compress" -> action_ <> lit "decompress" ->
  workerListener action_ data_ w
  = (Normal (Failure (lit "Invalid action provided.")), w).
Proof.
  intros H1 H2. unfold workerListener, try_catch, bind, throw, ret.
  apply jsstring_eqb_false in H1. apply jsstring_eqb_false in H2.
  rewrite H1, H2. reflexivity.
Qed.

(** With a worker that runs, the promise is never rejected by the
    [onerror] handler: the log shows a reply, not an error event. *)
Theorem worker_runs_replies (act : action) (data_ : jsstring) (w : world) :
  exists reply before,
    w_log (snd (processDataAsync WorkerRuns act data_ true w))
    = before ++ [WorkerReplied reply; WorkerTerminated]
    /\ fst (processDataAsync WorkerRuns act data_ true w)
       = match reply with
         | Success r => Resolved r
         | Failure error => Rejected error
         end.
Proof.
  unfold processDataAsync. cbn [negb].
  destruct (workerListener_replies (action_name act) data_
              (mkWorld WorkerThread [] [])) as [reply E].
  pose proof (workerListener_failure (action_name act) data_) as NE.
  specialize (fun e => NE e (mkWorld WorkerThread [] [])).
  destruct (workerListener (action_name act) data_
              (mkWorld WorkerThread [] [])) as [r ww].
  cbn [fst] in E. subst r. exists reply.
  destruct reply as [r|error]; cbn [fst snd w_log] in *.
  - eexists. split; [|reflexivity].
    rewrite !app_assoc. reflexivity.
  - eexists. split; [rewrite !app_assoc; reflexivity|].
    f_equal. apply or_else_nonempty. apply NE. reflexivity.
Qed.

(** *** Where the work runs *)

(** A library call in the log ran on thread [th]. *)
Definition engine_on (th : thread) (e : event) : Prop :=
  match e with
  | Engine th' _ => th' = th
  | _ => True
  end.

(** An event that involves no worker. *)
Definition worker_free (e : event) : Prop :=
  match e with
  | WorkerCreated | WorkerPosted _ _ | WorkerReplied _ | WorkerErrored
  | WorkerTerminated => False
  | _ => True
  end.

(** [m], started on thread [th], stays there, creates no worker, and logs
    library calls of that thread only. *)
Definition runs_on {A} (th : thread) (m : M A) : Prop :=
  forall w, w_thread w = th ->
    w_thread (snd (m w)) = th
    /\ exists l, w_log (snd (m w)) = w_log w ++ l
                 /\ Forall (fun e => engine_on th e /\ worker_free e) l.

Lemma runs_on_ret {A} (th : thread) (a : A) : runs_on th (ret a).
Proof.
  intros w H. split; [exact H|]. exists []. split; [|constructor].
  symmetry. apply app_nil_r.
Qed.

Lemma runs_on_throw {A} (th : thread) (m : jsstring) :
  runs_on th (@throw A m).
Proof.
  intros w H. split; [exact H|]. exists []. split; [|constructor].
  symmetry. apply app_nil_r.
Qed.

Lemma runs_on_engine (th : thread) (c : libcall) : runs_on th (engine c).
Proof.
  intros w H. split; [exact H|]. eexists. split; [reflexivity|].
  constructor; [|constructor]. split; [exact H|exact I].
Qed.

Lemma runs_on_bind {A B} (th : thread) (m : M A) (k : A -> M B) :
  runs_on th m -> (forall a, runs_on th (k a)) -> runs_on th (bind m k).
Proof.
  intros Hm Hk w H. unfold bind. destruct (Hm w H) as (T & l & E & F).
  destruct (m w) as [[a|e] w']; cbn [snd] in *.
  - destruct (Hk a w' T) as (T' & l' & E' & F').
    split; [exact T'|]. exists (l ++ l'). split.
    + rewrite E', E. symmetry. apply app_assoc.
    + apply Forall_app. split; assumption.
  - split; [exact T|]. exists l. split; assumption.
Qed.

Lemma runs_on_try_catch {A} (th : thread) (m : M A)
  (handler : jsstring -> M A) :
  runs_on th m -> (forall e, runs_on th (handler e)) ->
  runs_on th (try_catch m handler).
Proof.
  intros Hm Hk w H. unfold try_catch. destruct (Hm w H) as (T & l & E & F).
  destruct (m w) as [[a|e] w']; cbn [snd] in *.
  - split; [exact T|]. exists l. split; assumption.
  - destruct (Hk e w' T) as (T' & l' & E' & F').
    split; [exact T'|]. exists (l ++ l'). split.
    + rewrite E', E. symmetry. apply app_assoc.
    + apply Forall_app. split; assumption.
Qed.

Lemma runs_on_JSON_parse_call (th : thread) (text : jsstring) :
  runs_on th (JSON_parse_call text).
Proof.
  apply runs_on_bind; [apply runs_on_engine|].
  intros _ w H. split; [exact H|]. exists []. split; [|constructor].
  symmetry. apply app_nil_r.
Qed.

Lemma runs_on_JSON_stringify_call (th : thread) (v : JSON.value) :
  runs_on th (JSON_stringify_call v).
Proof.
  apply runs_on_bind; [apply runs_on_engine|intro; apply runs_on_ret].
Qed.

Lemma runs_on_JSON_stringify_indent_call (th : thread) (v : JSON.value)
  (space : N) :
  runs_on th (JSON_stringify_indent_call v space).
Proof.
  apply runs_on_bind; [apply runs_on_engine|intro; apply runs_on_ret].
Qed.

Lemma runs_on_compressToBase64_call (th : thread) (text : jsstring) :
  runs_on th (compressToBase64_call text).
Proof.
  apply runs_on_bind; [apply runs_on_engine|intro; apply runs_on_ret].
Qed.

Lemma runs_on_decompressFromBase64_call (th : thread) (text : jsstring) :
  runs_on th (decompressFromBase64_call text).
Proof.
  apply runs_on_bind; [apply runs_on_engine|].
  intros _ w H. destruct (decompressFromBase64 (w_cache w) text).
  cbn [snd w_thread w_log]. split; [exact H|].
  exists []. split; [|constructor]. symmetry. apply app_nil_r.
Qed.

Lemma runs_on_compressJsonSync (th : thread) (v : JSON.value) :
  runs_on th (compressJsonSync v).
Proof.
  apply runs_on_bind; [apply runs_on_JSON_stringify_call|].
  intro. apply runs_on_compressToBase64_call.
Qed.

Lemma runs_on_decompressJsonSync (th : thread) (text : jsstring) :
  runs_on th (decompressJsonSync text).
Proof.
  apply runs_on_bind; [apply runs_on_decompressFromBase64_call|].
  intros [t|]; [|apply runs_on_throw].
  apply runs_on_bind; [apply runs_on_JSON_parse_call|].
  intro. apply runs_on_JSON_stringify_indent_call.
Qed.

Lemma runs_on_workerListener (th : thread) (action_ data_ : jsstring) :
  runs_on th (workerListener action_ data_).
Proof.
  unfold workerListener.
  apply runs_on_try_catch; [|intro; apply runs_on_ret].
  apply runs_on_bind; [|intro; apply runs_on_ret].
  destruct (jsstring_eqb action_ (lit "compress")).
  - apply runs_on_bind; [apply runs_on_JSON_parse_call|]. intro.
    apply runs_on_bind; [apply runs_on_JSON_stringify_call|]. intro.
    apply runs_on_compressToBase64_call.
  - destruct (jsstring_eqb action_ (lit "decompress"));
      [|apply runs_on_throw].
    apply runs_on_bind; [apply runs_on_decompressFromBase64_call|].
    intros [t|]; [|apply runs_on_throw].
    apply runs_on_bind; [apply runs_on_JSON_parse_call|].
    intro. apply runs_on_JSON_stringify_indent_call.
Qed.

(** Inline mode adds the dispatch record and the [setTimeout(0)] to the
    log, then the events of the transform; it does all its work on the
    calling thread and never creates, messages or terminates a worker. *)
Theorem inline_runs_on_caller (facility : workerFacility) (act : action)
  (data_ : jsstring) (w : world) :
  exists rest,
    w_log (snd (processDataAsync facility act data_ false w))
    = w_log w
      ++ Dispatched (action_name act) data_ false :: SetTimeout0 :: rest
    /\ Forall (fun e => engine_on (w_thread w) e /\ worker_free e)
         (Dispatched (action_name act) data_ false :: SetTimeout0 :: rest).
Proof.
  unfold processDataAsync. cbn [negb].
  set (w1 := snd (emit SetTimeout0
                    (snd (emit (Dispatched (action_name act) data_ false)
                            w)))).
  assert (B : runs_on (w_thread w)
                match act with
                | compress =>
                    bind (JSON_parse_call data_)
                      (fun jsonObject => compressJsonSync jsonObject)
                | decompress => decompressJsonSync data_
                end).
  { destruct act; [|apply runs_on_decompressJsonSync].
    apply runs_on_bind; [apply runs_on_JSON_parse_call|].
    intro. apply runs_on_compressJsonSync. }
  destruct (B w1 eq_refl) as (_ & l & E & F).
  exists l. split.
  - match type of E with
    | w_log (snd ?run) = _ => destruct run as [[r|m] w2]
    end; cbn [snd] in *; rewrite E; subst w1; cbn [emit snd w_log];
      rewrite <- !app_assoc; reflexivity.
  - constructor; [split; exact I|].
    constructor; [split; exact I|exact F].
Qed.

(** Delegated mode runs no library call on the calling thread: every call
    it logs ran in the worker. *)
Theorem delegated_runs_in_worker (facility : workerFacility) (act : action)
  (data_ : jsstring) (w : world) :
  exists l,
    w_log (snd (processDataAsync facility act data_ true w)) = w_log w ++ l
    /\ Forall (engine_on WorkerThread) l.
Proof.
  unfold processDataAsync. cbn [negb].
  destruct facility.
  - eexists. split; [reflexivity|]. repeat constructor.
  - destruct (runs_on_workerListener WorkerThread (action_name act) data_
                (mkWorld WorkerThread [] []) eq_refl) as (_ & l & E & F).
    cbn [w_log app] in E.
    assert (F' : Forall (engine_on WorkerThread) l).
    { eapply Forall_impl; [|exact F]. intros e [H _]. exact H. }
    destruct (workerListener (action_name act) data_
                (mkWorld WorkerThread [] [])) as [[[r|e]|m] ww];
      cbn [snd w_log emit] in *; rewrite E;
      eexists; (split; [rewrite <- !app_assoc; reflexivity|]);
      cbn [app]; repeat (constructor; [exact I|]);
      (apply Forall_app; split; [exact F'|repeat constructor]).
  - eexists. split; [cbn [emit snd w_log]; rewrite <- !app_assoc;
                     reflexivity|].
    repeat constructor.
Qed.

(** *** Layout and size of what compress returns *)

(** The encoding does not depend on the layout of the document: the
    pretty-printed text of a value compresses to the same string as its
    compact text. *)
Theorem compress_ignores_layout (facility : workerFacility) (v : JSON.value)
  (space : N) (useWorker : bool) (w : world) :
  JSON.well_formed v -> mode_runs facility useWorker ->
  fst (processDataAsync facility compress (JSON.stringify_indent v space)
         useWorker w)
  = Resolved (compressToBase64 (JSON.stringify v)).
Proof.
  intros W R.
  pose proof (parse_stringify_indent v space W) as P.
  assert (I1 : inline_compress (JSON.stringify_indent v space)
               = Resolved (compressToBase64 (JSON.stringify v)))
    by (unfold inline_compress; rewrite P; reflexivity).
  assert (I2 : delegated_compress (JSON.stringify_indent v space)
               = Resolved (compressToBase64 (JSON.stringify v)))
    by (unfold delegated_compress; rewrite P; reflexivity).
  destruct R as [->| ->].
  - rewrite (proj1 (process_inline_compress facility _ w)). exact I1.
  - destruct useWorker.
    + rewrite (proj1 (process_delegated_compress _ w)). exact I2.
    + rewrite (proj1 (process_inline_compress WorkerRuns _ w)). exact I1.
Qed.

Lemma compressToBase64_padded (s : jsstring) :
  N.of_nat (List.length (compressToBase64 s)) mod 4 = 0.
Proof.
  unfold compressToBase64.
  set (res := _compress 6 (fun a => charAt keyStrBase64 a) s).
  pose proof (N.mod_upper_bound (N.of_nat (List.length res)) 4) as B.
  destruct (N.of_nat (List.length res) mod 4) as [|[[p|p|]|[p|p|]|]] eqn:E;
    try lia; try exact E;
    rewrite length_app, Nat2N.inj_add;
    rewrite N.Div0.add_mod, E; reflexivity.
Qed.

Lemma compress_result (facility : workerFacility) (data_ : jsstring)
  (useWorker : bool) (w : world) (r : jsstring) :
  fst (processDataAsync facility compress data_ useWorker w) = Resolved r ->
  exists v, JSON.parse data_ = Normal v
            /\ r = compressToBase64 (JSON.stringify v).
Proof.
  destruct useWorker.
  - destruct facility; try discriminate.
    rewrite (proj1 (process_delegated_compress data_ w)).
    unfold delegated_compress.
    destruct (JSON.parse data_) as [v|m]; [|discriminate].
    intro E. injection E as <-. exists v. split; reflexivity.
  - rewrite (proj1 (process_inline_compress facility data_ w)).
    unfold inline_compress.
    destruct (JSON.parse data_) as [v|m]; [|discriminate].
    intro E. injection E as <-. exists v. split; reflexivity.
Qed.

(** What compress returns is padded: its length is a multiple of four. *)
Theorem compress_result_padded (facility : workerFacility)
  (data_ : jsstring) (useWorker : bool) (w : world) (r : jsstring) :
  fst (processDataAsync facility compress data_ useWorker w) = Resolved r ->
  N.of_nat (List.length r) mod 4 = 0.
Proof.
  intro H. destruct (compress_result _ _ _ _ _ H) as (v & _ & ->).
  apply compressToBase64_padded.
Qed.

(** *** calculateByteSize *)

Lemma utf8_length_bounds (n : nat) :
  forall s, (List.length s <= n)%nat ->
    N.of_nat (List.length s) <= utf8_length s
    /\ utf8_length s <= 3 * N.of_nat (List.length s).
Proof.
  induction n as [|n IH]; intros s L.
  - destruct s; [cbn; lia|cbn in L; lia].
  - destruct s as [|c r]; [cbn; lia|].
    cbn [List.length] in L.
    assert (Lr : (List.length r <= n)%nat) by lia.
    destruct (IH r Lr) as [A B].
    cbn [utf8_length].
    destruct (c <? 128); [cbn [List.length]; lia|].
    destruct (c <? 2048); [cbn [List.length]; lia|].
    destruct (JSON.is_high_surrogate c); [|cbn [List.length]; lia].
    destruct r as [|c2 r']; [cbn [List.length]; lia|].
    destruct (JSON.is_low_surrogate c2); [|cbn [List.length] in *; lia].
    cbn [List.length] in *.
    assert (Lr' : (List.length r' <= n)%nat) by lia.
    destruct (IH r' Lr') as [A' B']. lia.
Qed.

(** The byte size is at least the number of code units and at most three
    times that number; the empty string has size 0. *)
Theorem calculateByteSize_bounds (str : jsstring) :
  N.of_nat (List.length str) <= calculateByteSize str
  /\ calculateByteSize str <= 3 * N.of_nat (List.length str).
Proof.
  assert (E : calculateByteSize str = utf8_length str)
    by (destruct str; reflexivity).
  rewrite E. apply (utf8_length_bounds (List.length str)). lia.
Qed.

Lemma utf8_length_ascii (s : jsstring) :
  Forall (fun c => c < 128) s -> utf8_length s = N.of_nat (List.length s).
Proof.
  induction 1 as [|c r Hc Hr IH]; [reflexivity|].
  cbn [utf8_length List.length].
  apply N.ltb_lt in Hc. rewrite Hc, IH. lia.
Qed.

Lemma base64_char_ascii (c : N) : is_base64_char c = true -> c < 128.
Proof.
  unfold is_base64_char. intro H. apply existsb_exists in H.
  destruct H as (x & Hx & E). apply N.eqb_eq in E. subst x.
  revert c Hx. apply Forall_forall.
  repeat (constructor; [reflexivity|]). constructor.
Qed.

(** Every character of a compress result takes one byte: the size the
    component shows for it is its length. *)
Theorem compress_result_size (facility : workerFacility) (data_ : jsstring)
  (useWorker : bool) (w : world) (r : jsstring) :
  fst (processDataAsync facility compress data_ useWorker w) = Resolved r ->
  calculateByteSize r = N.of_nat (List.length r).
Proof.
  intro H. destruct (compress_result _ _ _ _ _ H) as (v & _ & ->).
  assert (E : forall s, calculateByteSize s = utf8_length s)
    by (intros []; reflexivity).
  rewrite E. apply utf8_length_ascii.
  eapply Forall_impl; [|apply compressToBase64_alphabet].
  intros c Hc. apply base64_char_ascii. exact Hc.
Qed.

(** *** Round trips *)

Lemma decode_encoded (text : jsstring) :
  code_units text -> decode (compressToBase64 text) = Normal (Some text).
Proof. apply LZRoundTrip.decode_encode. Qed.

Lemma decompress_encoded (v : JSON.value) (useWorker : bool) :
  JSON.well_formed v -> code_units (JSON.stringify v) ->
  outcome decompress useWorker (compressToBase64 (JSON.stringify v))
  = Resolved (JSON.stringify_indent v 2).
Proof.
  intros W U. unfold outcome, inline_decompress, delegated_decompress.
  rewrite (decode_encoded _ U), (parse_stringify v W).
  destruct useWorker; reflexivity.
Qed.

(** What a text that parses gives the two transforms to work on. *)
Lemma parsed_document (s : jsstring) (v : JSON.value) :
  JSON.parse s = Normal v -> finite v -> code_units s ->
  JSON.well_formed v /\ code_units (JSON.stringify v).
Proof.
  intros P F U. split.
  - apply (parse_well_formed s v P F).
  - apply (code_units_stringify s v P U).
Qed.

(** Compress, then decompress what it returned, in any two modes that run:
    for every text that parses, with finite numbers, the second call
    resolves with the pretty-printed text of the value the input denotes.
    Nothing is assumed of the lz-string step. *)
Theorem transform_round_trip (facility : workerFacility) (s : jsstring)
  (v : JSON.value) (mode1 mode2 : bool) (w : world) :
  code_units s -> JSON.parse s = Normal v -> finite v ->
  world_ok w -> mode_runs facility mode1 -> mode_runs facility mode2 ->
  fst (processDataAsync facility compress s mode1 w)
  = Resolved (compressToBase64 (JSON.stringify v))
  /\ fst (processDataAsync facility decompress
            (compressToBase64 (JSON.stringify v)) mode2
            (snd (processDataAsync facility compress s mode1 w)))
     = Resolved (JSON.stringify_indent v 2)
  /\ JSON.parse (JSON.stringify_indent v 2) = Normal v.
Proof.
  intros Us P F H R1 R2.
  destruct (parsed_document s v P F Us) as [W U].
  destruct (process_outcome facility compress s mode1 w w H H) as [_ H1].
  rewrite (process_runs facility compress s mode1 w H R1).
  rewrite (process_runs facility decompress _ mode2 _ H1 R2).
  split; [|split; [apply decompress_encoded; assumption
                  |apply parse_stringify_indent; exact W]].
  unfold outcome, inline_compress, delegated_compress. rewrite P.
  destruct mode1; reflexivity.
Qed.

(** C1, as amended. Round trip: for every text that parses to a value whose
    numbers are all finite, an object or an array in particular, compressing
    the text and decompressing the result, in any two modes that run, gives
    a text that parses to that same value. The layout of that text is the
    pretty printer's, not the input's. Nothing is assumed of lz-string. *)
Theorem round_trip (facility : workerFacility) (v : JSON.value)
  (s : jsstring) (mode1 mode2 : bool) (w : world) :
  code_units s -> JSON.parse s = Normal v -> finite v ->
  world_ok w -> mode_runs facility mode1 -> mode_runs facility mode2 ->
  exists encoded text,
    fst (processDataAsync facility compress s mode1 w) = Resolved encoded
    /\ fst (processDataAsync facility decompress encoded mode2
              (snd (processDataAsync facility compress s mode1 w)))
       = Resolved text
    /\ JSON.parse text = Normal v.
Proof.
  intros Us P F H R1 R2.
  destruct (parsed_document s v P F Us) as [W U].
  destruct (process_outcome facility compress s mode1 w w H H) as [_ H1].
  exists (compressToBase64 (JSON.stringify v)), (JSON.stringify_indent v 2).
  rewrite (process_runs facility compress s mode1 w H R1).
  rewrite (process_runs facility decompress _ mode2 _ H1 R2).
  split; [|split; [apply decompress_encoded; assumption
                  |apply parse_stringify_indent; exact W]].
  unfold outcome, inline_compress, delegated_compress. rewrite P.
  destruct mode1; reflexivity.
Qed.

(** The two private methods are inverse up to layout. *)
Theorem sync_round_trip (v : JSON.value) (w : world) :
  JSON.well_formed v -> units_ok v -> world_ok w ->
  exists encoded,
    fst (compressJsonSync v w) = Normal encoded
    /\ fst (decompressJsonSync encoded (snd (compressJsonSync v w)))
       = Normal (JSON.stringify_indent v 2).
Proof.
  intros W Uv H.
  assert (U : code_units (JSON.stringify v))
    by (apply code_units_serialize; [exact Uv|constructor|constructor]).
  exists (compressToBase64 (JSON.stringify v)).
  split; [reflexivity|].
  unfold compressJsonSync, decompressJsonSync, JSON_stringify_call,
    compressToBase64_call, decompressFromBase64_call, JSON_parse_call,
    JSON_stringify_indent_call, bind, ret, engine.
  cbn [fst snd w_cache w_thread w_log].
  pose proof (decode_encoded _ U) as D.
  destruct (decompressFromBase64_cache (w_cache w)
              (compressToBase64 (JSON.stringify v)) H) as [E _].
  unfold decode in D. rewrite <- E in D.
  destruct (decompressFromBase64 (w_cache w)
              (compressToBase64 (JSON.stringify v))) as [r cache'].
  cbn [fst] in D. subst r. cbn [fst snd].
  rewrite (parse_stringify v W). reflexivity.
Qed.

(** *** What compress returns is recognized *)

Lemma base64_not_white_space :
  Forall (fun c => is_white_space c = false) keyStrBase64.
Proof. repeat (constructor; [reflexivity|]). constructor. Qed.

Lemma alphabet_not_white_space (c : N) :
  is_base64_char c = true -> is_white_space c = false.
Proof.
  unfold is_base64_char. intro H. apply existsb_exists in H.
  destruct H as (x & Hx & E). apply N.eqb_eq in E. subst x.
  revert c Hx. apply Forall_forall. exact base64_not_white_space.
Qed.

Lemma trimStart_solid (s : jsstring) :
  Forall (fun c => is_white_space c = false) s -> trimStart s = s.
Proof. intros [|c r Hc Hr]; [reflexivity|]. cbn. rewrite Hc. reflexivity. Qed.

Lemma trim_solid (s : jsstring) :
  Forall (fun c => is_white_space c = false) s -> trim s = s.
Proof.
  intro H. unfold trim. rewrite (trimStart_solid s H).
  rewrite trimStart_solid; [apply rev_involutive|].
  apply Forall_rev. exact H.
Qed.

(** A text that parses as an object or an array starts, after white space,
    with a bracket or a brace. *)
Lemma parse_composite_head (text : jsstring) (v : JSON.value) :
  JSON.parse text = Normal v -> JSON.is_composite v = true ->
  exists c r, JSON.skip_ws text = c :: r /\ (c = 91 \/ c = 123).
Proof.
  unfold JSON.parse.
  destruct (JSON.parse_value (S (List.length text)) text) as [[v' r']|] eqn:E.
  2:{ destruct (JSON.skip_ws text); discriminate. }
  destruct (JSON.skip_ws r'); [|discriminate].
  intro H. injection H as ->. intro C.
  cbn [JSON.parse_value] in E.
  destruct (JSON.skip_ws text) as [|c r]; [discriminate E|].
  exists c, r. split; [reflexivity|].
  destruct (c =? 110).
  { repeat match type of E with
           | match ?x with _ => _ end = Some _ =>
               destruct x; try discriminate E
           end.
    injection E as <- _. discriminate C. }
  destruct (c =? 116).
  { repeat match type of E with
           | match ?x with _ => _ end = Some _ =>
               destruct x; try discriminate E
           end.
    injection E as <- _. discriminate C. }
  destruct (c =? 102).
  { repeat match type of E with
           | match ?x with _ => _ end = Some _ =>
               destruct x; try discriminate E
           end.
    injection E as <- _. discriminate C. }
  destruct (c =? 34).
  { destruct (JSON.parse_chars r) as [[str r1]|]; [|discriminate E].
    injection E as <- _. discriminate C. }
  destruct (c =? 91) eqn:E1; [left; apply N.eqb_eq; exact E1|].
  destruct (c =? 123) eqn:E2; [right; apply N.eqb_eq; exact E2|].
  destruct (JSON.scan_number (c :: r)) as [[l r1]|]; [|discriminate E].
  injection E as <- _. discriminate C.
Qed.

Definition plain (c : N) : bool :=
  negb ((c =? 32) || (c =? 9) || (c =? 10) || (c =? 13) || (c =? 91)
        || (c =? 123)).

Lemma base64_plain : Forall (fun c => plain c = true) keyStrBase64.
Proof. repeat (constructor; [reflexivity|]). constructor. Qed.

Lemma alphabet_plain (c : N) : is_base64_char c = true -> plain c = true.
Proof.
  unfold is_base64_char. intro H. apply existsb_exists in H.
  destruct H as (x & Hx & E). apply N.eqb_eq in E. subst x.
  revert c Hx. apply Forall_forall. exact base64_plain.
Qed.

(** A text of the base64 alphabet does not parse as an object or array. *)
Lemma alphabet_not_composite (text : jsstring) :
  in_alphabet text -> parses_as_composite text = false.
Proof.
  intro A. rewrite parses_as_composite_test.
  destruct (JSON.parse text) as [v|m] eqn:P; [|reflexivity].
  destruct (JSON.is_composite v) eqn:C; [|reflexivity].
  destruct (parse_composite_head text v P C) as (c & r & S & Hc).
  destruct text as [|c0 t]; [discriminate S|].
  inversion A as [|? ? A0 _]; subst.
  apply alphabet_plain in A0. unfold plain in A0.
  apply negb_true_iff in A0.
  repeat (apply orb_false_elim in A0; destruct A0 as [A0 ?]).
  cbn [JSON.skip_ws] in S.
  replace ((c0 =? 32) || (c0 =? 9) || (c0 =? 10) || (c0 =? 13)) with false
    in S by (symmetry; repeat (apply orb_false_intro; [|assumption]);
             assumption).
  injection S as -> _.
  destruct Hc as [->| ->]; discriminate.
Qed.

Lemma stringify_nonempty (v : JSON.value) :
  JSON.well_formed v -> JSON.stringify v <> [].
Proof.
  intros W E. pose proof (parse_stringify v W) as P. rewrite E in P.
  destruct parse_empty as [m Pm]. congruence.
Qed.

Lemma encoded_nonempty (text : jsstring) :
  code_units text -> compressToBase64 text <> [].
Proof.
  intros U E. pose proof (decode_encoded text U) as D. rewrite E in D.
  discriminate D.
Qed.

Lemma encoded_trimmed (text : jsstring) :
  trim (compressToBase64 text) = compressToBase64 text.
Proof.
  apply trim_solid. eapply Forall_impl; [|apply compressToBase64_alphabet].
  intros c Hc. apply alphabet_not_white_space. exact Hc.
Qed.

Lemma classify_encoded (v : JSON.value) :
  JSON.well_formed v -> code_units (JSON.stringify v) ->
  classify (compressToBase64 (JSON.stringify v)) = compressed.
Proof.
  intros W U. unfold classify. rewrite encoded_trimmed.
  pose proof (encoded_nonempty _ U) as NE.
  pose proof (alphabet_not_composite _
                (compressToBase64_alphabet (JSON.stringify v))) as NC.
  destruct (compressToBase64 (JSON.stringify v)) as [|c t] eqn:E;
    [congruence|].
  rewrite NC. unfold decodes_to_json. rewrite <- E, (decode_encoded _ U).
  pose proof (stringify_nonempty v W) as SN.
  pose proof (parse_stringify v W) as P.
  destruct (JSON.stringify v) as [|x text]; [congruence|].
  rewrite P. reflexivity.
Qed.

(** What compress returns, the classifier tags 'compressed': the text is
    trimmed already, is no JSON object or array, and decodes to JSON. *)
Theorem compress_result_recognized (facility : workerFacility)
  (s : jsstring) (v : JSON.value) (useWorker : bool) (w w' : world) :
  code_units s -> JSON.parse s = Normal v -> finite v ->
  world_ok w -> world_ok w' -> mode_runs facility useWorker ->
  exists encoded,
    fst (processDataAsync facility compress s useWorker w) = Resolved encoded
    /\ fst (analyzeData encoded w') = Normal compressed.
Proof.
  intros Us P F H H' R.
  destruct (parsed_document s v P F Us) as [W U].
  exists (compressToBase64 (JSON.stringify v)). split.
  - rewrite (process_runs facility compress s useWorker w H R).
    unfold outcome, inline_compress, delegated_compress. rewrite P.
    destruct useWorker; reflexivity.
  - rewrite (proj1 (analyzeData_classify _ w' H')).
    rewrite (classify_encoded v W U). reflexivity.
Qed.

(** *** What decompress returns is recognized *)

Lemma decompress_result (facility : workerFacility) (data_ t : jsstring)
  (useWorker : bool) (w : world) :
  world_ok w -> mode_runs facility useWorker ->
  fst (processDataAsync facility decompress data_ useWorker w) = Resolved t ->
  exists text v,
    decode data_ = Normal (Some text)
    /\ JSON.parse text = Normal v
    /\ t = JSON.stringify_indent v 2.
Proof.
  intros H R. rewrite (process_runs facility decompress data_ useWorker w H R).
  unfold outcome, inline_decompress, delegated_decompress.
  destruct (decode data_) as [[text|]|m];
    try (destruct useWorker; discriminate).
  destruct (JSON.parse text) as [v|m] eqn:P;
    try (destruct useWorker; discriminate).
  intro E. exists text, v. split; [reflexivity|]. split; [exact P|].
  destruct useWorker; injection E as <-; reflexivity.
Qed.

Lemma wrap_ends (open close : N) (gap indent : jsstring)
  (parts : list jsstring) :
  exists m, JSON.wrap open close gap indent parts = open :: m ++ [close].
Proof.
  unfold JSON.wrap. destruct parts as [|p ps]; [exists []; reflexivity|].
  destruct gap as [|g gap'].
  - eexists. cbn [app]. reflexivity.
  - cbv zeta. eexists. cbn [app]. f_equal.
    rewrite !app_comm_cons, !app_assoc. reflexivity.
Qed.

Lemma composite_ends (v : JSON.value) (gap indent : jsstring) :
  JSON.is_composite v = true ->
  exists a m z,
    JSON.serialize gap indent v = a :: m ++ [z]
    /\ is_white_space a = false /\ is_white_space z = false.
Proof.
  destruct v as [|b|n|s|l|o]; try discriminate; intros _.
  - rewrite serialize_array.
    destruct (wrap_ends 91 93 gap indent
                (map (JSON.serialize gap (indent ++ gap)) l)) as [m E].
    exists 91, m, 93. rewrite E. repeat split.
  - rewrite serialize_object.
    destruct (wrap_ends 123 125 gap indent
                (map (member_text gap (indent ++ gap)) o)) as [m E].
    exists 123, m, 125. rewrite E. repeat split.
Qed.

Lemma trim_ends (a z : N) (m : jsstring) :
  is_white_space a = false -> is_white_space z = false ->
  trim (a :: m ++ [z]) = a :: m ++ [z].
Proof.
  intros Ha Hz. unfold trim. cbn [trimStart]. rewrite Ha.
  replace (rev (a :: m ++ [z])) with (z :: rev m ++ [a]).
  - cbn [trimStart]. rewrite Hz. cbn [rev]. rewrite rev_app_distr.
    rewrite rev_involutive. reflexivity.
  - cbn [rev]. rewrite rev_app_distr. reflexivity.
Qed.

(** What decompress resolves with is the pretty-printed text of a value;
    when the numbers of that value are finite the text parses to it, and
    when it is an object or an array the classifier tags the text
    'json'. *)
Theorem decompress_result_recognized (facility : workerFacility)
  (data_ t : jsstring) (useWorker : bool) (w w' : world) :
  world_ok w -> world_ok w' -> mode_runs facility useWorker ->
  fst (processDataAsync facility decompress data_ useWorker w) = Resolved t ->
  exists v,
    t = JSON.stringify_indent v 2
    /\ (finite v -> JSON.parse t = Normal v)
    /\ (finite v -> JSON.is_composite v = true ->
        fst (analyzeData t w') = Normal json).
Proof.
  intros H H' R E.
  destruct (decompress_result facility data_ t useWorker w H R E)
    as (text & v & D & P & ->).
  exists v. split; [reflexivity|].
  assert (Q : finite v ->
              JSON.parse (JSON.stringify_indent v 2) = Normal v).
  { intro F. apply parse_stringify_indent.
    apply (parse_well_formed text v P F). }
  split; [exact Q|]. intros F C.
  rewrite (proj1 (analyzeData_classify _ w' H')). f_equal.
  unfold classify.
  destruct (composite_ends v (repeat 32 (N.to_nat (N.min 10 2))) [] C)
    as (a & m & z & S & Ha & Hz).
  unfold JSON.stringify_indent in *. rewrite S in *.
  rewrite (trim_ends a z m Ha Hz).
  rewrite parses_as_composite_test. rewrite (Q F), C. reflexivity.
Qed.

(** The re-serialization compress does loses nothing: the compact text (and
    any indented text) of a parsed value with finite numbers parses to that
    value again. *)
Theorem reserialization_lossless (s : jsstring) (v : JSON.value) (space : N) :
  JSON.parse s = Normal v -> finite v ->
  JSON.parse (JSON.stringify v) = Normal v
  /\ JSON.parse (JSON.stringify_indent v space) = Normal v.
Proof.
  intros P F. pose proof (parse_well_formed s v P F) as W.
  split; [apply parse_stringify|apply parse_stringify_indent]; exact W.
Qed.

(** *** White space that [trim] removes and JSON does not allow *)

Lemma other_white_space (c : N) :
  is_white_space c = true -> c <> 9 -> c <> 10 -> c <> 13 -> c <> 32 ->
  c = 11 \/ c = 12 \/ 160 <= c.
Proof.
  unfold is_white_space. intros H N9 N10 N13 N32.
  repeat (apply orb_prop in H; destruct H as [H|H]);
    try (apply N.eqb_eq in H; lia).
  apply andb_prop in H. destruct H as [H _]. apply N.leb_le in H. lia.
Qed.

Lemma parse_leading_other (c : N) (s : jsstring) :
  c = 11 \/ c = 12 \/ 160 <= c ->
  exists m, JSON.parse (c :: s) = Throw m.
Proof.
  intro H. unfold JSON.parse.
  assert (E : JSON.parse_value (S (List.length (c :: s))) (c :: s) = None).
  { cbn [JSON.parse_value JSON.skip_ws].
    replace ((c =? 32) || (c =? 9) || (c =? 10) || (c =? 13)) with false
      by (symmetry; repeat (apply orb_false_intro); apply N.eqb_neq; lia).
    replace (c =? 110) with false by (symmetry; apply N.eqb_neq; lia).
    replace (c =? 116) with false by (symmetry; apply N.eqb_neq; lia).
    replace (c =? 102) with false by (symmetry; apply N.eqb_neq; lia).
    replace (c =? 34) with false by (symmetry; apply N.eqb_neq; lia).
    replace (c =? 91) with false by (symmetry; apply N.eqb_neq; lia).
    replace (c =? 123) with false by (symmetry; apply N.eqb_neq; lia).
    unfold JSON.scan_number, JSON.scan_sign, JSON.scan_int.
    replace (c =? 45) with false by (symmetry; apply N.eqb_neq; lia).
    replace (c =? 48) with false by (symmetry; apply N.eqb_neq; lia).
    replace (JSON.is_digit c) with false; [reflexivity|].
    symmetry. unfold JSON.is_digit. apply andb_false_iff.
    destruct H as [->|[->|H]]; [left; reflexivity|left; reflexivity|].
    right. apply N.leb_gt. lia. }
  rewrite E. destruct (JSON.skip_ws (c :: s)); eexists; reflexivity.
Qed.

(** The component hands the raw input to the transform while the
    classifier trims it: a leading character that [trim] removes and JSON
    does not take for white space (a no-break space, a byte order mark,
    ...) leaves the tag as it is and makes compress fail. *)
Theorem leading_white_space_rejected (facility : workerFacility) (c : N)
  (s : jsstring) (useWorker : bool) (w w' : world) :
  is_white_space c = true -> c <> 9 -> c <> 10 -> c <> 13 -> c <> 32 ->
  world_ok w' -> mode_runs facility useWorker ->
  analyzeData (c :: s) w = analyzeData s w
  /\ ~ resolves (fst (processDataAsync facility compress (c :: s)
                        useWorker w')).
Proof.
  intros Hc N9 N10 N13 N32 H' R. split.
  - unfold analyzeData, trim. cbn [trimStart]. rewrite Hc. reflexivity.
  - rewrite (process_runs facility compress (c :: s) useWorker w' H' R).
    destruct (parse_leading_other c s
                (other_white_space c Hc N9 N10 N13 N32)) as [m P].
    unfold outcome, inline_compress, delegated_compress. rewrite P.
    destruct useWorker; apply resolves_Rejected.
Qed.

End WithNumber.

Import IntegerNumber IntegerNumberFacts.

Lemma classification_predicts_outcome_witness :
  world_ok initial_world
  /\ trim scenarioA_text = scenarioA_text
  /\ fst (analyzeData scenarioA_text initial_world) = Normal json
  /\ (resolves (fst (processDataAsync WorkerRuns (action_for json)
                       scenarioA_text false initial_world))
      <-> json <> unknown).
Proof.
  assert (W : world_ok initial_world) by (left; reflexivity).
  assert (T : trim scenarioA_text = scenarioA_text) by reflexivity.
  assert (A : fst (analyzeData scenarioA_text initial_world) = Normal json)
    by reflexivity.
  split; [exact W|]. split; [exact T|]. split; [exact A|].
  exact (classification_predicts_outcome WorkerRuns scenarioA_text false
           json initial_world initial_world W W (or_introl eq_refl) T A).
Defined.

Lemma rejection_reason_nonempty_witness :
  fst (processDataAsync WorkerRuns decompress (lit "Q===") false
         initial_world)
  = Rejected JSON.syntaxError_end
  /\ JSON.syntaxError_end <> [].
Proof.
  assert (P : fst (processDataAsync WorkerRuns decompress (lit "Q===") false
                     initial_world)
              = Rejected JSON.syntaxError_end) by reflexivity.
  split; [exact P|].
  exact (rejection_reason_nonempty WorkerRuns decompress (lit "Q===") false
           initial_world JSON.syntaxError_end P).
Defined.

Lemma workerListener_invalid_action_witness :
  lit "zip" <> lit "compress"
  /\ lit "zip" <> lit "decompress"
  /\ workerListener (lit "zip") scenarioA_text initial_world
     = (Normal (Failure (lit "Invalid action provided.")), initial_world).
Proof.
  assert (H1 : lit "zip" <> lit "compress") by discriminate.
  assert (H2 : lit "zip" <> lit "decompress") by discriminate.
  split; [exact H1|]. split; [exact H2|].
  exact (workerListener_invalid_action (lit "zip") scenarioA_text
           initial_world H1 H2).
Defined.

Lemma compress_ignores_layout_witness :
  JSON.well_formed scenarioA_value
  /\ fst (processDataAsync WorkerRuns compress
            (JSON.stringify_indent scenarioA_value 2) true initial_world)
     = Resolved (compressToBase64 (JSON.stringify scenarioA_value)).
Proof.
  assert (W : JSON.well_formed scenarioA_value)
    by (cbn; repeat split; reflexivity).
  split; [exact W|].
  exact (compress_ignores_layout WorkerRuns scenarioA_value 2 true
           initial_world W (or_intror eq_refl)).
Defined.

Lemma compress_result_padded_witness :
  fst (processDataAsync WorkerRuns compress scenarioA_text false
         initial_world) = Resolved scenarioA_encoded
  /\ N.of_nat (List.length scenarioA_encoded) mod 4 = 0.
Proof.
  assert (P : fst (processDataAsync WorkerRuns compress scenarioA_text false
                     initial_world) = Resolved scenarioA_encoded)
    by (vm_compute; reflexivity).
  split; [exact P|].
  exact (compress_result_padded WorkerRuns scenarioA_text false
           initial_world scenarioA_encoded P).
Defined.

Lemma compress_result_size_witness :
  fst (processDataAsync WorkerRuns compress scenarioA_text true
         initial_world) = Resolved scenarioA_encoded
  /\ calculateByteSize scenarioA_encoded
     = N.of_nat (List.length scenarioA_encoded).
Proof.
  assert (P : fst (processDataAsync WorkerRuns compress scenarioA_text true
                     initial_world) = Resolved scenarioA_encoded)
    by (vm_compute; reflexivity).
  split; [exact P|].
  exact (compress_result_size WorkerRuns scenarioA_text true
           initial_world scenarioA_encoded P).
Defined.

Lemma transform_round_trip_witness :
  code_units scenarioA_text
  /\ JSON.parse scenarioA_text = Normal scenarioA_value
  /\ finite scenarioA_value
  /\ world_ok initial_world
  /\ fst (processDataAsync WorkerRuns compress scenarioA_text false
            initial_world)
     = Resolved (compressToBase64 (JSON.stringify scenarioA_value))
  /\ fst (processDataAsync WorkerRuns decompress
            (compressToBase64 (JSON.stringify scenarioA_value)) true
            (snd (processDataAsync WorkerRuns compress scenarioA_text false
                    initial_world)))
     = Resolved (JSON.stringify_indent scenarioA_value 2)
  /\ JSON.parse (JSON.stringify_indent scenarioA_value 2)
     = Normal scenarioA_value.
Proof.
  assert (U : code_units scenarioA_text)
    by (apply code_units_check; reflexivity).
  assert (P : JSON.parse scenarioA_text = Normal scenarioA_value)
    by reflexivity.
  assert (F : finite scenarioA_value) by (cbn; repeat split; reflexivity).
  assert (H : world_ok initial_world) by (left; reflexivity).
  split; [exact U|]. split; [exact P|]. split; [exact F|].
  split; [exact H|].
  exact (transform_round_trip WorkerRuns scenarioA_text scenarioA_value
           false true initial_world U P F H (or_introl eq_refl)
           (or_intror eq_refl)).
Defined.

Lemma round_trip_witness :
  code_units scenarioA_text
  /\ JSON.parse scenarioA_text = Normal scenarioA_value
  /\ finite scenarioA_value
  /\ world_ok initial_world
  /\ exists encoded text,
       fst (processDataAsync WorkerRuns compress scenarioA_text false
              initial_world) = Resolved encoded
       /\ fst (processDataAsync WorkerRuns decompress encoded true
                 (snd (processDataAsync WorkerRuns compress scenarioA_text
                         false initial_world)))
          = Resolved text
       /\ JSON.parse text = Normal scenarioA_value.
Proof.
  assert (U : code_units scenarioA_text)
    by (apply code_units_check; reflexivity).
  assert (P : JSON.parse scenarioA_text = Normal scenarioA_value)
    by reflexivity.
  assert (F : finite scenarioA_value) by (cbn; repeat split; reflexivity).
  assert (H : world_ok initial_world) by (left; reflexivity).
  split; [exact U|]. split; [exact P|]. split; [exact F|].
  split; [exact H|].
  exact (round_trip WorkerRuns scenarioA_value scenarioA_text false true
           initial_world U P F H (or_introl eq_refl) (or_intror eq_refl)).
Defined.

(** A document with a number beyond the range of binary64, the value
    [JSON.parse] reads it as, and what compress returns for it. *)
Definition overflow_text : jsstring := lit "[1e400]".

Definition overflow_value : JSON.value (EN := RangeNumber.rangeNumber) :=
  JSON.JArray
    [JSON.JNumber (EN := RangeNumber.rangeNumber)
       (RangeNumber.Infinity false)].

Definition overflow_encoded : jsstring := lit "NoOwrgNhC6Q=".

Definition overflow_result : jsstring :=
  JSONLayout.lines_text
    [(0%nat, lit "["); (1%nat, lit "null"); (0%nat, lit "]")].

(** C1 as stated fails: [1e400] is read as an infinity, which
    [JSON.stringify] writes as [null]; the array goes through compress and
    decompress and comes back as an array holding [null], not the number. *)
Lemma round_trip_counterexample :
  code_units overflow_text
  /\ JSON.parse overflow_text = Normal overflow_value
  /\ object_or_array overflow_value = true
  /\ fst (processDataAsync (EN := RangeNumber.rangeNumber) WorkerRuns
            compress overflow_text false initial_world)
     = Resolved overflow_encoded
  /\ fst (processDataAsync (EN := RangeNumber.rangeNumber) WorkerRuns
            decompress overflow_encoded false
            (snd (processDataAsync (EN := RangeNumber.rangeNumber)
                    WorkerRuns compress overflow_text false initial_world)))
     = Resolved overflow_result
  /\ JSON.parse (EN := RangeNumber.rangeNumber) overflow_result
     = Normal (JSON.JArray [JSON.JNull])
  /\ JSON.parse overflow_result <> Normal overflow_value.
Proof.
  assert (P : JSON.parse (EN := RangeNumber.rangeNumber) overflow_result
              = Normal (JSON.JArray [JSON.JNull])) by reflexivity.
  split; [apply code_units_check; reflexivity|].
  split; [reflexivity|]. split; [reflexivity|].
  split; [vm_compute; reflexivity|]. split; [vm_compute; reflexivity|].
  split; [exact P|].
  rewrite P. discriminate.
Qed.

Lemma sync_round_trip_witness :
  JSON.well_formed scenarioA_value
  /\ units_ok scenarioA_value
  /\ world_ok initial_world
  /\ exists encoded,
       fst (compressJsonSync scenarioA_value initial_world) = Normal encoded
       /\ fst (decompressJsonSync encoded
                 (snd (compressJsonSync scenarioA_value initial_world)))
          = Normal (JSON.stringify_indent scenarioA_value 2).
Proof.
  assert (W : JSON.well_formed scenarioA_value)
    by (cbn; repeat split; reflexivity).
  assert (U : units_ok scenarioA_value)
    by (cbn; repeat split; apply code_units_check; reflexivity).
  assert (H : world_ok initial_world) by (left; reflexivity).
  split; [exact W|]. split; [exact U|]. split; [exact H|].
  exact (sync_round_trip scenarioA_value initial_world W U H).
Defined.

Lemma compress_result_recognized_witness :
  code_units scenarioA_text
  /\ JSON.parse scenarioA_text = Normal scenarioA_value
  /\ finite scenarioA_value
  /\ world_ok initial_world
  /\ exists encoded,
       fst (processDataAsync WorkerRuns compress scenarioA_text true
              initial_world) = Resolved encoded
       /\ fst (analyzeData encoded initial_world) = Normal compressed.
Proof.
  assert (U : code_units scenarioA_text)
    by (apply code_units_check; reflexivity).
  assert (P : JSON.parse scenarioA_text = Normal scenarioA_value)
    by reflexivity.
  assert (F : finite scenarioA_value) by (cbn; repeat split; reflexivity).
  assert (H : world_ok initial_world) by (left; reflexivity).
  split; [exact U|]. split; [exact P|]. split; [exact F|].
  split; [exact H|].
  exact (compress_result_recognized WorkerRuns scenarioA_text
           scenarioA_value true initial_world initial_world U P F H H
           (or_intror eq_refl)).
Defined.

Lemma decompress_result_recognized_witness :
  world_ok initial_world
  /\ fst (processDataAsync WorkerRuns decompress scenarioA_encoded false
            initial_world)
     = Resolved (JSON.stringify_indent scenarioA_value 2)
  /\ exists v,
       JSON.stringify_indent scenarioA_value 2 = JSON.stringify_indent v 2
       /\ (finite v ->
           JSON.parse (JSON.stringify_indent scenarioA_value 2) = Normal v)
       /\ (finite v -> JSON.is_composite v = true ->
           fst (analyzeData (JSON.stringify_indent scenarioA_value 2)
                  initial_world) = Normal json).
Proof.
  assert (H : world_ok initial_world) by (left; reflexivity).
  assert (E : fst (processDataAsync WorkerRuns decompress scenarioA_encoded
                     false initial_world)
              = Resolved (JSON.stringify_indent scenarioA_value 2))
    by (vm_compute; reflexivity).
  split; [exact H|]. split; [exact E|].
  exact (decompress_result_recognized WorkerRuns scenarioA_encoded
           (JSON.stringify_indent scenarioA_value 2) false initial_world
           initial_world H H (or_introl eq_refl) E).
Defined.

Lemma reserialization_lossless_witness :
  JSON.parse scenarioA_text = Normal scenarioA_value
  /\ finite scenarioA_value
  /\ JSON.parse (JSON.stringify scenarioA_value) = Normal scenarioA_value
  /\ JSON.parse (JSON.stringify_indent scenarioA_value 2)
     = Normal scenarioA_value.
Proof.
  assert (P : JSON.parse scenarioA_text = Normal scenarioA_value)
    by reflexivity.
  assert (F : finite scenarioA_value) by (cbn; repeat split; reflexivity).
  split; [exact P|]. split; [exact F|].
  exact (reserialization_lossless scenarioA_text scenarioA_value 2 P F).
Defined.

(** A no-break space before the document of scenario A. *)
Lemma leading_white_space_rejected_witness :
  is_white_space 160 = true
  /\ world_ok initial_world
  /\ analyzeData (160 :: scenarioA_text) initial_world
     = analyzeData scenarioA_text initial_world
  /\ ~ resolves (fst (processDataAsync WorkerRuns compress
                        (160 :: scenarioA_text) false initial_world)).
Proof.
  assert (Hc : is_white_space 160 = true) by reflexivity.
  assert (H : world_ok initial_world) by (left; reflexivity).
  split; [exact Hc|]. split; [exact H|].
  apply (leading_white_space_rejected WorkerRuns 160 scenarioA_text false
           initial_world initial_world Hc); try discriminate;
    [exact H|left; reflexivity].
Defined.

End ServiceProperties.

(** * Further properties of the component *)
Module ComponentProperties.
Import LZString LZStringFacts CompressionService AppComponent ServiceFacts.
Import JSONCodeUnits JSONObjects Claims ServiceProperties.

(** *** [trim] *)

Lemma trimStart_head (s : jsstring) :
  match trimStart s with
  | [] => True
  | c :: _ => is_white_space c = false
  end.
Proof.
  induction s as [|c r IH]; [exact I|].
  cbn [trimStart]. destruct (is_white_space c) eqn:E; [exact IH|exact E].
Qed.

Lemma trimStart_fixed (s : jsstring) :
  match s with
  | [] => True
  | c :: _ => is_white_space c = false
  end -> trimStart s = s.
Proof. destruct s as [|c r]; [reflexivity|]. cbn. intros ->. reflexivity. Qed.

Lemma trimStart_suffix (s : jsstring) :
  exists ws, s = ws ++ trimStart s.
Proof.
  induction s as [|c r [ws IH]]; [exists []; reflexivity|].
  cbn [trimStart]. destruct (is_white_space c).
  - exists (c :: ws). cbn. f_equal. exact IH.
  - exists []. reflexivity.
Qed.

(** Trimming a trimmed string changes nothing. *)
Lemma trim_idempotent (s : jsstring) : trim (trim s) = trim s.
Proof.
  unfold trim.
  set (a := trimStart s).
  set (b := trimStart (rev a)).
  assert (E : trimStart (rev b) = rev b).
  { apply trimStart_fixed.
    destruct (trimStart_suffix (rev a)) as [ws Hws]. fold b in Hws.
    assert (Ha : a = rev b ++ rev ws).
    { rewrite <- rev_app_distr, <- Hws. symmetry. apply rev_involutive. }
    pose proof (trimStart_head s) as Hh. fold a in Hh.
    destruct (rev b) as [|c t]; [exact I|].
    rewrite Ha in Hh. exact Hh. }
  rewrite E, rev_involutive.
  f_equal. apply trimStart_fixed. apply trimStart_head.
Qed.

Section WithNumber.

Context {EN : JSON.ECMANumber}.

Lemma analyzeData_trim (input : jsstring) (w : world) :
  analyzeData (trim input) w = analyzeData input w.
Proof. unfold analyzeData. rewrite trim_idempotent. reflexivity. Qed.

(** The component trims the input before it calls the classifier, which
    trims again: the tag it stores is the classifier's tag of the raw
    input, and the size it stores is that of the trimmed input. *)
Theorem analyzeInput_tag (c : component) (w : world) (tag : classification) :
  fst (analyzeData (dataInput c) w) = Normal tag ->
  exists c',
    fst (analyzeInput c w) = Normal c'
    /\ snd (analyzeInput c w) = snd (analyzeData (dataInput c) w)
    /\ dataType c' = tag
    /\ originalSize c' = calculateByteSize (trim (dataInput c))
    /\ dataInput c' = dataInput c
    /\ resultData c' = resultData c.
Proof.
  intro A. unfold analyzeInput, bind.
  rewrite analyzeData_trim.
  destruct (analyzeData (dataInput c) w) as [[t|m] w']; cbn [fst] in A;
    [|discriminate].
  injection A as ->. eexists. cbn [ret fst snd].
  split; [reflexivity|]. repeat split.
Qed.

(** When the promise is rejected, the component ends with its output
    cleared, not loading, and no error message: the message assigned in the
    [catch] block is erased by [resetOutput], which calls [resetError]. *)
Theorem handleAction_rejected (facility : workerFacility)
  (duration : jsstring) (c : component) (w w' : world) (e : jsstring) :
  trim (dataInput c) <> [] ->
  processDataAsync facility (action_for (dataType c)) (dataInput c)
    (useWebWorker c) w = (Rejected e, w') ->
  handleAction facility duration c w
  = (mkComponent (dataInput c) (dataType c) false (useWebWorker c) [] []
       (statusMessage c) None (originalSize c) 0 (isDragging c), w').
Proof.
  intros B P. unfold handleAction.
  destruct (trim (dataInput c)) as [|x t]; [congruence|].
  cbn [List.length Nat.eqb].
  cbn [resetError dataInput dataType useWebWorker].
  change (match dataType c with json => compress | _ => decompress end)
    with (action_for (dataType c)).
  rewrite P. reflexivity.
Qed.

(** *** A session: paste, run, paste the result, run *)

Lemma onDataChange_run (s : jsstring) (c : component) (w : world) :
  world_ok w ->
  exists c1 w1,
    onDataChange (set_dataInput s c) w = (Normal c1, w1)
    /\ world_ok w1
    /\ dataInput c1 = s
    /\ dataType c1 = classify s
    /\ useWebWorker c1 = useWebWorker c
    /\ originalSize c1 = calculateByteSize (trim s).
Proof.
  intro H. unfold onDataChange, analyzeInput, bind.
  cbn [resetOutput resetError set_dataInput dataInput].
  rewrite analyzeData_trim.
  destruct (analyzeData_classify s w H) as [A1 A2].
  destruct (analyzeData s w) as [r w1]. cbn [fst snd] in A1, A2. subst r.
  eexists. exists w1. cbn [ret].
  split; [reflexivity|]. repeat split. exact A2.
Qed.

Lemma handleAction_resolved (facility : workerFacility)
  (duration : jsstring) (c : component) (w w' : world) (r : jsstring) :
  trim (dataInput c) <> [] ->
  processDataAsync facility (action_for (dataType c)) (dataInput c)
    (useWebWorker c) w = (Resolved r, w') ->
  exists c',
    handleAction facility duration c w = (c', w')
    /\ resultData c' = r
    /\ resultSize c' = calculateByteSize r
    /\ errorMessage c' = None
    /\ isLoading c' = false
    /\ dataType c' = dataType c
    /\ useWebWorker c' = useWebWorker c
    /\ originalSize c' = originalSize c.
Proof.
  intros B P. unfold handleAction.
  destruct (trim (dataInput c)) as [|x t]; [congruence|].
  cbn [List.length Nat.eqb].
  cbn [resetError dataInput dataType useWebWorker].
  change (match dataType c with json => compress | _ => decompress end)
    with (action_for (dataType c)).
  rewrite P. eexists. split; [reflexivity|]. repeat split.
Qed.

(** The user pastes [text] and presses the button. *)
Definition paste_then_act (facility : workerFacility) (duration : jsstring)
  (text : jsstring) (c : component) (w : world)
  : completion component * world :=
  match onDataChange (set_dataInput text c) w with
  | (Normal c1, w1) =>
      let (c2, w2) := handleAction facility duration c1 w1 in (Normal c2, w2)
  | (Throw m, w1) => (Throw m, w1)
  end.

Lemma paste_then_act_run (facility : workerFacility) (duration : jsstring)
  (text : jsstring) (c : component) (w : world) (r : jsstring) :
  world_ok w -> mode_runs facility (useWebWorker c) ->
  trim text = text -> text <> [] ->
  outcome (action_for (classify text)) (useWebWorker c) text = Resolved r ->
  exists c2 w2,
    paste_then_act facility duration text c w = (Normal c2, w2)
    /\ world_ok w2
    /\ dataType c2 = classify text
    /\ resultData c2 = r
    /\ errorMessage c2 = None
    /\ useWebWorker c2 = useWebWorker c
    /\ originalSize c2 = calculateByteSize text
    /\ resultSize c2 = calculateByteSize r.
Proof.
  intros H R T NE O. unfold paste_then_act.
  destruct (onDataChange_run text c w H)
    as (c1 & w1 & E & H1 & D1 & T1 & U1 & O1).
  rewrite T in O1.
  rewrite E.
  assert (P : processDataAsync facility (action_for (dataType c1))
                (dataInput c1) (useWebWorker c1) w1
              = (Resolved r,
                 snd (processDataAsync facility (action_for (dataType c1))
                        (dataInput c1) (useWebWorker c1) w1))).
  { rewrite (surjective_pairing (processDataAsync _ _ _ _ _)) at 1.
    f_equal. rewrite D1, T1, U1.
    rewrite (process_runs facility _ text _ w1 H1 R). exact O. }
  assert (B : trim (dataInput c1) <> []) by (rewrite D1, T; exact NE).
  destruct (handleAction_resolved facility duration c1 w1 _ r B P)
    as (c2 & E2 & F1 & F2 & F3 & F4 & F5 & F6 & F7).
  rewrite E2. eexists. eexists. split; [reflexivity|].
  repeat split; try assumption; try congruence.
  apply (proj2 (process_outcome facility _ _ _ w1 w1 H1 H1)).
Qed.

(** The two steps of a session, with everything the component holds
    after each. *)
Lemma session_run (facility : workerFacility) (d1 d2 : jsstring)
  (s : jsstring) (v : JSON.value) (c : component) (w : world) :
  code_units s -> JSON.parse s = Normal v -> finite v ->
  JSON.is_composite v = true -> trim s = s ->
  world_ok w -> mode_runs facility (useWebWorker c) ->
  exists c2 w2 c4 w4,
    paste_then_act facility d1 s c w = (Normal c2, w2)
    /\ dataType c2 = json
    /\ resultData c2 = compressToBase64 (JSON.stringify v)
    /\ originalSize c2 = calculateByteSize s
    /\ resultSize c2 = calculateByteSize (compressToBase64 (JSON.stringify v))
    /\ paste_then_act facility d2 (resultData c2) c2 w2 = (Normal c4, w4)
    /\ dataType c4 = compressed
    /\ resultData c4 = JSON.stringify_indent v 2
    /\ errorMessage c4 = None.
Proof.
  intros Us P F C T H R.
  destruct (parsed_document s v P F Us) as [W U].
  assert (NE : s <> []).
  { intros ->. destruct parse_empty as [m Pm]. congruence. }
  assert (CJ : classify s = json).
  { unfold classify. rewrite T. destruct s as [|x t]; [congruence|].
    rewrite parses_as_composite_test. rewrite P, C. reflexivity. }
  destruct (paste_then_act_run facility d1 s c w
              (compressToBase64 (JSON.stringify v)) H R T NE)
    as (c2 & w2 & E2 & H2 & T2 & R2 & _ & U2 & O2 & S2).
  { rewrite CJ. cbn [action_for].
    unfold outcome, inline_compress, delegated_compress. rewrite P.
    destruct (useWebWorker c); reflexivity. }
  pose proof (classify_encoded v W U) as CE.
  destruct (paste_then_act_run facility d2
              (compressToBase64 (JSON.stringify v)) c2 w2
              (JSON.stringify_indent v 2) H2)
    as (c4 & w4 & E4 & H4 & T4 & R4 & M4 & U4 & _ & _).
  { rewrite U2. exact R. }
  { apply encoded_trimmed. }
  { apply encoded_nonempty. exact U. }
  { rewrite CE. cbn [action_for]. apply decompress_encoded; assumption. }
  exists c2, w2, c4, w4. rewrite R2.
  repeat split; try assumption; congruence.
Qed.

(** The use the application is made for: paste a JSON document and run
    (it is compressed); paste what came out and run again (it is
    recognized and decompressed): the component shows the pretty-printed
    text of the same value. *)
Theorem paste_compress_paste_decompress (facility : workerFacility)
  (d1 d2 : jsstring) (s : jsstring) (v : JSON.value) (c : component)
  (w : world) :
  code_units s -> JSON.parse s = Normal v -> finite v ->
  JSON.is_composite v = true -> trim s = s ->
  world_ok w -> mode_runs facility (useWebWorker c) ->
  exists c2 w2 c4 w4,
    paste_then_act facility d1 s c w = (Normal c2, w2)
    /\ dataType c2 = json
    /\ resultData c2 = compressToBase64 (JSON.stringify v)
    /\ paste_then_act facility d2 (resultData c2) c2 w2 = (Normal c4, w4)
    /\ dataType c4 = compressed
    /\ resultData c4 = JSON.stringify_indent v 2
    /\ errorMessage c4 = None.
Proof.
  intros Us P F C T H R.
  destruct (session_run facility d1 d2 s v c w Us P F C T H R)
    as (c2 & w2 & c4 & w4 & A1 & A2 & A3 & _ & _ & A6 & A7 & A8 & A9).
  exists c2, w2, c4, w4. repeat split; assumption.
Qed.

(** *** compressionRatio *)

Lemma calculateByteSize_positive (s : jsstring) :
  s <> [] -> calculateByteSize s <> 0.
Proof.
  intro H. destruct s as [|x t]; [congruence|].
  destruct (utf8_length_bounds (List.length (x :: t)) (x :: t)
              (Nat.le_refl _)) as [B _].
  cbn [calculateByteSize]. cbn [List.length] in B. lia.
Qed.

(** The ratio is shown after the compress step of a session, computed
    from the byte size of the input and the length of the result, and is
    'N/A' after the decompress step. *)
Theorem compressionRatio_in_session (facility : workerFacility)
  (percent : N -> N -> jsstring) (d1 d2 : jsstring) (s : jsstring)
  (v : JSON.value) (c : component) (w : world) :
  code_units s -> JSON.parse s = Normal v -> finite v ->
  JSON.is_composite v = true -> trim s = s ->
  world_ok w -> mode_runs facility (useWebWorker c) ->
  exists c2 w2 c4 w4,
    paste_then_act facility d1 s c w = (Normal c2, w2)
    /\ compressionRatio percent c2
       = percent (N.of_nat (List.length (resultData c2)))
           (calculateByteSize s)
         ++ lit "% reduction"
    /\ paste_then_act facility d2 (resultData c2) c2 w2 = (Normal c4, w4)
    /\ compressionRatio percent c4 = lit "N/A".
Proof.
  intros Us P F C T H R.
  destruct (session_run facility d1 d2 s v c w Us P F C T H R)
    as (c2 & w2 & c4 & w4 & A1 & A2 & A3 & A4 & A5 & A6 & A7 & A8 & A9).
  exists c2, w2, c4, w4.
  split; [exact A1|]. split; [|split; [exact A6|]].
  - assert (NE : s <> []).
    { intros ->. destruct parse_empty as [m Pm]. congruence. }
    destruct (parsed_document s v P F Us) as [W U].
    assert (Sz : calculateByteSize (compressToBase64 (JSON.stringify v))
                 = N.of_nat (List.length
                               (compressToBase64 (JSON.stringify v)))).
    { assert (E : forall t, calculateByteSize t = utf8_length t)
        by (intros []; reflexivity).
      rewrite E. apply utf8_length_ascii.
      eapply Forall_impl; [|apply compressToBase64_alphabet].
      intros x Hx. apply base64_char_ascii. exact Hx. }
    unfold compressionRatio. rewrite A2, A4, A5, A3.
    replace (calculateByteSize s =? 0) with false
      by (symmetry; apply N.eqb_neq, calculateByteSize_positive; exact NE).
    replace (calculateByteSize (compressToBase64 (JSON.stringify v)) =? 0)
      with false
      by (symmetry; apply N.eqb_neq, calculateByteSize_positive,
            encoded_nonempty; exact U).
    cbn [orb negb]. rewrite Sz. reflexivity.
  - unfold compressionRatio. rewrite A7. cbn [negb].
    rewrite !orb_true_r. reflexivity.
Qed.

(** *** downloadFile *)

(** The file offered for download in a session: after the compress step it
    is 'compressed-data.txt' and holds the encoding; after the decompress
    step it is 'decompressed-data.json' and holds the pretty-printed
    text. *)
Theorem downloadFile_in_session (facility : workerFacility)
  (d1 d2 : jsstring) (s : jsstring) (v : JSON.value) (c : component)
  (w : world) :
  code_units s -> JSON.parse s = Normal v -> finite v ->
  JSON.is_composite v = true -> trim s = s ->
  world_ok w -> mode_runs facility (useWebWorker c) ->
  exists c2 w2 c4 w4,
    paste_then_act facility d1 s c w = (Normal c2, w2)
    /\ snd (downloadFile c2)
       = (lit "compressed-data.txt", compressToBase64 (JSON.stringify v))
    /\ paste_then_act facility d2 (resultData c2) c2 w2 = (Normal c4, w4)
    /\ snd (downloadFile c4)
       = (lit "decompressed-data.json", JSON.stringify_indent v 2).
Proof.
  intros Us P F C T H R.
  destruct (session_run facility d1 d2 s v c w Us P F C T H R)
    as (c2 & w2 & c4 & w4 & A1 & A2 & A3 & A4 & A5 & A6 & A7 & A8 & A9).
  exists c2, w2, c4, w4.
  split; [exact A1|]. split; [|split; [exact A6|]].
  - unfold downloadFile. cbn [snd resetError dataType resultData].
    rewrite A2, A3. reflexivity.
  - unfold downloadFile. cbn [snd resetError dataType resultData].
    rewrite A7, A8. reflexivity.
Qed.

End WithNumber.

Import IntegerNumber IntegerNumberFacts.

Lemma analyzeInput_tag_witness :
  fst (analyzeData (dataInput (set_dataInput scenarioA_text initial))
         initial_world) = Normal json
  /\ exists c',
       fst (analyzeInput (set_dataInput scenarioA_text initial)
              initial_world) = Normal c'
       /\ snd (analyzeInput (set_dataInput scenarioA_text initial)
                 initial_world)
          = snd (analyzeData
                   (dataInput (set_dataInput scenarioA_text initial))
                   initial_world)
       /\ dataType c' = json
       /\ originalSize c'
          = calculateByteSize
              (trim (dataInput (set_dataInput scenarioA_text initial)))
       /\ dataInput c' = dataInput (set_dataInput scenarioA_text initial)
       /\ resultData c' = resultData (set_dataInput scenarioA_text initial).
Proof.
  assert (A : fst (analyzeData
                     (dataInput (set_dataInput scenarioA_text initial))
                     initial_world) = Normal json) by reflexivity.
  split; [exact A|].
  exact (analyzeInput_tag (set_dataInput scenarioA_text initial)
           initial_world json A).
Defined.

(** A text that is neither JSON nor an encoding: the action fails and the
    component shows no message. *)
Lemma handleAction_rejected_witness :
  trim (dataInput (set_dataInput (lit "Q===") initial)) <> []
  /\ processDataAsync WorkerRuns
       (action_for (dataType (set_dataInput (lit "Q===") initial)))
       (dataInput (set_dataInput (lit "Q===") initial))
       (useWebWorker (set_dataInput (lit "Q===") initial)) initial_world
     = (Rejected JSON.syntaxError_end,
        snd (processDataAsync WorkerRuns decompress (lit "Q===") true
               initial_world))
  /\ errorMessage
       (fst (handleAction WorkerRuns (lit "0.10")
               (set_dataInput (lit "Q===") initial) initial_world))
     = None.
Proof.
  assert (B : trim (dataInput (set_dataInput (lit "Q===") initial)) <> [])
    by discriminate.
  assert (P : processDataAsync WorkerRuns
                (action_for (dataType (set_dataInput (lit "Q===") initial)))
                (dataInput (set_dataInput (lit "Q===") initial))
                (useWebWorker (set_dataInput (lit "Q===") initial))
                initial_world
              = (Rejected JSON.syntaxError_end,
                 snd (processDataAsync WorkerRuns decompress (lit "Q===")
                        true initial_world))) by reflexivity.
  split; [exact B|]. split; [exact P|].
  rewrite (handleAction_rejected WorkerRuns (lit "0.10")
             (set_dataInput (lit "Q===") initial) initial_world _ _ B P).
  reflexivity.
Defined.

Lemma paste_compress_paste_decompress_witness :
  code_units scenarioA_text
  /\ JSON.parse scenarioA_text = Normal scenarioA_value
  /\ finite scenarioA_value
  /\ JSON.is_composite scenarioA_value = true
  /\ trim scenarioA_text = scenarioA_text
  /\ world_ok initial_world
  /\ exists c2 w2 c4 w4,
       paste_then_act WorkerRuns (lit "0.10") scenarioA_text initial
         initial_world = (Normal c2, w2)
       /\ dataType c2 = json
       /\ resultData c2 = compressToBase64 (JSON.stringify scenarioA_value)
       /\ paste_then_act WorkerRuns (lit "0.20") (resultData c2) c2 w2
          = (Normal c4, w4)
       /\ dataType c4 = compressed
       /\ resultData c4 = JSON.stringify_indent scenarioA_value 2
       /\ errorMessage c4 = None.
Proof.
  assert (U : code_units scenarioA_text)
    by (apply code_units_check; reflexivity).
  assert (P : JSON.parse scenarioA_text = Normal scenarioA_value)
    by reflexivity.
  assert (F : finite scenarioA_value) by (cbn; repeat split; reflexivity).
  assert (C : JSON.is_composite scenarioA_value = true) by reflexivity.
  assert (T : trim scenarioA_text = scenarioA_text) by reflexivity.
  assert (H : world_ok initial_world) by (left; reflexivity).
  split; [exact U|]. split; [exact P|]. split; [exact F|].
  split; [exact C|]. split; [exact T|]. split; [exact H|].
  exact (paste_compress_paste_decompress WorkerRuns (lit "0.10")
           (lit "0.20") scenarioA_text scenarioA_value initial
           initial_world U P F C T H (or_intror eq_refl)).
Defined.

Lemma compressionRatio_in_session_witness :
  code_units scenarioA_text
  /\ JSON.parse scenarioA_text = Normal scenarioA_value
  /\ finite scenarioA_value
  /\ JSON.is_composite scenarioA_value = true
  /\ trim scenarioA_text = scenarioA_text
  /\ world_ok initial_world
  /\ exists c2 w2 c4 w4,
       paste_then_act WorkerRuns (lit "0.10") scenarioA_text initial
         initial_world = (Normal c2, w2)
       /\ compressionRatio (fun _ _ => lit "-77.78") c2
          = lit "-77.78" ++ lit "% reduction"
       /\ paste_then_act WorkerRuns (lit "0.20") (resultData c2) c2 w2
          = (Normal c4, w4)
       /\ compressionRatio (fun _ _ => lit "-77.78") c4 = lit "N/A".
Proof.
  assert (U : code_units scenarioA_text)
    by (apply code_units_check; reflexivity).
  assert (P : JSON.parse scenarioA_text = Normal scenarioA_value)
    by reflexivity.
  assert (F : finite scenarioA_value) by (cbn; repeat split; reflexivity).
  assert (C : JSON.is_composite scenarioA_value = true) by reflexivity.
  assert (T : trim scenarioA_text = scenarioA_text) by reflexivity.
  assert (H : world_ok initial_world) by (left; reflexivity).
  split; [exact U|]. split; [exact P|]. split; [exact F|].
  split; [exact C|]. split; [exact T|]. split; [exact H|].
  exact (compressionRatio_in_session WorkerRuns (fun _ _ => lit "-77.78")
           (lit "0.10") (lit "0.20") scenarioA_text scenarioA_value initial
           initial_world U P F C T H (or_intror eq_refl)).
Defined.

Lemma downloadFile_in_session_witness :
  code_units scenarioA_text
  /\ JSON.parse scenarioA_text = Normal scenarioA_value
  /\ finite scenarioA_value
  /\ JSON.is_composite scenarioA_value = true
  /\ trim scenarioA_text = scenarioA_text
  /\ world_ok initial_world
  /\ exists c2 w2 c4 w4,
       paste_then_act WorkerRuns (lit "0.10") scenarioA_text initial
         initial_world = (Normal c2, w2)
       /\ snd (downloadFile c2)
          = (lit "compressed-data.txt",
             compressToBase64 (JSON.stringify scenarioA_value))
       /\ paste_then_act WorkerRuns (lit "0.20") (resultData c2) c2 w2
          = (Normal c4, w4)
       /\ snd (downloadFile c4)
          = (lit "decompressed-data.json",
             JSON.stringify_indent scenarioA_value 2).
Proof.
  assert (U : code_units scenarioA_text)
    by (apply code_units_check; reflexivity).
  assert (P : JSON.parse scenarioA_text = Normal scenarioA_value)
    by reflexivity.
  assert (F : finite scenarioA_value) by (cbn; repeat split; reflexivity).
  assert (C : JSON.is_composite scenarioA_value = true) by reflexivity.
  assert (T : trim scenarioA_text = scenarioA_text) by reflexivity.
  assert (H : world_ok initial_world) by (left; reflexivity).
  split; [exact U|]. split; [exact P|]. split; [exact F|].
  split; [exact C|]. split; [exact T|]. split; [exact H|].
  exact (downloadFile_in_session WorkerRuns (lit "0.10") (lit "0.20")
           scenarioA_text scenarioA_value initial initial_world
           U P F C T H (or_intror eq_refl)).
Defined.

End ComponentProperties.
